(** * Reactive engine of lit-fx / kirei: dependency tracking, computed values,
      the deferred queue and the element instance layer.

    Embedded from
      - packages/fx/src/computed.ts        (computedGetter, computed; the
                                            release script that follows it:
                                            bumpVersion, bumpDependencies)
      - packages/element/src/instance.ts   (FxInstance, FxElement,
                                            collectStyles, normalizeOptions)
      - the props module                   (normalizeProps, propDefaults,
                                            validateProp)
      - packages/element/src/logging.ts    (KireiError, createStackTrace)
      - packages/html/src/parser.ts        (attrParser, textParser,
                                            addDirective, execDirective)
      - packages/babel-plugin/src/index.ts (the ImportDeclaration visitor)
    The modules fx.ts, ref.ts, reactive.ts and queue.ts are imported by these
    files but are not part of the sources; they are modelled from the
    specification (sections 4.1 to 4.4 and 7), each such definition says so. *)

From stdpp Require Import gmap strings list fin_maps pretty.
From Stdlib Require Import ZArith Ascii.

Local Open Scope string_scope.
Local Open Scope list_scope.
Local Open Scope nat_scope.

(** ** JavaScript values *)

(** Constructors whose [prototype] a value can have. *)
Inductive ctor :=
| CBoolean | CNumber | CString | CSymbol
| CObject | CArray | CFunction | CTemplateResult
| CClass (n : nat).

(** Values held in reactive cells.  Numbers are compared by numeric value, so
    they are integers here plus [VNaN], the one number that differs from
    itself.  Objects are references: [VObj c id] is the object [id] whose
    prototype is [c.prototype]; [VProxy c id] is its reactive wrapper. *)
Inductive value :=
| VUndef
| VNull
| VBool (b : bool)
| VNum (n : Z)
| VNaN
| VStr (s : string)
| VSym (id : nat)
| VObj (c : ctor) (id : nat)
| VProxy (c : ctor) (id : nat).

Global Instance ctor_eq_dec : EqDecision ctor.
Proof. solve_decision. Defined.

Global Instance value_eq_dec : EqDecision value.
Proof. solve_decision. Defined.

(** [a === b] *)
Definition strict_eq (a b : value) : bool :=
  match a with
  | VNaN => false
  | _ => bool_decide (a = b)
  end.

(** [a !== b] *)
Definition strict_neq (a b : value) : bool := negb (strict_eq a b).

(** [v == null] (loose): true of [null] and [undefined] only. *)
Definition is_nullish (v : value) : bool :=
  match v with
  | VUndef | VNull => true
  | _ => false
  end.

(** [typeof v == 'undefined'] *)
Definition is_undefined (v : value) : bool :=
  match v with
  | VUndef => true
  | _ => false
  end.

(** [isFunction] of the shared helpers: [typeof v == 'function']. *)
Definition isFunction (v : value) : bool :=
  match v with
  | VObj CFunction _ | VProxy CFunction _ => true
  | _ => false
  end.

(** [isObject] of the shared helpers: [v != null && typeof v == 'object'].
    The helper's tests accept plain objects, arrays and class instances and
    reject undefined, null, strings and symbols. *)
Definition isObject (v : value) : bool :=
  match v with
  | VObj c _ | VProxy c _ => negb (bool_decide (c = CFunction))
  | _ => false
  end.

(** [Object.getPrototypeOf(v) == t.prototype], for [v != null]. *)
Definition proto_of (v : value) : option ctor :=
  match v with
  | VUndef | VNull => None
  | VBool _ => Some CBoolean
  | VNum _ | VNaN => Some CNumber
  | VStr _ => Some CString
  | VSym _ => Some CSymbol
  | VObj c _ | VProxy c _ => Some c
  end.

(** [result instanceof TemplateResult] *)
Definition is_template (v : value) : bool :=
  match v with
  | VObj CTemplateResult _ | VProxy CTemplateResult _ => true
  | _ => false
  end.

(** Modelled from the spec: [toReactive] of reactive.ts, which is not among
    the sources.  Section 4.5: wrapping an object yields its one wrapper,
    wrapping a wrapper returns it unchanged; values that are not objects are
    stored as they are. *)
Definition toReactive (v : value) : value :=
  match v with
  | VObj c id => if bool_decide (c = CFunction) then v else VProxy c id
  | _ => v
  end.

(** Modelled from the spec: [toRaw] of reactive.ts, section 4.5. *)
Definition toRaw (v : value) : value :=
  match v with
  | VProxy c id => VObj c id
  | _ => v
  end.

(** ** Errors and results *)

Inductive exn :=
| TypeError (msg : string)
| Error (msg : string)
| KireiError (msg : string) (context : string)
| UserError (code : nat).

Global Instance exn_eq_dec : EqDecision exn.
Proof. solve_decision. Defined.

(** Outcome of running code: a value, a thrown exception, or the recursion
    budget of the interpreter was used up. *)
Inductive res (A : Type) :=
| Ok (a : A)
| Thrown (x : exn)
| OutOfFuel.

Arguments Ok {A} a.
Arguments Thrown {A} x.
Arguments OutOfFuel {A}.

(** [exception(message, context)] of the logging module: always throws. *)
Definition exception {A : Type} (message context : string) : res A :=
  Thrown (KireiError message context).

(** ** Targets, keys and ids *)

(** A target is an object identity; array-like targets are told apart because
    ADD on them also notifies the length key. *)
Inductive target :=
| TObject (id : nat)
| TArray (id : nat).

Global Instance target_eq_dec : EqDecision target.
Proof. solve_decision. Defined.

Global Instance target_countable : Countable target.
Proof.
  refine (inj_countable'
            (λ t, match t with TObject n => inl n | TArray n => inr n end)
            (λ x, match x with inl n => TObject n | inr n => TArray n end) _).
  by intros [].
Defined.

Definition is_array (t : target) : bool :=
  match t with
  | TArray _ => true
  | TObject _ => false
  end.

Abbreviation key := string (only parsing).
Abbreviation slot := (target * string)%type (only parsing).
Abbreviation fxid := nat (only parsing).
Abbreviation cid := nat (only parsing).
Abbreviation jobid := nat (only parsing).
Abbreviation iid := nat (only parsing).
Abbreviation fnid := nat (only parsing).

Inductive TriggerOpTypes := SET | ADD | DELETE | CLEAR.

(** ** User code

    A function supplied by the application (a getter, an effect body, a
    setup or render function, a hook, a queued job) is a finite tree of the
    engine operations it performs, branching on the values it reads. *)
Inductive prog :=
| Ret (v : value)
| Throw (x : exn)
| Track (sl : slot) (k : prog)
| Trigger (sl : slot) (op : TriggerOpTypes) (k : prog)
| Load (sl : slot) (k : value → prog)
| Store (sl : slot) (v : value) (k : prog)
| ReadComputed (c : cid) (k : value → prog)
| RunFx (e : fxid) (k : value → prog)
| StopFx (e : fxid) (k : prog)
| QueuePush (j : jobid) (k : prog).

(** A reactive read [target[key]] through a wrapper or a ref. *)
Definition Get (sl : slot) (k : value → prog) : prog := Track sl (Load sl k).

(** A reactive write that always notifies, as the props proxy does. *)
Definition Put (sl : slot) (v : value) (k : prog) : prog :=
  Store sl v (Trigger sl SET k).

(** ** Records of the engine *)

(** What a scheduler closure does when [trigger] hands it the effect. *)
Inductive Scheduler :=
| SchedDirty (c : cid)
| SchedInstance (i : iid)
| SchedUser (p : prog).

(** The function an [Fx] wraps: a function value, or [this.update.bind(this)]
    of an instance. *)
Inductive FxFn :=
| FnValue (f : value)
| FnUpdate (i : iid).

(** Modelled from the spec: the [Fx] object of fx.ts, section 3. *)
Record Fx := {
  fx_raw : FxFn;
  fx_lazy : bool;
  fx_computed : bool;
  fx_scheduler : option Scheduler;
  fx_deps : list slot;
  fx_active : bool;
  fx_allowRecurse : bool
}.

(** The closure variables of [computedGetter], and the [set] that [computed]
    hands to [createRef] with it. *)
Record Computed := {
  c_value : value;
  c_dirty : bool;
  c_fx : fxid;
  c_set : value
}.

(** A normalized prop of the props module. *)
Record NormalizedProp := {
  p_type : option (list ctor);
  p_required : bool;
  p_validator : option (value → bool);
  p_cast : bool
}.

(** The hook names of the shared helpers; only their being distinct matters. *)
Inductive HookTypes :=
| BEFORE_MOUNT | MOUNT | BEFORE_UPDATE | UPDATE | BEFORE_UNMOUNT | UNMOUNT.

(** The fields of [FxInstance] the engine touches. *)
Record Instance := {
  i_name : string;
  i_fx : fxid;
  i_props : gmap string NormalizedProp;
  i_propsData : target;
  i_setup : prog;
  i_hooks : HookTypes → list value;
  i_renderTemplate : value;
  i_rendering : bool;
  i_mounted : bool
}.

(** The identity of a job on the queue: a function of the application, or
    one of the closures that [scheduleUpdate] creates (a new one each call,
    told apart by a serial number). *)
Inductive jobref :=
| UserJob (j : jobid)
| RenderJob (i : iid) (serial : nat).

Global Instance jobref_eq_dec : EqDecision jobref.
Proof. solve_decision. Defined.

Global Instance jobref_countable : Countable jobref.
Proof.
  refine (inj_countable'
            (λ j, match j with UserJob n => inl n | RenderJob i n => inr (i, n) end)
            (λ x, match x with inl n => UserJob n | inr (i, n) => RenderJob i n end) _).
  by intros [].
Defined.

(** Observable steps, newest first in [trace]; nothing reads the trace. *)
Inductive event :=
| EvExec (e : fxid)
| EvSched (e : fxid)
| EvTrigger (t : target) (op : TriggerOpTypes) (k : string)
| EvJob (j : jobref)
| EvReport (x : exn)
| EvRender (i : iid).

Global Instance op_eq_dec : EqDecision TriggerOpTypes.
Proof. solve_decision. Defined.

Global Instance event_eq_dec : EqDecision event.
Proof. solve_decision. Defined.

Record State := {
  registry : gmap slot (list fxid);
  effects : gmap fxid Fx;
  fxStack : list fxid;
  paused : nat;
  heap : gmap slot value;
  funs : gmap fnid (value → prog);
  computeds : gmap cid Computed;
  instances : gmap iid Instance;
  activeInstance : option iid;
  queue : list jobref;
  pending : gset jobref;
  flushing : bool;
  flushScheduled : bool;
  jobs : gmap jobid prog;
  renders : nat;
  trace : list event
}.

Definition set_registry (f : gmap slot (list fxid) → gmap slot (list fxid)) (s : State) : State :=
  {| registry := f (registry s); effects := effects s; fxStack := fxStack s;
     paused := paused s; heap := heap s; funs := funs s; computeds := computeds s;
     instances := instances s; activeInstance := activeInstance s; queue := queue s;
     pending := pending s; flushing := flushing s; flushScheduled := flushScheduled s;
     jobs := jobs s; renders := renders s; trace := trace s |}.

Definition set_effects (f : gmap fxid Fx → gmap fxid Fx) (s : State) : State :=
  {| registry := registry s; effects := f (effects s); fxStack := fxStack s;
     paused := paused s; heap := heap s; funs := funs s; computeds := computeds s;
     instances := instances s; activeInstance := activeInstance s; queue := queue s;
     pending := pending s; flushing := flushing s; flushScheduled := flushScheduled s;
     jobs := jobs s; renders := renders s; trace := trace s |}.

Definition set_fxStack (f : list fxid → list fxid) (s : State) : State :=
  {| registry := registry s; effects := effects s; fxStack := f (fxStack s);
     paused := paused s; heap := heap s; funs := funs s; computeds := computeds s;
     instances := instances s; activeInstance := activeInstance s; queue := queue s;
     pending := pending s; flushing := flushing s; flushScheduled := flushScheduled s;
     jobs := jobs s; renders := renders s; trace := trace s |}.

Definition set_paused (f : nat → nat) (s : State) : State :=
  {| registry := registry s; effects := effects s; fxStack := fxStack s;
     paused := f (paused s); heap := heap s; funs := funs s; computeds := computeds s;
     instances := instances s; activeInstance := activeInstance s; queue := queue s;
     pending := pending s; flushing := flushing s; flushScheduled := flushScheduled s;
     jobs := jobs s; renders := renders s; trace := trace s |}.

Definition set_heap (f : gmap slot value → gmap slot value) (s : State) : State :=
  {| registry := registry s; effects := effects s; fxStack := fxStack s;
     paused := paused s; heap := f (heap s); funs := funs s; computeds := computeds s;
     instances := instances s; activeInstance := activeInstance s; queue := queue s;
     pending := pending s; flushing := flushing s; flushScheduled := flushScheduled s;
     jobs := jobs s; renders := renders s; trace := trace s |}.

Definition set_computeds (f : gmap cid Computed → gmap cid Computed) (s : State) : State :=
  {| registry := registry s; effects := effects s; fxStack := fxStack s;
     paused := paused s; heap := heap s; funs := funs s; computeds := f (computeds s);
     instances := instances s; activeInstance := activeInstance s; queue := queue s;
     pending := pending s; flushing := flushing s; flushScheduled := flushScheduled s;
     jobs := jobs s; renders := renders s; trace := trace s |}.

Definition set_instances (f : gmap iid Instance → gmap iid Instance) (s : State) : State :=
  {| registry := registry s; effects := effects s; fxStack := fxStack s;
     paused := paused s; heap := heap s; funs := funs s; computeds := computeds s;
     instances := f (instances s); activeInstance := activeInstance s; queue := queue s;
     pending := pending s; flushing := flushing s; flushScheduled := flushScheduled s;
     jobs := jobs s; renders := renders s; trace := trace s |}.

Definition set_activeInstance (a : option iid) (s : State) : State :=
  {| registry := registry s; effects := effects s; fxStack := fxStack s;
     paused := paused s; heap := heap s; funs := funs s; computeds := computeds s;
     instances := instances s; activeInstance := a; queue := queue s;
     pending := pending s; flushing := flushing s; flushScheduled := flushScheduled s;
     jobs := jobs s; renders := renders s; trace := trace s |}.

Definition set_queue (f : list jobref → list jobref) (s : State) : State :=
  {| registry := registry s; effects := effects s; fxStack := fxStack s;
     paused := paused s; heap := heap s; funs := funs s; computeds := computeds s;
     instances := instances s; activeInstance := activeInstance s; queue := f (queue s);
     pending := pending s; flushing := flushing s; flushScheduled := flushScheduled s;
     jobs := jobs s; renders := renders s; trace := trace s |}.

Definition set_pending (f : gset jobref → gset jobref) (s : State) : State :=
  {| registry := registry s; effects := effects s; fxStack := fxStack s;
     paused := paused s; heap := heap s; funs := funs s; computeds := computeds s;
     instances := instances s; activeInstance := activeInstance s; queue := queue s;
     pending := f (pending s); flushing := flushing s; flushScheduled := flushScheduled s;
     jobs := jobs s; renders := renders s; trace := trace s |}.

Definition set_flushing (b : bool) (s : State) : State :=
  {| registry := registry s; effects := effects s; fxStack := fxStack s;
     paused := paused s; heap := heap s; funs := funs s; computeds := computeds s;
     instances := instances s; activeInstance := activeInstance s; queue := queue s;
     pending := pending s; flushing := b; flushScheduled := flushScheduled s;
     jobs := jobs s; renders := renders s; trace := trace s |}.

Definition set_flushScheduled (b : bool) (s : State) : State :=
  {| registry := registry s; effects := effects s; fxStack := fxStack s;
     paused := paused s; heap := heap s; funs := funs s; computeds := computeds s;
     instances := instances s; activeInstance := activeInstance s; queue := queue s;
     pending := pending s; flushing := flushing s; flushScheduled := b;
     jobs := jobs s; renders := renders s; trace := trace s |}.

Definition set_jobs (f : gmap jobid prog → gmap jobid prog) (s : State) : State :=
  {| registry := registry s; effects := effects s; fxStack := fxStack s;
     paused := paused s; heap := heap s; funs := funs s; computeds := computeds s;
     instances := instances s; activeInstance := activeInstance s; queue := queue s;
     pending := pending s; flushing := flushing s; flushScheduled := flushScheduled s;
     jobs := f (jobs s); renders := renders s; trace := trace s |}.

Definition set_renders (f : nat → nat) (s : State) : State :=
  {| registry := registry s; effects := effects s; fxStack := fxStack s;
     paused := paused s; heap := heap s; funs := funs s; computeds := computeds s;
     instances := instances s; activeInstance := activeInstance s; queue := queue s;
     pending := pending s; flushing := flushing s; flushScheduled := flushScheduled s;
     jobs := jobs s; renders := f (renders s); trace := trace s |}.

Definition log (ev : event) (s : State) : State :=
  {| registry := registry s; effects := effects s; fxStack := fxStack s;
     paused := paused s; heap := heap s; funs := funs s; computeds := computeds s;
     instances := instances s; activeInstance := activeInstance s; queue := queue s;
     pending := pending s; flushing := flushing s; flushScheduled := flushScheduled s;
     jobs := jobs s; renders := renders s; trace := ev :: trace s |}.

Definition fx_with_deps (d : list slot) (f : Fx) : Fx :=
  {| fx_raw := fx_raw f; fx_lazy := fx_lazy f; fx_computed := fx_computed f;
     fx_scheduler := fx_scheduler f; fx_deps := d; fx_active := fx_active f;
     fx_allowRecurse := fx_allowRecurse f |}.

Definition fx_with_active (a : bool) (f : Fx) : Fx :=
  {| fx_raw := fx_raw f; fx_lazy := fx_lazy f; fx_computed := fx_computed f;
     fx_scheduler := fx_scheduler f; fx_deps := fx_deps f; fx_active := a;
     fx_allowRecurse := fx_allowRecurse f |}.

Definition c_with_dirty (d : bool) (c : Computed) : Computed :=
  {| c_value := c_value c; c_dirty := d; c_fx := c_fx c; c_set := c_set c |}.

Definition c_with_value (v : value) (c : Computed) : Computed :=
  {| c_value := v; c_dirty := c_dirty c; c_fx := c_fx c; c_set := c_set c |}.

Definition i_with_rendering (b : bool) (i : Instance) : Instance :=
  {| i_name := i_name i; i_fx := i_fx i; i_props := i_props i;
     i_propsData := i_propsData i; i_setup := i_setup i; i_hooks := i_hooks i;
     i_renderTemplate := i_renderTemplate i; i_rendering := b;
     i_mounted := i_mounted i |}.

Definition i_with_mounted (b : bool) (i : Instance) : Instance :=
  {| i_name := i_name i; i_fx := i_fx i; i_props := i_props i;
     i_propsData := i_propsData i; i_setup := i_setup i; i_hooks := i_hooks i;
     i_renderTemplate := i_renderTemplate i; i_rendering := i_rendering i;
     i_mounted := b |}.

Definition i_with_renderTemplate (v : value) (i : Instance) : Instance :=
  {| i_name := i_name i; i_fx := i_fx i; i_props := i_props i;
     i_propsData := i_propsData i; i_setup := i_setup i; i_hooks := i_hooks i;
     i_renderTemplate := v; i_rendering := i_rendering i;
     i_mounted := i_mounted i |}.

(** Code that runs user code gets the interpreter for nested calls. *)
Definition runner : Type := prog → State → res value * State.

Definition bind {A B : Type} (m : res A * State) (k : A → State → res B * State) : res B * State :=
  match m with
  | (Ok a, s) => k a s
  | (Thrown x, s) => (Thrown x, s)
  | (OutOfFuel, s) => (OutOfFuel, s)
  end.

Definition c_with_set (v : value) (c : Computed) : Computed :=
  {| c_value := c_value c; c_dirty := c_dirty c; c_fx := c_fx c; c_set := v |}.

Definition c_recomputed (v : value) (c : Computed) : Computed :=
  c_with_dirty false (c_with_value v c).

(** ** Dependency registry and tracking context *)

(** The Dep of a (target, key) pair: an insertion-ordered set of effects. *)
Definition dep_of (s : State) (sl : slot) : list fxid :=
  default [] (registry s !! sl).

Definition deps_of (s : State) (e : fxid) : list slot :=
  from_option fx_deps [] (effects s !! e).

Definition activeFx (s : State) : option fxid := head (fxStack s).

Definition heap_get (s : State) (sl : slot) : value :=
  default VUndef (heap s !! sl).

(** [Set.prototype.add] and [Set.prototype.delete] on a Dep. *)
Definition dep_add (e : fxid) (d : list fxid) : list fxid :=
  if bool_decide (e ∈ d) then d else d ++ [e].

Definition dep_delete (e : fxid) (d : list fxid) : list fxid :=
  filter (λ x, x ≠ e) d.

(** [if (!dep.has(fx)) { dep.add(fx); fx.deps.push(dep); }]: the body of the
    loop of [computedGetter] (computed.ts, lines 37 to 40), and the
    subscription step of [track]. *)
Definition subscribe (e : fxid) (sl : slot) (s : State) : State :=
  if bool_decide (e ∈ dep_of s sl) then s
  else set_effects (alter (λ f, fx_with_deps (fx_deps f ++ [sl]) f) e)
         (set_registry (<[sl := dep_of s sl ++ [e]]>) s).

(** Modelled from the spec: [Fx.pauseTracking] and [Fx.resetTracking] of
    fx.ts, a counter (sections 3 and 6: N pauses require N resumes). *)
Definition pauseTracking (s : State) : State := set_paused S s.

Definition resetTracking (s : State) : State := set_paused pred s.

(** Modelled from the spec: [Fx.track] of fx.ts, section 4.1. *)
Definition track (sl : slot) (s : State) : State :=
  if bool_decide (0 < paused s) then s
  else match activeFx s with
       | None => s
       | Some e => subscribe e sl s
       end.

(** Modelled from the spec: the cleanup at the start of [run] and in [stop],
    section 4.2: remove the effect from each of its Deps, clear its deps. *)
Definition cleanup (e : fxid) (s : State) : State :=
  match effects s !! e with
  | None => s
  | Some f =>
      set_effects (<[e := fx_with_deps [] f]>)
        (set_registry (λ r, foldr (λ sl r', alter (dep_delete e) sl r') r (fx_deps f)) s)
  end.

(** Modelled from the spec: [stop], section 4.2. *)
Definition fx_stop (e : fxid) (s : State) : State :=
  set_effects (alter (fx_with_active false) e) (cleanup e s).

(** The code of a function value, if it is one. *)
Definition fn_body (s : State) (f : value) : option (value → prog) :=
  match f with
  | VObj CFunction id | VProxy CFunction id => funs s !! id
  | _ => None
  end.

(** Calling a function value with one argument. *)
Definition call_value (R : runner) (f arg : value) (s : State) : res value * State :=
  match fn_body s f with
  | Some body => R (body arg) s
  | None => (Thrown (TypeError "not a function"), s)
  end.

(** [FxInstance.update] (instance.ts, lines 206 to 220); the DOM work of
    [render] is an event of the trace. *)
Definition update (R : runner) (i : iid) (s : State) : res value * State :=
  match instances s !! i with
  | None => (Thrown (TypeError "no instance"), s)
  | Some inst =>
      bind (call_value R (i_renderTemplate inst) VUndef s) (λ result s1,
        if is_template result then (Ok VUndef, log (EvRender i) s1)
        else (exception "Setup must return a function that returns a TemplateResult"
                (i_name inst +:+ "#setup"), s1))
  end.

Definition call_raw (R : runner) (fn : FxFn) (s : State) : res value * State :=
  match fn with
  | FnValue f => call_value R f VUndef s
  | FnUpdate i => update R i s
  end.

(** Modelled from the spec: [run] of fx.ts, section 4.2.  A stopped effect
    returns undefined; otherwise the deps are cleaned up, the effect becomes
    the active one, the wrapped function runs, and the stack is popped on
    every exit path. *)
Definition fx_run (R : runner) (e : fxid) (s : State) : res value * State :=
  match effects s !! e with
  | None => (Ok VUndef, s)
  | Some f =>
      if fx_active f then
        let s1 := log (EvExec e) (set_fxStack (cons e) (cleanup e s)) in
        let '(r, s2) := call_raw R (fx_raw f) s1 in
        (r, set_fxStack tail s2)
      else (Ok VUndef, s)
  end.

(** ** Deferred task queue *)

(** Modelled from the spec: [Queue.push] of queue.ts, section 4.4. *)
Definition queue_push (j : jobref) (s : State) : State :=
  if bool_decide (j ∈ pending s) then s
  else
    let s1 := set_pending (λ p, {[j]} ∪ p) (set_queue (λ q, q ++ [j]) s) in
    if flushing s then s1 else set_flushScheduled true s1.

(** [FxInstance.scheduleUpdate] (instance.ts, lines 181 to 199): the closure
    it pushes is a new job every time. *)
Definition scheduleUpdate (i : iid) (s : State) : State :=
  match instances s !! i with
  | None => s
  | Some inst =>
      if i_rendering inst then s
      else
        queue_push (RenderJob i (renders s))
          (set_renders S
             (set_instances (<[i := i_with_rendering true inst]>) s))
  end.

(** ** Trigger *)

Definition run_scheduler (R : runner) (sch : Scheduler) (s : State) : res value * State :=
  match sch with
  | SchedDirty c => (Ok VUndef, set_computeds (alter (c_with_dirty true) c) s)
  | SchedInstance i => (Ok VUndef, scheduleUpdate i s)
  | SchedUser p => R p s
  end.

(** Every Dep owned by a target, for CLEAR. *)
Definition target_deps (s : State) (t : target) : list fxid :=
  concat (map snd (filter (λ kv : slot * list fxid, kv.1.1 = t) (map_to_list (registry s)))).

(** Union into one run-set, in order of first occurrence. *)
Definition dedup (l : list fxid) : list fxid :=
  foldl (λ acc e, dep_add e acc) [] l.

Definition run_set (s : State) (sl : slot) (op : TriggerOpTypes) : list fxid :=
  dedup match op with
        | CLEAR => target_deps s sl.1
        | ADD => dep_of s sl ++ (if is_array sl.1 then dep_of s (sl.1, "length") else [])
        | SET | DELETE => dep_of s sl
        end.

(** Dispatch to one effect of the run-set. *)
Definition notify (R : runner) (e : fxid) (s : State) : res value * State :=
  match effects s !! e with
  | None => (Ok VUndef, s)
  | Some f =>
      if fx_active f then
        match fx_scheduler f with
        | Some sch => run_scheduler R sch (log (EvSched e) s)
        | None =>
            if bool_decide (activeFx s = Some e) && negb (fx_allowRecurse f)
            then (Ok VUndef, s)
            else fx_run R e s
        end
      else (Ok VUndef, s)
  end.

Fixpoint dispatch (R : runner) (es : list fxid) (s : State) : res value * State :=
  match es with
  | [] => (Ok VUndef, s)
  | e :: es' => bind (notify R e s) (λ _ s', dispatch R es' s')
  end.

(** Modelled from the spec: [Fx.trigger] of fx.ts, section 4.1. *)
Definition trigger (R : runner) (sl : slot) (op : TriggerOpTypes) (s : State) : res value * State :=
  dispatch R (run_set s sl op) (log (EvTrigger sl.1 op sl.2) s).

(** ** Computed values (computed.ts) *)

(** The closure returned by [computedGetter] (lines 28 to 45). *)
Definition computed_read (R : runner) (c : cid) (s : State) : res value * State :=
  match computeds s !! c with
  | None => (Thrown (TypeError "no computed"), s)
  | Some cell =>
      bind (if c_dirty cell
            then bind (fx_run R (c_fx cell) s) (λ v s1,
                   (Ok VUndef, set_computeds (alter (c_recomputed v) c) s1))
            else (Ok VUndef, s))
        (λ _ s2,
           let s3 := match activeFx s2 with
                     | Some a => foldl (λ st sl, subscribe a sl st) s2 (deps_of s2 (c_fx cell))
                     | None => s2
                     end in
           (Ok (from_option c_value VUndef (computeds s3 !! c)), s3))
  end.

(** [computedGetter] (lines 20 to 27): the closure variables and the lazy
    effect whose scheduler sets [dirty]. *)
Definition computedGetter (tgt : value) (s : State) : cid * State :=
  let e := fresh (dom (effects s)) in
  let c := fresh (dom (computeds s)) in
  (c, set_computeds (<[c := {| c_value := VUndef; c_dirty := true; c_fx := e; c_set := VUndef |}]>)
        (set_effects (<[e := {| fx_raw := FnValue tgt; fx_lazy := true; fx_computed := false;
                                fx_scheduler := Some (SchedDirty c); fx_deps := [];
                                fx_active := true; fx_allowRecurse := false |}]>) s)).

(** The target an object value denotes. *)
Definition target_of (v : value) : option target :=
  match v with
  | VObj CArray id | VProxy CArray id => Some (TArray id)
  | VObj _ id | VProxy _ id => Some (TObject id)
  | _ => None
  end.

(** [v.k]: a property read, tracked when [v] is a reactive wrapper. *)
Definition member (v : value) (k : string) (s : State) : value * State :=
  match target_of v with
  | None => (VUndef, s)
  | Some t =>
      match v with
      | VProxy _ _ => (heap_get s (t, k), track (t, k) s)
      | _ => (heap_get s (t, k), s)
      end
  end.

(** [computed] (lines 53 to 67). *)
Definition computed (tgt : value) (s : State) : res cid * State :=
  if isFunction tgt then
    let '(c, s1) := computedGetter tgt s in (Ok c, s1)
  else if isObject tgt then
    let '(g, s1) := member tgt "get" s in
    let '(c, s2) := computedGetter g s1 in
    let '(st, s3) := member tgt "set" s2 in
    (Ok c, set_computeds (alter (c_with_set st) c) s3)
  else (Thrown (TypeError "Not a valid target"), s).

(** Modelled from the spec: the [value] setter that [createRef] of ref.ts
    builds from [{ get, set }], section 4.3: with a setter the write delegates
    to it, without one the write is an error. *)
Definition computed_write (R : runner) (c : cid) (v : value) (s : State) : res value * State :=
  match computeds s !! c with
  | None => (Thrown (TypeError "no computed"), s)
  | Some cell =>
      if isFunction (c_set cell) then call_value R (c_set cell) v s
      else (Thrown (TypeError "Computed value is read-only"), s)
  end.

(** ** Interpreter of user code *)

Fixpoint step (R : runner) (p : prog) (s : State) : res value * State :=
  match p with
  | Ret v => (Ok v, s)
  | Throw x => (Thrown x, s)
  | Track sl k => step R k (track sl s)
  | Trigger sl op k => bind (trigger R sl op s) (λ _ s', step R k s')
  | Load sl k => step R (k (heap_get s sl)) s
  | Store sl v k => step R k (set_heap (<[sl := v]>) s)
  | ReadComputed c k => bind (computed_read R c s) (λ v s', step R (k v) s')
  | RunFx e k => bind (fx_run R e s) (λ v s', step R (k v) s')
  | StopFx e k => step R k (fx_stop e s)
  | QueuePush j k => step R k (queue_push (UserJob j) s)
  end.

(** Each nested call of user code (an effect run by a trigger, a getter run
    by a read) uses one unit of [fuel]. *)
Fixpoint exec (fuel : nat) : runner :=
  match fuel with
  | 0 => λ _ s, (OutOfFuel, s)
  | S f => step (exec f)
  end.

(** ** The instance layer (instance.ts) *)

(** [FxInstance.runHooks] (lines 163 to 173): each hook runs between
    [pauseTracking] and [resetTracking]. *)
Fixpoint run_hook_fns (R : runner) (fns : list value) (s : State) : res value * State :=
  match fns with
  | [] => (Ok VUndef, s)
  | fn :: rest =>
      bind (if isFunction fn then call_value R fn VUndef (pauseTracking s)
            else (Ok VUndef, pauseTracking s))
        (λ _ s1, run_hook_fns R rest (resetTracking s1))
  end.

Definition runHooks (R : runner) (i : iid) (hook : HookTypes) (s : State) : res value * State :=
  match instances s !! i with
  | None => (Thrown (TypeError "no instance"), s)
  | Some inst => run_hook_fns R (i_hooks inst hook) s
  end.

(** The closure that [scheduleUpdate] pushes (lines 187 to 198). *)
Definition render_job (R : runner) (i : iid) (s : State) : res value * State :=
  match instances s !! i with
  | None => (Thrown (TypeError "no instance"), s)
  | Some inst =>
      bind (if i_mounted inst
            then bind (runHooks R i BEFORE_UPDATE s) (λ _ s1,
                 bind (fx_run R (i_fx inst) s1) (λ _ s2,
                   runHooks R i UPDATE s2))
            else bind (fx_run R (i_fx inst) s) (λ _ s1,
                   (Ok VUndef, set_instances (alter (i_with_mounted true) i) s1)))
        (λ _ s3, (Ok VUndef, set_instances (alter (i_with_rendering false) i) s3))
  end.

(** [FxInstance.setup] (lines 116 to 155).  The props proxy handed to the
    setup function is what its [Get] and [Put] operations on the props data
    go through; style shimming is DOM work and is left out. *)
Definition setup (R : runner) (i : iid) (s : State) : res value * State :=
  match instances s !! i with
  | None => (Thrown (TypeError "no instance"), s)
  | Some inst =>
      bind (R (i_setup inst) (pauseTracking s)) (λ rt s1,
        let s2 := set_activeInstance None
                    (resetTracking
                       (set_instances (alter (i_with_renderTemplate rt) i) s1)) in
        if isFunction rt then (Ok VUndef, s2)
        else (exception "Setup must return a function that returns a TemplateResult"
                (i_name inst +:+ "#setup"), s2))
  end.

(** ** Props (the props module) *)

(** The coercions of the host language that the casting branch uses:
    unary plus, and loose equality with a string. *)
Record Host := {
  toNumber : value → value;
  looseEqStr : value → string → bool
}.

(** The casting branch of [validateProp]. *)
Definition cast_value (H : Host) (ty : option (list ctor)) (v : value) : res value :=
  match ty with
  | None => Thrown (TypeError "Cannot read properties of null")
  | Some ts =>
      match head ts with
      | Some CBoolean =>
          if is_nullish v || looseEqStr H v "false" then Ok (VBool false)
          else if strict_eq v (VStr "") || looseEqStr H v "true" then Ok (VBool true)
          else Ok v
      | Some CNumber =>
          match toNumber H v with
          | VNaN => Ok v
          | n => Ok n
          end
      | _ => Ok v
      end
  end.

(** [validateProp(props, key, value)]. *)
Definition validateProp (H : Host) (props : gmap string NormalizedProp) (k : string)
    (v : value) : res value :=
  match props !! k with
  | None => Thrown (TypeError "Cannot destructure undefined")
  | Some p =>
      let type_ok :=
        if is_nullish v then Ok true
        else match p_type p with
             | None => Thrown (TypeError "Cannot read properties of null")
             | Some ts => Ok (existsb (λ t, bool_decide (proto_of v = Some t)) ts)
             end in
      match type_ok with
      | Ok false => Thrown (Error ("Type error in prop '" +:+ k +:+ "'."))
      | Ok true =>
          if p_required p && is_undefined v
          then Thrown (Error ("Value required in prop '" +:+ k +:+ "'."))
          else if match p_validator p with
                  | Some f => negb (f v)
                  | None => false
                  end
          then Thrown (Error ("Validation error in prop '" +:+ k +:+ "'."))
          else if p_cast p then cast_value H (p_type p) v
          else Ok v
      | Thrown x => Thrown x
      | OutOfFuel => OutOfFuel
      end
  end.

(** The accessors that the [FxElement] constructor defines for every prop
    (lines 250 to 262). *)
Definition prop_get (i : iid) (k : string) (s : State) : res value * State :=
  match instances s !! i with
  | None => (Thrown (TypeError "no instance"), s)
  | Some inst =>
      let s1 := track (i_propsData inst, k) s in
      (Ok (heap_get s1 (i_propsData inst, k)), s1)
  end.

Definition prop_set (H : Host) (R : runner) (i : iid) (k : string) (newValue : value)
    (s : State) : res value * State :=
  match instances s !! i with
  | None => (Thrown (TypeError "no instance"), s)
  | Some inst =>
      if strict_neq newValue (heap_get s (i_propsData inst, k)) then
        match validateProp H (i_props inst) k newValue with
        | Ok v =>
            trigger R (i_propsData inst, k) SET
              (set_heap (<[(i_propsData inst, k) := toReactive v]>) s)
        | Thrown x => (Thrown x, s)
        | OutOfFuel => (OutOfFuel, s)
        end
      else (Ok VUndef, s)
  end.

(** The [set] trap of the props proxy that [setup] builds (lines 125 to 133):
    no comparison, the event dispatch on the element is left out. *)
Definition proxy_set (R : runner) (i : iid) (k : string) (v : value) (s : State) : res value * State :=
  match instances s !! i with
  | None => (Thrown (TypeError "no instance"), s)
  | Some inst =>
      trigger R (i_propsData inst, k) SET (set_heap (<[(i_propsData inst, k) := v]>) s)
  end.

(** ** Refs *)

Definition ref_slot (r : nat) : slot := (TObject r, "value").

(** Modelled from the spec: reading a ref of ref.ts, section 4.3. *)
Definition ref_get (r : nat) (s : State) : res value * State :=
  let s1 := track (ref_slot r) s in (Ok (heap_get s1 (ref_slot r)), s1).

(** Modelled from the spec: writing a ref of ref.ts, section 4.3: compare,
    and if unequal store the wrapped value and trigger SET on "value". *)
Definition ref_set (R : runner) (r : nat) (newValue : value) (s : State) : res value * State :=
  if strict_neq newValue (heap_get s (ref_slot r)) then
    trigger R (ref_slot r) SET (set_heap (<[ref_slot r := toReactive newValue]>) s)
  else (Ok VUndef, s).

(** ** Flushing the queue *)

Definition run_job (R : runner) (j : jobref) (s : State) : res value * State :=
  match j with
  | UserJob n =>
      match jobs s !! n with
      | Some p => R p s
      | None => (Thrown (TypeError "not a function"), s)
      end
  | RenderJob i _ => render_job R i s
  end.

(** Modelled from the spec: the loop of [flush] of queue.ts, sections 4.4 and
    7.  The index walks the sequence, which jobs may extend; the pending flag
    of a job is cleared before it runs; an error of a job is reported and the
    loop goes on; [budget] is what is left of the iteration limit, and
    running out of it is the update loop error. *)
Fixpoint flush_loop (R : runner) (budget : nat) (idx : nat) (s : State) : res value * State :=
  match queue s !! idx with
  | None => (Ok VUndef, set_flushing false (set_queue (λ _, []) s))
  | Some j =>
      match budget with
      | 0 => (Thrown (Error "update loop"), log (EvReport (Error "update loop")) s)
      | S b =>
          match run_job R j (log (EvJob j) (set_pending (λ p, p ∖ {[j]}) s)) with
          | (Ok _, s1) => flush_loop R b (S idx) s1
          | (Thrown x, s1) => flush_loop R b (S idx) (log (EvReport x) s1)
          | (OutOfFuel, s1) => (OutOfFuel, s1)
          end
      end
  end.

(** Modelled from the spec: [flush] of queue.ts, section 4.4. *)
Definition flush (R : runner) (limit : nat) (s : State) : res value * State :=
  flush_loop R limit 0 (set_flushScheduled false (set_flushing true s)).

(** ** Atomic transitions

    Every state change that running user code can cause is one of these. *)
Inductive prim : State → State → Prop :=
| prim_track sl s : prim s (track sl s)
| prim_store sl v s : prim s (set_heap (<[sl := v]>) s)
| prim_stop e s : prim s (fx_stop e s)
| prim_push j s : prim s (queue_push (UserJob j) s)
| prim_log ev s : prim s (log ev s)
| prim_dirty c s : prim s (set_computeds (alter (c_with_dirty true) c) s)
| prim_schedule i s : prim s (scheduleUpdate i s)
| prim_enter e f s :
    effects s !! e = Some f →
    prim s (log (EvExec e) (set_fxStack (cons e) (cleanup e s)))
| prim_leave s : prim s (set_fxStack tail s)
| prim_recomputed c v s : prim s (set_computeds (alter (c_recomputed v) c) s)
| prim_subscribe a sl s : activeFx s = Some a → prim s (subscribe a sl s).

(** A runner all of whose runs are sequences of atomic transitions. *)
Definition sound (R : runner) : Prop := ∀ p s, rtc prim s (R p s).2.

(** A runner that leaves the stack of active effects as it found it. *)
Definition balanced (R : runner) : Prop := ∀ p s, fxStack (R p s).2 = fxStack s.

(** ** Well-formed bookkeeping

    A Dep is a set, the Deps and the deps lists mirror each other, and the
    effects on the stack exist. *)
Record wf (s : State) : Prop := {
  wf_nodup : ∀ sl, NoDup (dep_of s sl);
  wf_mirror : ∀ e sl, e ∈ dep_of s sl ↔ sl ∈ deps_of s e;
  wf_deps_nodup : ∀ e, NoDup (deps_of s e);
  wf_stack : ∀ e, e ∈ fxStack s → is_Some (effects s !! e)
}.

(** ** Vocabulary of the statements *)

(** User code that only reads reactive state. *)
Inductive reads_only : prog → Prop :=
| ro_Ret v : reads_only (Ret v)
| ro_Throw x : reads_only (Throw x)
| ro_Track sl k : reads_only k → reads_only (Track sl k)
| ro_Load sl k : (∀ v, reads_only (k v)) → reads_only (Load sl k).

(** The (target, key) pairs such code reads on a given heap, in order, and
    what it returns. *)
Fixpoint reads_of (h : gmap slot value) (p : prog) : list slot :=
  match p with
  | Track sl k => sl :: reads_of h k
  | Load sl k => reads_of h (k (default VUndef (h !! sl)))
  | _ => []
  end.

Fixpoint result_of (h : gmap slot value) (p : prog) : res value :=
  match p with
  | Ret v => Ok v
  | Throw x => Thrown x
  | Track _ k => result_of h k
  | Load sl k => result_of h (k (default VUndef (h !! sl)))
  | _ => OutOfFuel
  end.

(** How often the wrapped function of an effect has been executed. *)
Definition execs (e : fxid) (s : State) : nat :=
  length (filter (λ ev, ev = EvExec e) (trace s)).

(** How often an effect occurs in a Dep. *)
Definition occurrences (e : fxid) (d : list fxid) : nat :=
  length (filter (λ x, x = e) d).

(** [c] is a computed value whose internal effect is [e] and whose getter,
    called without arguments, is [body]: what [computedGetter] builds. *)
Definition is_computed (s : State) (c : cid) (e : fxid) (body : prog) : Prop :=
  ∃ cell f g b,
    computeds s !! c = Some cell ∧ c_fx cell = e ∧
    effects s !! e = Some f ∧ fx_active f = true ∧
    fx_raw f = FnValue g ∧ fx_scheduler f = Some (SchedDirty c) ∧
    fn_body s g = Some b ∧ body = b VUndef.

Definition dirty (s : State) (c : cid) : bool :=
  from_option c_dirty false (computeds s !! c).

Definition cached (s : State) (c : cid) : value :=
  from_option c_value VUndef (computeds s !! c).

(** [n] consecutive reads of a computed value. *)
Fixpoint read_n (R : runner) (c : cid) (n : nat) (s : State) : list (res value) * State :=
  match n with
  | 0 => ([], s)
  | S m =>
      let '(r, s1) := computed_read R c s in
      let '(rs, s2) := read_n R c m s1 in
      (r :: rs, s2)
  end.

(** Triggers of SET on a list of pairs, one after the other. *)
Fixpoint trigger_all (R : runner) (sls : list slot) (s : State) : res value * State :=
  match sls with
  | [] => (Ok VUndef, s)
  | sl :: rest => bind (trigger R sl SET s) (λ _ s1, trigger_all R rest s1)
  end.

(** Every live subscriber of the pair is driven by a scheduler of the engine
    (a computed value or an instance), so a trigger runs no user code. *)
Definition quiet (s : State) (sl : slot) : Prop :=
  ∀ e f, e ∈ dep_of s sl → effects s !! e = Some f → fx_active f = true →
    (∃ c, fx_scheduler f = Some (SchedDirty c)) ∨ (∃ i, fx_scheduler f = Some (SchedInstance i)).

(** The part of an effect that no operation of the engine changes. *)
Definition fx_static (f : Fx) : FxFn * option Scheduler * bool * bool :=
  (fx_raw f, fx_scheduler f, fx_active f, fx_allowRecurse f).

(** [track] over a list of pairs. *)
Definition track_all (l : list slot) (s : State) : State :=
  foldl (λ st sl, track sl st) s l.

(** What a trigger that only reaches schedulers of the engine can change:
    dirty flags go up, nothing is executed, the bookkeeping stays. *)
Record invalidated (s s' : State) : Prop := {
  inv_registry : registry s' = registry s;
  inv_effects : effects s' = effects s;
  inv_stack : fxStack s' = fxStack s;
  inv_paused : paused s' = paused s;
  inv_heap : heap s' = heap s;
  inv_funs : funs s' = funs s;
  inv_execs : ∀ e, execs e s' = execs e s;
  inv_computeds : ∀ c,
    computeds s' !! c = computeds s !! c ∨
    computeds s' !! c = c_with_dirty true <$> computeds s !! c
}.

Definition rendering (s : State) (i : iid) : bool :=
  from_option i_rendering false (instances s !! i).

(** From index [idx] on, the queue holds no update job of instance [i]. *)
Definition no_render_from (i : iid) (idx : nat) (s : State) : Prop :=
  ∀ k j n, idx ≤ k → queue s !! k = Some j → j ≠ RenderJob i n.

(** The rendering flag of [i] is set and no update job of [i] is queued. *)
Definition stuck (i : iid) (s : State) : Prop :=
  rendering s i = true ∧ no_render_from i 0 s.

(** What the application and the host can do next: run code, run hooks or a
    setup, schedule an update, flush the queue, assign a prop. *)
Inductive later_step : State → State → Prop :=
| later_code fuel p s : later_step s (exec fuel p s).2
| later_hooks fuel i h s : later_step s (runHooks (exec fuel) i h s).2
| later_setup fuel i s : later_step s (setup (exec fuel) i s).2
| later_schedule i s : later_step s (scheduleUpdate i s)
| later_flush fuel limit s : later_step s (flush (exec fuel) limit s).2
| later_prop_set H fuel i k v s : later_step s (prop_set H (exec fuel) i k v s).2.

(** ** More vocabulary *)

(** A computed value stays in the table, with its effect and setter. *)
Definition same_cell (c1 c2 : Computed) : Prop :=
  c_fx c2 = c_fx c1 ∧ c_set c2 = c_set c1.

Definition held (i : nat) (idx : nat) (s : State) : Prop :=
  rendering s i = true ∧ no_render_from i idx s.

(** Running code only adds to the trace and to the end of the queue. *)
Definition grows (s s' : State) : Prop :=
  (∃ evs, trace s' = evs ++ trace s) ∧ queue s `prefix_of` queue s'.

(** The part of the queue that has not run yet holds each pending job once. *)
Definition queue_ok (idx : nat) (s : State) : Prop :=
  idx ≤ length (queue s) ∧ NoDup (drop idx (queue s)) ∧
  ∀ j, j ∈ pending s ↔ j ∈ drop idx (queue s).

Definition job_runs (j : jobref) (evs : list event) : nat :=
  length (filter (λ ev, ev = EvJob j) evs).


(** [isPrimitive] of the shared helpers. *)
Definition isPrimitive (v : value) : bool :=
  match v with
  | VObj _ _ | VProxy _ _ => false
  | _ => true
  end.

(** ** Example states *)

Definition ex_a : target * string := (TObject 1, "a").
Definition ex_b : target * string := (TObject 1, "b").
Definition ex_flag : target * string := (TObject 2, "flag").

(** [() => o.a] *)
Definition ex_getter : prog := Get ex_a (λ v, Ret v).

(** [() => o.a === 1 ? o.b : o.a] *)
Definition ex_branch : prog :=
  Get ex_a (λ v, if strict_eq v (VNum 1) then Get ex_b (λ w, Ret w) else Ret v).

(** A render function that writes the prop it has just read. *)
Definition ex_render_loop : prog :=
  Get ex_a (λ v, Put ex_a (VNum 2) (Ret (VObj CTemplateResult 0))).

(** A job that pushes itself the first time it runs. *)
Definition ex_job_again : prog :=
  Load ex_flag (λ v,
    if is_undefined v then Store ex_flag (VNum 1) (QueuePush 0 (Ret VUndef))
    else Ret VUndef).

Definition ex_funs : gmap nat (value → prog) :=
  {[ 0 := λ _, ex_getter;
     1 := λ _, ex_branch;
     2 := λ _, ex_render_loop;
     3 := λ _, Throw (UserError 7);
     4 := λ _, Ret (VObj CTemplateResult 0);
     5 := λ _, ReadComputed 0 (λ v, Ret v) ]}.

Definition ex_base : State :=
  {| registry := ∅; effects := ∅; fxStack := []; paused := 0;
     heap := {[ ex_a := VNum 1; ex_b := VNum 2; (TObject 1, "n") := VNum 1 ]};
     funs := ex_funs;
     computeds := ∅; instances := ∅; activeInstance := None;
     queue := []; pending := ∅; flushing := false; flushScheduled := false;
     jobs := ∅; renders := 0; trace := [] |}.

(** A plain effect over a function value. *)
Definition ex_fx (f : value) (sch : option Scheduler) : Fx :=
  {| fx_raw := FnValue f; fx_lazy := true; fx_computed := false;
     fx_scheduler := sch; fx_deps := []; fx_active := true;
     fx_allowRecurse := false |}.

(** An instance whose effect is effect 0. *)
Definition ex_instance (setup_fn : prog) (render : value) : Instance :=
  {| i_name := "ExElement"; i_fx := 0;
     i_props := {[ "n" := {| p_type := Some [CNumber]; p_required := false;
                             p_validator := None; p_cast := false |} ]};
     i_propsData := TObject 1; i_setup := setup_fn;
     i_hooks := λ _, []; i_renderTemplate := render;
     i_rendering := false; i_mounted := false |}.

Definition ex_update_fx : Fx :=
  {| fx_raw := FnUpdate 0; fx_lazy := true; fx_computed := false;
     fx_scheduler := Some (SchedInstance 0); fx_deps := []; fx_active := true;
     fx_allowRecurse := false |}.

Definition ex_host : Host := {| toNumber := λ v, v; looseEqStr := λ _ _, false |}.

(** A computed value over [ex_getter], not read yet, then read once. *)
Definition ex_computed : State := (computedGetter (VObj CFunction 0) ex_base).2.
Definition ex_computed_read : State := (computed_read (exec 2) 0 ex_computed).2.

(** An effect whose function reads that computed value, before and after
    its run. *)
Definition ex_reader : State :=
  set_effects (<[5 := ex_fx (VObj CFunction 5) None]>) ex_computed_read.
Definition ex_reader_ran : State := (fx_run (exec 2) 5 ex_reader).2.

(** The same computed value, read while effect 5 is the active one. *)
Definition ex_outer : State :=
  (computedGetter (VObj CFunction 0)
     (set_fxStack (λ _, [5])
        (set_effects (λ _, {[ 5 := ex_fx (VObj CFunction 4) None ]}) ex_base))).2.
Definition ex_outer_read : State := (computed_read (exec 2) 0 ex_outer).2.

(** An effect over [ex_branch]. *)
Definition ex_effect : State :=
  set_effects (λ _, {[ 0 := ex_fx (VObj CFunction 1) None ]}) ex_base.

(** The effect after one run, and then the branch of [ex_branch] switched. *)
Definition ex_effect_switched : State :=
  set_heap (<[ex_a := VNum 3]>) (fx_run (exec 1) 0 ex_effect).2.

(** An instance whose setup function runs effect 1 (over [ex_branch]). *)
Definition ex_setup_runs : State :=
  set_instances (λ _, {[ 0 := ex_instance (RunFx 1 (λ _, Ret (VObj CFunction 4))) VUndef ]})
    (set_effects (λ _, {[ 0 := ex_update_fx; 1 := ex_fx (VObj CFunction 1) None ]}) ex_base).

Definition ex_setup_ran : State := (setup (exec 3) 0 ex_setup_runs).2.

(** An instance whose setup function throws. *)
Definition ex_setup_throws : State :=
  set_instances (λ _, {[ 0 := ex_instance (Throw (UserError 1)) VUndef ]})
    (set_effects (λ _, {[ 0 := ex_update_fx ]}) ex_base).

(** An instance with a given render function, its first update scheduled. *)
Definition ex_scheduled (render : value) : State :=
  scheduleUpdate 0
    (set_instances (λ _, {[ 0 := ex_instance (Ret render) render ]})
       (set_effects (λ _, {[ 0 := ex_update_fx ]}) ex_base)).

(** The instance whose render function writes the prop it reads, flushed. *)
Definition ex_flushed : State := (flush (exec 4) 100 (ex_scheduled (VObj CFunction 2))).2.


(** One pending job that pushes itself once. *)
Definition ex_requeue : State :=
  queue_push (UserJob 0) (set_jobs (λ _, {[ 0 := ex_job_again ]}) ex_base).

(** Bookkeeping in which nothing is subscribed yet is well formed. *)
Definition fresh_bookkeeping (s : State) : bool :=
  bool_decide (registry s = ∅) &&
  forallb (λ ef : nat * Fx, bool_decide (fx_deps ef.2 = [])) (map_to_list (effects s)) &&
  forallb (λ e, bool_decide (is_Some (effects s !! e))) (fxStack s).

(** ** The element callbacks (instance.ts) *)

(** A function of the application that reads reactive state and returns. *)
Definition reads_and_returns (s : State) (fn : value) : Prop :=
  ∃ b v, fn_body s fn = Some b ∧ reads_only (b VUndef) ∧
         result_of (heap s) (b VUndef) = Ok v.

(** [this[key] = newValue] on an element (line 301): the accessor of a prop
    if [key] is one, a plain property of the element otherwise. *)
Definition element_set (H : Host) (R : runner) (i : iid) (k : string) (newValue : value)
    (s : State) : res value * State :=
  match instances s !! i with
  | None => (Thrown (TypeError "no instance"), s)
  | Some inst =>
      if bool_decide (k ∈ dom (i_props inst)) then prop_set H R i k newValue s
      else (Ok VUndef, s)
  end.

(** [FxElement.attributeChangedCallback] (lines 294 to 303).  [attrs] is the
    map from attribute names to prop keys of the normalized options; a name
    that is not in it makes the key [undefined], which as a property name is
    the string "undefined". *)
Definition attributeChangedCallback (H : Host) (R : runner) (i : iid)
    (attrs : gmap string string) (attr : string) (oldValue newValue : value)
    (s : State) : res value * State :=
  if strict_neq oldValue newValue then
    element_set H R i (default "undefined" (attrs !! attr)) newValue s
  else (Ok VUndef, s).

(** An instance keeps its fields, the rendering flag apart. *)
Definition same_instance (a b : Instance) : Prop :=
  i_name b = i_name a ∧ i_fx b = i_fx a ∧ i_props b = i_props a ∧
  i_propsData b = i_propsData a ∧ i_setup b = i_setup a ∧
  i_hooks b = i_hooks a ∧ i_renderTemplate b = i_renderTemplate a ∧
  i_mounted b = i_mounted a.

(** ** Vocabulary of batching *)

(** The update jobs of instance [i] in a queue. *)
Definition is_render_of (i : iid) (j : jobref) : bool :=
  match j with
  | RenderJob i' _ => bool_decide (i' = i)
  | UserJob _ => false
  end.

Definition render_jobs (i : iid) (q : list jobref) : nat :=
  length (filter (λ j, is_render_of i j = true) q).

(** The closures that [scheduleUpdate] has pushed so far are older than the
    one it would push next. *)
Definition serials_fresh (s : State) : Prop :=
  ∀ i n, RenderJob i n ∈ pending s → n < renders s.

(** What triggers that only reach schedulers of the engine do to the queue:
    an instance that was not waiting for its update gets at most one job. *)
Record batched (s s' : State) : Prop := {
  b_inv : invalidated s s';
  b_fresh : serials_fresh s → serials_fresh s';
  b_mono : ∀ i, rendering s i = true → rendering s' i = true;
  b_count : serials_fresh s → ∀ i,
    render_jobs i (queue s') =
    render_jobs i (queue s) +
    (if rendering s i then 0 else if rendering s' i then 1 else 0);
  b_inst : ∀ i, is_Some (instances s' !! i) ↔ is_Some (instances s !! i)
}.

(** ** Vocabulary of computed values *)

(** The state in which the wrapped function of effect [e] starts to run. *)
Definition entered (e : fxid) (s : State) : State :=
  log (EvExec e) (set_fxStack (cons e) (cleanup e s)).

(** The loop at the end of a computed read (computed.ts, lines 35 to 42). *)
Definition propagated (e : fxid) (s : State) : State :=
  match activeFx s with
  | Some a => foldl (λ st sl, subscribe a sl st) s (deps_of s e)
  | None => s
  end.

(** The state after a read of a dirty computed value whose getter read the
    pairs [l] and returned [v]. *)
Definition recomputed (c : cid) (e : fxid) (l : list slot) (v : value) (s : State) : State :=
  propagated e
    (set_computeds (alter (c_recomputed v) c)
       (set_fxStack tail (track_all l (entered e s)))).

(** ** Declaring props (the props module) *)

(** [!!v] *)
Definition truthy (v : value) : bool :=
  match v with
  | VUndef | VNull | VNaN => false
  | VBool b => b
  | VNum n => negb (n =? 0)%Z
  | VStr s => negb (bool_decide (s = ""))
  | VSym _ | VObj _ _ | VProxy _ _ => true
  end.

(** What stands in a type position of a declaration: one of the constructor
    functions ([Boolean], [Number], a class), or any other value.  A function
    value that is written as a value is the class of its own identity. *)
Inductive tyent :=
| TyCtor (c : ctor)
| TyValue (v : value).

(** A type declaration: one such entry, or an array of them. *)
Inductive tydecl :=
| TyOne (e : tyent)
| TyMany (l : list tyent).

(** The fields of a [PropInstance] object; a field that is not written is
    [undefined] (no validator: [None]). *)
Record PropInstance := {
  pi_type : tydecl;
  pi_required : value;
  pi_validator : option (value → bool);
  pi_default : value
}.

(** What an application writes for one prop: an object with those fields, or
    anything else (null, a constructor, an array of constructors, ...). *)
Inductive PropDecl :=
| PropBare (t : tydecl)
| PropObject (o : PropInstance).

Definition tyent_nullish (e : tyent) : bool :=
  match e with
  | TyValue v => is_nullish v
  | TyCtor _ => false
  end.

Definition tyent_truthy (e : tyent) : bool :=
  match e with
  | TyValue v => truthy v
  | TyCtor _ => true
  end.

Definition tyent_isFunction (e : tyent) : bool :=
  match e with
  | TyValue v => isFunction v
  | TyCtor _ => true
  end.

(** The constructor that an entry which is a function denotes. *)
Definition tyent_ctor (e : tyent) : option ctor :=
  match e with
  | TyCtor c => Some c
  | TyValue (VObj CFunction id) | TyValue (VProxy CFunction id) => Some (CClass id)
  | TyValue _ => None
  end.

Definition tydecl_nullish (t : tydecl) : bool :=
  match t with
  | TyOne e => tyent_nullish e
  | TyMany _ => false
  end.

(** [isObject(prop)] on what is written for a prop: arrays and object values
    are objects, none of which has the fields of a [PropInstance]. *)
Definition bare_isObject (t : tydecl) : bool :=
  match t with
  | TyOne (TyValue v) => isObject v
  | TyOne (TyCtor _) => false
  | TyMany _ => true
  end.

(** The callback of [normalizeProps] (lines 47 to 76): the normalized prop,
    with its [default] beside it. *)
Definition normalizeProp (k : string) (prop : PropDecl) : res (NormalizedProp * value) :=
  (* lines 55 to 64: [None] is null *)
  let ty0 : option tydecl :=
    match prop with
    | PropBare t =>
        if tydecl_nullish t then None
        else if bare_isObject t then None
        else Some t
    | PropObject o => if tydecl_nullish (pi_type o) then None else Some (pi_type o)
    end in
  let def :=
    match prop with
    | PropObject o => if is_nullish (pi_default o) then VUndef else pi_default o
    | PropBare _ => VUndef
    end in
  let validator :=
    match prop with
    | PropObject o => pi_validator o
    | PropBare _ => None
    end in
  let required :=
    match prop with
    | PropObject o => truthy (pi_required o)
    | PropBare _ => false
    end in
  (* lines 66 to 68 *)
  let ty1 :=
    match ty0 with
    | Some (TyOne e) => if tyent_truthy e then Some (TyMany [e]) else ty0
    | _ => ty0
    end in
  (* lines 71 to 73 *)
  match ty1 with
  | None => Thrown (TypeError ("Type invalid in prop '" +:+ k +:+ "'!"))
  | Some (TyOne _) => Thrown (TypeError "normal.type?.every is not a function")
  | Some (TyMany l) =>
      if forallb tyent_isFunction l
      then Ok ({| p_type := Some (omap tyent_ctor l); p_required := required;
                  p_validator := validator; p_cast := false |}, def)
      else Thrown (TypeError ("Type invalid in prop '" +:+ k +:+ "'!"))
  end.

(** [mapObject] of the shared helpers is not among the sources; as its test
    shows (computed.ts, lines 119 to 136) it builds a new object from the
    pairs that the callback returns for the keys of the argument, in their
    order.  An object is the list of its entries here, and an exception of
    the callback ends the call. *)
Fixpoint mapObject {A B : Type} (fn : string → A → res (string * B))
    (obj : list (string * A)) : res (list (string * B)) :=
  match obj with
  | [] => Ok []
  | (k, a) :: rest =>
      match fn k a with
      | Ok kb =>
          match mapObject fn rest with
          | Ok out => Ok (kb :: out)
          | Thrown x => Thrown x
          | OutOfFuel => OutOfFuel
          end
      | Thrown x => Thrown x
      | OutOfFuel => OutOfFuel
      end
  end.

(** [normalizeProps] (lines 46 to 77). *)
Definition normalizeProps (props : list (string * PropDecl))
    : res (list (string * (NormalizedProp * value))) :=
  mapObject (λ k prop,
    match normalizeProp k prop with
    | Ok n => Ok (k, n)
    | Thrown x => Thrown x
    | OutOfFuel => OutOfFuel
    end) props.

(** The normalized props as the table that [validateProp] reads. *)
Definition props_model (out : list (string * (NormalizedProp * value)))
    : gmap string NormalizedProp :=
  list_to_map (map (λ kn, (kn.1, kn.2.1)) out).

(** The callback of [propDefaults] (lines 85 to 94): a default that is a
    function is called; a prop of the single type [Boolean] without a default
    becomes [true]. *)
Definition propDefault (R : runner) (n : NormalizedProp * value) (s : State)
    : res value * State :=
  bind (if isFunction n.2 then call_value R n.2 VUndef s else (Ok n.2, s)) (λ v s1,
    if match p_type n.1 with
       | Some [t] => is_undefined n.2 && bool_decide (t = CBoolean)
       | _ => false
       end
    then (Ok (VBool true), s1)
    else (Ok v, s1)).

(** [propDefaults] (lines 84 to 95). *)
Fixpoint propDefaults (R : runner) (props : list (string * (NormalizedProp * value)))
    (s : State) : res (list (string * value)) * State :=
  match props with
  | [] => (Ok [], s)
  | (k, n) :: rest =>
      bind (propDefault R n s) (λ v s1,
        bind (propDefaults R rest s1) (λ out s2, (Ok ((k, v) :: out), s2)))
  end.

(** The loop of the [FxElement] constructor over the keys of the props
    (instance.ts, lines 241 to 263): a key that the element already owns is
    refused, the current value of the prop is validated, and the accessors
    are defined, which makes the key an own property.  [own] are the own
    properties so far; the result is what they are in the end. *)
Fixpoint define_props (H : Host) (name : string) (props : gmap string NormalizedProp)
    (data : string → value) (keys : list string) (own : list string) : res (list string) :=
  match keys with
  | [] => Ok own
  | k :: rest =>
      if bool_decide (k ∈ own)
      then exception ("Prop " +:+ k +:+ " is reserved, please use another.") name
      else match validateProp H props k (data k) with
           | Ok _ => define_props H name props data rest (own ++ [k])
           | Thrown x => Thrown x
           | OutOfFuel => OutOfFuel
           end
  end.

(** A value passes the checks of [validateProp] for a prop. *)
Definition accepted (p : NormalizedProp) (v : value) : Prop :=
  (is_nullish v = true ∨ ∃ ts t, p_type p = Some ts ∧ t ∈ ts ∧ proto_of v = Some t) ∧
  ¬ (p_required p = true ∧ v = VUndef) ∧
  (∀ f, p_validator p = Some f → f v = true).

(** A declaration that names no type: null or undefined, an array, an object
    without a [type]. *)
Definition untyped (d : PropDecl) : Prop :=
  match d with
  | PropBare t => tydecl_nullish t = true ∨ bare_isObject t = true
  | PropObject o => tydecl_nullish (pi_type o) = true
  end.

(** A declaration of the single type [Boolean] without a default. *)
Definition sole_boolean (t : tydecl) : Prop :=
  t = TyOne (TyCtor CBoolean) ∨ t = TyMany [TyCtor CBoolean].

Definition boolean_without_default (d : PropDecl) : Prop :=
  match d with
  | PropBare t => sole_boolean t
  | PropObject o => sole_boolean (pi_type o) ∧ is_nullish (pi_default o) = true
  end.

(** [obj[key]] on an object given by its entries. *)
Definition object_get (obj : list (string * value)) (k : string) : value :=
  default VUndef (list_to_map (M := gmap string value) obj !! k).

(** ** Style sheets (instance.ts) *)

(** What the [styles] option holds: a style sheet (a [CSSResult], known by
    its identity), or an array of such things. *)
Local Unset Elimination Schemes.
Inductive style :=
| Sheet (n : nat)
| Sheets (l : list style).
Local Set Elimination Schemes.

(** The callback of the [reduceRight] in [collectStyles] (line 314), with
    the recursive call on an array; the [Set] keeps its elements in the order
    in which they were added first. *)
Fixpoint collectStyle (s : style) (set : list nat) : list nat :=
  match s with
  | Sheet n => dep_add n set
  | Sheets l => foldr collectStyle set l
  end.

(** [collectStyles(styles, set)] (lines 312 to 315). *)
Definition collectStyles (styles : list style) (set : list nat) : list nat :=
  foldr collectStyle set styles.

(** The [styles] of [normalizeOptions] (lines 325 to 333); [None] is an
    option that is not given. *)
Definition normalize_styles (styles : option style) : list nat :=
  match styles with
  | None => []
  | Some (Sheets l) => collectStyles l []
  | Some (Sheet n) => [n]
  end.

(** The sheets of a declaration, in the order in which they are written. *)
Fixpoint sheets_of (s : style) : list nat :=
  match s with
  | Sheet n => [n]
  | Sheets l => flat_map sheets_of l
  end.

(** ** Error messages (logging.ts) *)

(** What the messages read of an instance: the name and the file name of its
    options (an empty file name is one that is not given) and its
    constructor. *)
Record TreeNode := {
  n_name : string;
  n_filename : string;
  n_ctor : nat
}.

(** An entry of the [tree] array of [createStackTrace]: an instance, or the
    pair [[prev, recursionCount]] that replaces an entry. *)
Inductive entry :=
| Plain (n : TreeNode)
| Counted (prev : entry) (count : nat).

(** [e.constructor] as far as it is compared with the constructor of an
    instance: [None] for a pair, whose constructor is [Array]. *)
Definition entry_ctor (e : entry) : option nat :=
  match e with
  | Plain n => Some (n_ctor n)
  | Counted _ _ => None
  end.

Definition INDENT_STEP : nat := 2.
Definition INDENT : nat := 4.

Definition newline : string := String "010"%char "".

(** [s.repeat(n)] *)
Fixpoint repeat_string (s : string) (n : nat) : string :=
  match n with
  | 0 => ""
  | S m => s +:+ repeat_string s m
  end.

(** [formatElementName] (lines 50 to 61); a count that is not given is 0. *)
Definition formatElementName (instance : TreeNode) (indent recursiveCount : nat) : string :=
  let res :=
    (if bool_decide (indent = 0) then "--> "
     else repeat_string " " (INDENT + INDENT_STEP * indent))
    +:+ "<" +:+ n_name instance +:+ ">" in
  let res :=
    if bool_decide (n_filename instance = "") then res
    else res +:+ " at " +:+ n_filename instance in
  if bool_decide (recursiveCount = 0) then res
  else res +:+ "... (" +:+ pretty recursiveCount +:+ " recursive calls)".

(** The body of the loop of [createStackTrace] (lines 75 to 88) for one
    [node] of the walk; the state is [tree] and [recursionCount]. *)
Definition trace_step (instance : TreeNode) (st : list entry * nat) (node : TreeNode)
    : list entry * nat :=
  match last st.1 with
  | Some prev =>
      if bool_decide (entry_ctor prev = Some (n_ctor node)) then (st.1, S st.2)
      else if bool_decide (st.2 = 0) then (st.1 ++ [Plain instance], st.2)
      else (removelast st.1 ++ [Counted prev st.2; Plain instance], 0)
  | None => (st.1 ++ [Plain instance], st.2)
  end.

(** The [tree] after the loop; [walkInstanceTree] (lines 40 to 45) yields the
    instance and then its ancestors, the parent first. *)
Definition stack_tree (instance : TreeNode) (ancestors : list TreeNode) : list entry :=
  (foldl (trace_step instance) ([], 0) (instance :: ancestors)).1.

(** The callback of [tree.map] (lines 90 to 94): the options of a pair are
    undefined, so a pair inside a pair cannot be formatted. *)
Definition format_entry (idx : nat) (e : entry) : res string :=
  match e with
  | Plain n => Ok (formatElementName n idx 0)
  | Counted (Plain n) c => Ok (formatElementName n idx c)
  | Counted (Counted _ _) _ => Thrown (TypeError "Cannot read properties of undefined")
  end.

Fixpoint format_entries (idx : nat) (tree : list entry) : res (list string) :=
  match tree with
  | [] => Ok []
  | e :: rest =>
      match format_entry idx e with
      | Ok line =>
          match format_entries (S idx) rest with
          | Ok lines => Ok (line :: lines)
          | Thrown x => Thrown x
          | OutOfFuel => OutOfFuel
          end
      | Thrown x => Thrown x
      | OutOfFuel => OutOfFuel
      end
  end.

(** [createStackTrace] (lines 68 to 95). *)
Definition createStackTrace (instance : TreeNode) (ancestors : list TreeNode) : res string :=
  match ancestors with
  | [] => Ok (newline +:+ newline +:+ "(found in <" +:+ n_name instance +:+ ">)")
  | _ =>
      match format_entries 0 (stack_tree instance ancestors) with
      | Ok lines =>
          Ok (newline +:+ newline +:+ "found in:" +:+ newline +:+ newline
              +:+ String.concat newline lines)
      | Thrown x => Thrown x
      | OutOfFuel => OutOfFuel
      end
  end.

(** [message.endsWith('.')] and [message.slice(0, -1)] *)
Fixpoint endsWith_dot (s : string) : bool :=
  match s with
  | "" => false
  | String c "" => bool_decide (c = "."%char)
  | String _ r => endsWith_dot r
  end.

Fixpoint drop_last (s : string) : string :=
  match s with
  | "" => ""
  | String _ "" => ""
  | String c r => String c (drop_last r)
  end.

(** The message that the constructor of [KireiError] builds (lines 12 to
    33); [active] is the active instance with its ancestors, if there is
    one. *)
Definition KireiError_message (message : string) (context : option string)
    (active : option (TreeNode * list TreeNode)) : res string :=
  let message :=
    match context with
    | Some c =>
        (if endsWith_dot message then drop_last message else message)
        +:+ " in #" +:+ c +:+ "."
    | None => message
    end in
  match active with
  | Some (instance, ancestors) =>
      match createStackTrace instance ancestors with
      | Ok t => Ok (message +:+ t)
      | Thrown x => Thrown x
      | OutOfFuel => OutOfFuel
      end
  | None => Ok message
  end.

(** An entry that shows the instance at which the walk started. *)
Definition shows (instance : TreeNode) (e : entry) : Prop :=
  e = Plain instance ∨ ∃ c, e = Counted (Plain instance) c.

(** ** The release script (the script that follows computed.ts) *)

(** A number of the script: the double whose value is the integer [z], or
    NaN.  These are the numbers that [Number] makes of the parts of a version
    written in digits or in letters; fractions and infinities, which [Number]
    makes of parts in exponent notation or of [Infinity], are left out. *)
Inductive num :=
| Int (z : Z)
| NaN.

(** The sum of two doubles is the exact sum rounded to 53 significant bits,
    to the nearest such number and, half way between two, to the one whose
    last bit is 0.  [round_double m] is that rounding of the integer [m]: up
    to 2^53 in absolute value every integer is a double, beyond that the
    doubles are the multiples of [2^k] for [k = log2 |m| - 52]. *)
Definition round_double (m : Z) : Z :=
  let a := Z.abs m in
  if (a <? 2 ^ 53)%Z then m
  else
    let k := (Z.log2 a - 52)%Z in
    let q := Z.shiftr a k in
    let r := Z.land a (Z.ones k) in
    let half := Z.shiftl 1 (k - 1) in
    let q' := if (half <? r)%Z || ((r =? half)%Z && Z.odd q) then (q + 1)%Z else q in
    (Z.sgn m * Z.shiftl q' k)%Z.

(** [x + 1] on doubles, where [None] is undefined. *)
Definition plus_one (x : option num) : num :=
  match x with
  | Some (Int z) => Int (round_double (z + 1))
  | Some NaN | None => NaN
  end.

(** [arr[i]] and [arr[i] = v] on an array with holes ([None]): reading past
    the end gives undefined, writing past the end extends the array. *)
Definition array_get (arr : list (option num)) (i : nat) : option num :=
  default None (arr !! i).

Definition array_set (arr : list (option num)) (i : nat) (v : num) : list (option num) :=
  if bool_decide (i < length arr) then <[i := Some v]> arr
  else arr ++ replicate (i - length arr) None ++ [Some v].

(** [semver.indexOf(tag)]; [None] is -1. *)
Definition semver_index (tag : value) : option nat :=
  match tag with
  | VStr s =>
      if bool_decide (s = "major") then Some 0
      else if bool_decide (s = "minor") then Some 1
      else if bool_decide (s = "patch") then Some 2
      else None
  | _ => None
  end.

(** [bumpVersion] (lines 219 to 235) up to the [join]: [version] is the
    array [rootPkg.version.split('.').map(Number)]; the cases of the [switch]
    fall through. *)
Definition bump_array (tag : value) (version : list (option num)) : res (list (option num)) :=
  match semver_index tag with
  | Some 0 =>
      let v0 := array_set version 0 (plus_one (array_get version 0)) in
      let v1 := array_set v0 1 (Int 0) in
      Ok (array_set v1 2 (Int 0))
  | Some 1 =>
      let v1 := array_set version 1 (plus_one (array_get version 1)) in
      Ok (array_set v1 2 (Int 0))
  | Some 2 => Ok (array_set version 2 (plus_one (array_get version 2)))
  | _ => Thrown (Error "Version tag not recognised")
  end.

(** [version.join('.')]; [show] is how the host prints an integer. *)
Definition join_version (show : Z → string) (version : list (option num)) : string :=
  String.concat "."
    (map (λ x, match x with
               | Some (Int z) => show z
               | Some NaN => "NaN"
               | None => ""
               end) version).

Definition bumpVersion (show : Z → string) (tag : value) (version : list (option num))
    : res string :=
  match bump_array tag version with
  | Ok v => Ok (join_version show v)
  | Thrown x => Thrown x
  | OutOfFuel => OutOfFuel
  end.

(** The order of versions of three numbers. *)
Definition version_lt (a b : Z * Z * Z) : Prop :=
  let '(a1, a2, a3) := a in
  let '(b1, b2, b3) := b in
  (a1 < b1 ∨ (a1 = b1 ∧ (a2 < b2 ∨ (a2 = b2 ∧ a3 < b3))))%Z.

Definition pkgPrefix : string := "@shlim/".

(** The three objects of a [package.json] that [bumpDependencies] goes
    through, each the list of its entries if it is there. *)
Record Package := {
  dependencies : option (list (string * string));
  peerDependencies : option (list (string * string));
  devDependencies : option (list (string * string))
}.

(** The inner loop of [bumpDependencies] (lines 245 to 249). *)
Definition bump_deps (version : string) (deps : list (string * string)) : list (string * string) :=
  map (λ dv : string * string,
         (dv.1, if String.prefix pkgPrefix dv.1 then "^" +:+ version else dv.2)) deps.

(** [bumpDependencies] (lines 238 to 254), up to the file it writes. *)
Definition bumpDependencies (pkg : Package) (version : string) : Package :=
  {| dependencies := bump_deps version <$> dependencies pkg;
     peerDependencies := bump_deps version <$> peerDependencies pkg;
     devDependencies := bump_deps version <$> devDependencies pkg |}.

(** ** Bindings of a template (parser.ts) *)

(** The state of the closure that [attrParser] returns for an attribute
    (lines 77 to 101), with what the DOM knows of the attribute node:
    [a_attr] is the value last assigned to [attr.value], which the DOM keeps
    as a string, and [a_attached] says whether the node is an attribute of
    the element. *)
Record AttrState := {
  a_value : value;
  a_noOwner : bool;
  a_attr : value;
  a_attached : bool
}.

Definition attr_initial : AttrState :=
  {| a_value := VUndef; a_noOwner := true; a_attr := VStr ""; a_attached := false |}.

(** One call of the closure (lines 81 to 101).  [removeAttributeNode] throws
    when the node is not an attribute of the element. *)
Definition attr_update (newValue : value) (st : AttrState) : res AttrState :=
  if strict_neq (a_value st) newValue then
    if is_nullish newValue then
      if a_noOwner st then Ok {| a_value := newValue; a_noOwner := true;
                                 a_attr := a_attr st; a_attached := a_attached st |}
      else if a_attached st
           then Ok {| a_value := newValue; a_noOwner := true;
                      a_attr := a_attr st; a_attached := false |}
           else Thrown (Error "NotFoundError")
    else
      if a_noOwner st then Ok {| a_value := newValue; a_noOwner := false;
                                 a_attr := newValue; a_attached := true |}
      else Ok {| a_value := newValue; a_noOwner := false;
                 a_attr := newValue; a_attached := a_attached st |}
  else Ok st.

Fixpoint attr_updates (vs : list value) (st : AttrState) : res AttrState :=
  match vs with
  | [] => Ok st
  | v :: rest =>
      match attr_update v st with
      | Ok st' => attr_updates rest st'
      | Thrown x => Thrown x
      | OutOfFuel => OutOfFuel
      end
  end.

(** The state of the closure of [textParser] (lines 167 to 176): its
    [value], and the [textContent] of the node as the value assigned to it. *)
Record TextState := {
  t_value : value;
  t_content : value
}.

Definition text_update (newValue : value) (st : TextState) : TextState :=
  if strict_neq (t_value st) newValue
  then {| t_value := newValue;
          t_content := if is_nullish newValue then VStr "" else newValue |}
  else st.

(** The text that a value is shown as: the value itself, and the empty
    string for null and undefined. *)
Definition text_of (v : value) : value := if is_nullish v then VStr "" else v.

(** The closure has the attribute node attached exactly when its value is
    not null or undefined, and then the node holds that value. *)
Definition attr_synced (st : AttrState) : Prop :=
  a_noOwner st = negb (a_attached st) ∧
  a_attached st = negb (is_nullish (a_value st)) ∧
  (a_attached st = true → a_attr st = a_value st).

(** The [directives] map, by the identities of the registered functions. *)
Definition addDirective (key : string) (directive : nat) (directives : gmap string nat)
    : res (gmap string nat) :=
  if bool_decide (key ∈ dom directives) then Thrown (Error "directive already exists")
  else Ok (<[key := directive]> directives).

(** What [attrParser] returns: the result of calling a registered function
    with [{ el, name: '', arg: '', mods: [] }], or the closure for an
    attribute. *)
Inductive Binding :=
| DirectiveCall (fn : nat) (el : nat)
| AttrBinding (name : string) (el : nat).

(** [execDirective] (lines 40 to 55). *)
Definition execDirective (directives : gmap string nat) (node : nat) (name : string)
    : res Binding :=
  match directives !! name with
  | None => Thrown (Error "")
  | Some fn => Ok (DirectiveCall fn node)
  end.

(** [name.slice(2)] *)
Definition slice2 (name : string) : string :=
  match name with
  | String _ (String _ r) => r
  | _ => ""
  end.

(** [attrParser] (lines 67 to 102). *)
Definition attrParser (directives : gmap string nat) (node : nat) (name : string)
    : res Binding :=
  if String.prefix "v-" name then execDirective directives node (slice2 name)
  else Ok (AttrBinding name node).

(** ** The plugin for Babel (index.ts of babel-plugin) *)

Inductive specifier :=
| ImportSpecifier (imported : string) (loc : string)
| ImportDefaultSpecifier (loc : string)
| ImportNamespaceSpecifier (loc : string).

Definition DEFINE_ELEMENT_FN : string := "defineElement".

(** [t.isImportSpecifier(s) && s.imported.name === DEFINE_ELEMENT_FN] *)
Definition imports_define (s : specifier) : bool :=
  match s with
  | ImportSpecifier imported _ => bool_decide (imported = DEFINE_ELEMENT_FN)
  | _ => false
  end.

(** The loop of the [ImportDeclaration] visitor (lines 111 to 116), from
    index [idx] on; [steps] bounds the iterations that are left. *)
Fixpoint strip_loop (steps : nat) (idx : nat) (specifiers : list specifier) : list specifier :=
  match steps with
  | 0 => specifiers
  | S n =>
      match specifiers !! idx with
      | None => specifiers
      | Some s =>
          if imports_define s then strip_loop n (S idx) (delete idx specifiers)
          else strip_loop n (S idx) specifiers
      end
  end.

(** The loop from index 0; it ends within as many iterations as there are
    specifiers. *)
Definition strip_define (specifiers : list specifier) : list specifier :=
  strip_loop (length specifiers) 0 specifiers.

(** What the loop leaves of a list: the specifier after one that is removed
    is not looked at. *)
Fixpoint strip_result (l : list specifier) : list specifier :=
  match l with
  | [] => []
  | s :: rest =>
      if imports_define s then
        match rest with
        | [] => []
        | s' :: rest' => s' :: strip_result rest'
        end
      else s :: strip_result rest
  end.

(** No two specifiers that import [defineElement] follow each other. *)
Fixpoint no_adjacent (l : list specifier) : Prop :=
  match l with
  | s :: ((s' :: _) as rest) => ¬ (imports_define s = true ∧ imports_define s' = true) ∧ no_adjacent rest
  | _ => True
  end.

(** ** The binding of a node (parser.ts) *)

(** What a template passes to the binding of a node: a value that is not
    an array or a DOM node (a primitive, null, undefined, a function, some
    other object), an array with its items, a DOM node or wire, or a document
    fragment with its child nodes.  DOM nodes are object values. *)
Inductive dynamic :=
| DValue (v : value)
| DArray (items : list value)
| DNode (n : value)
| DFragment (f : value) (children : list value).

(** [typeof v] is ['string'], ['number'] or ['boolean']. *)
Definition is_text_primitive (v : value) : bool :=
  match v with
  | VStr _ | VNum _ | VNaN | VBool _ => true
  | _ => false
  end.

(** [typeof v === 'object'], which holds of null. *)
Definition typeof_object (v : value) : bool :=
  match v with
  | VNull => true
  | VObj c _ | VProxy c _ => negb (bool_decide (c = CFunction))
  | _ => false
  end.

(** The closure variables of [nodeParser] (lines 105 to 107); [n_text] says
    whether the text node has been created. *)
Record NodeState := {
  n_nodes : list value;
  n_value : dynamic;
  n_text : bool;
  n_textContent : value
}.

(** What the closure needs of its surroundings: the [diff] of the library
    (given the old and the new nodes it returns the nodes that are live
    afterwards), the text node that [document.createTextNode] makes, and how
    an array is turned into a string. *)
Record Dom := {
  dom_diff : list value → list value → list value;
  dom_text : value;
  dom_join : list value → string
}.

(** [value === newValue] for a [newValue] that is a primitive: only the
    same primitive is equal to it. *)
Definition holds_primitive (d : dynamic) (v : value) : bool :=
  match d with
  | DValue w => strict_eq w v
  | _ => false
  end.

(** [newValue === value] for a [newValue] that is a node or a fragment: only
    the same node is equal to it. *)
Definition holds_node (d : dynamic) (n : value) : bool :=
  match d with
  | DNode m | DFragment m _ => strict_eq m n
  | _ => false
  end.

(** [if (value)] *)
Definition dynamic_truthy (d : dynamic) : bool :=
  match d with
  | DValue v => truthy v
  | _ => true
  end.

(** The first case of the [switch] (lines 115 to 125). *)
Definition parse_primitive (D : Dom) (v : value) (st : NodeState) : NodeState :=
  if holds_primitive (n_value st) v then st
  else {| n_nodes := dom_diff D (n_nodes st) [dom_text D];
          n_value := DValue v; n_text := true; n_textContent := v |}.

(** [parse] (lines 112 to 162). *)
Definition parse (D : Dom) (newValue : dynamic) (st : NodeState) : NodeState :=
  match newValue with
  | DValue v =>
      if is_text_primitive v then parse_primitive D v st
      else if is_nullish v then
        if dynamic_truthy (n_value st)
        then {| n_nodes := dom_diff D (n_nodes st) []; n_value := newValue;
                n_text := n_text st; n_textContent := n_textContent st |}
        else st
      else st
  | DArray items =>
      let st1 := {| n_nodes := n_nodes st; n_value := newValue;
                    n_text := n_text st; n_textContent := n_textContent st |} in
      match items with
      | [] => {| n_nodes := dom_diff D (n_nodes st) []; n_value := newValue;
                 n_text := n_text st; n_textContent := n_textContent st |}
      | first :: _ =>
          if typeof_object first
          then {| n_nodes := dom_diff D (n_nodes st) items; n_value := newValue;
                  n_text := n_text st; n_textContent := n_textContent st |}
          else parse_primitive D (VStr (dom_join D items)) st1
      end
  | DNode n =>
      if holds_node (n_value st) n then st
      else {| n_nodes := dom_diff D (n_nodes st) [n]; n_value := newValue;
              n_text := n_text st; n_textContent := n_textContent st |}
  | DFragment f children =>
      if holds_node (n_value st) f then st
      else {| n_nodes := dom_diff D (n_nodes st) children; n_value := newValue;
              n_text := n_text st; n_textContent := n_textContent st |}
  end.

(** The state of a closure that [nodeParser] has just returned. *)
Definition node_initial : NodeState :=
  {| n_nodes := []; n_value := DValue VUndef; n_text := false; n_textContent := VStr "" |}.

(** ** More example states *)

(** [() => html`${o.a}`]: a render function that reads one pair. *)
Definition ex_render_reads : prog := Get ex_a (λ _, Ret (VObj CTemplateResult 0)).

Definition ex_funs_render : gmap nat (value → prog) :=
  <[6 := λ _, ex_render_reads]> ex_funs.

(** An instance with hooks: one that reads for BEFORE_MOUNT, and for MOUNT
    one that throws before one that reads. *)
Definition ex_hook_instance : Instance :=
  {| i_name := "ExHooks"; i_fx := 0; i_props := ∅; i_propsData := TObject 1;
     i_setup := Ret (VNum 3);
     i_hooks := λ h, match h with
                     | BEFORE_MOUNT => [VObj CFunction 0]
                     | MOUNT => [VObj CFunction 3; VObj CFunction 0]
                     | _ => []
                     end;
     i_renderTemplate := VObj CFunction 6; i_rendering := false; i_mounted := false |}.

(** That instance with its effect, nothing subscribed yet. *)
Definition ex_element : State :=
  {| registry := ∅; effects := {[ 0 := ex_update_fx ]}; fxStack := []; paused := 0;
     heap := {[ ex_a := VNum 1; ex_b := VNum 2 ]};
     funs := ex_funs_render;
     computeds := ∅; instances := {[ 0 := ex_hook_instance ]}; activeInstance := Some 0;
     queue := []; pending := ∅; flushing := false; flushScheduled := false;
     jobs := ∅; renders := 0; trace := [] |}.

(** The same while the effect of the instance is the active one. *)
Definition ex_hooked : State := set_fxStack (λ _, [0]) ex_element.

Definition ex_n : target * string := (TObject 1, "n").

(** An instance whose effect is subscribed to [ex_a] and to its prop [n],
    and which is not waiting for an update. *)
Definition ex_subscribed : State :=
  set_registry (λ _, {[ ex_a := [0]; ex_n := [0] ]})
    (set_effects (λ _, {[ 0 := fx_with_deps [ex_a; ex_n] ex_update_fx ]})
       (set_instances (λ _, {[ 0 := ex_instance (Ret (VObj CFunction 4)) (VObj CFunction 4) ]})
          ex_base)).

(** An instance whose render function returns a number. *)
Definition ex_bad_render : State :=
  set_instances (λ _, {[ 0 := ex_instance (Ret (VObj CFunction 0)) (VObj CFunction 0) ]})
    (set_effects (λ _, {[ 0 := ex_update_fx ]}) ex_base).

(** A computed value whose getter throws. *)
Definition ex_throwing : State := (computedGetter (VObj CFunction 3) ex_base).2.

(** A computed value over [() => o.a], and one over a getter that reads it. *)
Definition ex_chain : State :=
  (computedGetter (VObj CFunction 5) (computedGetter (VObj CFunction 0) ex_base).2).2.

(** ** Example declarations of props *)

Definition ex_number_prop : NormalizedProp :=
  {| p_type := Some [CNumber]; p_required := true; p_validator := None; p_cast := false |}.

(** [{ n: { type: Number, required: true, default: 0 }, flag: Boolean }] *)
Definition ex_props : list (string * PropDecl) :=
  [ ("n", PropObject {| pi_type := TyOne (TyCtor CNumber); pi_required := VBool true;
                        pi_validator := None; pi_default := VNum 0 |});
    ("flag", PropBare (TyOne (TyCtor CBoolean))) ].

Definition ex_props_out : list (string * (NormalizedProp * value)) :=
  [ ("n", (ex_number_prop, VNum 0));
    ("flag", ({| p_type := Some [CBoolean]; p_required := false; p_validator := None;
                 p_cast := false |}, VUndef)) ].

(** [{ n: { type: Number, required: true } }] *)
Definition ex_required : PropInstance :=
  {| pi_type := TyOne (TyCtor CNumber); pi_required := VBool true;
     pi_validator := None; pi_default := VUndef |}.

(** [{ a: String, b: null }] *)
Definition ex_props_untyped : list (string * PropDecl) :=
  [ ("a", PropBare (TyOne (TyCtor CString))); ("b", PropBare (TyOne (TyValue VNull))) ].

(** ** Code that makes no nested call *)

(** Dispatching to [e] runs no code of the application: the effect is gone
    or stopped, or it is driven by a scheduler of the engine (that of a
    computed value or of an instance), or it has no scheduler and is the
    running effect itself, which [trigger] skips. *)
Definition harmless (s : State) (e : fxid) : Prop :=
  ∀ f, effects s !! e = Some f → fx_active f = true →
    (∃ c, fx_scheduler f = Some (SchedDirty c)) ∨
    (∃ i, fx_scheduler f = Some (SchedInstance i)) ∨
    (fx_scheduler f = None ∧ activeFx s = Some e ∧ fx_allowRecurse f = false).

(** A trigger of the pair runs no code of the application. *)
Definition calm (s : State) (sl : slot) (op : TriggerOpTypes) : Prop :=
  ∀ e, e ∈ run_set s sl op → harmless s e.

(** Code that, run from [s], reads and writes reactive state directly,
    pushes jobs and triggers only pairs that are calm when it triggers them;
    it reads no computed value and neither runs nor stops an effect.  Such
    code makes no nested call, so it needs no fuel: [exec 1] runs it, and a
    calm trigger never calls the runner it is given, here [exec 0]. *)
Fixpoint direct (p : prog) (s : State) : Prop :=
  match p with
  | Ret _ | Throw _ => True
  | Track sl k => direct k (track sl s)
  | Load sl k => direct (k (heap_get s sl)) s
  | Store sl v k => direct k (set_heap (<[sl := v]>) s)
  | QueuePush j k => direct k (queue_push (UserJob j) s)
  | Trigger sl op k => calm s sl op ∧ direct k (trigger (exec 0) sl op s).2
  | ReadComputed _ _ | RunFx _ _ | StopFx _ _ => False
  end.

(** A live effect. *)
Definition alive (s : State) (e : fxid) : Prop :=
  ∃ f, effects s !! e = Some f ∧ fx_active f = true.

(** ** What a run records for the active effect *)

(** A pair that code read while the effect was the active one, or a pair
    that a computed value read there depends on. *)
Inductive access :=
| Reads (sl : slot)
| Inherits (sl : slot).

(** The pairs that a read of the computed value [c] hands to the active
    effect: the deps of the internal effect once the value is fresh
    (computed.ts, lines 30 to 42). *)
Definition inherited (R : runner) (c : cid) (s : State) : list slot :=
  match computeds s !! c with
  | None => []
  | Some cell =>
      match (if c_dirty cell then fx_run R (c_fx cell) s else (Ok VUndef, s)) with
      | (Ok _, s1) => deps_of s1 (c_fx cell)
      | _ => []
      end
  end.

Section accesses.
Variable R : runner.
(** The accesses of the code that [R] runs without a new active effect. *)
Variable A : prog → State → list access.

(** A scheduler of the application is called while the triggering effect is
    still the active one; a run of the effect [e] has an active effect of
    its own, and the schedulers of the engine read nothing. *)
Definition notify_accesses (e : fxid) (s : State) : list access :=
  match effects s !! e with
  | Some f =>
      if fx_active f then
        match fx_scheduler f with
        | Some (SchedUser p) => A p (log (EvSched e) s)
        | _ => []
        end
      else []
  | None => []
  end.

Fixpoint dispatch_accesses (es : list fxid) (s : State) : list access :=
  match es with
  | [] => []
  | e :: es' =>
      notify_accesses e s ++
      match notify R e s with
      | (Ok _, s') => dispatch_accesses es' s'
      | _ => []
      end
  end.

Definition trigger_accesses (sl : slot) (op : TriggerOpTypes) (s : State) : list access :=
  dispatch_accesses (run_set s sl op) (log (EvTrigger sl.1 op sl.2) s).

(** The accesses of [step R p s], in order.  What the effects read that the
    code runs, or that its triggers run, is not among them: they are the
    active effect then. *)
Fixpoint step_accesses (p : prog) (s : State) : list access :=
  match p with
  | Ret _ | Throw _ => []
  | Track sl k => Reads sl :: step_accesses k (track sl s)
  | Load sl k => step_accesses (k (heap_get s sl)) s
  | Store sl v k => step_accesses k (set_heap (<[sl := v]>) s)
  | QueuePush j k => step_accesses k (queue_push (UserJob j) s)
  | StopFx e k => step_accesses k (fx_stop e s)
  | Trigger sl op k =>
      trigger_accesses sl op s ++
      match trigger R sl op s with
      | (Ok _, s') => step_accesses k s'
      | _ => []
      end
  | RunFx e k =>
      match fx_run R e s with
      | (Ok v, s') => step_accesses (k v) s'
      | _ => []
      end
  | ReadComputed c k =>
      (Inherits <$> inherited R c s) ++
      match computed_read R c s with
      | (Ok v, s') => step_accesses (k v) s'
      | _ => []
      end
  end.

End accesses.

(** The accesses of [exec fuel p s]. *)
Fixpoint accesses (fuel : nat) : prog → State → list access :=
  match fuel with
  | 0 => λ _ _, []
  | S f => step_accesses (exec f) (accesses f)
  end.

(** The (target, key) pairs that the function of the running effect and the
    schedulers its triggers call read, in order. *)
Definition reads_during (fuel : nat) (p : prog) (s : State) : list slot :=
  omap (λ a, match a with Reads sl => Some sl | Inherits _ => None end) (accesses fuel p s).

(** The pairs that the computed values read there depend on. *)
Definition inherited_during (fuel : nat) (p : prog) (s : State) : list slot :=
  omap (λ a, match a with Inherits sl => Some sl | Reads _ => None end) (accesses fuel p s).

(** The accesses that subscribe the active effect: a read does unless
    tracking is paused ([n] is the pause counter), an inherited pair
    always does. *)
Definition recorded (n : nat) (l : list access) (sl : slot) : Prop :=
  (n = 0 ∧ Reads sl ∈ l) ∨ Inherits sl ∈ l.

(** Running code executes effects and stops them, and changes neither the
    scheduler of an effect nor whether it may recurse. *)
Record ages (s s' : State) : Prop := {
  ag_execs : ∀ e, execs e s ≤ execs e s';
  ag_alive : ∀ e, alive s' e → alive s e;
  ag_static : ∀ e f', effects s' !! e = Some f' →
    ∃ f, effects s !! e = Some f ∧ fx_scheduler f' = fx_scheduler f ∧
         fx_allowRecurse f' = fx_allowRecurse f
}.

(** Between [s] and [s'] the subscriptions of [e] have not changed, unless
    [e] was executed or stopped in between. *)
Definition spared (e : fxid) (s s' : State) : Prop :=
  execs e s' = execs e s → alive s' e → ∀ sl, e ∈ dep_of s' sl ↔ e ∈ dep_of s sl.

(** Code that [R] runs while another effect than [e] is the active one, or
    none, spares [e]. *)
Definition nested (e : fxid) (R : runner) : Prop :=
  ∀ p s, activeFx s ≠ Some e → spared e s (R p s).2.

(** Between [s] and [s'] the effect [e] has been subscribed to the pairs
    that [l] records, and its subscriptions have not changed otherwise,
    unless [e] was executed or stopped in between. *)
Definition records (e : fxid) (s s' : State) (l : list access) : Prop :=
  execs e s' = execs e s → alive s' e →
  ∀ sl, e ∈ dep_of s' sl ↔ e ∈ dep_of s sl ∨ recorded (paused s) l sl.

(** Code that [R] runs while [e] is the active effect records its accesses
    for [e]. *)
Definition owned (e : fxid) (R : runner) (A : prog → State → list access) : Prop :=
  ∀ p s, activeFx s = Some e → records e s (R p s).2 (A p s).

(** The code that a run of an effect executes: its function, or, for the
    effect of an instance, the render function that [update] calls. *)
Definition fx_body (s : State) (f : Fx) : option prog :=
  match fx_raw f with
  | FnValue g => (λ b, b VUndef) <$> fn_body s g
  | FnUpdate i =>
      match instances s !! i with
      | Some inst => (λ b, b VUndef) <$> fn_body s (i_renderTemplate inst)
      | None => None
      end
  end.


(** What a run of direct code leaves as it was. *)
Record settled (s s' : State) : Prop := {
  st_stack : fxStack s' = fxStack s;
  st_paused : paused s' = paused s;
  st_funs : funs s' = funs s;
  st_execs : ∀ e, execs e s' = execs e s;
  st_static : ∀ e, fx_static <$> effects s' !! e = fx_static <$> effects s !! e;
  st_computeds : ∀ c,
    computeds s' !! c = computeds s !! c ∨
    computeds s' !! c = c_with_dirty true <$> computeds s !! c
}.

(** ** Example states of computed values *)



(** ** Example states of effects that run other code *)

(** [() => { o.b = o.a }], [() => o.b],
    [() => { o.a; fx2.stop(); return o.b }],
    [() => o.a === 1 ? (o.b, raw.a = 2, fx3.run()) : o.a], and the scheduler
    [() => { o.flag; queue.push(job0) }] of effect 4. *)
Definition ex_writer : State :=
  {| registry := ∅;
     effects := {[ 0 := ex_fx (VObj CFunction 0) None;
                   1 := ex_fx (VObj CFunction 1) None;
                   2 := ex_fx (VObj CFunction 2) None;
                   3 := ex_fx (VObj CFunction 3) None;
                   4 := ex_fx (VObj CFunction 1)
                          (Some (SchedUser (Get ex_flag (λ _, QueuePush 0 (Ret VUndef))))) ]};
     fxStack := []; paused := 0;
     heap := {[ ex_a := VNum 1; ex_b := VNum 2 ]};
     funs := {[ 0 := λ _, Get ex_a (λ v, Put ex_b v (Ret VUndef));
                1 := λ _, Get ex_b (λ v, Ret v);
                2 := λ _, Get ex_a (λ _, StopFx 2 (Get ex_b (λ v, Ret v)));
                3 := λ _, Get ex_a (λ v,
                       if strict_eq v (VNum 1)
                       then Get ex_b (λ _, Store ex_a (VNum 2) (RunFx 3 (λ w, Ret w)))
                       else Ret v) ]};
     computeds := ∅; instances := ∅; activeInstance := None;
     queue := []; pending := ∅; flushing := false; flushScheduled := false;
     jobs := ∅; renders := 0; trace := [] |}.

(** The effects 1 and 4 have run once, then effect 0 runs. *)
Definition ex_writer_ready : State := (fx_run (exec 1) 4 (fx_run (exec 1) 1 ex_writer).2).2.
Definition ex_writer_ran : State := (fx_run (exec 3) 0 ex_writer_ready).2.

(** The effect that stops itself, and the effect that runs itself, after
    one run. *)
Definition ex_stopped_itself : State := (fx_run (exec 1) 2 ex_writer).2.
Definition ex_ran_itself : State := (fx_run (exec 2) 3 ex_writer).2.

(** The effect over [ex_branch], run with tracking paused. *)
Definition ex_effect_paused : State := (fx_run (exec 1) 0 (pauseTracking ex_effect)).2.

(** ** Vocabulary of writes to computed values *)

(** The computed value [c] stays in the table, with its effect and setter. *)
Definition keeps (c : cid) (s s' : State) : Prop :=
  ∀ cell, computeds s !! c = Some cell →
    ∃ cell', computeds s' !! c = Some cell' ∧ same_cell cell cell'.

(** What the application can do between the construction of a computed
    value and a write to it: every step of [later_step], the construction
    of a computed value and a write to one. *)
Inductive afterwards : State → State → Prop :=
| aw_later s s' : later_step s s' → afterwards s s'
| aw_computed tgt s : afterwards s (computed tgt s).2
| aw_write fuel c v s : afterwards s (computed_write (exec fuel) c v s).2.

(** [{ get: () => o.a, set: v => { o.a = v } }], the object 7, in a state of
    its own. *)
Definition ex_target : State :=
  {| registry := ∅; effects := ∅; fxStack := []; paused := 0;
     heap := {[ ex_a := VNum 1;
                (TObject 7, "get") := VObj CFunction 0;
                (TObject 7, "set") := VObj CFunction 1 ]};
     funs := {[ 0 := λ _, ex_getter; 1 := λ v, Put ex_a v (Ret VUndef) ]};
     computeds := ∅; instances := ∅; activeInstance := None;
     queue := []; pending := ∅; flushing := false; flushScheduled := false;
     jobs := ∅; renders := 0; trace := [] |}.

(** The computed value over that object, constructed and then read. *)
Definition ex_writable : State := (computed (VObj CObject 7) ex_target).2.
Definition ex_writable_read : State := (computed_read (exec 2) 0 ex_writable).2.

(** * Properties *)

(** ** Every run is a sequence of atomic transitions *)

Lemma bind_prims {A B} (m : res A * State) (k : A → State → res B * State) s :
  rtc prim s m.2 → (∀ a s1, rtc prim s1 (k a s1).2) → rtc prim s (bind m k).2.
Proof.
  intros Hm Hk. destruct m as [[a| |] s1]; simpl in *; eauto.
  etrans; eauto.
Qed.

Lemma propagate_prims a l s :
  activeFx s = Some a → rtc prim s (foldl (λ st sl, subscribe a sl st) s l).
Proof.
  revert s. induction l as [|sl l IH]; intros s Ha; simpl; [reflexivity|].
  eapply rtc_l; [by apply prim_subscribe|]. apply IH.
  unfold subscribe. case_bool_decide; done.
Qed.

Section soundness.
Variable R : runner.
Hypothesis HR : sound R.

Lemma call_value_prims f a s : rtc prim s (call_value R f a s).2.
Proof. unfold call_value. destruct (fn_body s f); [apply HR|reflexivity]. Qed.

Lemma update_prims i s : rtc prim s (update R i s).2.
Proof.
  unfold update. destruct (instances s !! i); [|reflexivity].
  apply bind_prims; [apply call_value_prims|].
  intros a s1. case_match; simpl; [|reflexivity].
  apply rtc_once, prim_log.
Qed.

Lemma call_raw_prims fn s : rtc prim s (call_raw R fn s).2.
Proof. destruct fn; simpl; [apply call_value_prims|apply update_prims]. Qed.

Lemma fx_run_prims e s : rtc prim s (fx_run R e s).2.
Proof.
  unfold fx_run. destruct (effects s !! e) as [f|] eqn:He; [|reflexivity].
  destruct (fx_active f); [|reflexivity].
  destruct (call_raw R (fx_raw f) _) as [r s2] eqn:Hc. simpl.
  eapply rtc_l; [by eapply prim_enter|].
  eapply rtc_r; [|apply prim_leave].
  pose proof (call_raw_prims (fx_raw f) (log (EvExec e) (set_fxStack (cons e) (cleanup e s)))) as H.
  by rewrite Hc in H.
Qed.

Lemma run_scheduler_prims sch s : rtc prim s (run_scheduler R sch s).2.
Proof.
  destruct sch; simpl.
  - apply rtc_once, prim_dirty.
  - apply rtc_once, prim_schedule.
  - apply HR.
Qed.

Lemma notify_prims e s : rtc prim s (notify R e s).2.
Proof.
  unfold notify. destruct (effects s !! e) as [f|]; [|reflexivity].
  destruct (fx_active f); [|reflexivity].
  destruct (fx_scheduler f).
  - eapply rtc_l; [apply (prim_log (EvSched e))|]. apply run_scheduler_prims.
  - case_match; [reflexivity|]. apply fx_run_prims.
Qed.

Lemma dispatch_prims es s : rtc prim s (dispatch R es s).2.
Proof.
  revert s. induction es as [|e es IH]; intros s; simpl; [reflexivity|].
  apply bind_prims; [apply notify_prims|]. intros _ s1. apply IH.
Qed.

Lemma trigger_prims sl op s : rtc prim s (trigger R sl op s).2.
Proof.
  unfold trigger. eapply rtc_l; [apply (prim_log (EvTrigger sl.1 op sl.2))|].
  apply dispatch_prims.
Qed.

Lemma computed_read_prims c s : rtc prim s (computed_read R c s).2.
Proof.
  unfold computed_read. destruct (computeds s !! c) as [cell|]; [|reflexivity].
  apply bind_prims.
  - destruct (c_dirty cell); [|reflexivity].
    apply bind_prims; [apply fx_run_prims|].
    intros v s1. simpl. apply rtc_once, prim_recomputed.
  - intros _ s2. simpl. destruct (activeFx s2) eqn:Ha; [|reflexivity].
    by apply propagate_prims.
Qed.

Lemma step_prims p s : rtc prim s (step R p s).2.
Proof.
  revert s.
  induction p as [v|x|sl k IH|sl op k IH|sl k IH|sl v k IH|c k IH|e k IH|e k IH|j k IH];
    intros s; simpl.
  - reflexivity.
  - reflexivity.
  - eapply rtc_l; [apply prim_track|]. apply IH.
  - apply bind_prims; [apply trigger_prims|]. intros _ s1. apply IH.
  - apply IH.
  - eapply rtc_l; [apply prim_store|]. apply IH.
  - apply bind_prims; [apply computed_read_prims|]. intros v s1. apply IH.
  - apply bind_prims; [apply fx_run_prims|]. intros v s1. apply IH.
  - eapply rtc_l; [apply prim_stop|]. apply IH.
  - eapply rtc_l; [apply prim_push|]. apply IH.
Qed.

End soundness.

Lemma exec_sound fuel : sound (exec fuel).
Proof.
  induction fuel as [|f IH]; intros p s; simpl; [reflexivity|]. by apply step_prims.
Qed.

(** ** The stack of active effects is restored *)

Lemma bind_stack {A B} (m : res A * State) (k : A → State → res B * State) s :
  fxStack m.2 = fxStack s → (∀ a s1, fxStack (k a s1).2 = fxStack s1) →
  fxStack (bind m k).2 = fxStack s.
Proof.
  intros Hm Hk. destruct m as [[a| |] s1]; simpl in *; eauto.
  by rewrite Hk.
Qed.

Lemma subscribe_stack a sl s : fxStack (subscribe a sl s) = fxStack s.
Proof. unfold subscribe. by case_bool_decide. Qed.

Lemma track_stack sl s : fxStack (track sl s) = fxStack s.
Proof.
  unfold track. case_bool_decide; [done|].
  destruct (activeFx s); [apply subscribe_stack|done].
Qed.

Lemma cleanup_stack e s : fxStack (cleanup e s) = fxStack s.
Proof. unfold cleanup. by destruct (effects s !! e). Qed.

Lemma queue_push_stack j s : fxStack (queue_push j s) = fxStack s.
Proof. unfold queue_push. case_bool_decide; [done|]. by destruct (flushing s). Qed.

Lemma scheduleUpdate_stack i s : fxStack (scheduleUpdate i s) = fxStack s.
Proof.
  unfold scheduleUpdate. destruct (instances s !! i) as [inst|]; [|done].
  destruct (i_rendering inst); [done|]. by rewrite queue_push_stack.
Qed.

Lemma propagate_stack a l s : fxStack (foldl (λ st sl, subscribe a sl st) s l) = fxStack s.
Proof.
  revert s. induction l as [|sl l IH]; intros s; simpl; [done|]. by rewrite IH, subscribe_stack.
Qed.

Lemma fx_stop_stack e s : fxStack (fx_stop e s) = fxStack s.
Proof. unfold fx_stop. simpl. apply cleanup_stack. Qed.

Section balance.
Variable R : runner.
Hypothesis HR : balanced R.

Lemma call_value_stack f a s : fxStack (call_value R f a s).2 = fxStack s.
Proof. unfold call_value. destruct (fn_body s f); [apply HR|done]. Qed.

Lemma update_stack i s : fxStack (update R i s).2 = fxStack s.
Proof.
  unfold update. destruct (instances s !! i); [|done].
  apply bind_stack; [apply call_value_stack|]. intros a s1. by case_match.
Qed.

Lemma call_raw_stack fn s : fxStack (call_raw R fn s).2 = fxStack s.
Proof. destruct fn; simpl; [apply call_value_stack|apply update_stack]. Qed.

Lemma fx_run_stack e s : fxStack (fx_run R e s).2 = fxStack s.
Proof.
  unfold fx_run. destruct (effects s !! e) as [f|]; [|done].
  destruct (fx_active f); [|done].
  destruct (call_raw R (fx_raw f) _) as [r s2] eqn:Hc. simpl.
  pose proof (call_raw_stack (fx_raw f) (log (EvExec e) (set_fxStack (cons e) (cleanup e s)))) as H.
  rewrite Hc in H. simpl in H. rewrite H. by rewrite cleanup_stack.
Qed.

Lemma run_scheduler_stack sch s : fxStack (run_scheduler R sch s).2 = fxStack s.
Proof. destruct sch; simpl; [done|apply scheduleUpdate_stack|apply HR]. Qed.

Lemma notify_stack e s : fxStack (notify R e s).2 = fxStack s.
Proof.
  unfold notify. destruct (effects s !! e) as [f|]; [|done].
  destruct (fx_active f); [|done]. destruct (fx_scheduler f).
  - by rewrite run_scheduler_stack.
  - case_match; [done|]. apply fx_run_stack.
Qed.

Lemma dispatch_stack es s : fxStack (dispatch R es s).2 = fxStack s.
Proof.
  revert s. induction es as [|e es IH]; intros s; simpl; [done|].
  apply bind_stack; [apply notify_stack|]. intros _ s1. apply IH.
Qed.

Lemma trigger_stack sl op s : fxStack (trigger R sl op s).2 = fxStack s.
Proof. unfold trigger. by rewrite dispatch_stack. Qed.

Lemma computed_read_stack c s : fxStack (computed_read R c s).2 = fxStack s.
Proof.
  unfold computed_read. destruct (computeds s !! c) as [cell|]; [|done].
  apply bind_stack.
  - destruct (c_dirty cell); [|done]. apply bind_stack; [apply fx_run_stack|done].
  - intros _ s2. simpl. destruct (activeFx s2); [apply propagate_stack|done].
Qed.

Lemma step_stack p s : fxStack (step R p s).2 = fxStack s.
Proof.
  revert s.
  induction p as [v|x|sl k IH|sl op k IH|sl k IH|sl v k IH|c k IH|e k IH|e k IH|j k IH];
    intros s; simpl.
  - done.
  - done.
  - by rewrite IH, track_stack.
  - apply bind_stack; [apply trigger_stack|]. intros _ s1. apply IH.
  - apply IH.
  - by rewrite IH.
  - apply bind_stack; [apply computed_read_stack|]. intros v s1. apply IH.
  - apply bind_stack; [apply fx_run_stack|]. intros v s1. apply IH.
  - by rewrite IH, fx_stop_stack.
  - by rewrite IH, queue_push_stack.
Qed.

End balance.

Lemma exec_balanced fuel : balanced (exec fuel).
Proof. induction fuel as [|f IH]; intros p s; simpl; [done|]. by apply step_stack. Qed.

(** ** Deps and deps lists *)

Lemma elem_of_dep_add e e' d : e' ∈ dep_add e d ↔ e' = e ∨ e' ∈ d.
Proof.
  unfold dep_add. case_bool_decide as H.
  - split; [auto|]. intros [->|]; done.
  - rewrite elem_of_app, list_elem_of_singleton. tauto.
Qed.

Lemma NoDup_dep_add e d : NoDup d → NoDup (dep_add e d).
Proof.
  intros Hd. unfold dep_add. case_bool_decide as H; [done|].
  apply NoDup_app. split_and!; [done| |apply NoDup_singleton].
  intros x Hx ->%list_elem_of_singleton. done.
Qed.

Lemma elem_of_dep_delete e e' d : e' ∈ dep_delete e d ↔ e' ≠ e ∧ e' ∈ d.
Proof. unfold dep_delete. by rewrite list_elem_of_filter. Qed.

Lemma NoDup_dep_delete e d : NoDup d → NoDup (dep_delete e d).
Proof. apply NoDup_filter. Qed.

Lemma subscribe_id e sl s : e ∈ dep_of s sl → subscribe e sl s = s.
Proof. intros H. unfold subscribe. by rewrite bool_decide_eq_true_2. Qed.

Lemma dep_of_subscribe e sl s sl' :
  dep_of (subscribe e sl s) sl' =
  if decide (sl' = sl) then dep_add e (dep_of s sl) else dep_of s sl'.
Proof.
  unfold subscribe, dep_add. case_bool_decide as H.
  - case_decide; by subst.
  - unfold dep_of at 1. simpl. case_decide; subst.
    + by rewrite lookup_insert_eq.
    + by rewrite lookup_insert_ne.
Qed.

Lemma deps_of_subscribe e sl s e' :
  e ∉ dep_of s sl →
  deps_of (subscribe e sl s) e' =
  if decide (e' = e) then from_option (λ f, fx_deps f ++ [sl]) [] (effects s !! e)
  else deps_of s e'.
Proof.
  intros H. unfold subscribe. rewrite bool_decide_eq_false_2 by done.
  unfold deps_of. simpl. case_decide; subst.
  - rewrite lookup_alter_eq. by destruct (effects s !! e).
  - by rewrite lookup_alter_ne.
Qed.

Lemma effects_subscribe_is_Some e sl s e' :
  is_Some (effects (subscribe e sl s) !! e') ↔ is_Some (effects s !! e').
Proof.
  unfold subscribe. case_bool_decide; [done|]. simpl.
  destruct (decide (e' = e)); subst.
  - rewrite lookup_alter_eq. by rewrite fmap_is_Some.
  - by rewrite lookup_alter_ne.
Qed.

Lemma cleanup_none e s : effects s !! e = None → cleanup e s = s.
Proof. intros H. unfold cleanup. by rewrite H. Qed.

Lemma lookup_foldr_alter_dep (e : nat) (l : list (target * string)) (r : gmap (target * string) (list nat)) sl :
  foldr (λ sl r', alter (dep_delete e) sl r') r l !! sl =
  if decide (sl ∈ l) then dep_delete e <$> (r !! sl) else r !! sl.
Proof.
  induction l as [|x l IH]; simpl.
  - done.
  - destruct (decide (sl = x)) as [->|Hne].
    + rewrite lookup_alter_eq, IH.
      rewrite (decide_True (P := x ∈ x :: l)) by left.
      destruct (decide (x ∈ l)); [|done].
      destruct (r !! x); simpl; [|done]. f_equal.
      unfold dep_delete. rewrite list_filter_filter. apply list_filter_iff. tauto.
    + rewrite lookup_alter_ne by done. rewrite IH.
      case_decide as H1; case_decide as H2; try done.
      * exfalso. apply H2. by right.
      * exfalso. apply elem_of_cons in H2 as [?|?]; done.
Qed.

Lemma dep_of_cleanup e f s sl :
  effects s !! e = Some f →
  dep_of (cleanup e s) sl =
  if decide (sl ∈ fx_deps f) then dep_delete e (dep_of s sl) else dep_of s sl.
Proof.
  intros H. unfold cleanup. rewrite H. unfold dep_of. simpl.
  rewrite lookup_foldr_alter_dep. case_decide; [|done].
  by destruct (registry s !! sl).
Qed.

Lemma effects_cleanup e f s :
  effects s !! e = Some f → effects (cleanup e s) = <[e := fx_with_deps [] f]> (effects s).
Proof. intros H. unfold cleanup. by rewrite H. Qed.

Lemma deps_of_cleanup e f s e' :
  effects s !! e = Some f →
  deps_of (cleanup e s) e' = if decide (e' = e) then [] else deps_of s e'.
Proof.
  intros H. unfold deps_of. rewrite (effects_cleanup e f) by done.
  case_decide; subst.
  - by rewrite lookup_insert_eq.
  - by rewrite lookup_insert_ne.
Qed.

Lemma effects_cleanup_is_Some e s e' :
  is_Some (effects (cleanup e s) !! e') ↔ is_Some (effects s !! e').
Proof.
  destruct (effects s !! e) as [f|] eqn:H.
  - rewrite (effects_cleanup e f) by done. destruct (decide (e' = e)); subst.
    + rewrite lookup_insert_eq, H. split; eauto.
    + by rewrite lookup_insert_ne.
  - by rewrite cleanup_none.
Qed.

(** wf only looks at the registry, the effects' deps and the stack *)
Lemma wf_frame s s' :
  registry s' = registry s → (∀ e, fx_deps <$> effects s' !! e = fx_deps <$> effects s !! e) →
  fxStack s' = fxStack s → wf s → wf s'.
Proof.
  intros Hr He Hs [W1 W2 W3 W4].
  assert (Hdep : ∀ sl, dep_of s' sl = dep_of s sl) by (intros; unfold dep_of; by rewrite Hr).
  assert (Hdeps : ∀ e, deps_of s' e = deps_of s e).
  { intros e. unfold deps_of. specialize (He e).
    destruct (effects s' !! e), (effects s !! e); simpl in *; congruence. }
  split.
  - intros sl. rewrite Hdep. apply W1.
  - intros e sl. rewrite Hdep, Hdeps. apply W2.
  - intros e. rewrite Hdeps. apply W3.
  - intros e. rewrite Hs. intros H%W4. specialize (He e).
    destruct H as [f Hf]. rewrite Hf in He. destruct (effects s' !! e); [eauto|done].
Qed.

Lemma wf_subscribe e sl s : is_Some (effects s !! e) → wf s → wf (subscribe e sl s).
Proof.
  intros [f Hf] [W1 W2 W3 W4].
  destruct (decide (e ∈ dep_of s sl)) as [Hin|Hin].
  { rewrite subscribe_id by done. by split. }
  split.
  - intros sl'. rewrite dep_of_subscribe. case_decide; [|apply W1].
    apply NoDup_dep_add, W1.
  - intros e' sl'. rewrite dep_of_subscribe, deps_of_subscribe by done.
    rewrite Hf. simpl.
    destruct (decide (sl' = sl)) as [->|Hsl], (decide (e' = e)) as [->|He].
    + rewrite elem_of_dep_add, elem_of_app, list_elem_of_singleton. tauto.
    + rewrite elem_of_dep_add. rewrite <- W2. intuition congruence.
    + rewrite elem_of_app, list_elem_of_singleton. rewrite W2. unfold deps_of. rewrite Hf. simpl.
      intuition congruence.
    + apply W2.
  - intros e'. rewrite deps_of_subscribe by done. case_decide; [|apply W3].
    rewrite Hf. simpl. apply NoDup_app. split_and!.
    + specialize (W3 e). unfold deps_of in W3. by rewrite Hf in W3.
    + intros x Hx ->%list_elem_of_singleton. apply Hin. apply W2. unfold deps_of. by rewrite Hf.
    + apply NoDup_singleton.
  - intros e'. assert (fxStack (subscribe e sl s) = fxStack s) as -> by (unfold subscribe; by case_bool_decide). rewrite effects_subscribe_is_Some. apply W4.
Qed.

(** ** Well-formedness is preserved *)

Lemma wf_cleanup e s : wf s → wf (cleanup e s).
Proof.
  intros [W1 W2 W3 W4].
  destruct (effects s !! e) as [f|] eqn:Hf; [|by rewrite cleanup_none].
  assert (Hd : deps_of s e = fx_deps f) by (unfold deps_of; by rewrite Hf).
  split.
  - intros sl. rewrite (dep_of_cleanup e f) by done. case_decide; [|apply W1].
    apply NoDup_dep_delete, W1.
  - intros e' sl. rewrite (dep_of_cleanup e f), (deps_of_cleanup e f) by done.
    destruct (decide (e' = e)) as [->|Hne].
    + split; [|by intros ?%elem_of_nil].
      case_decide as Hin.
      * rewrite elem_of_dep_delete. by intros [].
      * intros H%W2. by rewrite Hd in H.
    + case_decide; [|apply W2].
      rewrite elem_of_dep_delete, W2. tauto.
  - intros e'. rewrite (deps_of_cleanup e f) by done. case_decide; [apply NoDup_nil_2|apply W3].
  - intros e'. rewrite cleanup_stack, effects_cleanup_is_Some. apply W4.
Qed.

Lemma wf_track sl s : wf s → wf (track sl s).
Proof.
  intros W. unfold track. case_bool_decide; [done|].
  destruct (activeFx s) as [a|] eqn:Ha; [|done].
  apply wf_subscribe; [|done]. apply W.
  unfold activeFx in Ha. destruct (fxStack s); simplify_eq/=. apply list_elem_of_here.
Qed.

Lemma wf_queue_push j s : wf s → wf (queue_push j s).
Proof.
  unfold queue_push. case_bool_decide; [done|].
  intros W. destruct (flushing s); (eapply wf_frame; [| | |exact W]; done).
Qed.

Lemma wf_scheduleUpdate i s : wf s → wf (scheduleUpdate i s).
Proof.
  intros W. unfold scheduleUpdate. destruct (instances s !! i) as [inst|]; [|done].
  destruct (i_rendering inst); [done|]. apply wf_queue_push.
  eapply wf_frame; [| | |exact W]; done.
Qed.

Lemma wf_fx_stop e s : wf s → wf (fx_stop e s).
Proof.
  intros W%(wf_cleanup e). unfold fx_stop. eapply wf_frame; [..|exact W]; try done.
  intros e'. simpl. destruct (decide (e' = e)) as [->|].
  - rewrite lookup_alter_eq. by destruct (effects (cleanup e s) !! e).
  - by rewrite lookup_alter_ne.
Qed.

Lemma wf_leave s : wf s → wf (set_fxStack tail s).
Proof.
  intros [W1 W2 W3 W4]. split; try done.
  intros e H. apply W4. simpl in H. destruct (fxStack s); [done|]. by right.
Qed.

Lemma wf_enter e f s :
  effects s !! e = Some f → wf s → wf (log (EvExec e) (set_fxStack (cons e) (cleanup e s))).
Proof.
  intros Hf W%(wf_cleanup e). destruct W as [W1 W2 W3 W4]. split; try done.
  intros e' H. simpl in H. apply elem_of_cons in H as [->|H].
  - apply effects_cleanup_is_Some. eauto.
  - by apply W4.
Qed.

Lemma wf_set_heap f s : wf s → wf (set_heap f s).
Proof. intros W. eapply wf_frame; [| | |exact W]; done. Qed.

Lemma wf_prim s s' : prim s s' → wf s → wf s'.
Proof.
  intros Hp W. destruct Hp.
  - by apply wf_track.
  - eapply wf_frame; [| | |exact W]; done.
  - by apply wf_fx_stop.
  - by apply wf_queue_push.
  - eapply wf_frame; [| | |exact W]; done.
  - eapply wf_frame; [| | |exact W]; done.
  - by apply wf_scheduleUpdate.
  - by eapply wf_enter.
  - by apply wf_leave.
  - eapply wf_frame; [| | |exact W]; done.
  - apply wf_subscribe; [|done]. apply W.
    unfold activeFx in *. destruct (fxStack s); simplify_eq/=. apply list_elem_of_here.
Qed.

Lemma wf_prims s s' : rtc prim s s' → wf s → wf s'.
Proof. induction 1; eauto using wf_prim. Qed.

Lemma wf_exec fuel p s : wf s → wf (exec fuel p s).2.
Proof. apply wf_prims, exec_sound. Qed.

(** ** Reading a computed value inside an effect *)

Lemma occurrences_cons e x d :
  occurrences e (x :: d) = (if decide (x = e) then 1 else 0) + occurrences e d.
Proof. unfold occurrences. rewrite filter_cons. by case_decide. Qed.

Lemma occurrences_notin e d : e ∉ d → occurrences e d = 0.
Proof.
  induction d as [|x d IH]; [done|]. rewrite not_elem_of_cons. intros [Hne Hd].
  rewrite occurrences_cons, IH by done. by rewrite decide_False.
Qed.

Lemma occurrences_NoDup e d : NoDup d → e ∈ d → occurrences e d = 1.
Proof.
  induction 1 as [|x l Hx Hl IH]; intros He.
  - by apply elem_of_nil in He.
  - rewrite occurrences_cons. apply elem_of_cons in He as [->|He].
    + rewrite decide_True by done. by rewrite occurrences_notin.
    + rewrite IH by done. rewrite decide_False; [done|]. by intros ->.
Qed.

Lemma occurrences_le_1 e d : NoDup d → occurrences e d ≤ 1.
Proof.
  intros Hd. destruct (decide (e ∈ d)).
  - by rewrite occurrences_NoDup.
  - rewrite occurrences_notin by done. lia.
Qed.

Lemma subscribe_mono a sl s e sl' : e ∈ dep_of s sl' → e ∈ dep_of (subscribe a sl s) sl'.
Proof.
  intros H. rewrite dep_of_subscribe. case_decide; [|done]. subst.
  apply elem_of_dep_add. by right.
Qed.

Lemma subscribe_elem a sl s : a ∈ dep_of (subscribe a sl s) sl.
Proof. rewrite dep_of_subscribe, decide_True by done. apply elem_of_dep_add. by left. Qed.

Lemma propagate_mono a l s e sl :
  e ∈ dep_of s sl → e ∈ dep_of (foldl (λ st sl, subscribe a sl st) s l) sl.
Proof.
  revert s. induction l as [|x l IH]; intros s H; simpl; [done|].
  apply IH. by apply subscribe_mono.
Qed.

Lemma propagate_elem a l s sl :
  sl ∈ l → a ∈ dep_of (foldl (λ st sl, subscribe a sl st) s l) sl.
Proof.
  revert s. induction l as [|x l IH]; intros s H; simpl.
  - by apply elem_of_nil in H.
  - apply elem_of_cons in H as [->|H]; [|by apply IH].
    apply propagate_mono, subscribe_elem.
Qed.

Lemma deps_of_subscribe_ne a sl s e : e ≠ a → deps_of (subscribe a sl s) e = deps_of s e.
Proof.
  intros Hne. destruct (decide (a ∈ dep_of s sl)).
  - by rewrite subscribe_id.
  - rewrite deps_of_subscribe by done. by rewrite decide_False.
Qed.

Lemma propagate_deps_ne a l s e :
  e ≠ a → deps_of (foldl (λ st sl, subscribe a sl st) s l) e = deps_of s e.
Proof.
  intros Hne. revert s. induction l as [|x l IH]; intros s; simpl; [done|].
  by rewrite IH, deps_of_subscribe_ne.
Qed.

Lemma activeFx_stack s s' : fxStack s' = fxStack s → activeFx s' = activeFx s.
Proof. unfold activeFx. by intros ->. Qed.

(** The state in which the propagation loop of a computed read starts. *)
Lemma computed_read_inv fuel c cell s v s' :
  computeds s !! c = Some cell →
  computed_read (exec fuel) c s = (Ok v, s') →
  ∃ s2, rtc prim s s2 ∧ fxStack s2 = fxStack s ∧
        s' = match activeFx s2 with
             | Some a => foldl (λ st sl, subscribe a sl st) s2 (deps_of s2 (c_fx cell))
             | None => s2
             end.
Proof.
  intros Hc. unfold computed_read. rewrite Hc.
  destruct (c_dirty cell).
  - pose proof (fx_run_prims (exec fuel) (exec_sound fuel) (c_fx cell) s) as Hp.
    pose proof (fx_run_stack (exec fuel) (exec_balanced fuel) (c_fx cell) s) as Hs.
    destruct (fx_run (exec fuel) (c_fx cell) s) as [[w| |] s1]; simpl in *; intros H; simplify_eq.
    exists (set_computeds (alter (c_recomputed w) c) s1). split_and!; [|by rewrite <- Hs|done].
    eapply rtc_r; [exact Hp|apply prim_recomputed].
  - simpl. intros H; simplify_eq. exists s. by split_and!.
Qed.

(** C2. After a read of a computed value while an outer effect is active,
    every Dep in the deps list of the internal effect contains the outer
    effect exactly once and is in the deps list of the outer effect, which
    has no duplicates; no Dep contains an effect twice. *)
Theorem computed_read_propagates fuel c cell a s v s' :
  wf s →
  computeds s !! c = Some cell →
  activeFx s = Some a →
  computed_read (exec fuel) c s = (Ok v, s') →
  (∀ sl, sl ∈ deps_of s' (c_fx cell) →
     occurrences a (dep_of s' sl) = 1 ∧ sl ∈ deps_of s' a) ∧
  NoDup (deps_of s' a) ∧
  (∀ sl e, occurrences e (dep_of s' sl) ≤ 1).
Proof.
  intros W Hc Ha Hr.
  destruct (computed_read_inv fuel c cell s v s' Hc Hr) as (s2 & Hp & Hs & ->).
  rewrite (activeFx_stack s s2), Ha by done.
  pose proof (wf_prims _ _ Hp W) as W2.
  assert (Ha2 : activeFx s2 = Some a) by (by rewrite (activeFx_stack s s2)).
  pose proof (wf_prims _ _ (propagate_prims a (deps_of s2 (c_fx cell)) s2 Ha2) W2) as W3.
  set (s3 := foldl _ s2 _) in *.
  assert (Hin : ∀ sl, sl ∈ deps_of s3 (c_fx cell) → a ∈ dep_of s3 sl).
  { intros sl Hsl. destruct (decide (c_fx cell = a)) as [<-|Hne].
    - by apply (wf_mirror _ W3).
    - unfold s3 in Hsl. rewrite propagate_deps_ne in Hsl by done.
      by apply propagate_elem. }
  split_and!.
  - intros sl Hsl. split.
    + apply occurrences_NoDup; [apply W3|by apply Hin].
    + apply (wf_mirror _ W3). by apply Hin.
  - apply W3.
  - intros sl e. apply occurrences_le_1, W3.
Qed.

(** ** Effects that only read *)

(** What tracking leaves alone. *)
Lemma subscribe_frame e sl s :
  paused (subscribe e sl s) = paused s ∧ heap (subscribe e sl s) = heap s ∧
  funs (subscribe e sl s) = funs s ∧ computeds (subscribe e sl s) = computeds s ∧
  trace (subscribe e sl s) = trace s.
Proof. unfold subscribe. by case_bool_decide. Qed.

Lemma track_frame sl s :
  paused (track sl s) = paused s ∧ heap (track sl s) = heap s ∧
  funs (track sl s) = funs s ∧ computeds (track sl s) = computeds s ∧
  trace (track sl s) = trace s.
Proof.
  unfold track. case_bool_decide; [done|].
  destruct (activeFx s); [apply subscribe_frame|done].
Qed.

Lemma cleanup_frame e s :
  paused (cleanup e s) = paused s ∧ heap (cleanup e s) = heap s ∧
  funs (cleanup e s) = funs s ∧ computeds (cleanup e s) = computeds s ∧
  trace (cleanup e s) = trace s.
Proof. unfold cleanup. by destruct (effects s !! e). Qed.

Lemma track_all_frame l s :
  fxStack (track_all l s) = fxStack s ∧
  paused (track_all l s) = paused s ∧ heap (track_all l s) = heap s ∧
  funs (track_all l s) = funs s ∧ computeds (track_all l s) = computeds s ∧
  trace (track_all l s) = trace s.
Proof.
  revert s. induction l as [|sl l IH]; intros s; [done|].
  unfold track_all in *. simpl.
  destruct (IH (track sl s)) as (-> & -> & -> & -> & -> & ->).
  rewrite track_stack. destruct (track_frame sl s) as (-> & -> & -> & -> & ->). done.
Qed.

Lemma step_reads_only R p s :
  reads_only p →
  step R p s = (result_of (heap s) p, track_all (reads_of (heap s) p) s).
Proof.
  intros Hp. revert s. induction Hp as [v|x|sl k Hk IH|sl k Hk IH]; intros s; simpl; try done.
  rewrite IH. destruct (track_frame sl s) as (_ & -> & _). done.
Qed.

Lemma subscribe_static e sl s e' :
  fx_static <$> effects (subscribe e sl s) !! e' = fx_static <$> effects s !! e'.
Proof.
  unfold subscribe. case_bool_decide; [done|]. simpl.
  destruct (decide (e' = e)) as [->|].
  - rewrite lookup_alter_eq. by destruct (effects s !! e).
  - by rewrite lookup_alter_ne.
Qed.

Lemma track_static sl s e' :
  fx_static <$> effects (track sl s) !! e' = fx_static <$> effects s !! e'.
Proof.
  unfold track. case_bool_decide; [done|].
  destruct (activeFx s); [apply subscribe_static|done].
Qed.

Lemma track_all_static l s e' :
  fx_static <$> effects (track_all l s) !! e' = fx_static <$> effects s !! e'.
Proof.
  revert s. induction l as [|sl l IH]; intros s; [done|].
  unfold track_all in *. simpl. by rewrite IH, track_static.
Qed.

Lemma cleanup_static e s e' :
  fx_static <$> effects (cleanup e s) !! e' = fx_static <$> effects s !! e'.
Proof.
  destruct (effects s !! e) as [f|] eqn:Hf; [|by rewrite cleanup_none].
  rewrite (effects_cleanup e f) by done. destruct (decide (e' = e)) as [->|].
  - by rewrite lookup_insert_eq, Hf.
  - by rewrite lookup_insert_ne.
Qed.

Lemma propagate_static a l s e' :
  fx_static <$> effects (foldl (λ st sl, subscribe a sl st) s l) !! e' = fx_static <$> effects s !! e'.
Proof.
  revert s. induction l as [|sl l IH]; intros s; simpl; [done|].
  by rewrite IH, subscribe_static.
Qed.

Lemma propagate_frame a l s :
  paused (foldl (λ st sl, subscribe a sl st) s l) = paused s ∧
  heap (foldl (λ st sl, subscribe a sl st) s l) = heap s ∧
  funs (foldl (λ st sl, subscribe a sl st) s l) = funs s ∧
  computeds (foldl (λ st sl, subscribe a sl st) s l) = computeds s ∧
  trace (foldl (λ st sl, subscribe a sl st) s l) = trace s.
Proof.
  revert s. induction l as [|sl l IH]; intros s; simpl; [done|].
  destruct (IH (subscribe a sl s)) as (-> & -> & -> & -> & ->).
  apply subscribe_frame.
Qed.

(** Tracking with an active effect and no pause. *)
Lemma track_subscribes sl s e :
  paused s = 0 → activeFx s = Some e → track sl s = subscribe e sl s.
Proof. intros Hp Ha. unfold track. rewrite Hp, Ha. done. Qed.

Lemma track_paused sl s : 0 < paused s → track sl s = s.
Proof. intros Hp. unfold track. by rewrite bool_decide_eq_true_2. Qed.

Lemma track_all_paused l s : 0 < paused s → track_all l s = s.
Proof.
  intros Hp. induction l as [|sl l IH]; [done|].
  unfold track_all in *. simpl. by rewrite track_paused.
Qed.

Lemma track_all_propagate l s e :
  paused s = 0 → activeFx s = Some e →
  track_all l s = foldl (λ st sl, subscribe e sl st) s l.
Proof.
  revert s. induction l as [|sl l IH]; intros s Hp Ha; [done|].
  unfold track_all in *. simpl. rewrite (track_subscribes sl s e) by done.
  apply IH.
  - by destruct (subscribe_frame e sl s) as (-> & _).
  - by rewrite (activeFx_stack s), Ha by apply subscribe_stack.
Qed.

Lemma dep_of_subscribe_elem a sl s e sl' :
  e ∈ dep_of (subscribe a sl s) sl' ↔ e ∈ dep_of s sl' ∨ (e = a ∧ sl' = sl).
Proof.
  rewrite dep_of_subscribe. case_decide as H.
  - subst. rewrite elem_of_dep_add. intuition congruence.
  - intuition congruence.
Qed.

Lemma propagate_dep_elem a l s e sl :
  e ∈ dep_of (foldl (λ st sl, subscribe a sl st) s l) sl ↔
  e ∈ dep_of s sl ∨ (e = a ∧ sl ∈ l).
Proof.
  revert s. induction l as [|x l IH]; intros s; simpl.
  - split; [by left|]. intros [|[_ H]]; [done|]. by apply elem_of_nil in H.
  - rewrite IH, dep_of_subscribe_elem, elem_of_cons. intuition congruence.
Qed.

Lemma elem_of_dedup e l : e ∈ dedup l ↔ e ∈ l.
Proof.
  unfold dedup.
  assert (H : ∀ acc, e ∈ foldl (λ acc e, dep_add e acc) acc l ↔ e ∈ acc ∨ e ∈ l).
  { induction l as [|x l IH]; intros acc; simpl.
    - split; [by left|]. intros [|H]; [done|]. by apply elem_of_nil in H.
    - rewrite IH, elem_of_dep_add, elem_of_cons. intuition congruence. }
  rewrite H. split; [|by right]. intros [H0|]; [|done]. by apply elem_of_nil in H0.
Qed.

Lemma fn_body_funs s s' g : funs s' = funs s → fn_body s' g = fn_body s g.
Proof. intros H. unfold fn_body. by rewrite H. Qed.

(** Running an effect whose function only reads. *)
Lemma fx_run_reads_only fuel e f g b s :
  effects s !! e = Some f → fx_active f = true → fx_raw f = FnValue g →
  fn_body s g = Some b → reads_only (b VUndef) →
  fx_run (exec (S fuel)) e s =
    (result_of (heap s) (b VUndef),
     set_fxStack tail
       (track_all (reads_of (heap s) (b VUndef))
          (log (EvExec e) (set_fxStack (cons e) (cleanup e s))))).
Proof.
  intros He Ha Hraw Hb Hro. unfold fx_run. rewrite He, Ha, Hraw. simpl.
  unfold call_value.
  rewrite (fn_body_funs s) by (simpl; apply cleanup_frame). rewrite Hb.
  simpl. rewrite step_reads_only by done. simpl.
  by destruct (cleanup_frame e s) as (_ & -> & _).
Qed.

(** ** Triggers that only reach schedulers *)

Lemma execs_log e ev s :
  execs e (log ev s) = (if decide (ev = EvExec e) then 1 else 0) + execs e s.
Proof. unfold execs. simpl. rewrite filter_cons. by case_decide. Qed.

Lemma execs_trace e s s' : trace s' = trace s → execs e s' = execs e s.
Proof. unfold execs. by intros ->. Qed.

Lemma invalidated_refl s : invalidated s s.
Proof. split; auto. Qed.

Lemma invalidated_trans s1 s2 s3 : invalidated s1 s2 → invalidated s2 s3 → invalidated s1 s3.
Proof.
  intros [A1 A2 A3 A4 A5 A6 A7 A8] [B1 B2 B3 B4 B5 B6 B7 B8].
  split; [congruence..| |].
  - intros e. by rewrite B7.
  - intros c. destruct (A8 c) as [Ha|Ha], (B8 c) as [Hb|Hb]; rewrite Hb, Ha; auto.
    right. destruct (computeds s1 !! c); done.
Qed.

Lemma invalidated_dirty s s' c : invalidated s s' → dirty s c = true → dirty s' c = true.
Proof.
  intros H Hd. unfold dirty in *. destruct (inv_computeds _ _ H c) as [->| ->]; [done|].
  by destruct (computeds s !! c).
Qed.

Lemma queue_push_frame j s :
  registry (queue_push j s) = registry s ∧ effects (queue_push j s) = effects s ∧
  paused (queue_push j s) = paused s ∧ heap (queue_push j s) = heap s ∧
  funs (queue_push j s) = funs s ∧ computeds (queue_push j s) = computeds s ∧
  trace (queue_push j s) = trace s ∧ instances (queue_push j s) = instances s ∧
  jobs (queue_push j s) = jobs s.
Proof. unfold queue_push. case_bool_decide; [done|]. by destruct (flushing s). Qed.

Lemma scheduleUpdate_frame i s :
  registry (scheduleUpdate i s) = registry s ∧ effects (scheduleUpdate i s) = effects s ∧
  paused (scheduleUpdate i s) = paused s ∧ heap (scheduleUpdate i s) = heap s ∧
  funs (scheduleUpdate i s) = funs s ∧ computeds (scheduleUpdate i s) = computeds s ∧
  trace (scheduleUpdate i s) = trace s.
Proof.
  unfold scheduleUpdate. destruct (instances s !! i) as [inst|]; [|done].
  destruct (i_rendering inst); [done|].
  destruct (queue_push_frame (RenderJob i (renders s))
              (set_renders S
                 (set_instances <[i:=i_with_rendering true inst]> s)))
    as (-> & -> & -> & -> & -> & -> & -> & _). done.
Qed.

Lemma invalidated_scheduleUpdate i s : invalidated s (scheduleUpdate i s).
Proof.
  destruct (scheduleUpdate_frame i s) as (? & ? & ? & ? & ? & ? & ?).
  split; try done.
  - apply scheduleUpdate_stack.
  - intros e. by apply execs_trace.
  - intros c. left. congruence.
Qed.

Lemma invalidated_log ev s : (∀ e, ev ≠ EvExec e) → invalidated s (log ev s).
Proof.
  intros H. split; try done; [|by left].
  intros e. rewrite execs_log. rewrite decide_False; [done|apply H].
Qed.

Lemma invalidated_set_dirty c s : invalidated s (set_computeds (alter (c_with_dirty true) c) s).
Proof.
  split; try done. intros c'. simpl. destruct (decide (c' = c)) as [->|].
  - right. by rewrite lookup_alter_eq.
  - left. by rewrite lookup_alter_ne.
Qed.

(** Dispatch to an effect driven by a scheduler of the engine. *)
Lemma notify_quiet R e s :
  (∀ f, effects s !! e = Some f → fx_active f = true →
     (∃ c, fx_scheduler f = Some (SchedDirty c)) ∨ (∃ i, fx_scheduler f = Some (SchedInstance i))) →
  ∃ s', notify R e s = (Ok VUndef, s') ∧ invalidated s s' ∧
        ∀ f c, effects s !! e = Some f → fx_active f = true →
               fx_scheduler f = Some (SchedDirty c) → is_Some (computeds s !! c) →
               dirty s' c = true.
Proof.
  intros H. unfold notify. destruct (effects s !! e) as [f|] eqn:He.
  2:{ exists s. split_and!; [done|apply invalidated_refl|done]. }
  destruct (fx_active f) eqn:Ha.
  2:{ exists s. split_and!; [done|apply invalidated_refl|]. intros f' c' ? ?; simplify_eq; congruence. }
  destruct (H f eq_refl Ha) as [[c Hc]|[i Hi]].
  - rewrite Hc. simpl. eexists. split_and!; [done| |].
    + eapply invalidated_trans; [apply (invalidated_log (EvSched e)); done|].
      apply invalidated_set_dirty.
    + intros f' c' ? _ Hs [cell Hcell]. simplify_eq. unfold dirty. simpl.
      rewrite lookup_alter_eq, Hcell. done.
  - rewrite Hi. simpl. eexists. split_and!; [done| |].
    + eapply invalidated_trans; [apply (invalidated_log (EvSched e)); done|].
      apply invalidated_scheduleUpdate.
    + intros f' c' ? _ Hs. simplify_eq.
Qed.

Lemma dispatch_quiet R es s :
  (∀ e f, e ∈ es → effects s !! e = Some f → fx_active f = true →
     (∃ c, fx_scheduler f = Some (SchedDirty c)) ∨ (∃ i, fx_scheduler f = Some (SchedInstance i))) →
  ∃ s', dispatch R es s = (Ok VUndef, s') ∧ invalidated s s' ∧
        ∀ e f c, e ∈ es → effects s !! e = Some f → fx_active f = true →
               fx_scheduler f = Some (SchedDirty c) → is_Some (computeds s !! c) →
               dirty s' c = true.
Proof.
  revert s. induction es as [|e es IH]; intros s H; simpl.
  { exists s. split_and!; [done|apply invalidated_refl|]. intros ??? Hin. by apply elem_of_nil in Hin. }
  destruct (notify_quiet R e s) as (s1 & -> & Hi1 & Hd1).
  { intros f. apply H. apply list_elem_of_here. }
  simpl. destruct (IH s1) as (s2 & -> & Hi2 & Hd2).
  { intros e' f Hin. rewrite (inv_effects _ _ Hi1). apply H. by apply list_elem_of_further. }
  exists s2. split_and!; [done|by eapply invalidated_trans|].
  intros e' f c Hin He Ha Hs Hc. apply elem_of_cons in Hin as [->|Hin].
  - eapply invalidated_dirty; [exact Hi2|]. by eapply Hd1.
  - eapply Hd2; try done.
    + by rewrite (inv_effects _ _ Hi1).
    + destruct (inv_computeds _ _ Hi1 c) as [->| ->]; [done|]. by apply fmap_is_Some.
Qed.

Lemma invalidated_is_computed s s' c e body :
  invalidated s s' → is_computed s c e body → is_computed s' c e body.
Proof.
  intros Hi (cell & f & g & b & Hc & Hfx & He & Ha & Hraw & Hs & Hb & ->).
  destruct (inv_computeds _ _ Hi c) as [H|H]; rewrite Hc in H.
  - exists cell, f, g, b. rewrite (inv_effects _ _ Hi). split_and!; try done.
    by rewrite (fn_body_funs s) by apply Hi.
  - exists (c_with_dirty true cell), f, g, b. rewrite (inv_effects _ _ Hi). split_and!; try done.
    by rewrite (fn_body_funs s) by apply Hi.
Qed.

Lemma invalidated_cached s s' c : invalidated s s' → cached s' c = cached s c.
Proof.
  intros H. unfold cached. destruct (inv_computeds _ _ H c) as [->| ->]; [done|].
  by destruct (computeds s !! c).
Qed.

Lemma invalidated_dep_of s s' sl : invalidated s s' → dep_of s' sl = dep_of s sl.
Proof. intros H. unfold dep_of. by rewrite (inv_registry _ _ H). Qed.

Lemma invalidated_quiet s s' sl : invalidated s s' → quiet s sl → quiet s' sl.
Proof.
  intros Hi Hq e f. rewrite (invalidated_dep_of s s'), (inv_effects _ _ Hi) by done. apply Hq.
Qed.

Lemma trigger_quiet R sl s :
  quiet s sl →
  ∃ s', trigger R sl SET s = (Ok VUndef, s') ∧ invalidated s s' ∧
        ∀ c e body, is_computed s c e body → e ∈ dep_of s sl → dirty s' c = true.
Proof.
  intros Hq. unfold trigger.
  destruct (dispatch_quiet R (run_set s sl SET) (log (EvTrigger sl.1 SET sl.2) s)) as (s' & Hd & Hi & Hdirty).
  { intros e f Hin. apply Hq. unfold run_set in Hin. by rewrite elem_of_dedup in Hin. }
  exists s'. split_and!; [done| |].
  - eapply invalidated_trans; [apply (invalidated_log (EvTrigger sl.1 SET sl.2)); done|done].
  - intros c e body (cell & f & g & b & Hc & Hfx & He & Ha & Hraw & Hs & Hb & ->) Hin.
    eapply (Hdirty e f c); try done.
    unfold run_set. by rewrite elem_of_dedup.
Qed.

Lemma trigger_all_quiet R sls s :
  Forall (quiet s) sls →
  ∃ s', trigger_all R sls s = (Ok VUndef, s') ∧ invalidated s s' ∧
        ∀ c e body, is_computed s c e body → (∃ sl, sl ∈ sls ∧ e ∈ dep_of s sl) → dirty s' c = true.
Proof.
  revert s. induction sls as [|sl sls IH]; intros s Hq; simpl.
  { exists s. split_and!; [done|apply invalidated_refl|]. intros ???? (sl & Hin & _). by apply elem_of_nil in Hin. }
  apply Forall_cons in Hq as [Hq Hqs].
  destruct (trigger_quiet R sl s Hq) as (s1 & -> & Hi1 & Hd1). simpl.
  destruct (IH s1) as (s2 & -> & Hi2 & Hd2).
  { eapply Forall_impl; [exact Hqs|]. intros x. by apply invalidated_quiet. }
  exists s2. split_and!; [done|by eapply invalidated_trans|].
  intros c e body Hc (x & Hin & Hdep). apply elem_of_cons in Hin as [->|Hin].
  - eapply invalidated_dirty; [exact Hi2|]. by eapply Hd1.
  - eapply Hd2; [by eapply invalidated_is_computed|].
    exists x. split; [done|]. by rewrite (invalidated_dep_of s s1).
Qed.

(** ** Caching of computed values *)

(** The propagation loop at the end of a computed read touches deps only. *)
Lemma propagation_frame s l :
  let s' := match activeFx s with
            | Some a => foldl (λ st sl, subscribe a sl st) s l
            | None => s
            end in
  trace s' = trace s ∧ computeds s' = computeds s ∧ heap s' = heap s ∧ funs s' = funs s ∧
  (∀ e, fx_static <$> effects s' !! e = fx_static <$> effects s !! e).
Proof.
  simpl. destruct (activeFx s) as [a|]; [|done].
  destruct (propagate_frame a l s) as (_ & -> & -> & -> & ->).
  split_and!; try done. intros e. apply propagate_static.
Qed.


Lemma computed_read_dirty fuel c e body v s :
  is_computed s c e body → reads_only body → dirty s c = true →
  result_of (heap s) body = Ok v →
  ∃ s', computed_read (exec (S fuel)) c s = (Ok v, s') ∧
        trace s' = EvExec e :: trace s ∧
        computeds s' = alter (c_recomputed v) c (computeds s) ∧ heap s' = heap s ∧
        funs s' = funs s ∧
        (∀ e', fx_static <$> effects s' !! e' = fx_static <$> effects s !! e').
Proof.
  intros (cell & f & g & b & Hc & Hfx & He & Ha & Hraw & Hs & Hb & ->) Hro Hd Hv.
  unfold dirty in Hd. rewrite Hc in Hd. simpl in Hd.
  unfold computed_read. rewrite Hc, Hd, Hfx.
  rewrite (fx_run_reads_only fuel e f g b s) by done. rewrite Hv. simpl.
  set (s1 := log (EvExec e) (set_fxStack (cons e) (cleanup e s))).
  set (s2 := set_computeds _ (set_fxStack tail (track_all _ s1))).
  destruct (propagation_frame s2 (deps_of s2 e)) as (Ht & Hcs & Hh & Hf & Hst).
  destruct (track_all_frame (reads_of (heap s) (b VUndef)) s1) as (_ & _ & Hh1 & Hf1 & Hc1 & Ht1).
  destruct (cleanup_frame e s) as (_ & Hh0 & Hf0 & Hc0 & Ht0).
  eexists. split; [|split_and!].
  - f_equal. rewrite Hcs. unfold s2. simpl. rewrite lookup_alter_eq, Hc1. simpl. rewrite Hc0, Hc. done.
  - rewrite Ht. unfold s2. simpl. rewrite Ht1. simpl. by rewrite Ht0.
  - rewrite Hcs. unfold s2. simpl. rewrite Hc1. simpl. by rewrite Hc0.
  - rewrite Hh. unfold s2. simpl. rewrite Hh1. simpl. by rewrite Hh0.
  - rewrite Hf. unfold s2. simpl. rewrite Hf1. simpl. by rewrite Hf0.
  - intros e'. rewrite Hst. unfold s2. simpl. rewrite track_all_static. simpl. apply cleanup_static.
Qed.

Lemma is_computed_after_read s s' c e body :
  funs s' = funs s →
  (∀ e', fx_static <$> effects s' !! e' = fx_static <$> effects s !! e') →
  (∃ cell', computeds s' !! c = Some cell' ∧ c_fx cell' = e) →
  is_computed s c e body → is_computed s' c e body.
Proof.
  intros Hf Hst (cell' & Hc' & Hfx') (cell & f & g & b & Hc & Hfx & He & Ha & Hraw & Hs & Hb & ->).
  specialize (Hst e). rewrite He in Hst. destruct (effects s' !! e) as [f'|] eqn:He'; [|done].
  simpl in Hst. unfold fx_static in Hst. simplify_eq.
  exists cell', f', g, b. split_and!; try done; try congruence.
  by rewrite (fn_body_funs s).
Qed.

Lemma read_n_S R c n s :
  read_n R c (S n) s =
  let '(r, s1) := computed_read R c s in
  let '(rs, s2) := read_n R c n s1 in (r :: rs, s2).
Proof. done. Qed.


Lemma prim_computeds s s' c cell :
  prim s s' → computeds s !! c = Some cell →
  ∃ cell', computeds s' !! c = Some cell' ∧ same_cell cell cell'.
Proof.
  intros Hp Hc.
  destruct Hp as [sl s|sl v s|e s|j s|ev s|c0 s|i' s|e f s He|s|c0 v s|a sl s Ha];
    try (exists cell; by split).
  - exists cell. split; [|done]. by destruct (track_frame sl s) as (_ & _ & _ & -> & _).
  - exists cell. split; [|done]. unfold fx_stop. simpl.
    by destruct (cleanup_frame e s) as (_ & _ & _ & -> & _).
  - exists cell. split; [|done].
    by destruct (queue_push_frame (UserJob j) s) as (_ & _ & _ & _ & _ & -> & _).
  - simpl. destruct (decide (c = c0)) as [->|].
    + rewrite lookup_alter_eq, Hc. by eexists.
    + rewrite lookup_alter_ne by done. by exists cell.
  - exists cell. split; [|done].
    by destruct (scheduleUpdate_frame i' s) as (_ & _ & _ & _ & _ & -> & _).
  - exists cell. split; [|done]. simpl.
    by destruct (cleanup_frame e s) as (_ & _ & _ & -> & _).
  - simpl. destruct (decide (c = c0)) as [->|].
    + rewrite lookup_alter_eq, Hc. by eexists.
    + rewrite lookup_alter_ne by done. by exists cell.
  - exists cell. split; [|done]. by destruct (subscribe_frame a sl s) as (_ & _ & _ & -> & _).
Qed.

Lemma prims_computeds s s' c cell :
  rtc prim s s' → computeds s !! c = Some cell →
  ∃ cell', computeds s' !! c = Some cell' ∧ same_cell cell cell'.
Proof.
  intros Hp. revert cell. induction Hp as [|s1 s2 s3 H _ IH]; intros cell Hc.
  - by exists cell.
  - destruct (prim_computeds _ _ _ _ H Hc) as (c2 & Hc2 & [E1 E2]).
    destruct (IH _ Hc2) as (c3 & Hc3 & [F1 F2]).
    exists c3. split; [done|]. split; congruence.
Qed.

(** A read that returns leaves the value cached and the flag cleared. *)
Lemma computed_read_caches fuel c cell s v s1 :
  computeds s !! c = Some cell →
  computed_read (exec fuel) c s = (Ok v, s1) →
  ∃ cell1, computeds s1 !! c = Some cell1 ∧ c_dirty cell1 = false ∧ c_value cell1 = v.
Proof.
  intros Hc. unfold computed_read. rewrite Hc.
  destruct (c_dirty cell) eqn:Hd.
  - pose proof (fx_run_prims (exec fuel) (exec_sound fuel) (c_fx cell) s) as Hp.
    destruct (fx_run (exec fuel) (c_fx cell) s) as [[w| |] s2]; simpl in *; [|done|done].
    destruct (prims_computeds _ _ _ _ Hp Hc) as (cell2 & Hc2 & _).
    set (s3 := set_computeds _ s2).
    destruct (propagation_frame s3 (deps_of s3 (c_fx cell))) as (_ & Hcs & _).
    intros [= <- <-]. rewrite Hcs. unfold s3. simpl. rewrite lookup_alter_eq, Hc2.
    by eexists.
  - simpl. destruct (propagation_frame s (deps_of s (c_fx cell))) as (_ & Hcs & _).
    intros [= <- <-]. rewrite Hcs, Hc. by eexists.
Qed.


(** ** The pause counter *)

(** The pause counter. *)
Lemma prim_paused s s' : prim s s' → paused s' = paused s.
Proof.
  intros []; try done.
  - apply track_frame.
  - unfold fx_stop. simpl. apply cleanup_frame.
  - apply queue_push_frame.
  - apply scheduleUpdate_frame.
  - simpl. apply cleanup_frame.
  - apply subscribe_frame.
Qed.

Lemma prims_paused s s' : rtc prim s s' → paused s' = paused s.
Proof. induction 1 as [|s1 s2 s3 H _ IH]; [done|]. rewrite IH. by apply prim_paused. Qed.

Lemma exec_paused fuel p s : paused (exec fuel p s).2 = paused s.
Proof. apply prims_paused, exec_sound. Qed.

Lemma call_value_paused fuel f a s : paused (call_value (exec fuel) f a s).2 = paused s.
Proof. apply prims_paused, call_value_prims, exec_sound. Qed.

Lemma fx_run_paused fuel e s : paused (fx_run (exec fuel) e s).2 = paused s.
Proof. apply prims_paused, fx_run_prims, exec_sound. Qed.

Lemma trigger_paused fuel sl op s : paused (trigger (exec fuel) sl op s).2 = paused s.
Proof. apply prims_paused, trigger_prims, exec_sound. Qed.

Lemma bind_paused_le {A B} (m : res A * State) (k : A → State → res B * State) n :
  n ≤ paused m.2 → (∀ a s1, n ≤ paused s1 → n ≤ paused (k a s1).2) → n ≤ paused (bind m k).2.
Proof. intros Hm Hk. destruct m as [[a| |] s1]; simpl in *; eauto. Qed.

Lemma run_hook_fns_paused fuel fns s : paused s ≤ paused (run_hook_fns (exec fuel) fns s).2.
Proof.
  revert s. induction fns as [|fn fns IH]; intros s; simpl; [done|].
  assert (H : ∀ n s0, n ≤ paused s0 → n ≤ paused (run_hook_fns (exec fuel) fns s0).2).
  { intros n s0 Hn. etrans; [exact Hn|apply IH]. }
  destruct (isFunction fn).
  - pose proof (call_value_paused fuel fn VUndef (pauseTracking s)) as Hc.
    destruct (call_value (exec fuel) fn VUndef (pauseTracking s)) as [[a| |] s1]; simpl in *.
    + apply H. simpl. rewrite Hc. lia.
    + lia.
    + lia.
  - simpl. apply H. simpl. lia.
Qed.

Lemma runHooks_paused fuel i h s : paused s ≤ paused (runHooks (exec fuel) i h s).2.
Proof.
  unfold runHooks. destruct (instances s !! i); [apply run_hook_fns_paused|done].
Qed.

Lemma setup_paused fuel i s : paused s ≤ paused (setup (exec fuel) i s).2.
Proof.
  unfold setup. destruct (instances s !! i) as [inst|]; [|done].
  pose proof (exec_paused fuel (i_setup inst) (pauseTracking s)) as Hc.
  destruct (exec fuel (i_setup inst) (pauseTracking s)) as [[a| |] s1]; simpl in *; try lia.
  destruct (isFunction a); simpl; lia.
Qed.

Lemma render_job_paused fuel i s : paused s ≤ paused (render_job (exec fuel) i s).2.
Proof.
  unfold render_job. destruct (instances s !! i) as [inst|]; [|done].
  apply bind_paused_le; [|done].
  destruct (i_mounted inst).
  - apply bind_paused_le; [apply runHooks_paused|]. intros _ s1 H1.
    apply bind_paused_le; [by rewrite fx_run_paused|]. intros _ s2 H2.
    etrans; [exact H2|apply runHooks_paused].
  - apply bind_paused_le; [by rewrite fx_run_paused|]. done.
Qed.

Lemma run_job_paused fuel j s : paused s ≤ paused (run_job (exec fuel) j s).2.
Proof.
  destruct j as [n|i n]; simpl; [|apply render_job_paused].
  destruct (jobs s !! n); [by rewrite exec_paused|done].
Qed.

Lemma flush_loop_paused fuel b idx s : paused s ≤ paused (flush_loop (exec fuel) b idx s).2.
Proof.
  revert idx s. induction b as [|b IH]; intros idx s; simpl.
  - by destruct (queue s !! idx).
  - destruct (queue s !! idx) as [j|]; [|done].
    pose proof (run_job_paused fuel j (log (EvJob j) (set_pending (λ p, p ∖ {[j]}) s))) as Hj.
    destruct (run_job (exec fuel) j _) as [[a| |] s1]; simpl in *.
    + etrans; [exact Hj|apply IH].
    + etrans; [exact Hj|]. etrans; [|apply IH]. done.
    + done.
Qed.

Lemma prop_set_paused H fuel i k v s : paused (prop_set H (exec fuel) i k v s).2 = paused s.
Proof.
  unfold prop_set. destruct (instances s !! i) as [inst|]; [|done].
  destruct (strict_neq _ _); [|done].
  destruct (validateProp _ _ _ _); try done. by rewrite trigger_paused.
Qed.

Lemma later_paused s s' : later_step s s' → paused s ≤ paused s'.
Proof.
  intros Hl. destruct Hl as [fuel p s|fuel i h s|fuel i s|i s|fuel limit s|H fuel i k v s].
  - by rewrite exec_paused.
  - apply runHooks_paused.
  - apply setup_paused.
  - by destruct (scheduleUpdate_frame i s) as (_ & _ & -> & _).
  - unfold flush. etrans; [|apply flush_loop_paused]. done.
  - by rewrite prop_set_paused.
Qed.

Lemma laters_paused s s' : rtc later_step s s' → paused s ≤ paused s'.
Proof. induction 1 as [|s1 s2 s3 H _ IH]; [done|]. etrans; [by apply later_paused|done]. Qed.

(** C10. When the setup function of an instance throws, [setup] throws the
    same error without calling [resetTracking]: the pause counter is one
    higher than before, and in every later state it is positive, so [track]
    does nothing. *)
Theorem setup_throw_leaves_tracking_paused fuel i inst x s s1 :
  instances s !! i = Some inst →
  exec fuel (i_setup inst) (pauseTracking s) = (Thrown x, s1) →
  setup (exec fuel) i s = (Thrown x, s1) ∧
  paused s1 = S (paused s) ∧
  (∀ s2, rtc later_step s1 s2 →
     0 < paused s2 ∧ (∀ sl, track sl s2 = s2) ∧
     (∀ l, track_all l s2 = s2)).
Proof.
  intros Hi Hx. split_and!.
  - unfold setup. by rewrite Hi, Hx.
  - pose proof (exec_paused fuel (i_setup inst) (pauseTracking s)) as H.
    by rewrite Hx in H.
  - intros s2 Hl. 
    assert (Hp : 0 < paused s2).
    { pose proof (laters_paused _ _ Hl) as H1.
      pose proof (exec_paused fuel (i_setup inst) (pauseTracking s)) as H2.
      rewrite Hx in H2. simpl in H2. lia. }
    split_and!; [done| |].
    + intros sl. by apply track_paused.
    + intros l. by apply track_all_paused.
Qed.

(** ** The rendering flag *)

Lemma held_frame i idx s s' :
  instances s' = instances s → queue s' = queue s → held i idx s → held i idx s'.
Proof.
  intros Hi Hq [H1 H2]. split.
  - unfold rendering. by rewrite Hi.
  - unfold no_render_from. by rewrite Hq.
Qed.

Lemma held_weaken i idx idx' s : idx ≤ idx' → held i idx s → held i idx' s.
Proof. intros Hle [H1 H2]. split; [done|]. intros k j n Hk. apply H2. lia. Qed.

Lemma subscribe_frame_q e sl s :
  instances (subscribe e sl s) = instances s ∧ queue (subscribe e sl s) = queue s.
Proof. unfold subscribe. by case_bool_decide. Qed.

Lemma track_frame_q sl s :
  instances (track sl s) = instances s ∧ queue (track sl s) = queue s.
Proof.
  unfold track. case_bool_decide; [done|].
  destruct (activeFx s); [apply subscribe_frame_q|done].
Qed.

Lemma cleanup_frame_q e s :
  instances (cleanup e s) = instances s ∧ queue (cleanup e s) = queue s.
Proof. unfold cleanup. by destruct (effects s !! e). Qed.

Lemma no_render_from_snoc i idx s s' j :
  queue s' = queue s ++ [j] → (∀ n, j ≠ RenderJob i n) →
  no_render_from i idx s → no_render_from i idx s'.
Proof.
  intros Hq Hj H k j' n Hk. rewrite Hq. intros Hl.
  apply lookup_app_Some in Hl as [Hl|[_ Hl]].
  - by eapply H.
  - apply list_lookup_singleton_Some in Hl as [_ <-]. apply Hj.
Qed.

Lemma queue_push_queue j s :
  queue (queue_push j s) = queue s ∨ queue (queue_push j s) = queue s ++ [j].
Proof. unfold queue_push. case_bool_decide; [by left|]. right. by destruct (flushing s). Qed.

Lemma held_queue_push i idx j s :
  (∀ n, j ≠ RenderJob i n) → held i idx s → held i idx (queue_push j s).
Proof.
  intros Hj [H1 H2]. split.
  - unfold rendering. by destruct (queue_push_frame j s) as (_ & _ & _ & _ & _ & _ & _ & -> & _).
  - destruct (queue_push_queue j s) as [Hq|Hq].
    + unfold no_render_from. by rewrite Hq.
    + by eapply no_render_from_snoc.
Qed.

Lemma scheduleUpdate_rendering i s : rendering s i = true → scheduleUpdate i s = s.
Proof.
  unfold rendering, scheduleUpdate. destruct (instances s !! i) as [inst|]; [|done].
  simpl. by intros ->.
Qed.

Lemma held_scheduleUpdate i idx i' s : held i idx s → held i idx (scheduleUpdate i' s).
Proof.
  intros Hh. destruct (decide (i' = i)) as [->|Hne].
  { rewrite scheduleUpdate_rendering; [done|apply Hh]. }
  unfold scheduleUpdate. destruct (instances s !! i') as [inst|] eqn:Hi; [|done].
  destruct (i_rendering inst); [done|].
  apply held_queue_push; [by intros n [=]|].
  destruct Hh as [H1 H2]. split; [|done].
  unfold rendering in *. simpl. by rewrite lookup_insert_ne.
Qed.

Lemma prim_held i idx s s' : prim s s' → held i idx s → held i idx s'.
Proof.
  intros Hp Hh. destruct Hp as [sl s|sl v s|e s|j s|ev s|c s|i' s|e f s He|s|c v s|a sl s Ha].
  - eapply held_frame; [..|exact Hh]; apply track_frame_q.
  - by eapply held_frame.
  - eapply held_frame; [..|exact Hh]; unfold fx_stop; simpl; apply cleanup_frame_q.
  - by apply held_queue_push.
  - by eapply held_frame.
  - by eapply held_frame.
  - by apply held_scheduleUpdate.
  - eapply held_frame; [..|exact Hh]; simpl; apply cleanup_frame_q.
  - by eapply held_frame.
  - by eapply held_frame.
  - eapply held_frame; [..|exact Hh]; apply subscribe_frame_q.
Qed.

Lemma prims_held i idx s s' : rtc prim s s' → held i idx s → held i idx s'.
Proof. induction 1; eauto using prim_held. Qed.

Lemma exec_held i idx fuel p s : held i idx s → held i idx (exec fuel p s).2.
Proof. apply prims_held, exec_sound. Qed.

Lemma bind_held {A B} i idx (m : res A * State) (k : A → State → res B * State) :
  held i idx m.2 → (∀ a s1, held i idx s1 → held i idx (k a s1).2) → held i idx (bind m k).2.
Proof. intros Hm Hk. destruct m as [[a| |] s1]; simpl in *; eauto. Qed.

Lemma run_hook_fns_held i idx fuel fns s :
  held i idx s → held i idx (run_hook_fns (exec fuel) fns s).2.
Proof.
  revert s. induction fns as [|fn fns IH]; intros s Hh; simpl; [done|].
  assert (Hp : held i idx (pauseTracking s)) by (by eapply held_frame).
  apply bind_held.
  - destruct (isFunction fn); [|done].
    eapply prims_held; [|exact Hp]. apply call_value_prims, exec_sound.
  - intros _ s1 H1. apply IH. by eapply held_frame.
Qed.

Lemma runHooks_held i idx fuel i' h s :
  held i idx s → held i idx (runHooks (exec fuel) i' h s).2.
Proof.
  intros Hh. unfold runHooks. destruct (instances s !! i'); [by apply run_hook_fns_held|done].
Qed.

Lemma held_alter_other i idx i' g s :
  i' ≠ i → held i idx s → held i idx (set_instances (alter g i') s).
Proof.
  intros Hne [H1 H2]. split; [|done]. unfold rendering in *. simpl.
  by rewrite lookup_alter_ne.
Qed.

Lemma fx_run_held i idx fuel e s : held i idx s → held i idx (fx_run (exec fuel) e s).2.
Proof. apply prims_held, fx_run_prims, exec_sound. Qed.

Lemma render_job_held i idx fuel i' s :
  i' ≠ i → held i idx s → held i idx (render_job (exec fuel) i' s).2.
Proof.
  intros Hne Hh. unfold render_job. destruct (instances s !! i') as [inst|]; [|done].
  apply bind_held.
  - destruct (i_mounted inst).
    + apply bind_held; [by apply runHooks_held|]. intros _ s1 H1.
      apply bind_held; [by apply fx_run_held|]. intros _ s2 H2. by apply runHooks_held.
    + apply bind_held; [by apply fx_run_held|]. intros _ s1 H1. simpl.
      by apply held_alter_other.
  - intros _ s3 H3. simpl. by apply held_alter_other.
Qed.

Lemma setup_held i idx fuel i' s : held i idx s → held i idx (setup (exec fuel) i' s).2.
Proof.
  intros Hh. unfold setup. destruct (instances s !! i') as [inst|]; [|done].
  apply bind_held.
  - apply exec_held. by eapply held_frame.
  - intros rt s1 [H1 H2].
    assert (held i idx (set_activeInstance None
              (resetTracking (set_instances (alter (i_with_renderTemplate rt) i') s1)))).
    { split; [|done]. unfold rendering in *. simpl.
      destruct (decide (i' = i)) as [->|].
      - rewrite lookup_alter_eq. by destruct (instances s1 !! i).
      - by rewrite lookup_alter_ne. }
    by destruct (isFunction rt).
Qed.

Lemma run_job_held i idx fuel j s :
  (∀ n, j ≠ RenderJob i n) → held i idx s → held i idx (run_job (exec fuel) j s).2.
Proof.
  intros Hj Hh. destruct j as [n|i' n]; simpl.
  - destruct (jobs s !! n); [by apply exec_held|done].
  - apply render_job_held; [|done]. intros ->. by apply (Hj n).
Qed.

Lemma held_done i k0 s :
  held i k0 s → stuck i (set_flushing false (set_queue (λ _, []) s)).
Proof. intros [H1 _]. split; [done|]. intros k j n _. simpl. by rewrite lookup_nil. Qed.

Lemma stuck_held i k0 s : stuck i s → held i k0 s.
Proof. intros H. apply (held_weaken i 0); [lia|done]. Qed.

Lemma flush_loop_held i fuel b k0 idx s :
  k0 ≤ idx → held i k0 s →
  held i k0 (flush_loop (exec fuel) b idx s).2 ∧
  (∀ v s', flush_loop (exec fuel) b idx s = (Ok v, s') → stuck i s').
Proof.
  revert idx s. induction b as [|b IH]; intros idx s Hle Hh; simpl.
  - destruct (queue s !! idx) eqn:Hq.
    + split; [by eapply held_frame|]. intros ?? [=].
    + split; [by eapply stuck_held, held_done|].
      intros v s' [= _ <-]. by eapply held_done.
  - destruct (queue s !! idx) as [j|] eqn:Hq.
    2:{ split; [by eapply stuck_held, held_done|].
        intros v s' [= _ <-]. by eapply held_done. }
    assert (Hj : ∀ n, j ≠ RenderJob i n).
    { intros n. destruct Hh as [_ H2]. by apply (H2 idx). }
    pose proof (run_job_held i k0 fuel j (log (EvJob j) (set_pending (λ p, p ∖ {[j]}) s)) Hj) as H1.
    destruct (run_job (exec fuel) j _) as [[a| |] s1]; simpl in *.
    + apply IH; [lia|]. apply H1. by eapply held_frame.
    + apply IH; [lia|]. eapply held_frame; [..|apply H1]; [done|done|]. by eapply held_frame.
    + split; [|intros ?? [=]]. apply H1. by eapply held_frame.
Qed.

Lemma trigger_held i idx fuel sl op s :
  held i idx s → held i idx (trigger (exec fuel) sl op s).2.
Proof. apply prims_held, trigger_prims, exec_sound. Qed.

Lemma prop_set_held i idx H fuel i' k v s :
  held i idx s → held i idx (prop_set H (exec fuel) i' k v s).2.
Proof.
  intros Hh. unfold prop_set. destruct (instances s !! i') as [inst|]; [|done].
  destruct (strict_neq _ _); [|done].
  destruct (validateProp _ _ _ _); try done.
  apply trigger_held. by eapply held_frame.
Qed.

Lemma later_stuck i s s' : later_step s s' → stuck i s → stuck i s'.
Proof.
  intros Hl Hs. destruct Hl as [fuel p s|fuel i' h s|fuel i' s|i' s|fuel limit s|H fuel i' k v s].
  - by apply exec_held.
  - by apply runHooks_held.
  - by apply setup_held.
  - by apply held_scheduleUpdate.
  - unfold flush. apply (flush_loop_held i fuel limit 0 0); [lia|]. by eapply held_frame.
  - by apply prop_set_held.
Qed.

Lemma laters_stuck i s s' : rtc later_step s s' → stuck i s → stuck i s'.
Proof. induction 1; eauto using later_stuck. Qed.

(** C9. When the update job of an instance throws, the rendering flag of
    the instance stays set: [scheduleUpdate] of the instance then changes
    nothing, the rest of the flush leaves the flag set, and so does
    everything the application does afterwards, during which no update job of
    the instance is ever on the queue. *)
Theorem render_job_throw_sticks fuel i inst x s s1 :
  instances s !! i = Some inst → i_rendering inst = true →
  render_job (exec fuel) i s = (Thrown x, s1) →
  rendering s1 i = true ∧
  scheduleUpdate i s1 = s1 ∧
  (∀ idx, no_render_from i idx s → no_render_from i idx s1) ∧
  (∀ fuel' b idx v s2,
     no_render_from i (S idx) s1 →
     flush_loop (exec fuel') b (S idx) s1 = (Ok v, s2) → stuck i s2) ∧
  (∀ s2 s3, stuck i s2 → rtc later_step s2 s3 →
     rendering s3 i = true ∧ scheduleUpdate i s3 = s3 ∧
     ∀ n, RenderJob i n ∉ queue s3).
Proof.
  intros Hi Hr Hj.
  assert (Hkeep : ∀ idx, no_render_from i idx s → held i idx s1).
  { intros idx Hn. assert (Hh : held i idx s).
    { split; [|done]. unfold rendering. by rewrite Hi. }
    revert Hj. unfold render_job. rewrite Hi.
    destruct (i_mounted inst).
    - pose proof (runHooks_held i idx fuel i BEFORE_UPDATE s Hh) as H1.
      destruct (runHooks (exec fuel) i BEFORE_UPDATE s) as [[a| |] s2]; simpl in *;
        [|by intros [= _ <-]|done].
      pose proof (fx_run_held i idx fuel (i_fx inst) s2 H1) as H2.
      destruct (fx_run (exec fuel) (i_fx inst) s2) as [[a2| |] s3]; simpl in *;
        [|by intros [= _ <-]|done].
      pose proof (runHooks_held i idx fuel i UPDATE s3 H2) as H3.
      destruct (runHooks (exec fuel) i UPDATE s3) as [[a3| |] s4]; simpl in *;
        [done|by intros [= _ <-]|done].
    - pose proof (fx_run_held i idx fuel (i_fx inst) s Hh) as H2.
      destruct (fx_run (exec fuel) (i_fx inst) s) as [[a2| |] s3]; simpl in *;
        [done|by intros [= _ <-]|done]. }
  assert (Hr1 : rendering s1 i = true).
  { apply (Hkeep (length (queue s))). intros k j n Hk Hl.
    apply lookup_lt_Some in Hl. lia. }
  split_and!.
  - done.
  - by apply scheduleUpdate_rendering.
  - intros idx Hn. by apply Hkeep.
  - intros fuel' b idx v s2 Hn Hf.
    eapply (flush_loop_held i fuel' b (S idx) (S idx) s1); [lia|done|exact Hf].
  - intros s2 s3 Hs Hl. pose proof (laters_stuck i _ _ Hl Hs) as [H1 H2].
    split_and!; [done|by apply scheduleUpdate_rendering|].
    intros n [k Hk]%list_elem_of_lookup. by apply (H2 k _ n) in Hk; [|lia].
Qed.

(** ** The queue *)

Lemma grows_refl s : grows s s.
Proof. split; [by exists []|done]. Qed.

Lemma grows_trans s1 s2 s3 : grows s1 s2 → grows s2 s3 → grows s1 s3.
Proof.
  intros [[e1 H1] Q1] [[e2 H2] Q2]. split; [|by etrans].
  exists (e2 ++ e1). by rewrite H2, H1, app_assoc.
Qed.

Lemma grows_frame s s' : trace s' = trace s → queue s' = queue s → grows s s'.
Proof. intros Ht Hq. split; [exists []; by rewrite Ht|by rewrite Hq]. Qed.

Lemma grows_log ev s : grows s (log ev s).
Proof. split; [by exists [ev]|done]. Qed.

Lemma grows_queue_push j s : grows s (queue_push j s).
Proof.
  split.
  - exists []. by destruct (queue_push_frame j s) as (_ & _ & _ & _ & _ & _ & -> & _).
  - destruct (queue_push_queue j s) as [-> | ->]; [done|]. by apply prefix_app_r.
Qed.

Lemma grows_scheduleUpdate i s : grows s (scheduleUpdate i s).
Proof.
  unfold scheduleUpdate. destruct (instances s !! i) as [inst|]; [|apply grows_refl].
  destruct (i_rendering inst); [apply grows_refl|].
  eapply grows_trans; [|apply grows_queue_push]. by apply grows_frame.
Qed.

Lemma prim_grows s s' : prim s s' → grows s s'.
Proof.
  intros Hp. destruct Hp as [sl s|sl v s|e s|j s|ev s|c s|i' s|e f s He|s|c v s|a sl s Ha].
  - apply grows_frame; [apply track_frame|apply track_frame_q].
  - by apply grows_frame.
  - apply grows_frame; unfold fx_stop; simpl; [apply cleanup_frame|apply cleanup_frame_q].
  - apply grows_queue_push.
  - apply grows_log.
  - by apply grows_frame.
  - apply grows_scheduleUpdate.
  - eapply grows_trans; [|apply grows_log].
    apply grows_frame; simpl; [apply cleanup_frame|apply cleanup_frame_q].
  - by apply grows_frame.
  - by apply grows_frame.
  - apply grows_frame; [apply subscribe_frame|apply subscribe_frame_q].
Qed.

Lemma prims_grows s s' : rtc prim s s' → grows s s'.
Proof.
  induction 1 as [|s1 s2 s3 H _ IH]; [apply grows_refl|].
  eapply grows_trans; [by apply prim_grows|done].
Qed.

Lemma exec_grows fuel p s : grows s (exec fuel p s).2.
Proof. apply prims_grows, exec_sound. Qed.

Lemma bind_grows {A B} (m : res A * State) (k : A → State → res B * State) s :
  grows s m.2 → (∀ a s1, grows s1 (k a s1).2) → grows s (bind m k).2.
Proof.
  intros Hm Hk. destruct m as [[a| |] s1]; simpl in *; eauto.
  eapply grows_trans; eauto.
Qed.

Lemma run_hook_fns_grows fuel fns s : grows s (run_hook_fns (exec fuel) fns s).2.
Proof.
  revert s. induction fns as [|fn fns IH]; intros s; simpl; [apply grows_refl|].
  apply bind_grows.
  - destruct (isFunction fn); [|by apply grows_frame].
    eapply grows_trans; [|apply prims_grows, call_value_prims, exec_sound].
    by apply grows_frame.
  - intros _ s1. eapply grows_trans; [|apply IH]. by apply grows_frame.
Qed.

Lemma runHooks_grows fuel i h s : grows s (runHooks (exec fuel) i h s).2.
Proof.
  unfold runHooks. destruct (instances s !! i); [apply run_hook_fns_grows|apply grows_refl].
Qed.

Lemma fx_run_grows fuel e s : grows s (fx_run (exec fuel) e s).2.
Proof. apply prims_grows, fx_run_prims, exec_sound. Qed.

Lemma render_job_grows fuel i s : grows s (render_job (exec fuel) i s).2.
Proof.
  unfold render_job. destruct (instances s !! i) as [inst|]; [|apply grows_refl].
  apply bind_grows.
  - destruct (i_mounted inst).
    + apply bind_grows; [apply runHooks_grows|]. intros _ s1.
      apply bind_grows; [apply fx_run_grows|]. intros _ s2. apply runHooks_grows.
    + apply bind_grows; [apply fx_run_grows|]. intros _ s1. by apply grows_frame.
  - intros _ s3. by apply grows_frame.
Qed.

Lemma run_job_grows fuel j s : grows s (run_job (exec fuel) j s).2.
Proof.
  destruct j as [n|i n]; simpl; [|apply render_job_grows].
  destruct (jobs s !! n); [apply exec_grows|apply grows_refl].
Qed.


(** The loop of flush runs every job from its index on. *)
Lemma flush_loop_runs_all fuel b idx s v s' :
  flush_loop (exec fuel) b idx s = (Ok v, s') →
  ∃ evs, trace s' = evs ++ trace s ∧
         ∀ k j, idx ≤ k → queue s !! k = Some j → EvJob j ∈ evs.
Proof.
  revert idx s. induction b as [|b IH]; intros idx s; simpl.
  - destruct (queue s !! idx) eqn:Hq; [done|]. intros [= _ <-].
    exists []. split; [done|]. intros k j Hk Hl.
    apply lookup_ge_None in Hq. apply lookup_lt_Some in Hl. lia.
  - destruct (queue s !! idx) as [j0|] eqn:Hq.
    2:{ intros [= _ <-]. exists []. split; [done|]. intros k j Hk Hl.
        apply lookup_ge_None in Hq. apply lookup_lt_Some in Hl. lia. }
    set (s0 := log (EvJob j0) (set_pending (λ p, p ∖ {[j0]}) s)).
    pose proof (run_job_grows fuel j0 s0) as [[e1 He1] Hp1].
    change (trace s0) with (EvJob j0 :: trace s) in He1.
    change (queue s0) with (queue s) in Hp1.
    destruct (run_job (exec fuel) j0 s0) as [[a|x|] s1] eqn:Hr; simpl in *; [| |done].
    + intros Hf. destruct (IH _ _ Hf) as (e2 & He2 & Hall).
      exists (e2 ++ e1 ++ [EvJob j0]). split.
      { rewrite He2, He1. rewrite <- !app_assoc. reflexivity. }
      intros k j Hk Hl. destruct (decide (k = idx)) as [->|Hne].
      * rewrite Hq in Hl. simplify_eq. rewrite !elem_of_app, list_elem_of_singleton. auto.
      * rewrite elem_of_app. left. apply (Hall k); [lia|].
        by eapply prefix_lookup_Some.
    + intros Hf. destruct (IH _ _ Hf) as (e2 & He2 & Hall).
      exists (e2 ++ [EvReport x] ++ e1 ++ [EvJob j0]). split.
      { rewrite He2. simpl. rewrite He1.
        repeat (rewrite <- app_assoc; simpl). reflexivity. }
      intros k j Hk Hl. destruct (decide (k = idx)) as [->|Hne].
      * rewrite Hq in Hl. simplify_eq.
        rewrite !elem_of_app, !list_elem_of_singleton. auto.
      * rewrite elem_of_app. left. apply (Hall k); [lia|].
        simpl. by eapply prefix_lookup_Some.
Qed.







Lemma queue_push_pending j s : j ∈ pending s → queue_push j s = s.
Proof. intros H. unfold queue_push. by rewrite bool_decide_eq_true_2. Qed.

Lemma queue_push_fresh j s :
  j ∉ pending s →
  queue (queue_push j s) = queue s ++ [j] ∧ pending (queue_push j s) = {[j]} ∪ pending s.
Proof.
  intros H. unfold queue_push. rewrite bool_decide_eq_false_2 by done.
  by destruct (flushing s).
Qed.

Lemma queue_ok_push idx j s : queue_ok idx s → queue_ok idx (queue_push j s).
Proof.
  intros (Hle & Hnd & Hp). destruct (decide (j ∈ pending s)) as [Hin|Hin].
  { by rewrite queue_push_pending. }
  destruct (queue_push_fresh j s Hin) as [Hq Hpe].
  unfold queue_ok. rewrite Hq, Hpe, length_app, drop_app_le by done. split_and!.
  - lia.
  - apply NoDup_app. split_and!; [done| |apply NoDup_singleton].
    intros x Hx ->%list_elem_of_singleton. apply Hin. by apply Hp.
  - intros x. rewrite elem_of_union, elem_of_singleton, elem_of_app, list_elem_of_singleton.
    rewrite Hp. tauto.
Qed.

Lemma job_runs_app j l1 l2 : job_runs j (l1 ++ l2) = job_runs j l1 + job_runs j l2.
Proof. unfold job_runs. by rewrite filter_app, length_app. Qed.

Lemma job_runs_elem j l : EvJob j ∈ l → 1 ≤ job_runs j l.
Proof.
  intros H. unfold job_runs.
  assert (Hin : EvJob j ∈ filter (λ ev, ev = EvJob j) l) by (by apply list_elem_of_filter).
  destruct (filter _ l); [by apply elem_of_nil in Hin|simpl; lia].
Qed.

Lemma notify_rendering R e f i s :
  effects s !! e = Some f → fx_active f = true →
  fx_scheduler f = Some (SchedInstance i) → rendering s i = true →
  notify R e s = (Ok VUndef, log (EvSched e) s).
Proof.
  intros He Ha Hs Hr. unfold notify. rewrite He, Ha, Hs. simpl.
  by rewrite scheduleUpdate_rendering.
Qed.

Lemma queue_ok_frame idx s s' :
  queue s' = queue s → pending s' = pending s → queue_ok idx s → queue_ok idx s'.
Proof. intros Hq Hp. unfold queue_ok. by rewrite Hq, Hp. Qed.

Lemma subscribe_frame_p e sl s : pending (subscribe e sl s) = pending s.
Proof. unfold subscribe. by case_bool_decide. Qed.

Lemma track_frame_p sl s : pending (track sl s) = pending s.
Proof.
  unfold track. case_bool_decide; [done|].
  destruct (activeFx s); [apply subscribe_frame_p|done].
Qed.

Lemma cleanup_frame_p e s : pending (cleanup e s) = pending s.
Proof. unfold cleanup. by destruct (effects s !! e). Qed.

Lemma queue_ok_scheduleUpdate idx i s : queue_ok idx s → queue_ok idx (scheduleUpdate i s).
Proof.
  intros H. unfold scheduleUpdate. destruct (instances s !! i) as [inst|]; [|done].
  destruct (i_rendering inst); [done|]. apply queue_ok_push. by eapply queue_ok_frame.
Qed.

Lemma prim_queue_ok idx s s' : prim s s' → queue_ok idx s → queue_ok idx s'.
Proof.
  intros Hp Hh. destruct Hp as [sl s|sl v s|e s|j s|ev s|c s|i' s|e f s He|s|c v s|a sl s Ha].
  - eapply queue_ok_frame; [..|exact Hh]; [apply track_frame_q|apply track_frame_p].
  - by eapply queue_ok_frame.
  - eapply queue_ok_frame; [..|exact Hh]; unfold fx_stop; simpl;
      [apply cleanup_frame_q|apply cleanup_frame_p].
  - by apply queue_ok_push.
  - by eapply queue_ok_frame.
  - by eapply queue_ok_frame.
  - by apply queue_ok_scheduleUpdate.
  - eapply queue_ok_frame; [..|exact Hh]; simpl; [apply cleanup_frame_q|apply cleanup_frame_p].
  - by eapply queue_ok_frame.
  - by eapply queue_ok_frame.
  - eapply queue_ok_frame; [..|exact Hh]; [apply subscribe_frame_q|apply subscribe_frame_p].
Qed.

Lemma prims_queue_ok idx s s' : rtc prim s s' → queue_ok idx s → queue_ok idx s'.
Proof. induction 1; eauto using prim_queue_ok. Qed.

Lemma bind_queue_ok {A B} idx (m : res A * State) (k : A → State → res B * State) :
  queue_ok idx m.2 → (∀ a s1, queue_ok idx s1 → queue_ok idx (k a s1).2) →
  queue_ok idx (bind m k).2.
Proof. intros Hm Hk. destruct m as [[a| |] s1]; simpl in *; eauto. Qed.

Lemma run_hook_fns_queue_ok idx fuel fns s :
  queue_ok idx s → queue_ok idx (run_hook_fns (exec fuel) fns s).2.
Proof.
  revert s. induction fns as [|fn fns IH]; intros s Hh; simpl; [done|].
  assert (Hp : queue_ok idx (pauseTracking s)) by (by eapply queue_ok_frame).
  apply bind_queue_ok.
  - destruct (isFunction fn); [|done].
    eapply prims_queue_ok; [|exact Hp]. apply call_value_prims, exec_sound.
  - intros _ s1 H1. apply IH. by eapply queue_ok_frame.
Qed.

Lemma runHooks_queue_ok idx fuel i h s :
  queue_ok idx s → queue_ok idx (runHooks (exec fuel) i h s).2.
Proof.
  intros Hh. unfold runHooks. destruct (instances s !! i); [by apply run_hook_fns_queue_ok|done].
Qed.

Lemma fx_run_queue_ok idx fuel e s : queue_ok idx s → queue_ok idx (fx_run (exec fuel) e s).2.
Proof. apply prims_queue_ok, fx_run_prims, exec_sound. Qed.

Lemma render_job_queue_ok idx fuel i s :
  queue_ok idx s → queue_ok idx (render_job (exec fuel) i s).2.
Proof.
  intros Hh. unfold render_job. destruct (instances s !! i) as [inst|]; [|done].
  apply bind_queue_ok.
  - destruct (i_mounted inst).
    + apply bind_queue_ok; [by apply runHooks_queue_ok|]. intros _ s1 H1.
      apply bind_queue_ok; [by apply fx_run_queue_ok|]. intros _ s2 H2.
      by apply runHooks_queue_ok.
    + apply bind_queue_ok; [by apply fx_run_queue_ok|]. intros _ s1 H1. simpl.
      by eapply queue_ok_frame.
  - intros _ s3 H3. simpl. by eapply queue_ok_frame.
Qed.

Lemma run_job_queue_ok idx fuel j s :
  queue_ok idx s → queue_ok idx (run_job (exec fuel) j s).2.
Proof.
  intros Hh. destruct j as [n|i n]; simpl; [|by apply render_job_queue_ok].
  destruct (jobs s !! n); [|done]. eapply prims_queue_ok; [apply exec_sound|done].
Qed.

(** Taking the job at the index and clearing its flag. *)
Lemma queue_ok_take idx j s :
  queue_ok idx s → queue s !! idx = Some j →
  queue_ok (S idx) (log (EvJob j) (set_pending (λ p, p ∖ {[j]}) s)).
Proof.
  intros (Hle & Hnd & Hp) Hq. unfold queue_ok. simpl.
  pose proof (drop_S _ _ _ Hq) as Hd. rewrite Hd in Hnd, Hp.
  apply NoDup_cons in Hnd as [Hnin Hnd].
  split_and!.
  - apply lookup_lt_Some in Hq. lia.
  - done.
  - intros x. rewrite elem_of_difference, elem_of_singleton, Hp, elem_of_cons.
    split; [by intros [[?|?] ?]|]. intros Hx. split; [by right|]. by intros ->.
Qed.

(** C3, amended.  On the queue a pending job is pushed at most once; its
    flag is cleared before its function runs, so a push of the job from
    within itself appends it again, and a job that is pending again when its
    function returns runs a second time in the same flush.  The update job of
    an instance is guarded by the rendering flag instead, which stays set
    while the job runs: a trigger of the instance's effect then reaches the
    scheduler and enqueues nothing. *)
Theorem job_pending_once_and_requeue fuel :
  (∀ j s, j ∈ pending s → queue_push j s = s) ∧
  (∀ idx j s, queue_ok idx s → queue_ok idx (queue_push j s)) ∧
  (∀ idx j s,
     queue_ok idx s → queue s !! idx = Some j →
     let s0 := log (EvJob j) (set_pending (λ p, p ∖ {[j]}) s) in
     ((j ∉ pending s0) ∧ queue (queue_push j s0) = queue s ++ [j] ∧
      queue_ok (S idx) (run_job (exec fuel) j s0).2)) ∧
  (∀ b idx j s v s',
     queue_ok idx s →
     queue s !! idx = Some j →
     j ∈ pending (run_job (exec fuel) j
                    (log (EvJob j) (set_pending (λ p, p ∖ {[j]}) s))).2 →
     flush_loop (exec fuel) (S b) idx s = (Ok v, s') →
     ∃ evs, trace s' = evs ++ trace s ∧ 2 ≤ job_runs j evs) ∧
  (∀ R e f i s,
     effects s !! e = Some f → fx_active f = true →
     fx_scheduler f = Some (SchedInstance i) → rendering s i = true →
     notify R e s = (Ok VUndef, log (EvSched e) s) ∧
     scheduleUpdate i s = s).
Proof.
  split_and!.
  - apply queue_push_pending.
  - apply queue_ok_push.
  - intros idx j s Hok Hq s0.
    assert (Hnp : j ∉ pending s0).
    { simpl. intros [_ H]%elem_of_difference. apply H. by apply elem_of_singleton. }
    split_and!; [done| |].
    + by destruct (queue_push_fresh _ _ Hnp) as [-> _].
    + apply run_job_queue_ok. by apply queue_ok_take.
  - intros b idx j s v s' Hok Hq Hpend.
    pose proof (queue_ok_take idx j s Hok Hq) as Hok0.
    set (s0 := log (EvJob j) (set_pending (λ p, p ∖ {[j]}) s)) in *.
    pose proof (run_job_queue_ok (S idx) fuel j s0 Hok0) as Hok1.
    pose proof (run_job_grows fuel j s0) as [[e1 He1] _].
    change (trace s0) with (EvJob j :: trace s) in He1.
    simpl. rewrite Hq. fold s0.
    destruct (run_job (exec fuel) j s0) as [[a|x|] s1] eqn:Hr; simpl in *; [| |done].
    + intros Hf. destruct (flush_loop_runs_all _ _ _ _ _ _ Hf) as (e2 & He2 & Hall).
      exists (e2 ++ e1 ++ [EvJob j]). split.
      { rewrite He2, He1. repeat (rewrite <- app_assoc; simpl). reflexivity. }
      destruct Hok1 as (_ & _ & Hp1). apply Hp1 in Hpend.
      apply list_elem_of_lookup in Hpend as [k Hk]. rewrite lookup_drop in Hk.
      rewrite !job_runs_app.
      pose proof (job_runs_elem j e2 (Hall (S idx + k) j ltac:(lia) Hk)).
      assert (job_runs j [EvJob j] = 1) by (unfold job_runs; by rewrite filter_cons, decide_True).
      lia.
    + intros Hf. destruct (flush_loop_runs_all _ _ _ _ _ _ Hf) as (e2 & He2 & Hall).
      exists (e2 ++ EvReport x :: e1 ++ [EvJob j]). split.
      { rewrite He2. simpl. rewrite He1. repeat (rewrite <- app_assoc; simpl). reflexivity. }
      destruct Hok1 as (_ & _ & Hp1). apply Hp1 in Hpend.
      apply list_elem_of_lookup in Hpend as [k Hk]. rewrite lookup_drop in Hk.
      rewrite job_runs_app.
      change (EvReport x :: e1 ++ [EvJob j]) with ([EvReport x] ++ e1 ++ [EvJob j]).
      rewrite !job_runs_app.
      pose proof (job_runs_elem j e2 (Hall (S idx + k) j ltac:(lia) Hk)).
      assert (job_runs j [EvJob j] = 1) by (unfold job_runs; by rewrite filter_cons, decide_True).
      lia.
  - intros R e f i s He Ha Hs Hr. split; [by eapply notify_rendering|by apply scheduleUpdate_rendering].
Qed.

(** ** Writes *)

(** C4, amended.  Writing a ref or an element prop a value strictly equal
    to the stored one changes nothing and calls no trigger.  Writing a ref a
    different value stores its wrapper and calls trigger with SET once.
    Writing a prop a different value that passes its validation stores the
    wrapper of the validated value and calls trigger with SET once; if the
    validation fails the error is thrown, nothing is stored and nothing
    triggered.  A trigger call is one event followed by the dispatch. *)
Theorem write_compares_before_trigger H R :
  (∀ r v s,
     strict_eq v (heap_get s (ref_slot r)) = true →
     ref_set R r v s = (Ok VUndef, s)) ∧
  (∀ r v s,
     strict_eq v (heap_get s (ref_slot r)) = false →
     ref_set R r v s =
       trigger R (ref_slot r) SET (set_heap (<[ref_slot r := toReactive v]>) s)) ∧
  (∀ i inst k v s,
     instances s !! i = Some inst →
     strict_eq v (heap_get s (i_propsData inst, k)) = true →
     prop_set H R i k v s = (Ok VUndef, s)) ∧
  (∀ i inst k v v' s,
     instances s !! i = Some inst →
     strict_eq v (heap_get s (i_propsData inst, k)) = false →
     validateProp H (i_props inst) k v = Ok v' →
     prop_set H R i k v s =
       trigger R (i_propsData inst, k) SET
         (set_heap (<[(i_propsData inst, k) := toReactive v']>) s)) ∧
  (∀ i inst k v x s,
     instances s !! i = Some inst →
     strict_eq v (heap_get s (i_propsData inst, k)) = false →
     validateProp H (i_props inst) k v = Thrown x →
     prop_set H R i k v s = (Thrown x, s)) ∧
  (∀ sl s, ∃ s', trace s' = EvTrigger sl.1 SET sl.2 :: trace s ∧
     trigger R sl SET s = dispatch R (run_set s sl SET) s').
Proof.
  split_and!.
  - intros r v s Heq. unfold ref_set, strict_neq. by rewrite Heq.
  - intros r v s Heq. unfold ref_set, strict_neq. by rewrite Heq.
  - intros i inst k v s Hi Heq. unfold prop_set, strict_neq. by rewrite Hi, Heq.
  - intros i inst k v v' s Hi Heq Hv. unfold prop_set, strict_neq. by rewrite Hi, Heq, Hv.
  - intros i inst k v x s Hi Heq Hv. unfold prop_set, strict_neq. by rewrite Hi, Heq, Hv.
  - intros sl s. by exists (log (EvTrigger sl.1 SET sl.2) s).
Qed.

(** The props proxy of [setup] triggers on every write. *)
Lemma proxy_set_triggers R i inst k v s :
  instances s !! i = Some inst →
  proxy_set R i k v s =
    trigger R (i_propsData inst, k) SET (set_heap (<[(i_propsData inst, k) := v]>) s).
Proof. intros Hi. unfold proxy_set. by rewrite Hi. Qed.

Lemma computedGetter_spec tgt s :
  let e := fresh (dom (effects s)) in
  let c := fresh (dom (computeds s)) in
  computedGetter tgt s =
    (c, set_computeds (<[c := {| c_value := VUndef; c_dirty := true; c_fx := e; c_set := VUndef |}]>)
          (set_effects (<[e := {| fx_raw := FnValue tgt; fx_lazy := true; fx_computed := false;
                                  fx_scheduler := Some (SchedDirty c); fx_deps := [];
                                  fx_active := true; fx_allowRecurse := false |}]>) s)).
Proof. done. Qed.

Lemma member_spec v k s :
  ∃ s', member v k s = (from_option (λ t, heap_get s (t, k)) VUndef (target_of v), s') ∧
        heap s' = heap s ∧ computeds s' = computeds s ∧ funs s' = funs s.
Proof.
  unfold member. destruct (target_of v) as [t|]; [|by eexists].
  destruct v; try by eexists.
  eexists. split; [done|]. destruct (track_frame (t, k) s) as (_ & ? & ? & ? & _). done.
Qed.

(** ** Code that makes no nested call *)

Lemma harmless_invalidated s s' e : invalidated s s' → harmless s e → harmless s' e.
Proof.
  intros Hi H f. rewrite (inv_effects _ _ Hi).
  rewrite (activeFx_stack s s') by apply Hi. apply H.
Qed.

(** Dispatch to a harmless effect: the result does not depend on the
    runner. *)
Lemma notify_harmless e s :
  harmless s e →
  ∃ s', (∀ R, notify R e s = (Ok VUndef, s')) ∧ invalidated s s' ∧
        ∀ f c, effects s !! e = Some f → fx_active f = true →
               fx_scheduler f = Some (SchedDirty c) → is_Some (computeds s !! c) →
               dirty s' c = true.
Proof.
  intros H. unfold notify. destruct (effects s !! e) as [f|] eqn:He.
  2:{ exists s. split_and!; [done|apply invalidated_refl|done]. }
  destruct (fx_active f) eqn:Ha.
  2:{ exists s. split_and!; [done|apply invalidated_refl|].
      intros f' c' ? ?; simplify_eq; congruence. }
  destruct (H f He Ha) as [[c Hc]|[[i Hi]|(Hn & Hact & Hrec)]].
  - rewrite Hc. simpl. eexists. split_and!; [done| |].
    + eapply invalidated_trans; [apply (invalidated_log (EvSched e)); done|].
      apply invalidated_set_dirty.
    + intros f' c' ? _ Hs [cell Hcell]. simplify_eq. unfold dirty. simpl.
      rewrite lookup_alter_eq, Hcell. done.
  - rewrite Hi. simpl. eexists. split_and!; [done| |].
    + eapply invalidated_trans; [apply (invalidated_log (EvSched e)); done|].
      apply invalidated_scheduleUpdate.
    + intros f' c' ? _ Hs. simplify_eq.
  - rewrite Hn, Hact, Hrec. rewrite bool_decide_eq_true_2 by done. simpl.
    exists s. split_and!; [done|apply invalidated_refl|].
    intros f' c' ? _ Hs. simplify_eq.
Qed.

Lemma dispatch_harmless es s :
  (∀ e, e ∈ es → harmless s e) →
  ∃ s', (∀ R, dispatch R es s = (Ok VUndef, s')) ∧ invalidated s s' ∧
        ∀ e f c, e ∈ es → effects s !! e = Some f → fx_active f = true →
               fx_scheduler f = Some (SchedDirty c) → is_Some (computeds s !! c) →
               dirty s' c = true.
Proof.
  revert s. induction es as [|e es IH]; intros s H; simpl.
  { exists s. split_and!; [done|apply invalidated_refl|].
    intros ??? Hin. by apply elem_of_nil in Hin. }
  destruct (notify_harmless e s) as (s1 & Hn & Hi1 & Hd1).
  { apply H, list_elem_of_here. }
  destruct (IH s1) as (s2 & Hd & Hi2 & Hd2).
  { intros e' Hin. eapply harmless_invalidated; [exact Hi1|].
    by apply H, list_elem_of_further. }
  exists s2. split_and!.
  - intros R. rewrite Hn. simpl. apply Hd.
  - by eapply invalidated_trans.
  - intros e' f c Hin He Ha Hs Hc. apply elem_of_cons in Hin as [->|Hin].
    + eapply invalidated_dirty; [exact Hi2|]. by eapply Hd1.
    + eapply Hd2; try done.
      * by rewrite (inv_effects _ _ Hi1).
      * destruct (inv_computeds _ _ Hi1 c) as [->| ->]; [done|]. by apply fmap_is_Some.
Qed.

(** A calm trigger returns, runs nothing and only raises dirty flags and
    schedules updates. *)
Lemma trigger_calm sl op s :
  calm s sl op →
  ∃ s', (∀ R, trigger R sl op s = (Ok VUndef, s')) ∧ invalidated s s' ∧
        ∀ c e body, is_computed s c e body → e ∈ run_set s sl op → dirty s' c = true.
Proof.
  intros Hq. unfold trigger.
  destruct (dispatch_harmless (run_set s sl op) (log (EvTrigger sl.1 op sl.2) s))
    as (s' & Hd & Hi & Hdirty).
  { intros e Hin f. apply (Hq e Hin f). }
  exists s'. split_and!; [done| |].
  - eapply invalidated_trans; [apply (invalidated_log (EvTrigger sl.1 op sl.2)); done|done].
  - intros c e body (cell & f & g & b & Hc & Hfx & He & Ha & Hraw & Hs & Hb & ->) Hin.
    by eapply (Hdirty e f c).
Qed.




(** Direct code runs the same whatever the runner. *)
Lemma step_direct R p s : direct p s → step R p s = exec 1 p s.
Proof.
  revert s.
  induction p as [v|x|sl k IH|sl op k IH|sl k IH|sl v k IH|c k IH|e k IH|e k IH|j k IH];
    intros s Hd; cbn [exec] in *; simpl in *; try done.
  - by apply IH.
  - destruct Hd as [Hq Hd].
    destruct (trigger_calm sl op s Hq) as (s1 & Ht & _).
    rewrite Ht in Hd. rewrite !Ht. simpl in *. by apply IH.
  - by apply IH.
  - by apply IH.
  - by apply IH.
Qed.

Lemma settled_refl s : settled s s.
Proof. split; auto. Qed.

Lemma settled_trans s1 s2 s3 : settled s1 s2 → settled s2 s3 → settled s1 s3.
Proof.
  intros [A1 A2 A3 A4 A5 A6] [B1 B2 B3 B4 B5 B6].
  split; [congruence..| | |].
  - intros e. by rewrite B4.
  - intros e. by rewrite B5.
  - intros c. destruct (A6 c) as [Ha|Ha], (B6 c) as [Hb|Hb]; rewrite Hb, Ha; auto.
    right. destruct (computeds s1 !! c); done.
Qed.

Lemma settled_invalidated s s' : invalidated s s' → settled s s'.
Proof.
  intros [A1 A2 A3 A4 A5 A6 A7 A8]. split; try done. intros e. by rewrite A2.
Qed.

Lemma settled_track sl s : settled s (track sl s).
Proof.
  destruct (track_frame sl s) as (Hp & Hh & Hf & Hc & Ht).
  split; try done.
  - apply track_stack.
  - intros e. by apply execs_trace.
  - intros e. apply track_static.
  - intros c. left. by rewrite Hc.
Qed.

Lemma settled_queue_push j s : settled s (queue_push j s).
Proof.
  destruct (queue_push_frame j s) as (Hr & He & Hp & Hh & Hf & Hc & Ht & _).
  split; try done.
  - apply queue_push_stack.
  - intros e. by apply execs_trace.
  - intros e. by rewrite He.
  - intros c. left. by rewrite Hc.
Qed.

Lemma settled_set_heap f s : settled s (set_heap f s).
Proof. split; try done. by left. Qed.

(** A run of direct code ends, and runs no effect. *)
Lemma direct_settled p s :
  direct p s → (exec 1 p s).1 ≠ OutOfFuel ∧ settled s (exec 1 p s).2.
Proof.
  revert s.
  induction p as [v|x|sl k IH|sl op k IH|sl k IH|sl v k IH|c k IH|e k IH|e k IH|j k IH];
    intros s Hd; cbn [exec] in *; simpl in *; try done.
  - split; [done|apply settled_refl].
  - split; [done|apply settled_refl].
  - destruct (IH _ Hd) as [H1 H2]. split; [done|].
    eapply settled_trans; [apply settled_track|done].
  - destruct Hd as [Hq Hd].
    destruct (trigger_calm sl op s Hq) as (s1 & Ht & Hi & _).
    rewrite Ht in Hd. rewrite Ht. simpl in *.
    destruct (IH _ Hd) as [H1 H2]. split; [done|].
    eapply settled_trans; [by apply settled_invalidated|done].
  - by apply IH.
  - destruct (IH _ Hd) as [H1 H2]. split; [done|].
    eapply settled_trans; [apply settled_set_heap|done].
  - destruct (IH _ Hd) as [H1 H2]. split; [done|].
    eapply settled_trans; [apply settled_queue_push|done].
Qed.

Lemma dep_of_registry s s' sl : registry s' = registry s → dep_of s' sl = dep_of s sl.
Proof. unfold dep_of. by intros ->. Qed.

Lemma entered_view e s :
  paused (entered e s) = paused s ∧ heap (entered e s) = heap s ∧
  funs (entered e s) = funs s ∧ computeds (entered e s) = computeds s ∧
  instances (entered e s) = instances s ∧
  activeFx (entered e s) = Some e ∧
  trace (entered e s) = EvExec e :: trace s.
Proof.
  unfold entered. destruct (cleanup_frame e s) as (Hp & Hh & Hf & Hc & Ht).
  destruct (cleanup_frame_q e s) as [Hi _].
  simpl. rewrite Ht. split_and!; done.
Qed.

(** A run of an effect whose code is direct. *)
Lemma fx_run_direct fuel e f body s :
  effects s !! e = Some f → fx_active f = true →
  fx_body s f = Some body → direct body (entered e s) →
  ∃ r s2,
    fx_run (exec (S fuel)) e s = (r, s2) ∧ r ≠ OutOfFuel ∧
    registry s2 = registry (exec 1 body (entered e s)).2 ∧
    effects s2 = effects (exec 1 body (entered e s)).2 ∧
    (∀ g, fx_raw f = FnValue g →
       r = (exec 1 body (entered e s)).1 ∧
       s2 = set_fxStack tail (exec 1 body (entered e s)).2).
Proof.
  intros He Ha Hb Hd.
  destruct (entered_view e s) as (_ & _ & Hf1 & _ & Hi1 & _).
  destruct (direct_settled body (entered e s) Hd) as [Hne _].
  unfold fx_run. rewrite He, Ha. fold (entered e s).
  unfold fx_body in Hb. destruct (fx_raw f) as [g|i]; cbn [call_raw].
  - unfold call_value. rewrite (fn_body_funs s) by done.
    destruct (fn_body s g) as [b|]; [|done]. injection Hb as <-.
    change (exec (S fuel)) with (step (exec fuel)).
    rewrite (step_direct (exec fuel)) by done.
    destruct (exec 1 (b VUndef) (entered e s)) as [r s2] eqn:E. cbn [fst snd] in *.
    eexists _, _. split; [done|]. split_and!; try done.
  - unfold update. rewrite Hi1.
    destruct (instances s !! i) as [inst|]; [|done].
    unfold call_value. rewrite (fn_body_funs s) by done.
    destruct (fn_body s (i_renderTemplate inst)) as [b|]; [|done]. injection Hb as <-.
    change (exec (S fuel)) with (step (exec fuel)).
    rewrite (step_direct (exec fuel)) by done.
    destruct (exec 1 (b VUndef) (entered e s)) as [[v|x|] s2] eqn:E;
      cbn [fst snd bind] in *; try done.
    + destruct (is_template v); eexists _, _; (split; [done|]); split_and!; done.
    + eexists _, _. split; [done|]. split_and!; done.
Qed.

(** ** Effects that run inside the run of an effect *)

Lemma ages_refl s : ages s s.
Proof. split; [done|done|]. intros e f' H. by exists f'. Qed.

Lemma ages_trans s1 s2 s3 : ages s1 s2 → ages s2 s3 → ages s1 s3.
Proof.
  intros [A1 A2 A3] [B1 B2 B3]. split.
  - intros e. etrans; [apply A1|apply B1].
  - intros e H. by apply A2, B2.
  - intros e f3 H3. destruct (B3 e f3 H3) as (f2 & H2 & E1 & E2).
    destruct (A3 e f2 H2) as (f1 & H1 & F1 & F2). exists f1. split_and!; congruence.
Qed.

Lemma ages_frame s s' : effects s' = effects s → trace s' = trace s → ages s s'.
Proof.
  intros He Ht. split.
  - intros e. by rewrite (execs_trace e s s').
  - intros e. unfold alive. by rewrite He.
  - intros e f'. rewrite He. intros H. by exists f'.
Qed.

Lemma ages_static s s' :
  (∀ e, fx_static <$> effects s' !! e = fx_static <$> effects s !! e) →
  trace s' = trace s → ages s s'.
Proof.
  intros Hst Ht. split.
  - intros e. by rewrite (execs_trace e s s').
  - intros e (f' & Hf' & Ha). specialize (Hst e). rewrite Hf' in Hst.
    destruct (effects s !! e) as [f|] eqn:Hf; simpl in Hst; [|done].
    exists f. split; [done|]. unfold fx_static in Hst. simplify_eq. congruence.
  - intros e f' Hf'. specialize (Hst e). rewrite Hf' in Hst.
    destruct (effects s !! e) as [f|] eqn:Hf; simpl in Hst; [|done].
    exists f. split; [done|]. unfold fx_static in Hst. simplify_eq. split; congruence.
Qed.

Lemma ages_log ev s : ages s (log ev s).
Proof.
  split.
  - intros e. rewrite execs_log. lia.
  - done.
  - intros e f' H. by exists f'.
Qed.

Lemma ages_cleanup e s : ages s (cleanup e s).
Proof. apply ages_static; [apply cleanup_static|apply cleanup_frame]. Qed.

Lemma ages_fx_stop e s : ages s (fx_stop e s).
Proof.
  eapply ages_trans; [apply (ages_cleanup e)|].
  unfold fx_stop. split.
  - intros e'. by apply Nat.eq_le_incl, execs_trace.
  - intros e' (f' & Hf' & Ha). simpl in Hf'.
    destruct (decide (e' = e)) as [->|Hne].
    + rewrite lookup_alter_eq in Hf'. destruct (effects (cleanup e s) !! e) as [f|]; [|done].
      simpl in Hf'. by simplify_eq.
    + rewrite lookup_alter_ne in Hf' by done. by exists f'.
  - intros e' f' Hf'. simpl in Hf'.
    destruct (decide (e' = e)) as [->|Hne].
    + rewrite lookup_alter_eq in Hf'. destruct (effects (cleanup e s) !! e) as [f|]; [|done].
      simpl in Hf'. simplify_eq. by exists f.
    + rewrite lookup_alter_ne in Hf' by done. by exists f'.
Qed.

Lemma prim_ages s s' : prim s s' → ages s s'.
Proof.
  intros Hp. destruct Hp as [sl s|sl v s|e s|j s|ev s|c s|i' s|e f s He|s|c v s|a sl s Ha].
  - apply ages_static; [apply track_static|apply track_frame].
  - by apply ages_frame.
  - apply ages_fx_stop.
  - apply ages_frame; apply queue_push_frame.
  - apply ages_log.
  - by apply ages_frame.
  - apply ages_frame; apply scheduleUpdate_frame.
  - eapply ages_trans; [apply (ages_cleanup e)|].
    eapply ages_trans; [|apply ages_log]. by apply ages_frame.
  - by apply ages_frame.
  - by apply ages_frame.
  - apply ages_static; [apply subscribe_static|apply subscribe_frame].
Qed.

Lemma prims_ages s s' : rtc prim s s' → ages s s'.
Proof.
  induction 1 as [|s1 s2 s3 H _ IH]; [apply ages_refl|].
  eapply ages_trans; [by apply prim_ages|done].
Qed.

Lemma spared_refl e s : spared e s s.
Proof. by intros _ _ sl. Qed.

Lemma spared_trans e s1 s2 s3 :
  ages s1 s2 → ages s2 s3 → spared e s1 s2 → spared e s2 s3 → spared e s1 s3.
Proof.
  intros A B H1 H2 Hx Ha sl.
  pose proof (ag_execs _ _ A e). pose proof (ag_execs _ _ B e).
  etrans; [apply H2; [lia|done]|apply H1; [lia|by apply (ag_alive _ _ B)]].
Qed.

Lemma spared_registry e s s' : registry s' = registry s → spared e s s'.
Proof. intros Hr _ _ sl. by rewrite (dep_of_registry s s'). Qed.

(** Another effect is subscribed, or cleaned up. *)
Lemma spared_subscribe e a sl s : a ≠ e → spared e s (subscribe a sl s).
Proof. intros Hne _ _ sl'. rewrite dep_of_subscribe_elem. intuition congruence. Qed.

Lemma spared_propagate e a l s : a ≠ e → spared e s (foldl (λ st sl, subscribe a sl st) s l).
Proof. intros Hne _ _ sl'. rewrite propagate_dep_elem. intuition congruence. Qed.

Lemma spared_track e sl s : activeFx s ≠ Some e → spared e s (track sl s).
Proof.
  intros Hne. unfold track. case_bool_decide; [apply spared_refl|].
  destruct (activeFx s) as [a|]; [|apply spared_refl].
  apply spared_subscribe. congruence.
Qed.

Lemma dep_of_cleanup_other e e' s sl :
  e' ≠ e → e ∈ dep_of (cleanup e' s) sl ↔ e ∈ dep_of s sl.
Proof.
  intros Hne. destruct (effects s !! e') as [f|] eqn:Hf.
  - rewrite (dep_of_cleanup e' f) by done. case_decide; [|done].
    rewrite elem_of_dep_delete. intuition congruence.
  - by rewrite cleanup_none.
Qed.

(** The effect [e] does not survive its own stop. *)
Lemma fx_stop_dead e s : ¬ alive (fx_stop e s) e.
Proof.
  intros (f & Hf & Ha). unfold fx_stop in Hf. simpl in Hf.
  rewrite lookup_alter_eq in Hf. destruct (effects (cleanup e s) !! e); [|done].
  simpl in Hf. by simplify_eq.
Qed.

Lemma execs_entered e e' s :
  execs e (entered e' s) = (if decide (e' = e) then 1 else 0) + execs e s.
Proof.
  unfold entered. rewrite execs_log. f_equal.
  - repeat case_decide; congruence.
  - apply execs_trace. simpl. apply cleanup_frame.
Qed.

Section nested.
Variable e : fxid.
Variable R : runner.
Hypothesis HS : sound R.
Hypothesis HB : balanced R.
Hypothesis HN : nested e R.

Lemma bind_spared {A B} (m : res A * State) (k : A → State → res B * State) s :
  rtc prim s m.2 → (∀ a, rtc prim m.2 (k a m.2).2) →
  spared e s m.2 → (∀ a, spared e m.2 (k a m.2).2) →
  spared e s (bind m k).2.
Proof.
  intros P1 P2 H1 H2. destruct m as [[a| |] s1]; simpl in *; [|done|done].
  eapply spared_trans; [by apply prims_ages|apply prims_ages, P2|done|done].
Qed.

Lemma call_value_spared f a s : activeFx s ≠ Some e → spared e s (call_value R f a s).2.
Proof.
  intros Hne. unfold call_value. destruct (fn_body s f); [by apply HN|apply spared_refl].
Qed.

Lemma update_spared i s : activeFx s ≠ Some e → spared e s (update R i s).2.
Proof.
  intros Hne. unfold update. destruct (instances s !! i); [|apply spared_refl].
  apply bind_spared.
  - by apply call_value_prims.
  - intros a. case_match; simpl; [apply rtc_once, prim_log|reflexivity].
  - by apply call_value_spared.
  - intros a. case_match; simpl; [by apply spared_registry|apply spared_refl].
Qed.

Lemma call_raw_spared fn s : activeFx s ≠ Some e → spared e s (call_raw R fn s).2.
Proof. destruct fn; simpl; [apply call_value_spared|apply update_spared]. Qed.

(** A run of an effect spares [e], unless it is a run of [e]. *)
Lemma fx_run_spared e' s : spared e s (fx_run R e' s).2.
Proof.
  unfold fx_run. destruct (effects s !! e') as [f|] eqn:He; [|apply spared_refl].
  destruct (fx_active f); [|apply spared_refl].
  fold (entered e' s).
  pose proof (call_raw_prims R HS (fx_raw f) (entered e' s)) as Hp.
  pose proof (call_raw_spared (fx_raw f) (entered e' s)) as Hsp.
  destruct (call_raw R (fx_raw f) (entered e' s)) as [r s2]. simpl in *.
  destruct (decide (e' = e)) as [->|Hne].
  - intros Hx _. exfalso.
    pose proof (ag_execs _ _ (prims_ages _ _ Hp) e) as Hle.
    rewrite execs_entered, decide_True in Hle by done.
    rewrite (execs_trace e s2 (set_fxStack tail s2)) in Hx by done. lia.
  - assert (A1 : ages s (entered e' s)).
    { apply prims_ages, rtc_once. by eapply prim_enter. }
    assert (A2 : ages (entered e' s) (set_fxStack tail s2)).
    { apply prims_ages. eapply rtc_r; [exact Hp|apply prim_leave]. }
    eapply spared_trans; [exact A1|exact A2| |].
    + intros _ _ sl. unfold entered.
      change (e ∈ dep_of (cleanup e' s) sl ↔ e ∈ dep_of s sl).
      by apply dep_of_cleanup_other.
    + eapply spared_trans; [by apply prims_ages|apply prims_ages, rtc_once, prim_leave| |].
      * apply Hsp. destruct (entered_view e' s) as (_ & _ & _ & _ & _ & -> & _). congruence.
      * by apply spared_registry.
Qed.

Lemma run_scheduler_spared sch s : activeFx s ≠ Some e → spared e s (run_scheduler R sch s).2.
Proof.
  intros Hne. destruct sch; simpl.
  - by apply spared_registry.
  - apply spared_registry. apply scheduleUpdate_frame.
  - by apply HN.
Qed.

Lemma notify_spared e' s : activeFx s ≠ Some e → spared e s (notify R e' s).2.
Proof.
  intros Hne. unfold notify. destruct (effects s !! e') as [f|]; [|apply spared_refl].
  destruct (fx_active f); [|apply spared_refl].
  destruct (fx_scheduler f) as [sch|].
  - eapply spared_trans; [apply ages_log|apply prims_ages, run_scheduler_prims, HS| |].
    + by apply spared_registry.
    + by apply run_scheduler_spared.
  - case_match; [apply spared_refl|]. apply fx_run_spared.
Qed.

Lemma dispatch_spared es s : activeFx s ≠ Some e → spared e s (dispatch R es s).2.
Proof.
  revert s. induction es as [|e' es IH]; intros s Hne; simpl; [apply spared_refl|].
  apply bind_spared.
  - by apply notify_prims.
  - intros _. by apply dispatch_prims.
  - by apply notify_spared.
  - intros _. apply IH.
    rewrite (activeFx_stack s) by (apply notify_stack, HB). done.
Qed.

Lemma trigger_spared sl op s : activeFx s ≠ Some e → spared e s (trigger R sl op s).2.
Proof.
  intros Hne. unfold trigger.
  eapply spared_trans; [apply ages_log|apply prims_ages, dispatch_prims, HS| |].
  - by apply spared_registry.
  - by apply dispatch_spared.
Qed.

Lemma computed_read_spared c s : activeFx s ≠ Some e → spared e s (computed_read R c s).2.
Proof.
  intros Hne. unfold computed_read. destruct (computeds s !! c) as [cell|]; [|apply spared_refl].
  set (m := if c_dirty cell then _ else _).
  assert (Pm : rtc prim s m.2).
  { unfold m. destruct (c_dirty cell); [|reflexivity].
    apply bind_prims; [by apply fx_run_prims|].
    intros v s1. simpl. apply rtc_once, prim_recomputed. }
  assert (Sm : fxStack m.2 = fxStack s).
  { unfold m. destruct (c_dirty cell); [|done].
    apply bind_stack; [by apply fx_run_stack|done]. }
  apply bind_spared.
  - exact Pm.
  - intros _. simpl. destruct (activeFx m.2) eqn:Ha; [|reflexivity]. by apply propagate_prims.
  - unfold m. destruct (c_dirty cell); [|apply spared_refl].
    apply bind_spared.
    + by apply fx_run_prims.
    + intros v. simpl. apply rtc_once, prim_recomputed.
    + apply fx_run_spared.
    + intros v. by apply spared_registry.
  - intros _. simpl. rewrite (activeFx_stack s m.2) by done.
    destruct (activeFx s) as [a|]; [|apply spared_refl].
    apply spared_propagate. congruence.
Qed.

Lemma step_spared p s : activeFx s ≠ Some e → spared e s (step R p s).2.
Proof.
  revert s.
  induction p as [v|x|sl k IH|sl op k IH|sl k IH|sl v k IH|c k IH|e' k IH|e' k IH|j k IH];
    intros s Hne; simpl.
  - apply spared_refl.
  - apply spared_refl.
  - eapply spared_trans;
      [apply prims_ages, rtc_once, prim_track|apply prims_ages, step_prims, HS| |].
    + by apply spared_track.
    + apply IH. by rewrite (activeFx_stack s) by apply track_stack.
  - apply bind_spared.
    + by apply trigger_prims.
    + intros _. by apply step_prims.
    + by apply trigger_spared.
    + intros _. apply IH. by rewrite (activeFx_stack s) by (apply trigger_stack, HB).
  - by apply IH.
  - eapply spared_trans;
      [apply prims_ages, rtc_once, prim_store|apply prims_ages, step_prims, HS| |].
    + by apply spared_registry.
    + by apply IH.
  - apply bind_spared.
    + by apply computed_read_prims.
    + intros v. by apply step_prims.
    + by apply computed_read_spared.
    + intros v. apply IH. by rewrite (activeFx_stack s) by (apply computed_read_stack, HB).
  - apply bind_spared.
    + by apply fx_run_prims.
    + intros v. by apply step_prims.
    + apply fx_run_spared.
    + intros v. apply IH. by rewrite (activeFx_stack s) by (apply fx_run_stack, HB).
  - eapply spared_trans;
      [apply prims_ages, rtc_once, prim_stop|apply prims_ages, step_prims, HS| |].
    + destruct (decide (e' = e)) as [->|Hn].
      * intros _ Ha. by apply fx_stop_dead in Ha.
      * unfold fx_stop. intros _ _ sl.
        change (e ∈ dep_of (cleanup e' s) sl ↔ e ∈ dep_of s sl).
        by apply dep_of_cleanup_other.
    + apply IH. by rewrite (activeFx_stack s) by apply fx_stop_stack.
  - eapply spared_trans;
      [apply prims_ages, rtc_once, prim_push|apply prims_ages, step_prims, HS| |].
    + apply spared_registry. apply queue_push_frame.
    + apply IH. by rewrite (activeFx_stack s) by apply queue_push_stack.
Qed.

End nested.

(** Whatever runs while [e] is not the active effect spares [e]. *)
Lemma exec_nested e fuel : nested e (exec fuel).
Proof.
  induction fuel as [|fuel IH]; intros p s Hne; simpl; [apply spared_refl|].
  apply step_spared; [apply exec_sound|apply exec_balanced|exact IH|exact Hne].
Qed.

(** ** The code of the running effect itself *)

Lemma ages_between e s s1 s2 :
  ages s s1 → ages s1 s2 → execs e s2 = execs e s → alive s2 e →
  execs e s1 = execs e s ∧ execs e s2 = execs e s1 ∧ alive s1 e.
Proof.
  intros A B Hx Ha.
  pose proof (ag_execs _ _ A e). pose proof (ag_execs _ _ B e).
  split_and!; [lia|lia|]. by apply (ag_alive _ _ B).
Qed.

Lemma activeFx_same s s' : fxStack s' = fxStack s → activeFx s' = activeFx s.
Proof. unfold activeFx. by intros ->. Qed.

Lemma elem_of_dep_of_subscribe e a sl s sl' :
  e ∈ dep_of (subscribe a sl s) sl' ↔ e ∈ dep_of s sl' ∨ (e = a ∧ sl' = sl).
Proof.
  rewrite dep_of_subscribe. case_decide as Hsl.
  - subst sl'. unfold dep_add. case_bool_decide as Hin.
    + split; [by left|]. intros [H|[-> _]]; done.
    + rewrite elem_of_app, list_elem_of_singleton. intuition congruence.
  - intuition congruence.
Qed.

Lemma elem_of_dep_of_propagate e a l s sl :
  e ∈ dep_of (foldl (λ st x, subscribe a x st) s l) sl ↔ e ∈ dep_of s sl ∨ (e = a ∧ sl ∈ l).
Proof.
  revert s. induction l as [|x l IH]; intros s; simpl.
  - rewrite elem_of_nil. tauto.
  - rewrite IH, elem_of_dep_of_subscribe, elem_of_cons. intuition congruence.
Qed.

Lemma recorded_nil n sl : ¬ recorded n [] sl.
Proof. intros [[_ H]|H]; by apply elem_of_nil in H. Qed.

Lemma recorded_app n l1 l2 sl : recorded n (l1 ++ l2) sl ↔ recorded n l1 sl ∨ recorded n l2 sl.
Proof. unfold recorded. rewrite !elem_of_app. tauto. Qed.

Lemma recorded_reads n x l sl : recorded n (Reads x :: l) sl ↔ (n = 0 ∧ sl = x) ∨ recorded n l sl.
Proof.
  unfold recorded. rewrite !elem_of_cons.
  split; [intros [[? [[= ->]|?]]|[[=]|?]]|intros [[? ->]|[[??]|?]]]; auto.
Qed.

Lemma recorded_inherits n l sl : recorded n (Inherits <$> l) sl ↔ sl ∈ l.
Proof.
  unfold recorded. rewrite !list_elem_of_fmap. split.
  - intros [[_ (x & [=] & _)]|(x & [= ->] & H)]. done.
  - intros H. right. by exists sl.
Qed.

Lemma elem_of_reads_during fuel p s sl :
  sl ∈ reads_during fuel p s ↔ Reads sl ∈ accesses fuel p s.
Proof.
  unfold reads_during. rewrite list_elem_of_omap. split.
  - intros ([x|x] & H & [= ->]). done.
  - intros H. by exists (Reads sl).
Qed.

Lemma elem_of_inherited_during fuel p s sl :
  sl ∈ inherited_during fuel p s ↔ Inherits sl ∈ accesses fuel p s.
Proof.
  unfold inherited_during. rewrite list_elem_of_omap. split.
  - intros ([x|x] & H & [= ->]). done.
  - intros H. by exists (Inherits sl).
Qed.

Lemma records_spared e s s' : spared e s s' → records e s s' [].
Proof.
  intros H Hx Ha sl. rewrite (H Hx Ha sl). pose proof (recorded_nil (paused s) sl). tauto.
Qed.

Lemma records_refl e s : records e s s [].
Proof. apply records_spared, spared_refl. Qed.

Lemma records_trans e s1 s2 s3 l1 l2 :
  rtc prim s1 s2 → rtc prim s2 s3 →
  records e s1 s2 l1 → records e s2 s3 l2 → records e s1 s3 (l1 ++ l2).
Proof.
  intros P1 P2 H1 H2 Hx Ha sl.
  destruct (ages_between e s1 s2 s3) as (Hx1 & Hx2 & Ha1); [by apply prims_ages..|done|done|].
  rewrite (H2 Hx2 Ha sl), (H1 Hx1 Ha1 sl), recorded_app, (prims_paused _ _ P1). tauto.
Qed.

Lemma records_bind e {A B} (m : res A * State) (k : A → State → res B * State) s l1 l2 :
  rtc prim s m.2 → (∀ a, rtc prim m.2 (k a m.2).2) →
  records e s m.2 l1 → (∀ a, m.1 = Ok a → records e m.2 (k a m.2).2 (l2 a m.2)) →
  records e s (bind m k).2
    (l1 ++ match m with (Ok a, s') => l2 a s' | _ => [] end).
Proof.
  intros P1 P2 H1 H2. destruct m as [[a|x|] s1]; simpl in *.
  - eapply records_trans; [done|apply P2|done|by apply H2].
  - by rewrite app_nil_r.
  - by rewrite app_nil_r.
Qed.

Lemma records_cons e s1 s2 s3 x l :
  rtc prim s1 s2 → rtc prim s2 s3 →
  records e s1 s2 [x] → records e s2 s3 l → records e s1 s3 (x :: l).
Proof. apply (records_trans e s1 s2 s3 [x] l). Qed.

Lemma records_skip e s1 s2 s3 l :
  rtc prim s1 s2 → rtc prim s2 s3 →
  spared e s1 s2 → records e s2 s3 l → records e s1 s3 l.
Proof.
  intros P1 P2 H1 H2. apply (records_trans e s1 s2 s3 [] l); [done|done| |done].
  by apply records_spared.
Qed.

Lemma records_track e sl s : activeFx s = Some e → records e s (track sl s) [Reads sl].
Proof.
  intros Hact _ _ sl'. rewrite recorded_reads. pose proof (recorded_nil (paused s) sl').
  unfold track. rewrite Hact. case_bool_decide as Hps.
  - intuition lia.
  - rewrite elem_of_dep_of_subscribe. intuition lia.
Qed.

Section own.
Variable e : fxid.
Variable R : runner.
Variable A : prog → State → list access.
Hypothesis HS : sound R.
Hypothesis HB : balanced R.
Hypothesis HN : nested e R.
Hypothesis HA : owned e R A.

Lemma notify_own e' s :
  activeFx s = Some e → records e s (notify R e' s).2 (notify_accesses A e' s).
Proof.
  intros Hact. unfold notify, notify_accesses.
  destruct (effects s !! e') as [f|] eqn:He; [|apply records_refl].
  destruct (fx_active f) eqn:Ha; [|apply records_refl].
  destruct (fx_scheduler f) as [sch|] eqn:Hs.
  - eapply records_skip;
      [apply rtc_once, (prim_log (EvSched e'))|by apply run_scheduler_prims| |].
    + by apply spared_registry.
    + destruct sch as [c|i|p]; simpl.
      * by apply records_spared, spared_registry.
      * apply records_spared, spared_registry. apply scheduleUpdate_frame.
      * by apply HA.
  - apply records_spared. case_match; [apply spared_refl|]. by apply fx_run_spared.
Qed.

Lemma dispatch_own es s :
  activeFx s = Some e → records e s (dispatch R es s).2 (dispatch_accesses R A es s).
Proof.
  revert s. induction es as [|e' es IH]; intros s Hact; simpl; [apply records_refl|].
  apply (records_bind e (notify R e' s) (λ _ s', dispatch R es s') s
           (notify_accesses A e' s) (λ _ s', dispatch_accesses R A es s')).
  - by apply notify_prims.
  - intros _. by apply dispatch_prims.
  - by apply notify_own.
  - intros _ _. apply IH. by rewrite (activeFx_same s) by by apply notify_stack.
Qed.

Lemma trigger_own sl op s :
  activeFx s = Some e → records e s (trigger R sl op s).2 (trigger_accesses R A sl op s).
Proof.
  intros Hact. unfold trigger, trigger_accesses.
  eapply records_skip;
    [apply rtc_once, (prim_log (EvTrigger sl.1 op sl.2))|by apply dispatch_prims| |].
  - by apply spared_registry.
  - by apply dispatch_own.
Qed.

Lemma computed_read_own c s :
  activeFx s = Some e →
  records e s (computed_read R c s).2 (Inherits <$> inherited R c s).
Proof.
  intros Hact. unfold computed_read, inherited.
  destruct (computeds s !! c) as [cell|]; [|apply records_refl].
  assert (Hprop : ∀ s2, activeFx s2 = Some e →
    records e s2
      (match activeFx s2 with
       | Some a => foldl (λ st sl, subscribe a sl st) s2 (deps_of s2 (c_fx cell))
       | None => s2
       end) (Inherits <$> deps_of s2 (c_fx cell))).
  { intros s2 H2 _ _ sl. rewrite H2, elem_of_dep_of_propagate, recorded_inherits. tauto. }
  assert (Pprop : ∀ s2, rtc prim s2
      (match activeFx s2 with
       | Some a => foldl (λ st sl, subscribe a sl st) s2 (deps_of s2 (c_fx cell))
       | None => s2
       end)).
  { intros s2. destruct (activeFx s2) as [a|] eqn:E; [|done]. by apply propagate_prims. }
  destruct (c_dirty cell).
  - pose proof (fx_run_prims R HS (c_fx cell) s) as Pt.
    assert (St : spared e s (fx_run R (c_fx cell) s).2) by (by apply fx_run_spared).
    pose proof (fx_run_stack R HB (c_fx cell) s) as Kt.
    destruct (fx_run R (c_fx cell) s) as [[v|x|] s1] eqn:Et; cbn [bind snd] in *.
    + eapply records_skip; [exact Pt| |exact St|].
      * etrans; [apply rtc_once, (prim_recomputed c v)|apply Pprop].
      * eapply records_skip; [apply rtc_once, (prim_recomputed c v)|apply Pprop| |].
        -- by apply spared_registry.
        -- apply (Hprop (set_computeds (alter (c_recomputed v) c) s1)).
           by rewrite <- Hact, <- (activeFx_same s s1).
    + by apply records_spared.
    + by apply records_spared.
  - cbn [bind snd]. by apply Hprop.
Qed.

(** While [e] is the active effect, a run of code records its accesses for
    [e]. *)
Lemma step_own p s :
  activeFx s = Some e → records e s (step R p s).2 (step_accesses R A p s).
Proof.
  revert s.
  induction p as [v|x|sl k IH|sl op k IH|sl k IH|sl v k IH|c k IH|e' k IH|e' k IH|j k IH];
    intros s Hact; cbn [step step_accesses].
  - apply records_refl.
  - apply records_refl.
  - eapply records_cons; [apply rtc_once, prim_track|by apply step_prims| |].
    + by apply records_track.
    + apply IH. by rewrite (activeFx_same s) by apply track_stack.
  - apply (records_bind e (trigger R sl op s) (λ _ s', step R k s') s
             (trigger_accesses R A sl op s) (λ _ s', step_accesses R A k s')).
    + by apply trigger_prims.
    + intros _. by apply step_prims.
    + by apply trigger_own.
    + intros _ _. apply IH. by rewrite (activeFx_same s) by by apply trigger_stack.
  - by apply IH.
  - eapply records_skip; [apply rtc_once, prim_store|by apply step_prims| |].
    + by apply spared_registry.
    + by apply IH.
  - apply (records_bind e (computed_read R c s) (λ v s', step R (k v) s') s
             (Inherits <$> inherited R c s) (λ v s', step_accesses R A (k v) s')).
    + by apply computed_read_prims.
    + intros v. by apply step_prims.
    + by apply computed_read_own.
    + intros v _. apply IH. by rewrite (activeFx_same s) by by apply computed_read_stack.
  - change (step_accesses R A (RunFx e' k) s) with
      ([] ++ match fx_run R e' s with
             | (Ok v, s') => step_accesses R A (k v) s'
             | _ => []
             end).
    apply (records_bind e (fx_run R e' s) (λ v s', step R (k v) s') s
             [] (λ v s', step_accesses R A (k v) s')).
    + by apply fx_run_prims.
    + intros v. by apply step_prims.
    + apply records_spared. by apply fx_run_spared.
    + intros v _. apply IH. by rewrite (activeFx_same s) by by apply fx_run_stack.
  - eapply records_skip; [apply rtc_once, prim_stop|by apply step_prims| |].
    + intros Hx Ha sl'. destruct (decide (e' = e)) as [->|Hne]; [by destruct (fx_stop_dead e s)|].
      unfold fx_stop at 1. unfold dep_of at 1. simpl. fold (dep_of (cleanup e' s) sl').
      by apply dep_of_cleanup_other.
    + apply IH. by rewrite (activeFx_same s) by apply fx_stop_stack.
  - eapply records_skip; [apply rtc_once, prim_push|by apply step_prims| |].
    + apply spared_registry. apply queue_push_frame.
    + apply IH. by rewrite (activeFx_same s) by apply queue_push_stack.
Qed.

End own.

(** Whatever runs while [e] is the active effect records its accesses. *)
Lemma exec_owned e fuel : owned e (exec fuel) (accesses fuel).
Proof.
  induction fuel as [|fuel IH]; intros p s Hact; simpl; [apply records_refl|].
  apply step_own;
    [apply exec_sound|apply exec_balanced|apply exec_nested|exact IH|exact Hact].
Qed.

(** ** Direct code *)

Lemma dispatch_accesses_harmless R A es s :
  (∀ e, e ∈ es → harmless s e) → dispatch_accesses R A es s = [].
Proof.
  revert s. induction es as [|e es IH]; intros s H; simpl; [done|].
  destruct (notify_harmless e s) as (s1 & Hn & Hi1 & _).
  { apply H, list_elem_of_here. }
  rewrite Hn, IH.
  2:{ intros e' Hin. eapply harmless_invalidated; [exact Hi1|].
      by apply H, list_elem_of_further. }
  rewrite app_nil_r. unfold notify_accesses.
  destruct (effects s !! e) as [f|] eqn:He; [|done].
  destruct (fx_active f) eqn:Ha; [|done].
  destruct (H e (list_elem_of_here _ _) f He Ha) as [[c ->]|[[i ->]|[-> _]]]; done.
Qed.

Lemma trigger_accesses_calm R A sl op s : calm s sl op → trigger_accesses R A sl op s = [].
Proof.
  intros Hq. apply dispatch_accesses_harmless. intros e Hin f.
  change (effects (log (EvTrigger sl.1 op sl.2) s)) with (effects s).
  change (activeFx (log (EvTrigger sl.1 op sl.2) s)) with (activeFx s).
  apply Hq. revert Hin. unfold run_set, target_deps, dep_of. done.
Qed.

(** Direct code reads the same pairs whatever makes the nested calls, and
    inherits none. *)
Lemma direct_accesses R A p s :
  direct p s →
  step_accesses R A p s = step_accesses (exec 0) (accesses 0) p s ∧
  Forall (λ a, ∃ sl, a = Reads sl) (step_accesses R A p s).
Proof.
  revert s.
  induction p as [v|x|sl k IH|sl op k IH|sl k IH|sl v k IH|c k IH|e k IH|e k IH|j k IH];
    intros s Hd; cbn [direct step_accesses] in *; try done.
  - destruct (IH _ Hd) as [H1 H2]. split; [by rewrite H1|].
    apply Forall_cons. split; [by eexists|done].
  - destruct Hd as [Hq Hd].
    destruct (trigger_calm sl op s Hq) as (s1 & Ht & _).
    rewrite !trigger_accesses_calm by done.
    rewrite !Ht in *. cbn [snd app] in *. by apply IH.
  - by apply IH.
  - by apply IH.
  - by apply IH.
Qed.


(** What a run of an effect leaves of the run of its code. *)
Lemma fx_run_body fuel e f body s :
  effects s !! e = Some f → fx_active f = true → fx_body s f = Some body →
  registry (fx_run (exec (S fuel)) e s).2 = registry (step (exec fuel) body (entered e s)).2 ∧
  effects (fx_run (exec (S fuel)) e s).2 = effects (step (exec fuel) body (entered e s)).2 ∧
  (∀ e', execs e' (fx_run (exec (S fuel)) e s).2 =
         execs e' (step (exec fuel) body (entered e s)).2) ∧
  ((fx_run (exec (S fuel)) e s).1 = OutOfFuel ↔
   (step (exec fuel) body (entered e s)).1 = OutOfFuel).
Proof.
  intros He Ha Hb.
  destruct (entered_view e s) as (_ & _ & Hf1 & _ & Hi1 & _).
  unfold fx_run. rewrite He, Ha. fold (entered e s).
  unfold fx_body in Hb. destruct (fx_raw f) as [g|i]; cbn [call_raw].
  - unfold call_value. rewrite (fn_body_funs s) by done.
    destruct (fn_body s g) as [b|]; [|done]. injection Hb as <-.
    change (exec (S fuel)) with (step (exec fuel)).
    by destruct (step (exec fuel) (b VUndef) (entered e s)) as [r s2].
  - unfold update. rewrite Hi1.
    destruct (instances s !! i) as [inst|]; [|done].
    unfold call_value. rewrite (fn_body_funs s) by done.
    destruct (fn_body s (i_renderTemplate inst)) as [b|]; [|done]. injection Hb as <-.
    change (exec (S fuel)) with (step (exec fuel)).
    destruct (step (exec fuel) (b VUndef) (entered e s)) as [[v|x|] s2];
      cbn [fst snd bind]; try done.
    destruct (is_template v); cbn [fst snd]; split_and!; done.
Qed.

(** After it has entered a run, an effect is in no Dep. *)
Lemma entered_not_subscribed e f s sl :
  wf s → effects s !! e = Some f → e ∉ dep_of (entered e s) sl.
Proof.
  intros W He. change (e ∉ dep_of (cleanup e s) sl).
  rewrite (dep_of_cleanup e f) by done. case_decide as Hin.
  - rewrite elem_of_dep_delete. by intros [].
  - intros H%(wf_mirror _ W). apply Hin. unfold deps_of in H. by rewrite He in H.
Qed.

Lemma alive_static s s' e :
  fx_static <$> effects s' !! e = fx_static <$> effects s !! e → alive s e → alive s' e.
Proof.
  intros Hst (f & Hf & Ha). rewrite Hf in Hst.
  destruct (effects s' !! e) as [f'|] eqn:Hf'; simpl in Hst; [|done].
  exists f'. split; [done|]. unfold fx_static in Hst. simplify_eq. congruence.
Qed.

Lemma alive_effects s s' e : effects s' = effects s → alive s e → alive s' e.
Proof. unfold alive. by intros ->. Qed.

Lemma inherits_none l :
  Forall (λ a, ∃ sl, a = Reads sl) l →
  omap (λ a, match a with Inherits sl => Some sl | Reads _ => None end) l = [].
Proof. induction 1 as [|a l (sl & ->) _ IH]; [done|]. simpl. exact IH. Qed.

(** C5, amended.  After a run of a live effect in which the effect itself was
    neither run again nor stopped, whatever the outcome of the run and
    whatever else it ran: the deps list of the effect holds exactly the
    pairs that were read while it was the active effect (by its function
    and by the schedulers that its triggers call), if tracking was not
    paused, together with the pairs that the computed values read there
    depend on, each pair once; the effect is in exactly the Deps of those
    pairs, and a trigger of SET on any other pair does not reach it.  With
    tracking paused and no computed value read, the deps list is empty.  For an
    effect whose code is direct the run completes, the effect is neither run
    again nor stopped, and no pair is inherited from a computed value. *)
Theorem run_rebuilds_deps fuel e f body s :
  wf s →
  effects s !! e = Some f → fx_active f = true →
  fx_body s f = Some body →
  (∀ r s', fx_run (exec (S fuel)) e s = (r, s') →
     execs e s' = 1 + execs e s → alive s' e →
     (∀ sl, sl ∈ deps_of s' e ↔
        (paused s = 0 ∧ sl ∈ reads_during (S fuel) body (entered e s)) ∨
        sl ∈ inherited_during (S fuel) body (entered e s)) ∧
     NoDup (deps_of s' e) ∧
     (∀ sl, e ∈ dep_of s' sl ↔ sl ∈ deps_of s' e) ∧
     (∀ sl, sl ∉ deps_of s' e → e ∉ run_set s' sl SET) ∧
     (0 < paused s → inherited_during (S fuel) body (entered e s) = [] →
        deps_of s' e = [])) ∧
  (direct body (entered e s) →
     inherited_during (S fuel) body (entered e s) = [] ∧
     reads_during (S fuel) body (entered e s) = reads_during 1 body (entered e s) ∧
     ∃ r s', fx_run (exec (S fuel)) e s = (r, s') ∧ r ≠ OutOfFuel ∧
       (∀ g, fx_raw f = FnValue g → r = (exec 1 body (entered e s)).1) ∧
       execs e s' = 1 + execs e s ∧ alive s' e).
Proof.
  intros W He Ha Hb.
  destruct (fx_run_body fuel e f body s He Ha Hb) as (Hr & Hef & Hex & _).
  destruct (entered_view e s) as (Hp1 & _ & _ & _ & _ & Ha1 & _).
  assert (Hx1 : execs e (entered e s) = 1 + execs e s).
  { rewrite execs_entered. by rewrite decide_True. }
  split.
  - intros r s' Hrun Hx Hal. rewrite Hrun in Hr, Hef, Hex. cbn [snd] in Hr, Hef, Hex.
    assert (W' : wf s').
    { pose proof (fx_run_prims (exec (S fuel)) (exec_sound (S fuel)) e s) as Hp.
      rewrite Hrun in Hp. by eapply wf_prims. }
    pose proof (exec_owned e (S fuel) body (entered e s) Ha1) as Hrec.
    change (exec (S fuel) body (entered e s)) with (step (exec fuel) body (entered e s)) in Hrec.
    assert (Hdep : ∀ sl, sl ∈ deps_of s' e ↔
        (paused s = 0 ∧ sl ∈ reads_during (S fuel) body (entered e s)) ∨
        sl ∈ inherited_during (S fuel) body (entered e s)).
    { intros sl. rewrite <- (wf_mirror _ W'), (dep_of_registry _ s') by done.
      rewrite (Hrec ltac:(by rewrite <- Hex, Hx) ltac:(by apply (alive_effects s')) sl).
      rewrite Hp1, elem_of_reads_during, elem_of_inherited_during.
      pose proof (entered_not_subscribed e f s sl W He). unfold recorded. tauto. }
    split_and!.
    + exact Hdep.
    + apply W'.
    + intros sl. apply (wf_mirror _ W').
    + intros sl Hsl. unfold run_set. rewrite elem_of_dedup. by rewrite (wf_mirror _ W').
    + intros Hp Hi. apply elem_of_nil_inv. intros sl. rewrite Hdep, Hi, elem_of_nil. lia.
  - intros Hd.
    destruct (direct_accesses (exec fuel) (accesses fuel) body (entered e s) Hd) as [Hacc Hall].
    split_and!.
    + unfold inherited_during. cbn [accesses]. by apply inherits_none.
    + unfold reads_during. cbn [accesses]. by rewrite Hacc.
    + destruct (fx_run_direct fuel e f body s He Ha Hb Hd) as (r & s' & Hrun & Hne & _ & _ & Hg).
      rewrite Hrun in Hef, Hex. cbn [snd] in Hef, Hex.
      rewrite (step_direct (exec fuel)) in Hef, Hex by done.
      destruct (direct_settled body (entered e s) Hd) as [_ Hst].
      exists r, s'. split_and!; [done|done|intros g Hraw; by apply (Hg g)| |].
      * by rewrite Hex, (st_execs _ _ Hst).
      * apply (alive_effects (exec 1 body (entered e s)).2); [done|].
        apply (alive_static s); [|by exists f].
        rewrite (st_static _ _ Hst). apply cleanup_static.
Qed.

(** ** States that look the same to direct code *)











(** ** Caching of computed values, for direct getters *)




(** ** A computed value keeps its setter *)

Lemma keeps_refl c s : keeps c s s.
Proof. intros cell Hc. exists cell. by split. Qed.

Lemma keeps_trans c s1 s2 s3 : keeps c s1 s2 → keeps c s2 s3 → keeps c s1 s3.
Proof.
  intros H1 H2 cell Hc.
  destruct (H1 cell Hc) as (c2 & Hc2 & [E1 E2]).
  destruct (H2 c2 Hc2) as (c3 & Hc3 & [F1 F2]).
  exists c3. split; [done|]. split; congruence.
Qed.

Lemma keeps_frame c s s' : computeds s' = computeds s → keeps c s s'.
Proof. intros E cell Hc. exists cell. rewrite E. by split. Qed.

Lemma keeps_prims c s s' : rtc prim s s' → keeps c s s'.
Proof. intros Hp cell Hc. by eapply prims_computeds. Qed.

Lemma keeps_exec c fuel p s : keeps c s (exec fuel p s).2.
Proof. apply keeps_prims, exec_sound. Qed.

Lemma bind_keeps {A B} c (m : res A * State) (k : A → State → res B * State) s :
  keeps c s m.2 → (∀ a s1, keeps c s1 (k a s1).2) → keeps c s (bind m k).2.
Proof.
  intros Hm Hk. destruct m as [[a| |] s1]; simpl in *; eauto.
  eapply keeps_trans; eauto.
Qed.

Lemma run_hook_fns_keeps c fuel fns s : keeps c s (run_hook_fns (exec fuel) fns s).2.
Proof.
  revert s. induction fns as [|fn fns IH]; intros s; simpl; [apply keeps_refl|].
  apply bind_keeps.
  - destruct (isFunction fn); [|by apply keeps_frame].
    eapply keeps_trans; [|apply keeps_prims, call_value_prims, exec_sound].
    by apply keeps_frame.
  - intros _ s1. eapply keeps_trans; [|apply IH]. by apply keeps_frame.
Qed.

Lemma runHooks_keeps c fuel i h s : keeps c s (runHooks (exec fuel) i h s).2.
Proof.
  unfold runHooks. destruct (instances s !! i); [apply run_hook_fns_keeps|apply keeps_refl].
Qed.

Lemma fx_run_keeps c fuel e s : keeps c s (fx_run (exec fuel) e s).2.
Proof. apply keeps_prims, fx_run_prims, exec_sound. Qed.

Lemma render_job_keeps c fuel i s : keeps c s (render_job (exec fuel) i s).2.
Proof.
  unfold render_job. destruct (instances s !! i) as [inst|]; [|apply keeps_refl].
  apply bind_keeps.
  - destruct (i_mounted inst).
    + apply bind_keeps; [apply runHooks_keeps|]. intros _ s1.
      apply bind_keeps; [apply fx_run_keeps|]. intros _ s2. apply runHooks_keeps.
    + apply bind_keeps; [apply fx_run_keeps|]. intros _ s1. by apply keeps_frame.
  - intros _ s3. by apply keeps_frame.
Qed.

Lemma run_job_keeps c fuel j s : keeps c s (run_job (exec fuel) j s).2.
Proof.
  destruct j as [n|i n]; simpl; [|apply render_job_keeps].
  destruct (jobs s !! n); [apply keeps_exec|apply keeps_refl].
Qed.

Lemma flush_loop_keeps c fuel b idx s : keeps c s (flush_loop (exec fuel) b idx s).2.
Proof.
  revert idx s. induction b as [|b IH]; intros idx s; simpl.
  - destruct (queue s !! idx); by apply keeps_frame.
  - destruct (queue s !! idx) as [j|]; [|by apply keeps_frame].
    pose proof (run_job_keeps c fuel j (log (EvJob j) (set_pending (λ p, p ∖ {[j]}) s))) as Hj.
    assert (H0 : keeps c s (log (EvJob j) (set_pending (λ p, p ∖ {[j]}) s)))
      by (by apply keeps_frame).
    destruct (run_job (exec fuel) j _) as [[a| |] s1]; simpl in *.
    + eapply keeps_trans; [exact H0|]. eapply keeps_trans; [exact Hj|apply IH].
    + eapply keeps_trans; [exact H0|]. eapply keeps_trans; [exact Hj|].
      eapply keeps_trans; [|apply IH]. by apply keeps_frame.
    + by eapply keeps_trans.
Qed.

Lemma setup_keeps c fuel i s : keeps c s (setup (exec fuel) i s).2.
Proof.
  unfold setup. destruct (instances s !! i) as [inst|]; [|apply keeps_refl].
  apply bind_keeps.
  - eapply keeps_trans; [|apply keeps_exec]. by apply keeps_frame.
  - intros rt s1. destruct (isFunction rt); by apply keeps_frame.
Qed.

Lemma prop_set_keeps c H fuel i k v s : keeps c s (prop_set H (exec fuel) i k v s).2.
Proof.
  unfold prop_set. destruct (instances s !! i) as [inst|]; [|apply keeps_refl].
  destruct (strict_neq _ _); [|apply keeps_refl].
  destruct (validateProp _ _ _ _); try apply keeps_refl.
  eapply keeps_trans; [|apply keeps_prims, trigger_prims, exec_sound].
  by apply keeps_frame.
Qed.

Lemma later_keeps c s s' : later_step s s' → keeps c s s'.
Proof.
  intros Hl. destruct Hl as [fuel p s|fuel i h s|fuel i s|i s|fuel limit s|H fuel i k v s].
  - apply keeps_exec.
  - apply runHooks_keeps.
  - apply setup_keeps.
  - apply keeps_frame. by destruct (scheduleUpdate_frame i s) as (_ & _ & _ & _ & _ & -> & _).
  - unfold flush. eapply keeps_trans; [|apply flush_loop_keeps]. by apply keeps_frame.
  - apply prop_set_keeps.
Qed.

Lemma computedGetter_keeps c tgt s : keeps c s (computedGetter tgt s).2.
Proof.
  intros cell Hc. exists cell. split; [|done]. rewrite computedGetter_spec. simpl.
  rewrite lookup_insert_ne; [done|].
  intros <-. apply (is_fresh (dom (computeds s))). apply elem_of_dom. by eexists.
Qed.

Lemma computed_keeps c tgt s : keeps c s (computed tgt s).2.
Proof.
  unfold computed. destruct (isFunction tgt).
  { pose proof (computedGetter_keeps c tgt s) as H.
    destruct (computedGetter tgt s) as [c' s1]. exact H. }
  destruct (isObject tgt); [|apply keeps_refl].
  destruct (member_spec tgt "get" s) as (s1 & -> & _ & Hc1 & _).
  rewrite computedGetter_spec. cbv zeta.
  set (c' := fresh (dom (computeds s1))).
  set (s2 := set_computeds _ _).
  destruct (member_spec tgt "set" s2) as (s3 & -> & _ & Hc3 & _).
  intros cell Hc. exists cell. split; [|done].
  assert (Hne : c ≠ c').
  { intros ->. apply (is_fresh (dom (computeds s1))). fold c'.
    apply elem_of_dom. rewrite Hc1. by eexists. }
  cbn [snd]. change (computeds (set_computeds ?f s3)) with (f (computeds s3)).
  rewrite lookup_alter_ne by done. rewrite Hc3. unfold s2. simpl.
  rewrite lookup_insert_ne by done. by rewrite Hc1.
Qed.

Lemma computed_write_keeps c fuel c' v s : keeps c s (computed_write (exec fuel) c' v s).2.
Proof.
  unfold computed_write. destruct (computeds s !! c') as [cell|]; [|apply keeps_refl].
  destruct (isFunction (c_set cell)); [|apply keeps_refl].
  apply keeps_prims, call_value_prims, exec_sound.
Qed.

Lemma afterwards_keeps c s s' : rtc afterwards s s' → keeps c s s'.
Proof.
  induction 1 as [|s1 s2 s3 H _ IH]; [apply keeps_refl|].
  eapply keeps_trans; [|exact IH].
  destruct H as [s s' Hl|tgt s|fuel c' v s].
  - by apply later_keeps.
  - apply computed_keeps.
  - apply computed_write_keeps.
Qed.

(** A read of a computed value is a step of the application. *)
Lemma afterwards_read fuel c s : afterwards s (computed_read (exec fuel) c s).2.
Proof.
  replace (computed_read (exec fuel) c s).2
    with (exec (S fuel) (ReadComputed c (λ v, Ret v)) s).2.
  { apply aw_later, later_code. }
  simpl. by destruct (computed_read (exec fuel) c s) as [[v| |] s1].
Qed.

(** C6. [computed] of a function builds a computed value without a setter:
    in every later state a write to it is an error and changes nothing, so
    the value that a read has cached is still cached after the attempt.
    [computed] of an object builds a computed value with the [set] of the
    object: in every later state a write calls that function with the new
    value, if it is one, and is the same error otherwise. *)
Theorem computed_write_without_setter R tgt s :
  (isFunction tgt = true →
   ∃ c s1, computed tgt s = (Ok c, s1) ∧
     ∀ s2 v, rtc afterwards s1 s2 →
       computed_write R c v s2 = (Thrown (TypeError "Computed value is read-only"), s2) ∧
       ∀ fuel w s3, computed_read (exec fuel) c s2 = (Ok w, s3) →
         computed_write R c v s3 = (Thrown (TypeError "Computed value is read-only"), s3) ∧
         cached (computed_write R c v s3).2 c = w) ∧
  (isFunction tgt = false → isObject tgt = true →
   ∀ t, target_of tgt = Some t →
   ∃ c s1, computed tgt s = (Ok c, s1) ∧
     ∀ s2 v, rtc afterwards s1 s2 →
       computed_write R c v s2 =
         if isFunction (heap_get s (t, "set"))
         then call_value R (heap_get s (t, "set")) v s2
         else (Thrown (TypeError "Computed value is read-only"), s2)).
Proof.
  split.
  - intros Hf. unfold computed. rewrite Hf, computedGetter_spec. cbv zeta.
    set (c := fresh (dom (computeds s))). set (s1 := set_computeds _ _).
    exists c, s1. split; [done|].
    assert (Hc1 : computeds s1 !! c =
                  Some {| c_value := VUndef; c_dirty := true;
                          c_fx := fresh (dom (effects s)); c_set := VUndef |}).
    { unfold s1. simpl. by rewrite lookup_insert_eq. }
    assert (Hw : ∀ s2 v, rtc afterwards s1 s2 →
              computed_write R c v s2 = (Thrown (TypeError "Computed value is read-only"), s2) ∧
              is_Some (computeds s2 !! c)).
    { intros s2 v Hs. destruct (afterwards_keeps c s1 s2 Hs _ Hc1) as (cell2 & Hc2 & _ & Hset).
      unfold computed_write. rewrite Hc2, Hset. by split. }
    intros s2 v Hs. split; [by apply Hw|].
    intros fuel w s3 Hr.
    assert (Hs3 : rtc afterwards s1 s3).
    { eapply rtc_r; [exact Hs|].
      replace s3 with (computed_read (exec fuel) c s2).2 by (by rewrite Hr).
      apply afterwards_read. }
    destruct (Hw s3 v Hs3) as [Hw3 _]. rewrite Hw3. split; [done|]. cbn [snd].
    destruct (Hw s2 v Hs) as [_ [cell2 Hc2]].
    destruct (computed_read_caches fuel c cell2 s2 w s3 Hc2 Hr) as (cell3 & Hc3 & _ & <-).
    unfold cached. by rewrite Hc3.
  - intros Hf Ho t Ht. unfold computed. rewrite Hf, Ho.
    destruct (member_spec tgt "get" s) as (s1 & -> & Hh1 & Hc1 & Hf1).
    rewrite computedGetter_spec. cbv zeta.
    set (c := fresh (dom (computeds s1))).
    set (s2 := set_computeds _ _).
    assert (Hg : heap_get s2 (t, "set") = heap_get s (t, "set")).
    { unfold heap_get, s2. simpl. by rewrite Hh1. }
    assert (Hl : computeds s2 !! c =
                 Some {| c_value := VUndef; c_dirty := true;
                         c_fx := fresh (dom (effects s1)); c_set := VUndef |}).
    { unfold s2. simpl. by rewrite lookup_insert_eq. }
    destruct (member_spec tgt "set" s2) as (s3 & -> & Hh3 & Hc3 & Hf3).
    rewrite Ht. cbn [from_option]. rewrite Hg.
    eexists _, _. split; [done|].
    intros s4 v Hs.
    edestruct (afterwards_keeps c _ s4 Hs) as (cell4 & Hc4 & _ & Hset).
    { change (computeds (set_computeds ?f s3)) with (f (computeds s3)).
      rewrite Hc3, lookup_alter_eq, Hl. reflexivity. }
    unfold computed_write. rewrite Hc4, Hset. done.
Qed.

(** C8. [computed] of a value that is neither a function nor an object
    throws a TypeError and leaves the state as it was. *)
Theorem computed_rejects_primitives tgt s :
  isFunction tgt = false → isObject tgt = false →
  computed tgt s = (Thrown (TypeError "Not a valid target"), s).
Proof. intros Hf Ho. unfold computed. by rewrite Hf, Ho. Qed.

(** Numbers, strings, booleans, symbols, null and undefined are neither. *)
Lemma primitive_neither v :
  isPrimitive v = true → isFunction v = false ∧ isObject v = false.
Proof. by destruct v. Qed.

(** ** The example states *)

Lemma wf_fresh s : fresh_bookkeeping s = true → wf s.
Proof.
  unfold fresh_bookkeeping. rewrite !andb_true_iff, !forallb_forall.
  intros [[Hr He] Hs]. apply bool_decide_eq_true in Hr.
  assert (Hdep : ∀ sl, dep_of s sl = []) by (intros sl; unfold dep_of; by rewrite Hr, lookup_empty).
  assert (Hdeps : ∀ e, deps_of s e = []).
  { intros e. unfold deps_of. destruct (effects s !! e) as [f|] eqn:Hf; [|done].
    simpl. apply (bool_decide_eq_true_1 (fx_deps f = [])).
    apply (He (e, f)). apply list_elem_of_In. by apply elem_of_map_to_list. }
  split.
  - intros sl. rewrite Hdep. apply NoDup_nil_2.
  - intros e sl. rewrite Hdep, Hdeps. split; intros H%elem_of_nil; done.
  - intros e. rewrite Hdeps. apply NoDup_nil_2.
  - intros e Hin. apply (bool_decide_eq_true_1 (is_Some (effects s !! e))).
    apply Hs. by apply list_elem_of_In.
Qed.

Lemma reads_only_getter : reads_only ex_getter.
Proof. repeat constructor. Qed.

Lemma reads_only_branch : reads_only ex_branch.
Proof.
  apply ro_Track, ro_Load. intros v. destruct (strict_eq v (VNum 1)); repeat constructor.
Qed.







(** Witness of C2: the computed value read while effect 5 is active. *)
Lemma computed_read_propagates_witness :
  wf ex_outer ∧
  computeds ex_outer !! 0 =
    Some {| c_value := VUndef; c_dirty := true; c_fx := 6; c_set := VUndef |} ∧
  activeFx ex_outer = Some 5 ∧
  computed_read (exec 2) 0 ex_outer = (Ok (VNum 1), ex_outer_read) ∧
  (∀ sl, sl ∈ deps_of ex_outer_read 6 →
     occurrences 5 (dep_of ex_outer_read sl) = 1 ∧ sl ∈ deps_of ex_outer_read 5) ∧
  NoDup (deps_of ex_outer_read 5) ∧
  (∀ sl e, occurrences e (dep_of ex_outer_read sl) ≤ 1).
Proof.
  assert (W : wf ex_outer) by (apply wf_fresh; vm_compute; reflexivity).
  assert (Hc : computeds ex_outer !! 0 =
            Some {| c_value := VUndef; c_dirty := true; c_fx := 6; c_set := VUndef |})
    by (vm_compute; reflexivity).
  assert (Ha : activeFx ex_outer = Some 5) by reflexivity.
  assert (Hr : computed_read (exec 2) 0 ex_outer = (Ok (VNum 1), ex_outer_read))
    by (vm_compute; reflexivity).
  split_and!; [done|done|done|done|..];
    apply (computed_read_propagates 2 0 _ 5 ex_outer (VNum 1) ex_outer_read W Hc Ha Hr).
Defined.

(** Counterexample of C5, in four scenes.  The setup function of an instance
    runs an effect whose function reads [a] and [b]: tracking is paused
    during setup, so when the run has completed the effect has read both
    pairs and its deps list is empty, and triggers of [a] and [b] do not
    reach it.  An effect whose function reads a computed value that is
    cached: the getter is not executed, the function reads no pair at all,
    and after the run the deps list holds the pair [a] of the getter.  An
    effect whose function reads [a], stops the effect and reads [b]: after
    the run the deps list holds [b] only.  And an effect whose function
    reads [a] and [b] and then runs the effect again, in a run that reads
    [a] only: after the outer run the deps list holds [a] only. *)
Lemma run_deps_counterexample :
  (wf ex_setup_runs ∧ paused ex_setup_runs = 0 ∧
   setup (exec 3) 0 ex_setup_runs = (Ok VUndef, ex_setup_ran) ∧
   execs 1 ex_setup_ran = 1 ∧
   reads_of (heap ex_setup_runs) ex_branch = [ex_a; ex_b] ∧
   deps_of ex_setup_ran 1 = [] ∧
   run_set ex_setup_ran ex_a SET = [] ∧ run_set ex_setup_ran ex_b SET = [] ∧
   ¬ (∀ sl, sl ∈ reads_of (heap ex_setup_runs) ex_branch → sl ∈ deps_of ex_setup_ran 1)) ∧
  (paused ex_reader = 0 ∧
   fx_run (exec 2) 5 ex_reader = (Ok (VNum 1), ex_reader_ran) ∧
   trace ex_reader_ran = EvExec 5 :: trace ex_reader ∧
   execs 0 ex_reader_ran = execs 0 ex_reader ∧
   deps_of ex_reader_ran 5 = [ex_a]) ∧
  (wf ex_writer ∧ paused ex_writer = 0 ∧
   fx_run (exec 1) 2 ex_writer = (Ok (VNum 2), ex_stopped_itself) ∧
   reads_during 1 (Get ex_a (λ _, StopFx 2 (Get ex_b (λ v, Ret v)))) (entered 2 ex_writer) =
     [ex_a; ex_b] ∧
   execs 2 ex_stopped_itself = 1 ∧
   deps_of ex_stopped_itself 2 = [ex_b]) ∧
  (fx_run (exec 2) 3 ex_writer = (Ok (VNum 2), ex_ran_itself) ∧
   take 2 (reads_during 2
     (Get ex_a (λ v,
        if strict_eq v (VNum 1)
        then Get ex_b (λ _, Store ex_a (VNum 2) (RunFx 3 (λ w, Ret w)))
        else Ret v)) (entered 3 ex_writer)) = [ex_a; ex_b] ∧
   execs 3 ex_ran_itself = 2 ∧
   deps_of ex_ran_itself 3 = [ex_a] ∧
   run_set ex_ran_itself ex_b SET = []).
Proof.
  split_and!; try (vm_compute; reflexivity).
  - apply wf_fresh. vm_compute. reflexivity.
  - intros H. specialize (H ex_a).
    assert (Hr : reads_of (heap ex_setup_runs) ex_branch = [ex_a; ex_b]) by (vm_compute; reflexivity).
    assert (Hd : deps_of ex_setup_ran 1 = []) by (vm_compute; reflexivity).
    rewrite Hr, Hd in H. apply elem_of_nil in H; [done|]. apply list_elem_of_here.
  - apply wf_fresh. vm_compute. reflexivity.
Qed.

Lemma wf_effect_switched : wf ex_effect_switched.
Proof.
  apply wf_set_heap. eapply wf_prims; [apply fx_run_prims, exec_sound|].
  apply wf_fresh. vm_compute. reflexivity.
Qed.

Lemma wf_scheduled render : wf (ex_scheduled render).
Proof.
  apply wf_scheduleUpdate. apply wf_fresh. vm_compute. reflexivity.
Qed.

Lemma wf_writer_ready : wf ex_writer_ready.
Proof.
  eapply wf_prims; [apply fx_run_prims, exec_sound|].
  eapply wf_prims; [apply fx_run_prims, exec_sound|].
  apply wf_fresh. vm_compute. reflexivity.
Qed.

Lemma wf_reader : wf ex_reader.
Proof.
  assert (W : wf ex_computed_read).
  { eapply wf_prims; [apply computed_read_prims, exec_sound|].
    apply wf_fresh. vm_compute. reflexivity. }
  destruct W as [W1 W2 W3 W4]. split.
  - exact W1.
  - intros e sl. rewrite (W2 e sl). unfold deps_of, ex_reader. simpl.
    destruct (decide (e = 5)) as [->|Hne].
    + rewrite lookup_insert_eq. vm_compute. tauto.
    + by rewrite lookup_insert_ne.
  - intros e. unfold deps_of, ex_reader. simpl.
    destruct (decide (e = 5)) as [->|Hne].
    + rewrite lookup_insert_eq. apply NoDup_nil_2.
    + rewrite lookup_insert_ne by done. apply W3.
  - intros e He. apply W4 in He. unfold ex_reader. simpl.
    destruct (decide (e = 5)) as [->|Hne].
    + by rewrite lookup_insert_eq.
    + by rewrite lookup_insert_ne.
Qed.

Lemma alive_spec s e : from_option fx_active false (effects s !! e) = true → alive s e.
Proof. destruct (effects s !! e) as [f|] eqn:Hf; [|done]. intros Ha. by exists f. Qed.

Lemma direct_render_loop : direct ex_render_loop (entered 0 (ex_scheduled (VObj CFunction 2))).
Proof.
  cbn [ex_render_loop Get Put direct]. split; [|exact I].
  intros e Hin f Hf _.
  assert (Hrs : run_set (set_heap <[ex_a:=VNum 2]>
                           (track ex_a (entered 0 (ex_scheduled (VObj CFunction 2))))) ex_a SET = [0])
    by (vm_compute; reflexivity).
  rewrite Hrs in Hin. apply list_elem_of_singleton in Hin as ->.
  vm_compute in Hf. injection Hf as <-. right. left. by exists 0.
Qed.

(** Witness of C5 (amended), in five scenes.  The effect over [ex_branch]
    has run once and read [a] and [b]; then [a] changes and the next run
    reads [a] only.  The effect over [() => { o.b = o.a }]: its write runs
    the effect 1, which reads [b], and calls the scheduler of the effect 4,
    which reads [flag]; its deps list holds [a] and [flag].  The effect
    that reads a cached computed value: its deps list holds the pair of the
    getter.  The effect over [ex_branch] run while tracking is paused.  And
    the effect of an instance whose render function reads [a], writes it and
    triggers it. *)
Lemma run_rebuilds_deps_witness :
  (0 ∈ dep_of ex_effect_switched ex_b ∧
   reads_during 1 ex_branch (entered 0 ex_effect_switched) = [ex_a] ∧
   (∀ sl, sl ∈ deps_of (fx_run (exec 1) 0 ex_effect_switched).2 0 ↔ sl = ex_a) ∧
   0 ∉ run_set (fx_run (exec 1) 0 ex_effect_switched).2 ex_b SET) ∧
  (fx_run (exec 3) 0 ex_writer_ready = (Ok VUndef, ex_writer_ran) ∧
   execs 1 ex_writer_ran = 1 + execs 1 ex_writer_ready ∧
   reads_during 3 (Get ex_a (λ v, Put ex_b v (Ret VUndef))) (entered 0 ex_writer_ready) =
     [ex_a; ex_flag] ∧
   (∀ sl, sl ∈ deps_of ex_writer_ran 0 ↔ sl = ex_a ∨ sl = ex_flag) ∧
   0 ∉ run_set ex_writer_ran ex_b SET) ∧
  (reads_during 2 (ReadComputed 0 (λ v, Ret v)) (entered 5 ex_reader) = [] ∧
   inherited_during 2 (ReadComputed 0 (λ v, Ret v)) (entered 5 ex_reader) = [ex_a] ∧
   (∀ sl, sl ∈ deps_of ex_reader_ran 5 ↔ sl = ex_a)) ∧
  (paused (pauseTracking ex_effect) = 1 ∧
   reads_during 1 ex_branch (entered 0 (pauseTracking ex_effect)) = [ex_a; ex_b] ∧
   deps_of ex_effect_paused 0 = []) ∧
  (direct ex_render_loop (entered 0 (ex_scheduled (VObj CFunction 2))) ∧
   reads_during 1 ex_render_loop (entered 0 (ex_scheduled (VObj CFunction 2))) = [ex_a] ∧
   ∃ r s', fx_run (exec 1) 0 (ex_scheduled (VObj CFunction 2)) = (r, s') ∧ r ≠ OutOfFuel ∧
        execs 0 s' = 1 + execs 0 (ex_scheduled (VObj CFunction 2)) ∧
        (∀ sl, sl ∈ deps_of s' 0 ↔ sl = ex_a)).
Proof.
  split; [|split; [|split; [|split; [split; [|split]|split; [|split]]]]].
  - assert (Hr : reads_during 1 ex_branch (entered 0 ex_effect_switched) = [ex_a])
      by (vm_compute; reflexivity).
    assert (Hi : inherited_during 1 ex_branch (entered 0 ex_effect_switched) = [])
      by (vm_compute; reflexivity).
    assert (Hb : dep_of ex_effect_switched ex_b = [0]) by (vm_compute; reflexivity).
    assert (Hp : paused ex_effect_switched = 0) by reflexivity.
    destruct (run_rebuilds_deps 0 0 (fx_with_deps [ex_a; ex_b] (ex_fx (VObj CFunction 1) None))
                ex_branch ex_effect_switched wf_effect_switched) as [Hgen _];
      [vm_compute; reflexivity|reflexivity|vm_compute; reflexivity|].
    destruct (Hgen (fx_run (exec 1) 0 ex_effect_switched).1
                   (fx_run (exec 1) 0 ex_effect_switched).2) as (H1 & _ & _ & H4 & _);
      [by destruct (fx_run (exec 1) 0 ex_effect_switched)|vm_compute; reflexivity|
       apply alive_spec; vm_compute; reflexivity|].
    assert (Hdeps : ∀ sl, sl ∈ deps_of (fx_run (exec 1) 0 ex_effect_switched).2 0 ↔ sl = ex_a).
    { intros sl. rewrite H1, Hr, Hi, list_elem_of_singleton, elem_of_nil. tauto. }
    split_and!; [rewrite Hb; apply list_elem_of_here|exact Hr|exact Hdeps|].
    apply H4. rewrite Hdeps. unfold ex_a, ex_b. intros [=].
  - assert (Hrun : fx_run (exec 3) 0 ex_writer_ready = (Ok VUndef, ex_writer_ran))
      by (vm_compute; reflexivity).
    assert (Hr : reads_during 3 (Get ex_a (λ v, Put ex_b v (Ret VUndef)))
                   (entered 0 ex_writer_ready) = [ex_a; ex_flag])
      by (vm_compute; reflexivity).
    assert (Hi : inherited_during 3 (Get ex_a (λ v, Put ex_b v (Ret VUndef)))
                   (entered 0 ex_writer_ready) = [])
      by (vm_compute; reflexivity).
    assert (Hp : paused ex_writer_ready = 0) by reflexivity.
    destruct (run_rebuilds_deps 2 0 (ex_fx (VObj CFunction 0) None)
                (Get ex_a (λ v, Put ex_b v (Ret VUndef))) ex_writer_ready wf_writer_ready)
      as [Hgen _];
      [vm_compute; reflexivity|reflexivity|vm_compute; reflexivity|].
    destruct (Hgen (Ok VUndef) ex_writer_ran Hrun) as (H1 & _ & _ & H4 & _);
      [vm_compute; reflexivity|apply alive_spec; vm_compute; reflexivity|].
    assert (Hdeps : ∀ sl, sl ∈ deps_of ex_writer_ran 0 ↔ sl = ex_a ∨ sl = ex_flag).
    { intros sl. rewrite H1, Hr, Hi, elem_of_cons, list_elem_of_singleton, elem_of_nil. tauto. }
    split_and!; [exact Hrun|vm_compute; reflexivity|exact Hr|exact Hdeps|].
    apply H4. rewrite Hdeps. unfold ex_a, ex_b, ex_flag. intros [[=]|[=]].
  - assert (Hrun : fx_run (exec 2) 5 ex_reader = (Ok (VNum 1), ex_reader_ran))
      by (vm_compute; reflexivity).
    assert (Hr : reads_during 2 (ReadComputed 0 (λ v, Ret v)) (entered 5 ex_reader) = [])
      by (vm_compute; reflexivity).
    assert (Hi : inherited_during 2 (ReadComputed 0 (λ v, Ret v)) (entered 5 ex_reader) = [ex_a])
      by (vm_compute; reflexivity).
    destruct (run_rebuilds_deps 1 5 (ex_fx (VObj CFunction 5) None)
                (ReadComputed 0 (λ v, Ret v)) ex_reader wf_reader) as [Hgen _];
      [vm_compute; reflexivity|reflexivity|vm_compute; reflexivity|].
    destruct (Hgen (Ok (VNum 1)) ex_reader_ran Hrun) as (H1 & _);
      [vm_compute; reflexivity|apply alive_spec; vm_compute; reflexivity|].
    split_and!; [exact Hr|exact Hi|].
    intros sl. rewrite H1, Hr, Hi, list_elem_of_singleton, elem_of_nil. tauto.
  - reflexivity.
  - vm_compute; reflexivity.
  - assert (W : wf (pauseTracking ex_effect)) by (apply wf_fresh; vm_compute; reflexivity).
    assert (Hi : inherited_during 1 ex_branch (entered 0 (pauseTracking ex_effect)) = [])
      by (vm_compute; reflexivity).
    destruct (run_rebuilds_deps 0 0 (ex_fx (VObj CFunction 1) None)
                ex_branch (pauseTracking ex_effect) W) as [Hgen _];
      [vm_compute; reflexivity|reflexivity|vm_compute; reflexivity|].
    destruct (Hgen (fx_run (exec 1) 0 (pauseTracking ex_effect)).1 ex_effect_paused)
      as (_ & _ & _ & _ & H5);
      [unfold ex_effect_paused; by destruct (fx_run (exec 1) 0 (pauseTracking ex_effect))|
       vm_compute; reflexivity|apply alive_spec; vm_compute; reflexivity|].
    apply H5; [simpl; lia|exact Hi].
  - exact direct_render_loop.
  - vm_compute; reflexivity.
  - pose proof (wf_scheduled (VObj CFunction 2)) as W.
    assert (Hr : reads_during 1 ex_render_loop (entered 0 (ex_scheduled (VObj CFunction 2))) = [ex_a])
      by (vm_compute; reflexivity).
    assert (Hp : paused (ex_scheduled (VObj CFunction 2)) = 0) by reflexivity.
    destruct (run_rebuilds_deps 0 0 ex_update_fx ex_render_loop
                (ex_scheduled (VObj CFunction 2)) W) as [Hgen Hdir];
      [vm_compute; reflexivity|reflexivity|vm_compute; reflexivity|].
    destruct (Hdir direct_render_loop) as (Hi & _ & r & s' & Hrun & Hne & _ & Hx & Hal).
    destruct (Hgen r s' Hrun Hx Hal) as (H1 & _).
    exists r, s'. split_and!; [exact Hrun|exact Hne|exact Hx|].
    intros sl. rewrite H1, Hr, Hi, list_elem_of_singleton, elem_of_nil. tauto.
Defined.

(** Counterexample of C3: the render function of an instance writes the
    prop it has just read.  In the flush the update job runs, the trigger
    reaches the scheduler of the instance's effect while the job is running,
    and [scheduleUpdate] returns at once: the job has run once, nothing is
    queued or pending, no further flush is requested, although the prop has
    changed since it was read. *)
Lemma update_retrigger_counterexample :
  flush (exec 4) 100 (ex_scheduled (VObj CFunction 2)) = (Ok VUndef, ex_flushed) ∧
  trace ex_flushed = [EvRender 0; EvSched 0; EvTrigger (TObject 1) SET "a";
                      EvExec 0; EvJob (RenderJob 0 0)] ∧
  job_runs (RenderJob 0 0) (trace ex_flushed) = 1 ∧ execs 0 ex_flushed = 1 ∧
  queue ex_flushed = [] ∧ pending ex_flushed = ∅ ∧ flushScheduled ex_flushed = false ∧
  dep_of ex_flushed ex_a = [0] ∧ heap_get ex_flushed ex_a = VNum 2 ∧
  ¬ (2 ≤ job_runs (RenderJob 0 0) (trace ex_flushed)).
Proof.
  split_and!; try (vm_compute; reflexivity).
  assert (H : job_runs (RenderJob 0 0) (trace ex_flushed) = 1) by (vm_compute; reflexivity).
  rewrite H. lia.
Qed.

Lemma queue_ok_requeue : queue_ok 0 ex_requeue.
Proof.
  assert (Hq : queue ex_requeue = [UserJob 0]) by reflexivity.
  assert (Hp : pending ex_requeue = {[UserJob 0]}) by (vm_compute; reflexivity).
  unfold queue_ok. rewrite Hq, Hp. simpl. split_and!.
  - lia.
  - apply NoDup_singleton.
  - intros j. by rewrite elem_of_singleton, list_elem_of_singleton.
Qed.

(** Witness of C3 (amended): a job that pushes itself once runs twice. *)
Lemma job_pending_once_and_requeue_witness :
  queue_ok 0 ex_requeue ∧
  queue ex_requeue !! 0 = Some (UserJob 0) ∧
  UserJob 0 ∈ pending (run_job (exec 1) (UserJob 0)
                         (log (EvJob (UserJob 0))
                            (set_pending (λ p, p ∖ {[UserJob 0]}) ex_requeue))).2 ∧
  flush_loop (exec 1) 5 0 ex_requeue = (Ok VUndef, (flush_loop (exec 1) 5 0 ex_requeue).2) ∧
  ∃ evs, trace (flush_loop (exec 1) 5 0 ex_requeue).2 = evs ++ trace ex_requeue ∧
         2 ≤ job_runs (UserJob 0) evs.
Proof.
  pose proof queue_ok_requeue as Hok.
  assert (Hq : queue ex_requeue !! 0 = Some (UserJob 0)) by reflexivity.
  assert (Hp : UserJob 0 ∈ pending (run_job (exec 1) (UserJob 0)
                         (log (EvJob (UserJob 0))
                            (set_pending (λ p, p ∖ {[UserJob 0]}) ex_requeue))).2).
  { assert (He : pending (run_job (exec 1) (UserJob 0)
                         (log (EvJob (UserJob 0))
                            (set_pending (λ p, p ∖ {[UserJob 0]}) ex_requeue))).2 = {[UserJob 0]})
      by (vm_compute; reflexivity).
    rewrite He. by apply elem_of_singleton. }
  assert (Hf : flush_loop (exec 1) 5 0 ex_requeue =
               (Ok VUndef, (flush_loop (exec 1) 5 0 ex_requeue).2)) by (vm_compute; reflexivity).
  destruct (job_pending_once_and_requeue 1) as (_ & _ & _ & H4 & _).
  split_and!; [done|done|done|done|].
  apply (H4 4 0 (UserJob 0) ex_requeue VUndef _ Hok Hq Hp Hf).
Defined.

(** Counterexample of C4: a prop of type Number that holds 1 is assigned
    the string "x", a different value; the validation throws, the prop still
    holds 1 and no trigger was called. *)
Lemma prop_set_counterexample :
  strict_neq (VStr "x") (heap_get ex_setup_throws (TObject 1, "n")) = true ∧
  prop_set ex_host (exec 2) 0 "n" (VStr "x") ex_setup_throws =
    (Thrown (Error "Type error in prop 'n'."), ex_setup_throws) ∧
  heap_get (prop_set ex_host (exec 2) 0 "n" (VStr "x") ex_setup_throws).2 (TObject 1, "n")
    = VNum 1 ∧
  trace (prop_set ex_host (exec 2) 0 "n" (VStr "x") ex_setup_throws).2 = [] ∧
  prop_set ex_host (exec 2) 0 "n" (VStr "x") ex_setup_throws ≠
    trigger (exec 2) (TObject 1, "n") SET
      (set_heap (<[(TObject 1, "n") := toReactive (VStr "x")]>) ex_setup_throws).
Proof.
  split_and!; try (vm_compute; reflexivity).
  intros H. apply (f_equal fst) in H. vm_compute in H. discriminate H.
Qed.

(** Witness of C4 (amended): the prop is assigned the number 2. *)
Lemma write_compares_before_trigger_witness :
  instances ex_setup_throws !! 0 = Some (ex_instance (Throw (UserError 1)) VUndef) ∧
  strict_eq (VNum 2) (heap_get ex_setup_throws (TObject 1, "n")) = false ∧
  validateProp ex_host (i_props (ex_instance (Throw (UserError 1)) VUndef)) "n" (VNum 2) = Ok (VNum 2) ∧
  prop_set ex_host (exec 2) 0 "n" (VNum 2) ex_setup_throws =
    trigger (exec 2) (TObject 1, "n") SET
      (set_heap (<[(TObject 1, "n") := toReactive (VNum 2)]>) ex_setup_throws).
Proof.
  assert (Hi : instances ex_setup_throws !! 0 = Some (ex_instance (Throw (UserError 1)) VUndef))
    by (vm_compute; reflexivity).
  assert (Hne : strict_eq (VNum 2) (heap_get ex_setup_throws (TObject 1, "n")) = false)
    by (vm_compute; reflexivity).
  assert (Hv : validateProp ex_host (i_props (ex_instance (Throw (UserError 1)) VUndef)) "n" (VNum 2)
               = Ok (VNum 2)) by (vm_compute; reflexivity).
  destruct (write_compares_before_trigger ex_host (exec 2)) as (_ & _ & _ & H4 & _).
  split_and!; [done|done|done|].
  apply (H4 0 _ "n" (VNum 2) (VNum 2) ex_setup_throws Hi Hne Hv).
Defined.

(** Witness of C6: a computed value built from a getter only, written after
    a read has cached 1; and a computed value built from an object with a
    setter, whose write stores the new value through the setter. *)
Lemma computed_write_without_setter_witness :
  (isFunction (VObj CFunction 0) = true ∧
   computed (VObj CFunction 0) ex_base = (Ok 0, ex_computed) ∧
   rtc afterwards ex_computed ex_computed_read ∧
   cached ex_computed_read 0 = VNum 1 ∧
   computed_write (exec 2) 0 (VNum 9) ex_computed_read =
     (Thrown (TypeError "Computed value is read-only"), ex_computed_read)) ∧
  (isFunction (VObj CObject 7) = false ∧ isObject (VObj CObject 7) = true ∧
   target_of (VObj CObject 7) = Some (TObject 7) ∧
   computed (VObj CObject 7) ex_target = (Ok 0, ex_writable) ∧
   rtc afterwards ex_writable ex_writable_read ∧
   computed_write (exec 2) 0 (VNum 9) ex_writable_read =
     call_value (exec 2) (VObj CFunction 1) (VNum 9) ex_writable_read ∧
   heap_get (computed_write (exec 2) 0 (VNum 9) ex_writable_read).2 ex_a = VNum 9).
Proof.
  split.
  - assert (Hc : computed (VObj CFunction 0) ex_base = (Ok 0, ex_computed))
      by (vm_compute; reflexivity).
    assert (Hs : rtc afterwards ex_computed ex_computed_read)
      by apply rtc_once, afterwards_read.
    assert (Hv : cached ex_computed_read 0 = VNum 1) by (vm_compute; reflexivity).
    destruct (computed_write_without_setter (exec 2) (VObj CFunction 0) ex_base) as [H1 _].
    destruct (H1 eq_refl) as (c & s1 & Hc' & Hw).
    rewrite Hc in Hc'. injection Hc' as <- <-.
    split_and!; [reflexivity|exact Hc|exact Hs|exact Hv|].
    apply (Hw ex_computed_read (VNum 9) Hs).
  - assert (Hc : computed (VObj CObject 7) ex_target = (Ok 0, ex_writable))
      by (vm_compute; reflexivity).
    assert (Hs : rtc afterwards ex_writable ex_writable_read)
      by apply rtc_once, afterwards_read.
    assert (Hset : heap_get ex_target (TObject 7, "set") = VObj CFunction 1)
      by (vm_compute; reflexivity).
    destruct (computed_write_without_setter (exec 2) (VObj CObject 7) ex_target) as [_ H2].
    destruct (H2 eq_refl eq_refl (TObject 7) eq_refl) as (c & s1 & Hc' & Hw).
    rewrite Hc in Hc'. injection Hc' as <- <-.
    specialize (Hw ex_writable_read (VNum 9) Hs). rewrite Hset in Hw. cbn [isFunction] in Hw.
    split_and!; [reflexivity|reflexivity|reflexivity|exact Hc|exact Hs|exact Hw|].
    vm_compute. reflexivity.
Defined.



(** Witness of C8: a number. *)
Lemma computed_rejects_primitives_witness :
  isFunction (VNum 3) = false ∧ isObject (VNum 3) = false ∧
  computed (VNum 3) ex_base = (Thrown (TypeError "Not a valid target"), ex_base).
Proof.
  split_and!; [reflexivity|reflexivity|].
  apply (computed_rejects_primitives (VNum 3) ex_base eq_refl eq_refl).
Defined.

(** Witness of C9: the render function of the scheduled instance throws. *)
Lemma render_job_throw_sticks_witness :
  instances (ex_scheduled (VObj CFunction 3)) !! 0 =
    Some (i_with_rendering true (ex_instance (Ret (VObj CFunction 3)) (VObj CFunction 3))) ∧
  render_job (exec 3) 0 (ex_scheduled (VObj CFunction 3)) =
    (Thrown (UserError 7), (render_job (exec 3) 0 (ex_scheduled (VObj CFunction 3))).2) ∧
  rendering (render_job (exec 3) 0 (ex_scheduled (VObj CFunction 3))).2 0 = true ∧
  scheduleUpdate 0 (render_job (exec 3) 0 (ex_scheduled (VObj CFunction 3))).2 =
    (render_job (exec 3) 0 (ex_scheduled (VObj CFunction 3))).2.
Proof.
  assert (Hi : instances (ex_scheduled (VObj CFunction 3)) !! 0 =
    Some (i_with_rendering true (ex_instance (Ret (VObj CFunction 3)) (VObj CFunction 3))))
    by (vm_compute; reflexivity).
  assert (Hr : render_job (exec 3) 0 (ex_scheduled (VObj CFunction 3)) =
    (Thrown (UserError 7), (render_job (exec 3) 0 (ex_scheduled (VObj CFunction 3))).2))
    by (vm_compute; reflexivity).
  destruct (render_job_throw_sticks 3 0 _ (UserError 7) _ _ Hi eq_refl Hr) as (H1 & H2 & _).
  split_and!; done.
Defined.

(** Witness of C10: the setup function of the instance throws. *)
Lemma setup_throw_leaves_tracking_paused_witness :
  instances ex_setup_throws !! 0 = Some (ex_instance (Throw (UserError 1)) VUndef) ∧
  exec 1 (Throw (UserError 1)) (pauseTracking ex_setup_throws) =
    (Thrown (UserError 1), pauseTracking ex_setup_throws) ∧
  setup (exec 1) 0 ex_setup_throws = (Thrown (UserError 1), pauseTracking ex_setup_throws) ∧
  paused (pauseTracking ex_setup_throws) = 1 ∧
  track ex_a (pauseTracking ex_setup_throws) = pauseTracking ex_setup_throws.
Proof.
  assert (Hi : instances ex_setup_throws !! 0 = Some (ex_instance (Throw (UserError 1)) VUndef))
    by (vm_compute; reflexivity).
  assert (Hx : exec 1 (i_setup (ex_instance (Throw (UserError 1)) VUndef)) (pauseTracking ex_setup_throws) =
    (Thrown (UserError 1), pauseTracking ex_setup_throws)) by reflexivity.
  destruct (setup_throw_leaves_tracking_paused 1 0 _ (UserError 1) ex_setup_throws _ Hi Hx)
    as (H1 & H2 & H3).
  destruct (H3 _ (rtc_refl _ _)) as (_ & H4 & _).
  split_and!; [done|done|done|done|apply H4].
Defined.

(** * Further properties *)

(** ** Hooks and setup run with tracking paused *)

Lemma resetTracking_pauseTracking s : resetTracking (pauseTracking s) = s.
Proof. by destruct s. Qed.

Lemma run_hook_fns_depth fuel fns s :
  match run_hook_fns (exec fuel) fns s with
  | (Ok _, s') => paused s' = paused s
  | (_, s') => paused s' = S (paused s)
  end.
Proof.
  revert s. induction fns as [|fn fns IH]; intros s; simpl; [done|].
  set (m := if isFunction fn then _ else _).
  assert (Hm : paused m.2 = S (paused s)).
  { unfold m. destruct (isFunction fn); [|done]. by rewrite call_value_paused. }
  destruct m as [[v| |] s1]; simpl in *; try done.
  specialize (IH (resetTracking s1)). simpl in IH. rewrite Hm in IH. exact IH.
Qed.

Lemma run_hook_fns_pure fuel fns s :
  Forall (reads_and_returns s) fns →
  run_hook_fns (exec (S fuel)) fns s = (Ok VUndef, s).
Proof.
  induction 1 as [|fn fns (b & v & Hb & Hro & Hv) _ IH]; [done|].
  cbn [run_hook_fns].
  assert (Hf : isFunction fn = true).
  { unfold fn_body in Hb. by destruct fn as [| | | | | | |[] ?|[] ?]. }
  rewrite Hf. unfold call_value.
  replace (fn_body (pauseTracking s) fn) with (fn_body s fn) by done.
  rewrite Hb. cbn [exec]. rewrite step_reads_only by done.
  rewrite track_all_paused by (simpl; lia).
  change (heap (pauseTracking s)) with (heap s). rewrite Hv. cbn [bind].
  by rewrite resetTracking_pauseTracking.
Qed.

(** X3. [runHooks]: the pause that precedes a hook is undone only when the hook
    returns.  After a run in which every hook returned the pause depth is
    what it was; after a run that a hook ended by throwing it is one deeper,
    the hooks after that one have not run, and [track] records nothing. *)
Theorem runHooks_pause_depth fuel i inst h s :
  instances s !! i = Some inst →
  (∀ v s', runHooks (exec fuel) i h s = (Ok v, s') → paused s' = paused s) ∧
  (∀ x s', runHooks (exec fuel) i h s = (Thrown x, s') →
     paused s' = S (paused s) ∧ ∀ sl, track sl s' = s') ∧
  (∀ fn rest x s1,
     i_hooks inst h = fn :: rest → isFunction fn = true →
     call_value (exec fuel) fn VUndef (pauseTracking s) = (Thrown x, s1) →
     runHooks (exec fuel) i h s = (Thrown x, s1)).
Proof.
  intros Hi. unfold runHooks. rewrite Hi.
  pose proof (run_hook_fns_depth fuel (i_hooks inst h) s) as Hd.
  split_and!.
  - intros v s' E. by rewrite E in Hd.
  - intros x s' E. rewrite E in Hd. split; [done|].
    intros sl. apply track_paused. lia.
  - intros fn rest x s1 -> Hf E. simpl. by rewrite Hf, E.
Qed.

Lemma runHooks_pure fuel i inst h s :
  instances s !! i = Some inst →
  Forall (reads_and_returns s) (i_hooks inst h) →
  runHooks (exec (S fuel)) i h s = (Ok VUndef, s).
Proof.
  intros Hi Hall. unfold runHooks. rewrite Hi. by apply run_hook_fns_pure.
Qed.

(** X4. [runHooks]: hooks that read properties of reactive objects, refs and
    props directly, and no computed value, and return leave no trace in the
    engine: whatever effect is active while they run, nothing is subscribed
    and the state is what it was. *)
Theorem runHooks_reads_untracked fuel i inst h s :
  instances s !! i = Some inst →
  Forall (reads_and_returns s) (i_hooks inst h) →
  runHooks (exec (S fuel)) i h s = (Ok VUndef, s).
Proof.
  intros Hi Hall. unfold runHooks. rewrite Hi.
  by apply run_hook_fns_pure.
Qed.

(** Running code keeps every instance, with all its fields but the
    rendering flag. *)
Lemma same_instance_refl a : same_instance a a.
Proof. by repeat split. Qed.

Lemma same_instance_trans a b c : same_instance a b → same_instance b c → same_instance a c.
Proof. unfold same_instance. intuition congruence. Qed.

Lemma scheduleUpdate_instance i0 i s :
  instances (scheduleUpdate i0 s) !! i = instances s !! i ∨
  ∃ inst0, instances s !! i = Some inst0 ∧
           instances (scheduleUpdate i0 s) !! i = Some (i_with_rendering true inst0).
Proof.
  unfold scheduleUpdate. destruct (instances s !! i0) as [inst0|] eqn:Hi0; [|by left].
  destruct (i_rendering inst0) eqn:Hr; [by left|].
  destruct (queue_push_frame (RenderJob i0 (renders s))
              (set_renders S (set_instances <[i0:=i_with_rendering true inst0]> s)))
    as (_&_&_&_&_&_&_&->&_).
  simpl. destruct (decide (i = i0)) as [->|Hne].
  - right. exists inst0. by rewrite lookup_insert_eq.
  - left. by rewrite lookup_insert_ne.
Qed.

Lemma prim_instance i inst s s' :
  prim s s' → instances s !! i = Some inst →
  ∃ inst', instances s' !! i = Some inst' ∧ same_instance inst inst'.
Proof.
  intros Hp Hi.
  assert (Hsame : instances s' = instances s → ∃ inst', instances s' !! i = Some inst' ∧ same_instance inst inst').
  { intros ->. exists inst. split; [done|apply same_instance_refl]. }
  destruct Hp; try (apply Hsame; done).
  - apply Hsame. by destruct (track_frame_q sl s) as [-> _].
  - apply Hsame. unfold fx_stop. simpl. by destruct (cleanup_frame_q e s) as [-> _].
  - apply Hsame. by destruct (queue_push_frame (UserJob j) s) as (_&_&_&_&_&_&_&->&_).
  - destruct (scheduleUpdate_instance i0 i s) as [E|(inst0 & E0 & E1)].
    + rewrite E. exists inst. split; [done|apply same_instance_refl].
    + rewrite E1. simplify_eq. eexists. split; [done|]. by repeat split.
  - apply Hsame. simpl. by destruct (cleanup_frame_q e s) as [-> _].
  - apply Hsame. by destruct (subscribe_frame_q a sl s) as [-> _].
Qed.

Lemma prims_instance i inst s s' :
  rtc prim s s' → instances s !! i = Some inst →
  ∃ inst', instances s' !! i = Some inst' ∧ same_instance inst inst'.
Proof.
  induction 1 as [|s1 s2 s3 Hp _ IH] in inst |- *; intros Hi.
  - exists inst. split; [done|apply same_instance_refl].
  - destruct (prim_instance i inst _ _ Hp Hi) as (i1 & H1 & S1).
    destruct (IH _ H1) as (i2 & H2 & S2). exists i2. split; [done|].
    by eapply same_instance_trans.
Qed.

Lemma prim_activeInstance s s' : prim s s' → activeInstance s' = activeInstance s.
Proof.
  destruct 1; try done.
  - unfold track. case_bool_decide; [done|]. destruct (activeFx s); [|done].
    unfold subscribe. by case_bool_decide.
  - unfold fx_stop, cleanup. simpl. by destruct (effects s !! e).
  - unfold queue_push. case_bool_decide; [done|]. by destruct (flushing s).
  - unfold scheduleUpdate. destruct (instances s !! i); [|done].
    destruct (i_rendering i0); [done|].
    unfold queue_push. case_bool_decide; [done|]. simpl. by destruct (flushing s).
  - unfold cleanup. simpl. by destruct (effects s !! e).
  - unfold subscribe. by case_bool_decide.
Qed.

Lemma prims_activeInstance s s' : rtc prim s s' → activeInstance s' = activeInstance s.
Proof. induction 1 as [|??? Hp _ IH]; [done|]. rewrite IH. by apply prim_activeInstance. Qed.

(** X5. [FxInstance.setup], when the setup function returns: tracking is resumed
    and the active instance is cleared before the return value is looked at,
    so a value that is not a function raises the exception with the pause
    depth restored (unlike a throwing setup function); the value is stored as
    the render function either way.  A setup function that only reads
    properties of reactive objects, refs and props directly, and no computed
    value, leaves no subscription behind. *)
Theorem setup_returns fuel i inst rt s s1 :
  instances s !! i = Some inst →
  exec fuel (i_setup inst) (pauseTracking s) = (Ok rt, s1) →
  ∃ s2 inst',
    setup (exec fuel) i s =
      (if isFunction rt then Ok VUndef
       else Thrown (KireiError "Setup must return a function that returns a TemplateResult"
                      (i_name inst +:+ "#setup")), s2) ∧
    paused s2 = paused s ∧ activeInstance s2 = None ∧
    instances s2 !! i = Some inst' ∧ i_renderTemplate inst' = rt ∧
    registry s2 = registry s1 ∧ trace s2 = trace s1 ∧
    (reads_only (i_setup inst) →
       registry s2 = registry s ∧ effects s2 = effects s ∧ trace s2 = trace s).
Proof.
  intros Hi E. unfold setup. rewrite Hi, E. cbn [bind].
  pose proof (exec_paused fuel (i_setup inst) (pauseTracking s)) as Hp. rewrite E in Hp.
  simpl in Hp.
  destruct (prims_instance i inst (pauseTracking s) s1) as (i1 & Hi1 & _).
  { pose proof (exec_sound fuel (i_setup inst) (pauseTracking s)) as Hs. by rewrite E in Hs. }
  { done. }
  eexists _, (i_with_renderTemplate rt i1).
  split; [|split_and!].
  - destruct (isFunction rt); reflexivity.
  - simpl. by rewrite Hp.
  - done.
  - simpl. by rewrite lookup_alter_eq, Hi1.
  - done.
  - done.
  - done.
  - intros Hro. destruct fuel as [|fuel]; [done|].
    cbn [exec] in E. rewrite step_reads_only in E by done.
    rewrite track_all_paused in E by (simpl; lia). by simplify_eq.
Qed.

(** ** A getter that throws *)

Lemma computed_read_throws fuel c e body x s :
  is_computed s c e body → reads_only body → dirty s c = true →
  result_of (heap s) body = Thrown x →
  ∃ s', computed_read (exec (S fuel)) c s = (Thrown x, s') ∧
        trace s' = EvExec e :: trace s ∧ computeds s' = computeds s ∧
        heap s' = heap s ∧ is_computed s' c e body.
Proof.
  intros Hic Hro Hd Hv.
  pose proof Hic as (cell & f & g & b & Hc & Hfx & He & Ha & Hraw & Hs & Hb & ->).
  unfold dirty in Hd. rewrite Hc in Hd. simpl in Hd.
  unfold computed_read. rewrite Hc, Hd, Hfx.
  rewrite (fx_run_reads_only fuel e f g b s) by done. rewrite Hv. cbn [bind].
  set (s1 := log (EvExec e) (set_fxStack (cons e) (cleanup e s))).
  destruct (track_all_frame (reads_of (heap s) (b VUndef)) s1) as (_ & _ & Hh1 & Hf1 & Hc1 & Ht1).
  destruct (cleanup_frame e s) as (_ & Hh0 & Hf0 & Hc0 & Ht0).
  eexists. split; [done|]. split_and!.
  - simpl. rewrite Ht1. simpl. by rewrite Ht0.
  - simpl. rewrite Hc1. simpl. by rewrite Hc0.
  - simpl. rewrite Hh1. simpl. by rewrite Hh0.
  - eapply is_computed_after_read; [| | |exact Hic].
    + simpl. rewrite Hf1. simpl. by rewrite Hf0.
    + intros e'. simpl. rewrite track_all_static. simpl. apply cleanup_static.
    + exists cell. split; [|done]. simpl. rewrite Hc1. simpl. by rewrite Hc0.
Qed.

(** X1. The closure of [computedGetter] (lines 28 to 32): [dirty = false] is
    reached only when [fx.run] returns.  A getter that throws is not cached:
    every read passes the exception on, runs the getter again, and leaves the
    computed value dirty with its previous cache. *)
Theorem computed_getter_throw_not_cached fuel c e body x s :
  is_computed s c e body → reads_only body → dirty s c = true →
  result_of (heap s) body = Thrown x →
  ∀ n, ∃ s', read_n (exec (S fuel)) c n s = (replicate n (Thrown x), s') ∧
             execs e s' = n + execs e s ∧ dirty s' c = true ∧
             cached s' c = cached s c.
Proof.
  intros Hic Hro Hd Hv n. revert s Hic Hd Hv.
  induction n as [|n IH]; intros s Hic Hd Hv.
  - exists s. by simpl.
  - destruct (computed_read_throws fuel c e body x s) as (s1 & E1 & Ht & Hc & Hh & Hic1); try done.
    destruct (IH s1) as (s2 & E2 & Hx & Hd2 & Hca2); try done.
    { unfold dirty. by rewrite Hc. }
    { by rewrite Hh. }
    exists s2. rewrite read_n_S, E1, E2. split_and!; try done.
    + rewrite Hx. unfold execs. rewrite Ht. rewrite filter_cons.
      rewrite decide_True by done. simpl. lia.
    + rewrite Hca2. unfold cached. by rewrite Hc.
Qed.

(** ** Assigning a prop and reading it back *)

Lemma quiet_set_heap f s sl : quiet s sl → quiet (set_heap f s) sl.
Proof. done. Qed.

Lemma heap_get_track sl sl' s : heap_get (track sl s) sl' = heap_get s sl'.
Proof. unfold heap_get. by destruct (track_frame sl s) as (_ & -> & _). Qed.

Lemma trigger_trace fuel sl op s :
  ∃ evs, trace (trigger (exec fuel) sl op s).2 = evs ++ EvTrigger sl.1 op sl.2 :: trace s.
Proof.
  unfold trigger.
  destruct (prims_grows _ _ (dispatch_prims (exec fuel) (exec_sound fuel)
              (run_set s sl op) (log (EvTrigger sl.1 op sl.2) s))) as [[evs E] _].
  exists evs. by rewrite E.
Qed.

(** X10. The accessors of a prop (lines 250 to 262), for a prop whose subscribers
    are computed values and instances.  A successful assignment is read back
    as the reactive wrapper of the validated value.  Assigning what was read
    back changes nothing.  Assigning the same plain object as before is not
    recognised as the same value, because it is compared with its stored
    wrapper: it triggers again. *)
Theorem prop_set_then_get H fuel i inst k v v' s :
  instances s !! i = Some inst →
  strict_eq v (heap_get s (i_propsData inst, k)) = false →
  validateProp H (i_props inst) k v = Ok v' →
  quiet s (i_propsData inst, k) →
  ∃ s', prop_set H (exec fuel) i k v s = (Ok VUndef, s') ∧
        prop_get i k s' = (Ok (toReactive v'), track (i_propsData inst, k) s') ∧
        (v' ≠ VNaN → prop_set H (exec fuel) i k (toReactive v') s' = (Ok VUndef, s')) ∧
        (∀ c id, v = VObj c id → v' = v → c ≠ CFunction →
           ∃ evs s'',
             prop_set H (exec fuel) i k v s' = (Ok VUndef, s'') ∧
             trace s'' = evs ++ EvTrigger (i_propsData inst) SET k :: trace s').
Proof.
  intros Hi Hne Hv Hq.
  set (sl := (i_propsData inst, k)).
  set (s0 := set_heap (<[sl := toReactive v']>) s).
  destruct (trigger_quiet (exec fuel) sl s0) as (s' & E & Hinv & _); [done|].
  assert (Hstep : prop_set H (exec fuel) i k v s = (Ok VUndef, s')).
  { unfold prop_set, strict_neq. rewrite Hi, Hne, Hv. exact E. }
  assert (Hi' : ∃ inst', instances s' !! i = Some inst' ∧ same_instance inst inst').
  { pose proof (trigger_prims (exec fuel) (exec_sound fuel) sl SET s0) as Hp.
    rewrite E in Hp. by apply (prims_instance i inst s0 s'). }
  destruct Hi' as (inst' & Hi' & Hsame).
  assert (Hpd : i_propsData inst' = i_propsData inst) by apply Hsame.
  assert (Hpr : i_props inst' = i_props inst) by apply Hsame.
  assert (Hh : heap_get s' sl = toReactive v').
  { unfold heap_get. rewrite (inv_heap _ _ Hinv). simpl. by rewrite lookup_insert_eq. }
  exists s'. split_and!.
  - done.
  - unfold prop_get. rewrite Hi', Hpd. fold sl. by rewrite heap_get_track, Hh.
  - intros Hnan. unfold prop_set, strict_neq. rewrite Hi', Hpd. fold sl. rewrite Hh.
    assert (strict_eq (toReactive v') (toReactive v') = true) as ->; [|done].
    unfold strict_eq. destruct (toReactive v') eqn:Er; try by rewrite bool_decide_eq_true.
    destruct v' as [| | | | | | |c0 id0|]; simpl in Er; try done.
    by case_bool_decide.
  - intros c id -> -> Hc.
    assert (Hr : toReactive (VObj c id) = VProxy c id).
    { simpl. by rewrite bool_decide_eq_false_2. }
    destruct (trigger_trace fuel sl SET (set_heap (<[sl := toReactive (VObj c id)]>) s'))
      as (evs & Ht).
    destruct (trigger_quiet (exec fuel) sl (set_heap (<[sl := toReactive (VObj c id)]>) s'))
      as (s'' & E2 & _).
    { apply quiet_set_heap. eapply invalidated_quiet; [exact Hinv|done]. }
    exists evs, s''. rewrite E2 in Ht. split; [|exact Ht].
    unfold prop_set, strict_neq. rewrite Hi', Hpd, Hpr. fold sl. rewrite Hh, Hr.
    assert (Hsne : strict_eq (VObj c id) (VProxy c id) = false) by done.
    rewrite Hsne. cbn [negb]. rewrite Hv, Hr. rewrite Hr in E2. exact E2.
Qed.

(** ** Batching of updates *)

Lemma batched_refl s : batched s s.
Proof.
  split; try done; [apply invalidated_refl|].
  intros _ i. destruct (rendering s i); lia.
Qed.

Lemma batched_trans s1 s2 s3 : batched s1 s2 → batched s2 s3 → batched s1 s3.
Proof.
  intros [I1 F1 M1 C1 N1] [I2 F2 M2 C2 N2]. split.
  - by eapply invalidated_trans.
  - auto.
  - auto.
  - intros Hf i. rewrite C2, C1 by auto.
    specialize (M1 i). specialize (M2 i).
    destruct (rendering s1 i) eqn:E1.
    + rewrite M1 by done. lia.
    + destruct (rendering s2 i) eqn:E2; [rewrite M2 by done; lia|].
      destruct (rendering s3 i); lia.
  - intros i. by rewrite N2, N1.
Qed.

Lemma batched_frame s s' :
  invalidated s s' → instances s' = instances s → queue s' = queue s →
  pending s' = pending s → renders s' = renders s → batched s s'.
Proof.
  intros Hi Hin Hq Hp Hr. split; try done.
  - unfold serials_fresh. by rewrite Hp, Hr.
  - unfold rendering. by rewrite Hin.
  - intros _ i. unfold rendering. rewrite Hin, Hq. destruct (from_option _ _ _); lia.
  - intros i. by rewrite Hin.
Qed.

Lemma render_jobs_snoc i q j :
  render_jobs i (q ++ [j]) = render_jobs i q + (if is_render_of i j then 1 else 0).
Proof.
  unfold render_jobs. rewrite filter_app, length_app. f_equal.
  rewrite filter_cons, filter_nil. destruct (is_render_of i j); by case_decide.
Qed.

Lemma batched_scheduleUpdate i s : batched s (scheduleUpdate i s).
Proof.
  pose proof (invalidated_scheduleUpdate i s) as Hinv.
  unfold scheduleUpdate in *. destruct (instances s !! i) as [inst|] eqn:Hi; [|apply batched_refl].
  destruct (i_rendering inst) eqn:Hr; [apply batched_refl|].
  set (s1 := set_renders S (set_instances (<[i:=i_with_rendering true inst]>) s)) in *.
  split.
  - done.
  - intros Hf i' n. unfold queue_push. case_bool_decide as Hp.
    + simpl. intros Hin. specialize (Hf i' n Hin). lia.
    + destruct (flushing s1); simpl; rewrite elem_of_union, elem_of_singleton;
        (intros [E|Hin]; [simplify_eq; lia|specialize (Hf i' n Hin); lia]).
  - intros i'. unfold rendering.
    destruct (queue_push_frame (RenderJob i (renders s)) s1) as (_&_&_&_&_&_&_&->&_).
    simpl. destruct (decide (i' = i)) as [->|Hne].
    + by rewrite lookup_insert_eq.
    + by rewrite lookup_insert_ne.
  - intros Hf i'.
    assert (Hnp : RenderJob i (renders s) ∉ pending s1).
    { intros Hin. specialize (Hf i (renders s) Hin). lia. }
    destruct (queue_push_fresh _ _ Hnp) as [-> _].
    rewrite render_jobs_snoc. simpl. unfold rendering.
    destruct (queue_push_frame (RenderJob i (renders s)) s1) as (_&_&_&_&_&_&_&->&_).
    simpl. destruct (decide (i' = i)) as [->|Hne].
    + rewrite lookup_insert_eq, Hi. simpl. rewrite Hr.
      by rewrite bool_decide_eq_true_2.
    + rewrite lookup_insert_ne by done. rewrite bool_decide_eq_false_2 by done.
      destruct (from_option _ _ _); lia.
  - intros i'.
    destruct (queue_push_frame (RenderJob i (renders s)) s1) as (_&_&_&_&_&_&_&->&_).
    simpl. destruct (decide (i' = i)) as [->|Hne].
    + rewrite lookup_insert_eq, Hi. split; eauto.
    + by rewrite lookup_insert_ne.
Qed.

Lemma rendering_scheduleUpdate i s :
  is_Some (instances s !! i) → rendering (scheduleUpdate i s) i = true.
Proof.
  intros [inst Hi]. unfold scheduleUpdate. rewrite Hi.
  destruct (i_rendering inst) eqn:Hr.
  - unfold rendering. by rewrite Hi.
  - unfold rendering.
    destruct (queue_push_frame (RenderJob i (renders s))
                (set_renders S (set_instances (<[i:=i_with_rendering true inst]>) s)))
      as (_&_&_&_&_&_&_&->&_).
    simpl. by rewrite lookup_insert_eq.
Qed.

Lemma notify_batched R e s :
  (∀ f, effects s !! e = Some f → fx_active f = true →
     (∃ c, fx_scheduler f = Some (SchedDirty c)) ∨ (∃ i, fx_scheduler f = Some (SchedInstance i))) →
  ∃ s', notify R e s = (Ok VUndef, s') ∧ batched s s' ∧
        ∀ f i, effects s !! e = Some f → fx_active f = true →
               fx_scheduler f = Some (SchedInstance i) → is_Some (instances s !! i) →
               rendering s' i = true.
Proof.
  intros H. unfold notify. destruct (effects s !! e) as [f|] eqn:He.
  2:{ exists s. split_and!; [done|apply batched_refl|done]. }
  destruct (fx_active f) eqn:Ha.
  2:{ exists s. split_and!; [done|apply batched_refl|]. intros f' c' ? ?; simplify_eq; congruence. }
  destruct (H f eq_refl Ha) as [[c Hc]|[i Hi]].
  - rewrite Hc. simpl. eexists. split_and!; [done| |].
    + apply batched_frame; try done.
      eapply invalidated_trans; [apply (invalidated_log (EvSched e)); done|].
      apply invalidated_set_dirty.
    + intros f' i' ? _ Hs. simplify_eq.
  - rewrite Hi. simpl. eexists. split_and!; [done| |].
    + eapply batched_trans; [|apply batched_scheduleUpdate].
      apply batched_frame; try done. by apply invalidated_log.
    + intros f' i' ? _ Hs Hin. simplify_eq. by apply rendering_scheduleUpdate.
Qed.

Lemma dispatch_batched R es s :
  (∀ e f, e ∈ es → effects s !! e = Some f → fx_active f = true →
     (∃ c, fx_scheduler f = Some (SchedDirty c)) ∨ (∃ i, fx_scheduler f = Some (SchedInstance i))) →
  ∃ s', dispatch R es s = (Ok VUndef, s') ∧ batched s s' ∧
        ∀ e f i, e ∈ es → effects s !! e = Some f → fx_active f = true →
               fx_scheduler f = Some (SchedInstance i) → is_Some (instances s !! i) →
               rendering s' i = true.
Proof.
  revert s. induction es as [|e es IH]; intros s H; simpl.
  { exists s. split_and!; [done|apply batched_refl|]. intros ??? Hin. by apply elem_of_nil in Hin. }
  destruct (notify_batched R e s) as (s1 & -> & Hi1 & Hd1).
  { intros f. apply H. apply list_elem_of_here. }
  simpl. destruct (IH s1) as (s2 & -> & Hi2 & Hd2).
  { intros e' f Hin. rewrite (inv_effects _ _ (b_inv _ _ Hi1)). apply H. by apply list_elem_of_further. }
  exists s2. split_and!; [done|by eapply batched_trans|].
  intros e' f i Hin He Ha Hs Hc. apply elem_of_cons in Hin as [->|Hin].
  - eapply (b_mono _ _ Hi2). by eapply Hd1.
  - eapply Hd2; try done.
    + by rewrite (inv_effects _ _ (b_inv _ _ Hi1)).
    + by apply (b_inst _ _ Hi1).
Qed.

Lemma trigger_batched R sl s :
  quiet s sl →
  ∃ s', trigger R sl SET s = (Ok VUndef, s') ∧ batched s s' ∧
        ∀ e f i, e ∈ dep_of s sl → effects s !! e = Some f → fx_active f = true →
               fx_scheduler f = Some (SchedInstance i) → is_Some (instances s !! i) →
               rendering s' i = true.
Proof.
  intros Hq. unfold trigger.
  destruct (dispatch_batched R (run_set s sl SET) (log (EvTrigger sl.1 SET sl.2) s))
    as (s' & Hd & Hi & Hr).
  { intros e f Hin. apply Hq. unfold run_set in Hin. by rewrite elem_of_dedup in Hin. }
  exists s'. split_and!; [done| |].
  - eapply batched_trans; [|exact Hi]. apply batched_frame; try done. by apply invalidated_log.
  - intros e f i Hin. apply Hr. unfold run_set. by rewrite elem_of_dedup.
Qed.

Lemma trigger_all_batched R sls s :
  Forall (quiet s) sls →
  ∃ s', trigger_all R sls s = (Ok VUndef, s') ∧ batched s s' ∧
        ∀ e f i sl, sl ∈ sls → e ∈ dep_of s sl → effects s !! e = Some f → fx_active f = true →
               fx_scheduler f = Some (SchedInstance i) → is_Some (instances s !! i) →
               rendering s' i = true.
Proof.
  revert s. induction sls as [|sl sls IH]; intros s Hq; simpl.
  { exists s. split_and!; [done|apply batched_refl|]. intros ???? Hin. by apply elem_of_nil in Hin. }
  apply Forall_cons in Hq as [Hq Hqs].
  destruct (trigger_batched R sl s Hq) as (s1 & -> & Hi1 & Hd1). simpl.
  destruct (IH s1) as (s2 & -> & Hi2 & Hd2).
  { eapply Forall_impl; [exact Hqs|]. intros x. apply invalidated_quiet. apply Hi1. }
  exists s2. split_and!; [done|by eapply batched_trans|].
  intros e f i x Hin Hdep He Ha Hs Hinst. apply elem_of_cons in Hin as [->|Hin].
  - eapply (b_mono _ _ Hi2). by eapply Hd1.
  - eapply Hd2; try done.
    + by rewrite (invalidated_dep_of s s1) by apply Hi1.
    + by rewrite (inv_effects _ _ (b_inv _ _ Hi1)).
    + by apply (b_inst _ _ Hi1).
Qed.

(** X6. [scheduleUpdate] (lines 181 to 199) batches: scheduling an instance that
    is waiting for its update changes nothing, and however many of the pairs
    that an instance's effect is subscribed to are triggered before the
    queue is flushed, the queue gets one update job for the instance; no
    function of the application runs and no value changes. *)
Theorem scheduleUpdate_batches R e f i inst sls s :
  instances s !! i = Some inst → i_rendering inst = false →
  effects s !! e = Some f → fx_active f = true →
  fx_scheduler f = Some (SchedInstance i) →
  serials_fresh s →
  sls ≠ [] → Forall (λ sl, e ∈ dep_of s sl ∧ quiet s sl) sls →
  scheduleUpdate i (scheduleUpdate i s) = scheduleUpdate i s ∧
  ∃ s', trigger_all R sls s = (Ok VUndef, s') ∧
        render_jobs i (queue s') = S (render_jobs i (queue s)) ∧
        rendering s' i = true ∧ scheduleUpdate i s' = s' ∧
        heap s' = heap s ∧ (∀ e', execs e' s' = execs e' s).
Proof.
  intros Hi Hr He Ha Hs Hf Hne Hall. split.
  { apply scheduleUpdate_rendering, rendering_scheduleUpdate. by rewrite Hi. }
  destruct (trigger_all_batched R sls s) as (s' & E & Hb & Hrd).
  { eapply Forall_impl; [exact Hall|]. by intros ? [_ ?]. }
  assert (Hr' : rendering s' i = true).
  { destruct sls as [|sl sls]; [done|]. apply Forall_cons in Hall as [[Hd _] _].
    eapply (Hrd e f i sl); try done; first [apply list_elem_of_here|by rewrite Hi]. }
  exists s'. split_and!; try done.
  - rewrite (b_count _ _ Hb Hf i). unfold rendering at 1. rewrite Hi. simpl.
    rewrite Hr, Hr'. lia.
  - by apply scheduleUpdate_rendering.
  - apply (inv_heap _ _ (b_inv _ _ Hb)).
  - apply (inv_execs _ _ (b_inv _ _ Hb)).
Qed.


(** ** An update that goes through *)

Lemma track_all_instances l s : instances (track_all l s) = instances s.
Proof.
  revert s. induction l as [|sl l IH]; intros s; [done|].
  change (track_all (sl :: l) s) with (track_all l (track sl s)).
  rewrite IH. by destruct (track_frame_q sl s) as [-> _].
Qed.

Lemma instances_set_instances f s : instances (set_instances f s) = f (instances s).
Proof. done. Qed.

(** The deps of an effect after it has entered a run and tracked [l]. *)
Lemma enter_track_deps e f l s :
  wf s → effects s !! e = Some f → paused s = 0 →
  ∀ sl, e ∈ dep_of (track_all l (log (EvExec e) (set_fxStack (cons e) (cleanup e s)))) sl
        ↔ sl ∈ l.
Proof.
  intros W He Hp sl.
  set (s1 := log (EvExec e) (set_fxStack (cons e) (cleanup e s))).
  assert (Hnot : e ∉ dep_of s1 sl).
  { change (e ∉ dep_of (cleanup e s) sl). rewrite (dep_of_cleanup e f) by done.
    case_decide as Hin.
    - rewrite elem_of_dep_delete. by intros [].
    - intros H%(wf_mirror _ W). apply Hin. unfold deps_of in H. by rewrite He in H. }
  assert (Hp1 : paused s1 = 0) by (simpl; by destruct (cleanup_frame e s) as (-> & _)).
  rewrite (track_all_propagate l s1 e) by done.
  rewrite propagate_dep_elem. intuition congruence.
Qed.

(** A run of the effect of an instance whose render function only reads. *)
Lemma fx_run_update_reads_only fuel i inst e f b s :
  instances s !! i = Some inst → e = i_fx inst →
  effects s !! e = Some f → fx_active f = true → fx_raw f = FnUpdate i →
  fn_body s (i_renderTemplate inst) = Some b → reads_only (b VUndef) →
  fx_run (exec (S fuel)) e s =
    let s2 := track_all (reads_of (heap s) (b VUndef))
                (log (EvExec e) (set_fxStack (cons e) (cleanup e s))) in
    match result_of (heap s) (b VUndef) with
    | Ok tpl =>
        if is_template tpl then (Ok VUndef, set_fxStack tail (log (EvRender i) s2))
        else (Thrown (KireiError "Setup must return a function that returns a TemplateResult"
                        (i_name inst +:+ "#setup")), set_fxStack tail s2)
    | Thrown x => (Thrown x, set_fxStack tail s2)
    | OutOfFuel => (OutOfFuel, set_fxStack tail s2)
    end.
Proof.
  intros Hi -> He Ha Hraw Hb Hro.
  unfold fx_run. rewrite He, Ha, Hraw.
  set (s1 := log (EvExec (i_fx inst)) (set_fxStack (cons (i_fx inst)) (cleanup (i_fx inst) s))).
  destruct (cleanup_frame (i_fx inst) s) as (_ & Hh0 & Hf0 & _).
  destruct (cleanup_frame_q (i_fx inst) s) as [Hi0 _].
  assert (Hh1 : heap s1 = heap s) by done.
  cbn [call_raw]. unfold update.
  replace (instances s1) with (instances s) by (symmetry; exact Hi0).
  rewrite Hi. unfold call_value.
  rewrite (fn_body_funs s s1) by done. rewrite Hb.
  cbn [exec]. rewrite step_reads_only by done. rewrite Hh1.
  destruct (result_of (heap s) (b VUndef)) as [tpl| |]; cbn [bind]; try done.
  by destruct (is_template tpl).
Qed.

Lemma reads_and_returns_frame s s' fn :
  funs s' = funs s → heap s' = heap s → reads_and_returns s fn → reads_and_returns s' fn.
Proof.
  intros Hf Hh (b & v & Hb & Hro & Hv). exists b, v.
  rewrite (fn_body_funs s) by done. by rewrite Hh.
Qed.

(** X8. The closure that [scheduleUpdate] pushes (lines 187 to 198), with
    [update] (lines 206 to 220), for an instance whose render function reads
    properties of reactive objects, refs and props directly, and no computed
    value, and returns a template, and whose hooks read in the same way and
    return: the function runs once and its result is rendered once, the
    instance is mounted and no longer waiting, so that the next trigger
    schedules it again; and when tracking is not paused the effect of the
    instance is subscribed to exactly the pairs the render function has
    read. *)
Theorem render_job_renders fuel i inst f b tpl s :
  wf s → paused s = 0 →
  instances s !! i = Some inst →
  effects s !! i_fx inst = Some f → fx_active f = true → fx_raw f = FnUpdate i →
  fn_body s (i_renderTemplate inst) = Some b → reads_only (b VUndef) →
  result_of (heap s) (b VUndef) = Ok tpl → is_template tpl = true →
  Forall (reads_and_returns s) (i_hooks inst BEFORE_UPDATE) →
  Forall (reads_and_returns s) (i_hooks inst UPDATE) →
  ∃ s' inst',
    render_job (exec (S fuel)) i s = (Ok VUndef, s') ∧
    trace s' = EvRender i :: EvExec (i_fx inst) :: trace s ∧
    instances s' !! i = Some inst' ∧
    i_rendering inst' = false ∧ i_mounted inst' = true ∧
    heap s' = heap s ∧
    (∀ sl, i_fx inst ∈ dep_of s' sl ↔ sl ∈ reads_of (heap s) (b VUndef)).
Proof.
  intros W Hp Hi He Ha Hraw Hb Hro Hv Ht Hbu Hu.
  set (e := i_fx inst) in *. set (l := reads_of (heap s) (b VUndef)).
  set (s2 := track_all l (log (EvExec e) (set_fxStack (cons e) (cleanup e s)))).
  set (s3 := set_fxStack tail (log (EvRender i) s2)).
  assert (Hrun : fx_run (exec (S fuel)) e s = (Ok VUndef, s3)).
  { rewrite (fx_run_update_reads_only fuel i inst e f b s) by done.
    cbn zeta. rewrite Hv, Ht. done. }
  destruct (track_all_frame l (log (EvExec e) (set_fxStack (cons e) (cleanup e s))))
    as (_ & _ & Hh2 & Hf2 & _ & Ht2).
  destruct (cleanup_frame e s) as (_ & Hh0 & Hf0 & _ & Ht0).
  destruct (cleanup_frame_q e s) as [Hi0 _].
  assert (Hi3 : instances s3 = instances s).
  { unfold s3, s2. simpl. by rewrite track_all_instances. }
  assert (Hh3 : heap s3 = heap s).
  { unfold s3, s2. simpl. rewrite Hh2. done. }
  assert (Hf3 : funs s3 = funs s).
  { unfold s3, s2. simpl. rewrite Hf2. done. }
  assert (Ht3 : trace s3 = EvRender i :: EvExec e :: trace s).
  { unfold s3, s2. simpl. rewrite Ht2. simpl. by rewrite Ht0. }
  assert (Hd3 : ∀ sl, e ∈ dep_of s3 sl ↔ sl ∈ l).
  { intros sl. change (dep_of s3 sl) with (dep_of s2 sl). by apply (enter_track_deps e f). }
  unfold render_job. rewrite Hi. fold e.
  destruct (i_mounted inst) eqn:Hm.
  - rewrite (runHooks_pure fuel i inst BEFORE_UPDATE s) by done.
    cbn [bind]. rewrite Hrun. cbn [bind].
    rewrite (runHooks_pure fuel i inst UPDATE s3).
    2:{ by rewrite Hi3. }
    2:{ eapply Forall_impl; [exact Hu|]. intros fn. by apply reads_and_returns_frame. }
    cbn [bind]. eexists _, (i_with_rendering false inst). split_and!; try done.
    rewrite instances_set_instances, lookup_alter_eq, Hi3, Hi. done.
  - rewrite Hrun. cbn [bind].
    eexists _, (i_with_rendering false (i_with_mounted true inst)). split_and!; try done.
    rewrite !instances_set_instances, !lookup_alter_eq, Hi3, Hi. done.
Qed.

(** X9. [update] (lines 206 to 220) inside the first update job of an instance:
    when the render function returns something that is not a
    [TemplateResult], the job ends with the exception of [update]; nothing
    is rendered, and the instance is left as it was, not mounted. *)
Theorem update_refuses_other_results fuel i inst f b v s :
  instances s !! i = Some inst → i_mounted inst = false →
  effects s !! i_fx inst = Some f → fx_active f = true → fx_raw f = FnUpdate i →
  fn_body s (i_renderTemplate inst) = Some b → reads_only (b VUndef) →
  result_of (heap s) (b VUndef) = Ok v → is_template v = false →
  ∃ s',
    render_job (exec (S fuel)) i s =
      (Thrown (KireiError "Setup must return a function that returns a TemplateResult"
                 (i_name inst +:+ "#setup")), s') ∧
    trace s' = EvExec (i_fx inst) :: trace s ∧
    instances s' !! i = Some inst ∧ heap s' = heap s.
Proof.
  intros Hi Hm He Ha Hraw Hb Hro Hv Ht.
  unfold render_job. rewrite Hi, Hm.
  rewrite (fx_run_update_reads_only fuel i inst (i_fx inst) f b s) by done.
  cbn zeta. rewrite Hv, Ht. cbn [bind].
  set (e := i_fx inst).
  destruct (track_all_frame (reads_of (heap s) (b VUndef))
              (log (EvExec e) (set_fxStack (cons e) (cleanup e s))))
    as (_ & _ & Hh2 & _ & _ & Ht2).
  destruct (cleanup_frame e s) as (_ & Hh0 & _ & _ & Ht0).
  destruct (cleanup_frame_q e s) as [Hi0 _].
  eexists. split; [done|]. split_and!.
  - simpl. rewrite Ht2. simpl. by rewrite Ht0.
  - simpl. rewrite track_all_instances. simpl. by rewrite Hi0.
  - simpl. rewrite Hh2. simpl. by rewrite Hh0.
Qed.

(** ** A computed value that reads a computed value *)

Lemma computed_read_dirty_eq fuel c e body v s :
  is_computed s c e body → reads_only body → dirty s c = true →
  result_of (heap s) body = Ok v →
  computed_read (exec (S fuel)) c s =
    (Ok v, recomputed c e (reads_of (heap s) body) v s).
Proof.
  intros (cell & f & g & b & Hc & Hfx & He & Ha & Hraw & Hs & Hb & ->) Hro Hd Hv.
  unfold dirty in Hd. rewrite Hc in Hd. simpl in Hd.
  unfold computed_read. rewrite Hc, Hd, Hfx.
  rewrite (fx_run_reads_only fuel e f g b s) by done. rewrite Hv. cbn [bind].
  fold (entered e s).
  set (s2 := set_computeds _ (set_fxStack tail (track_all _ (entered e s)))).
  change (match activeFx s2 with
          | Some a => foldl (λ st sl, subscribe a sl st) s2 (deps_of s2 e)
          | None => s2
          end) with (propagated e s2).
  f_equal. f_equal.
  destruct (propagation_frame s2 (deps_of s2 e)) as (_ & Hcs & _).
  unfold propagated. rewrite Hcs. unfold s2. simpl.
  rewrite lookup_alter_eq.
  destruct (track_all_frame (reads_of (heap s) (b VUndef)) (entered e s)) as (_ & _ & _ & _ & -> & _).
  simpl. destruct (cleanup_frame e s) as (_ & _ & _ & -> & _). by rewrite Hc.
Qed.

Lemma entered_frame e s :
  paused (entered e s) = paused s ∧ heap (entered e s) = heap s ∧
  funs (entered e s) = funs s ∧ computeds (entered e s) = computeds s ∧
  trace (entered e s) = EvExec e :: trace s ∧
  fxStack (entered e s) = e :: fxStack s ∧
  (∀ e', fx_static <$> effects (entered e s) !! e' = fx_static <$> effects s !! e').
Proof.
  destruct (cleanup_frame e s) as (Hp & Hh & Hf & Hc & Ht).
  unfold entered. simpl. rewrite Hp, Hh, Hf, Hc, Ht, cleanup_stack. split_and!; try done.
  intros e'. apply cleanup_static.
Qed.

Lemma propagated_frame e s :
  paused (propagated e s) = paused s ∧ heap (propagated e s) = heap s ∧
  funs (propagated e s) = funs s ∧ computeds (propagated e s) = computeds s ∧
  trace (propagated e s) = trace s ∧ fxStack (propagated e s) = fxStack s ∧
  (∀ e', fx_static <$> effects (propagated e s) !! e' = fx_static <$> effects s !! e').
Proof.
  unfold propagated. destruct (activeFx s) as [a|]; [|done].
  destruct (propagate_frame a (deps_of s e) s) as (Hp & Hh & Hf & Hc & Ht).
  rewrite Hp, Hh, Hf, Hc, Ht, propagate_stack. split_and!; try done.
  intros e'. apply propagate_static.
Qed.

Lemma recomputed_frame c e l v s :
  paused (recomputed c e l v s) = paused s ∧ heap (recomputed c e l v s) = heap s ∧
  funs (recomputed c e l v s) = funs s ∧
  computeds (recomputed c e l v s) = alter (c_recomputed v) c (computeds s) ∧
  trace (recomputed c e l v s) = EvExec e :: trace s ∧
  fxStack (recomputed c e l v s) = fxStack s ∧
  (∀ e', fx_static <$> effects (recomputed c e l v s) !! e' = fx_static <$> effects s !! e').
Proof.
  unfold recomputed.
  set (s2 := set_computeds _ _).
  destruct (propagated_frame e s2) as (Hp & Hh & Hf & Hc & Ht & Hs & Hst).
  rewrite Hp, Hh, Hf, Hc, Ht, Hs. clear Hp Hh Hf Hc Ht Hs.
  destruct (track_all_frame l (entered e s)) as (Hs1 & Hp1 & Hh1 & Hf1 & Hc1 & Ht1).
  destruct (entered_frame e s) as (Hp0 & Hh0 & Hf0 & Hc0 & Ht0 & Hs0 & Hst0).
  unfold s2. simpl. rewrite Hs1, Hp1, Hh1, Hf1, Hc1, Ht1, Hp0, Hh0, Hf0, Hc0, Ht0, Hs0.
  split_and!; try done.
  intros e'. rewrite Hst. simpl. rewrite track_all_static. apply Hst0.
Qed.

Lemma wf_entered e f s : effects s !! e = Some f → wf s → wf (entered e s).
Proof. apply wf_enter. Qed.

Lemma track_all_prims l s : rtc prim s (track_all l s).
Proof.
  revert s. induction l as [|sl l IH]; intros s; [reflexivity|].
  change (track_all (sl :: l) s) with (track_all l (track sl s)).
  eapply rtc_l; [apply prim_track|apply IH].
Qed.

Lemma propagated_prims e s : rtc prim s (propagated e s).
Proof.
  unfold propagated. destruct (activeFx s) as [a|] eqn:Ha; [|reflexivity].
  by apply propagate_prims.
Qed.

Lemma track_all_dep_mono l s e sl : e ∈ dep_of s sl → e ∈ dep_of (track_all l s) sl.
Proof.
  revert s. induction l as [|x l IH]; intros s H; [done|].
  change (track_all (x :: l) s) with (track_all l (track x s)). apply IH.
  unfold track. case_bool_decide; [done|]. destruct (activeFx s); [|done].
  by apply subscribe_mono.
Qed.

Lemma propagated_dep_mono e0 s e sl : e ∈ dep_of s sl → e ∈ dep_of (propagated e0 s) sl.
Proof.
  unfold propagated. destruct (activeFx s); [|done]. apply propagate_mono.
Qed.

(** The deps after the read of a dirty computed value, for tracking that is
    not paused: the internal effect is subscribed to the pairs its getter
    read, and so is the effect that was active during the read. *)
Lemma recomputed_deps c e f l v s sl :
  wf s → effects s !! e = Some f → paused s = 0 → sl ∈ l →
  e ∈ dep_of (recomputed c e l v s) sl ∧
  ∀ a, activeFx s = Some a → a ∈ dep_of (recomputed c e l v s) sl.
Proof.
  intros W He Hp Hin.
  pose proof (enter_track_deps e f l s W He Hp sl) as Hd.
  fold (entered e s) in Hd.
  set (s1 := track_all l (entered e s)) in *.
  set (s2 := set_computeds (alter (c_recomputed v) c) (set_fxStack tail s1)).
  assert (Hd2 : e ∈ dep_of s2 sl) by (by apply Hd).
  assert (W2 : wf s2).
  { eapply (wf_frame (set_fxStack tail s1)); [done|done|done|].
    apply wf_leave. eapply wf_prims; [apply track_all_prims|]. by eapply wf_entered. }
  split.
  - by apply propagated_dep_mono.
  - intros a Ha. unfold recomputed. fold s1. fold s2. unfold propagated.
    assert (Ha2 : activeFx s2 = Some a).
    { unfold activeFx, s2, s1. simpl.
      destruct (track_all_frame l (entered e s)) as (-> & _).
      destruct (entered_frame e s) as (_&_&_&_&_& -> &_). done. }
    rewrite Ha2. apply propagate_elem. by apply (wf_mirror _ W2).
Qed.

Lemma is_computed_distinct s c1 e1 b1 c2 e2 k :
  is_computed s c1 e1 b1 → reads_only b1 →
  is_computed s c2 e2 (ReadComputed c1 k) → e1 ≠ e2 ∧ c1 ≠ c2.
Proof.
  intros (cell1 & f1 & g1 & bb1 & Hc1 & Hfx1 & He1 & _ & Hraw1 & _ & Hb1 & ->) Hro
         (cell2 & f2 & g2 & bb2 & Hc2 & Hfx2 & He2 & _ & Hraw2 & _ & Hb2 & Hk).
  assert (e1 ≠ e2).
  { intros <-. rewrite He1 in He2. injection He2 as <-. rewrite Hraw1 in Hraw2.
    injection Hraw2 as <-. rewrite Hb1 in Hb2. injection Hb2 as <-.
    rewrite <- Hk in Hro. inversion Hro. }
  split; [done|]. intros <-. simplify_eq.
Qed.

(** X2. The closure of [computedGetter] (lines 28 to 45), for a computed value
    [co] whose getter reads a computed value [ci] whose getter reads reactive
    state: the first read of [co] computes both, and the propagation loop
    subscribes the internal effect of [co] to every pair that the getter of
    [ci] has read, so that a trigger on such a pair marks both dirty without
    running a getter. *)
Theorem computed_chain_invalidates fuel ci ei bi co eo k v w s :
  wf s → paused s = 0 →
  is_computed s ci ei bi → reads_only bi → result_of (heap s) bi = Ok v →
  dirty s ci = true →
  is_computed s co eo (ReadComputed ci k) → reads_only (k v) →
  result_of (heap s) (k v) = Ok w → dirty s co = true →
  ∃ s1, computed_read (exec (S (S fuel))) co s = (Ok w, s1) ∧
        cached s1 ci = v ∧ cached s1 co = w ∧
        dirty s1 ci = false ∧ dirty s1 co = false ∧
        execs ei s1 = S (execs ei s) ∧ execs eo s1 = S (execs eo s) ∧
        (∀ sl, sl ∈ reads_of (heap s) bi → ei ∈ dep_of s1 sl ∧ eo ∈ dep_of s1 sl) ∧
        (∀ R sl, sl ∈ reads_of (heap s) bi → quiet s1 sl →
           ∃ s2, trigger R sl SET s1 = (Ok VUndef, s2) ∧
                 dirty s2 ci = true ∧ dirty s2 co = true ∧
                 (∀ e, execs e s2 = execs e s1)).
Proof.
  intros W Hp Hici Hroi Hvi Hdi Hico Hrok Hvk Hdo.
  destruct (is_computed_distinct s ci ei bi co eo k Hici Hroi Hico) as [Hne Hnc].
  pose proof Hici as (celli & fi & gi & bbi & Hci & Hfxi & Hei & Hai & Hrawi & Hsi & Hbi & Ebi).
  pose proof Hico as (cello & fo & go & bbo & Hco & Hfxo & Heo & Hao & Hrawo & Hso & Hbo & Ebo).
  unfold dirty in Hdo. rewrite Hco in Hdo. simpl in Hdo.
  (* the outer effect enters its run *)
  destruct (entered_frame eo s) as (Hp0 & Hh0 & Hf0 & Hc0 & Ht0 & Hs0 & Hst0).
  set (s0 := entered eo s) in *.
  assert (W0 : wf s0) by (by eapply wf_entered).
  assert (Hici0 : is_computed s0 ci ei bi).
  { eapply is_computed_after_read; [exact Hf0|exact Hst0| |exact Hici].
    exists celli. by rewrite Hc0. }
  assert (Hei0 : ∃ fi0, effects s0 !! ei = Some fi0).
  { destruct Hici0 as (? & fi0 & ? & ? & ? & ? & ? & _). simplify_eq. by exists fi0. }
  destruct Hei0 as (fi0 & Hei0).
  (* the inner read *)
  set (li := reads_of (heap s) bi).
  set (s1 := recomputed ci ei li v s0).
  assert (Hinner : computed_read (exec (S fuel)) ci s0 = (Ok v, s1)).
  { rewrite (computed_read_dirty_eq fuel ci ei bi v s0); try done.
    - by rewrite Hh0.
    - unfold dirty. by rewrite Hc0.
    - by rewrite Hh0. }
  destruct (recomputed_frame ci ei li v s0) as (Hp1 & Hh1 & Hf1 & Hc1 & Ht1 & Hs1 & Hst1).
  fold s1 in Hp1, Hh1, Hf1, Hc1, Ht1, Hs1, Hst1.
  (* the rest of the outer getter *)
  set (lo := reads_of (heap s) (k v)).
  set (s2 := track_all lo s1).
  destruct (track_all_frame lo s1) as (Hs2 & Hp2 & Hh2 & Hf2 & Hc2 & Ht2).
  fold s2 in Hs2, Hp2, Hh2, Hf2, Hc2, Ht2.
  assert (Hrun : fx_run (exec (S (S fuel))) eo s = (Ok w, set_fxStack tail s2)).
  { unfold fx_run. rewrite Heo, Hao, Hrawo. fold (entered eo s). fold s0.
    cbn [call_raw]. unfold call_value. rewrite (fn_body_funs s s0) by done.
    rewrite Hbo, <- Ebo. cbn [exec step]. 
    change (step (exec fuel)) with (exec (S fuel)). rewrite Hinner. cbn [bind].
    change (exec (S fuel) (k v) s1) with (step (exec fuel) (k v) s1).
    rewrite step_reads_only by done. rewrite Hh1, Hh0. fold lo. fold s2. by rewrite Hvk. }
  set (s3 := set_computeds (alter (c_recomputed w) co) (set_fxStack tail s2)).
  assert (Hread : computed_read (exec (S (S fuel))) co s = (Ok w, propagated eo s3)).
  { unfold computed_read. rewrite Hco, Hdo, Hfxo, Hrun. cbn [bind].
    fold s3.
    change (match activeFx s3 with
            | Some a => foldl (λ st sl, subscribe a sl st) s3 (deps_of s3 eo)
            | None => s3
            end) with (propagated eo s3).
    f_equal. f_equal.
    destruct (propagated_frame eo s3) as (_ & _ & _ & -> & _).
    unfold s3. simpl. rewrite lookup_alter_eq, Hc2, Hc1, Hc0.
    rewrite lookup_alter_ne by done. by rewrite Hco. }
  destruct (propagated_frame eo s3) as (Hp4 & Hh4 & Hf4 & Hc4 & Ht4 & Hs4 & Hst4).
  assert (Hc3 : computeds s3 = alter (c_recomputed w) co (alter (c_recomputed v) ci (computeds s))).
  { unfold s3. simpl. by rewrite Hc2, Hc1, Hc0. }
  assert (Ht3 : trace s3 = EvExec ei :: EvExec eo :: trace s).
  { unfold s3. simpl. by rewrite Ht2, Ht1, Ht0. }
  assert (Hdeps : ∀ sl, sl ∈ li → ei ∈ dep_of (propagated eo s3) sl ∧ eo ∈ dep_of (propagated eo s3) sl).
  { intros sl Hin.
    destruct (recomputed_deps ci ei fi0 li v s0 sl) as [Hd1 Hd2]; try done.
    { by rewrite Hp0. }
    fold s1 in Hd1, Hd2.
    specialize (Hd2 eo). 
    assert (Hao0 : activeFx s0 = Some eo) by (unfold activeFx; by rewrite Hs0).
    specialize (Hd2 Hao0).
    split; apply propagated_dep_mono; change (dep_of s3 sl) with (dep_of s2 sl);
      by apply track_all_dep_mono. }
  assert (Hst : ∀ e', fx_static <$> effects (propagated eo s3) !! e' = fx_static <$> effects s !! e').
  { intros e'. rewrite Hst4. unfold s3. simpl. unfold s2. rewrite track_all_static.
    rewrite Hst1. apply Hst0. }
  assert (Hfuns : funs (propagated eo s3) = funs s).
  { rewrite Hf4. unfold s3. simpl. by rewrite Hf2, Hf1, Hf0. }
  assert (Hici' : is_computed (propagated eo s3) ci ei bi).
  { eapply is_computed_after_read; [exact Hfuns|exact Hst| |exact Hici].
    exists (c_recomputed v celli). rewrite Hc4, Hc3.
    rewrite lookup_alter_ne by done. by rewrite lookup_alter_eq, Hci. }
  assert (Hico' : is_computed (propagated eo s3) co eo (ReadComputed ci k)).
  { eapply is_computed_after_read; [exact Hfuns|exact Hst| |exact Hico].
    exists (c_recomputed w cello). rewrite Hc4, Hc3.
    by rewrite lookup_alter_eq, lookup_alter_ne, Hco by done. }
  exists (propagated eo s3). split_and!.
  - exact Hread.
  - unfold cached. rewrite Hc4, Hc3. rewrite lookup_alter_ne by done.
    by rewrite lookup_alter_eq, Hci.
  - unfold cached. rewrite Hc4, Hc3. rewrite lookup_alter_eq.
    rewrite lookup_alter_ne by done. by rewrite Hco.
  - unfold dirty. rewrite Hc4, Hc3. rewrite lookup_alter_ne by done.
    by rewrite lookup_alter_eq, Hci.
  - unfold dirty. rewrite Hc4, Hc3. rewrite lookup_alter_eq.
    rewrite lookup_alter_ne by done. by rewrite Hco.
  - unfold execs. rewrite Ht4, Ht3. rewrite !filter_cons.
    rewrite decide_True by done. rewrite decide_False by congruence. done.
  - unfold execs. rewrite Ht4, Ht3. rewrite !filter_cons.
    rewrite decide_False by congruence. rewrite decide_True by done. done.
  - exact Hdeps.
  - intros R sl Hin Hq.
    destruct (trigger_quiet R sl (propagated eo s3) Hq) as (s5 & E & Hinv & Hd).
    exists s5. split_and!; [done| | |].
    + eapply Hd; [exact Hici'|]. by apply Hdeps.
    + eapply Hd; [exact Hico'|]. by apply Hdeps.
    + apply Hinv.
Qed.

(** ** Normalized props *)

Lemma normalizeProp_inv k d p def :
  normalizeProp k d = Ok (p, def) →
  p_cast p = false ∧ (∃ ts, p_type p = Some ts) ∧ ¬ untyped d ∧
  def = match d with
        | PropObject o => if is_nullish (pi_default o) then VUndef else pi_default o
        | PropBare _ => VUndef
        end.
Proof.
  unfold normalizeProp, untyped. intros E.
  destruct d as [t|o].
  - destruct (tydecl_nullish t) eqn:E1; [done|].
    destruct (bare_isObject t) eqn:E2; [done|].
    destruct t as [e|l]; [|done].
    destruct (tyent_truthy e); [|done]. simpl in E.
    destruct (tyent_isFunction e); [|done]. simpl in E. simplify_eq.
    split_and!; eauto. intros [|]; congruence.
  - destruct (tydecl_nullish (pi_type o)) eqn:E1; [done|].
    assert (∀ l, (if forallb tyent_isFunction l
                  then Ok ({| p_type := Some (omap tyent_ctor l);
                              p_required := truthy (pi_required o);
                              p_validator := pi_validator o; p_cast := false |},
                           if is_nullish (pi_default o) then VUndef else pi_default o)
                  else Thrown (TypeError ("Type invalid in prop '" +:+ k +:+ "'!")))
                 = Ok (p, def) →
            p_cast p = false ∧ (∃ ts, p_type p = Some ts) ∧ false ≠ true ∧
            def = if is_nullish (pi_default o) then VUndef else pi_default o) as Hl.
    { intros l El. destruct (forallb tyent_isFunction l); [|done]. simplify_eq.
      split_and!; eauto. }
    destruct (pi_type o) as [e|l].
    + destruct (tyent_truthy e); [|done]. by apply Hl in E.
    + by apply Hl in E.
Qed.

Lemma normalizeProp_throws k d x : normalizeProp k d = Thrown x → ∃ msg, x = TypeError msg.
Proof.
  unfold normalizeProp.
  destruct d as [t|o].
  - destruct (tydecl_nullish t); [intros; simplify_eq; eauto|].
    destruct (bare_isObject t); [intros; simplify_eq; eauto|].
    destruct t as [e|l].
    + destruct (tyent_truthy e); [|intros; simplify_eq; eauto].
      destruct (forallb tyent_isFunction [e]); intros; simplify_eq; eauto.
    + destruct (forallb tyent_isFunction l); intros; simplify_eq; eauto.
  - destruct (tydecl_nullish (pi_type o)); [intros; simplify_eq; eauto|].
    destruct (pi_type o) as [e|l].
    + destruct (tyent_truthy e); [|intros; simplify_eq; eauto].
      destruct (forallb tyent_isFunction [e]); intros; simplify_eq; eauto.
    + destruct (forallb tyent_isFunction l); intros; simplify_eq; eauto.
Qed.

Lemma normalizeProp_total k d : normalizeProp k d ≠ OutOfFuel.
Proof.
  unfold normalizeProp.
  destruct d as [t|o].
  - destruct (tydecl_nullish t); [done|]. destruct (bare_isObject t); [done|].
    destruct t as [e|l].
    + destruct (tyent_truthy e); [|done]. by destruct (forallb tyent_isFunction [e]).
    + by destruct (forallb tyent_isFunction l).
  - destruct (tydecl_nullish (pi_type o)); [done|].
    destruct (pi_type o) as [e|l].
    + destruct (tyent_truthy e); [|done]. by destruct (forallb tyent_isFunction [e]).
    + by destruct (forallb tyent_isFunction l).
Qed.

Lemma normalizeProp_untyped k d : untyped d → ∃ msg, normalizeProp k d = Thrown (TypeError msg).
Proof.
  unfold normalizeProp, untyped. destruct d as [t|o].
  - intros [E|E].
    + rewrite E. eauto.
    + rewrite E. destruct (tydecl_nullish t); eauto.
  - intros E. rewrite E. eauto.
Qed.

Lemma normalizeProps_cons k d rest :
  normalizeProps ((k, d) :: rest) =
  match normalizeProp k d with
  | Ok n => match normalizeProps rest with
            | Ok out => Ok ((k, n) :: out)
            | Thrown x => Thrown x
            | OutOfFuel => OutOfFuel
            end
  | Thrown x => Thrown x
  | OutOfFuel => OutOfFuel
  end.
Proof. unfold normalizeProps. simpl. by destruct (normalizeProp k d). Qed.

Lemma normalizeProps_inv props out :
  normalizeProps props = Ok out →
  Forall2 (λ kd kn, kn.1 = kd.1 ∧ normalizeProp kd.1 kd.2 = Ok kn.2) props out.
Proof.
  revert out. induction props as [|[k d] rest IH]; intros out E.
  - unfold normalizeProps in E. simpl in E. simplify_eq. constructor.
  - rewrite normalizeProps_cons in E.
    destruct (normalizeProp k d) as [n| |] eqn:En; try done.
    destruct (normalizeProps rest) as [out'| |] eqn:Er; try done.
    simplify_eq. constructor; [done|by apply IH].
Qed.

Lemma normalizeProps_result props :
  (∃ out, normalizeProps props = Ok out) ∨ (∃ msg, normalizeProps props = Thrown (TypeError msg)).
Proof.
  induction props as [|[k d] rest IH]; [left; by exists []|].
  rewrite normalizeProps_cons.
  destruct (normalizeProp k d) as [n|x|] eqn:En.
  - destruct IH as [[out ->]|[msg ->]]; eauto.
  - apply normalizeProp_throws in En as [msg ->]. eauto.
  - by apply normalizeProp_total in En.
Qed.

Lemma props_model_lookup out k p :
  props_model out !! k = Some p → ∃ def, (k, (p, def)) ∈ out.
Proof.
  unfold props_model. intros Hl%elem_of_list_to_map_2.
  apply list_elem_of_fmap in Hl as ([k' [p' def]] & E & Hin). simpl in E. simplify_eq.
  by exists def.
Qed.

(** X14. [normalizeProps] (lines 46 to 77) rejects every declaration that names
    no type: a prop declared as [null], as an array of constructors, or as an
    object without a [type] makes the call throw a TypeError, whatever the
    other props are. *)
Theorem normalizeProps_rejects_untyped props k d :
  (k, d) ∈ props → untyped d →
  ∃ msg, normalizeProps props = Thrown (TypeError msg).
Proof.
  intros Hin Hu. destruct (normalizeProps_result props) as [[out E]|H]; [|done].
  exfalso. apply normalizeProps_inv in E.
  apply list_elem_of_lookup in Hin as [i Hi].
  destruct (Forall2_lookup_l _ _ _ _ _ E Hi) as ([k' [p def]] & _ & _ & En).
  simpl in En. apply normalizeProp_inv in En as (_ & _ & Hn & _). done.
Qed.

Lemma validateProp_uncast H m k p v :
  m !! k = Some p → p_cast p = false → (∃ ts, p_type p = Some ts) →
  (accepted p v ∧ validateProp H m k v = Ok v) ∨
  (¬ accepted p v ∧ ∃ msg, validateProp H m k v = Thrown (Error msg)).
Proof.
  intros Hk Hc [ts Hts]. unfold validateProp, accepted. rewrite Hk, Hts, Hc.
  destruct (is_nullish v) eqn:Hn.
  - destruct (p_required p && is_undefined v) eqn:Hr.
    + right. split; [|eauto]. intros (_ & Hreq & _). apply Hreq.
      apply andb_true_iff in Hr as [-> Hu]. by destruct v.
    + destruct (p_validator p) as [f|] eqn:Hf.
      * destruct (f v) eqn:Hfv; simpl.
        -- left. split; [|done]. split_and!; [by left| |].
           ++ intros [Hq ->]. by rewrite Hq in Hr.
           ++ intros f' ?. by simplify_eq.
        -- right. split; [|eauto]. intros (_ & _ & Hval).
           specialize (Hval f eq_refl). congruence.
      * left. split; [|done]. split_and!; [by left| |done].
        intros [Hq ->]. by rewrite Hq in Hr.
  - destruct (existsb (λ t, bool_decide (proto_of v = Some t)) ts) eqn:Hex.
    + apply existsb_exists in Hex as (t & Hin & Ht). apply bool_decide_eq_true in Ht.
      apply list_elem_of_In in Hin.
      assert (Hu : is_undefined v = false) by (by destruct v).
      rewrite Hu, andb_false_r.
      destruct (p_validator p) as [f|] eqn:Hf.
      * destruct (f v) eqn:Hfv; simpl.
        -- left. split; [|done]. split_and!; [right; eauto| |].
           ++ intros [_ ->]. done.
           ++ intros f' ?. by simplify_eq.
        -- right. split; [|eauto]. intros (_ & _ & Hval).
           specialize (Hval f eq_refl). congruence.
      * left. split; [|done]. split_and!; [right; eauto| |done].
        intros [_ ->]. done.
    + right. split; [|eauto]. intros ([?|(ts' & t & Hts' & Hin & Ht)] & _); [congruence|].
      injection Hts' as <-. assert (existsb (λ t, bool_decide (proto_of v = Some t)) ts = true); [|congruence].
      apply existsb_exists. exists t. split; [by apply list_elem_of_In|].
      by apply bool_decide_eq_true.
Qed.

(** X15. [normalizeProps] with [validateProp] (lines 104 to 144): casting is never
    switched on and the type is always an array, so for every prop of a
    normalized model [validateProp] either returns the value it was given,
    unchanged, or throws an Error; it returns exactly when the value is null
    or undefined or has the prototype of one of the types, is not undefined
    if the prop is required, and passes the validator. *)
Theorem validateProp_normalized props out k p :
  normalizeProps props = Ok out →
  props_model out !! k = Some p →
  p_cast p = false ∧ (∃ ts, p_type p = Some ts) ∧
  ∀ H v,
    (accepted p v ∧ validateProp H (props_model out) k v = Ok v) ∨
    (¬ accepted p v ∧ ∃ msg, validateProp H (props_model out) k v = Thrown (Error msg)).
Proof.
  intros E Hk.
  destruct (props_model_lookup out k p Hk) as (def & Hin).
  apply normalizeProps_inv in E.
  apply list_elem_of_lookup in Hin as [i Hi].
  destruct (Forall2_lookup_r _ _ _ _ _ E Hi) as ([k' d] & _ & _ & En).
  simpl in En. apply normalizeProp_inv in En as (Hc & Ht & _).
  split_and!; [done|done|].
  intros H v. by apply validateProp_uncast.
Qed.

(** ** Default values *)

Lemma propDefaults_inv R out s defs s' :
  propDefaults R out s = (Ok defs, s') →
  Forall2 (λ kn kv, kv.1 = kn.1 ∧ ∃ s0 s1, propDefault R kn.2 s0 = (Ok kv.2, s1)) out defs.
Proof.
  revert s defs s'. induction out as [|[k n] rest IH]; intros s defs s' E; simpl in E.
  - simplify_eq. constructor.
  - destruct (propDefault R n s) as [[v| |] s1] eqn:E1; simpl in E; try done.
    destruct (propDefaults R rest s1) as [[out'| |] s2] eqn:E2; simpl in E; try done.
    simplify_eq. constructor; [|by eapply IH].
    split; [done|]. by exists s, s1.
Qed.

Lemma normalizeProp_boolean k d n :
  normalizeProp k d = Ok n → boolean_without_default d →
  p_type n.1 = Some [CBoolean] ∧ n.2 = VUndef.
Proof.
  unfold normalizeProp, boolean_without_default, sole_boolean.
  destruct d as [t|o].
  - intros E [->| ->]; simpl in E; by simplify_eq.
  - intros E [[Ht|Ht] Hd]; rewrite Ht, Hd in E; simpl in E; by simplify_eq.
Qed.

Lemma propDefault_boolean R n s :
  p_type n.1 = Some [CBoolean] → n.2 = VUndef →
  propDefault R n s = (Ok (VBool true), s).
Proof. unfold propDefault. intros -> ->. done. Qed.

(** X16. [propDefaults] (lines 84 to 95) after [normalizeProps]: a prop declared
    with the single type [Boolean] and no default, or with the default
    [null], gets the default value [true]. *)
Theorem boolean_prop_defaults_true R props out defs s s' k d :
  normalizeProps props = Ok out →
  propDefaults R out s = (Ok defs, s') →
  (k, d) ∈ props → boolean_without_default d →
  (k, VBool true) ∈ defs.
Proof.
  intros En Ed Hin Hb.
  apply normalizeProps_inv in En. apply propDefaults_inv in Ed.
  apply list_elem_of_lookup in Hin as [i Hi].
  destruct (Forall2_lookup_l _ _ _ _ _ En Hi) as ([k1 n] & Ho & Hk1 & Hn). simpl in *. subst k1.
  destruct (Forall2_lookup_l _ _ _ _ _ Ed Ho) as ([k2 v] & Hd & Hk2 & s0 & s1 & Hv). simpl in *. subst k2.
  destruct (normalizeProp_boolean k d n Hn Hb) as [Ht Hu].
  rewrite (propDefault_boolean R n s0 Ht Hu) in Hv. simplify_eq.
  by eapply list_elem_of_lookup_2.
Qed.

(** ** The accessor loop of the element constructor *)

Lemma validateProp_Ok_inv H m k v w :
  validateProp H m k v = Ok w →
  ∃ p, m !! k = Some p ∧ ¬ (p_required p = true ∧ v = VUndef).
Proof.
  unfold validateProp. destruct (m !! k) as [p|]; [|done]. intros E.
  exists p. split; [done|]. intros [Hr ->]. simpl in E. rewrite Hr in E. done.
Qed.

Lemma cast_value_total H ty v : cast_value H ty v ≠ OutOfFuel.
Proof.
  unfold cast_value. destruct ty as [ts|]; [|done].
  destruct (head ts) as [[]|]; try done.
  - destruct (is_nullish v || looseEqStr H v "false"); [done|].
    by destruct (strict_eq v (VStr "") || looseEqStr H v "true").
  - by destruct (toNumber H v).
Qed.

Lemma validateProp_total H m k v : validateProp H m k v ≠ OutOfFuel.
Proof.
  unfold validateProp. destruct (m !! k) as [p|]; [|done].
  set (b := match p_validator p with Some f => negb (f v) | None => false end).
  assert (Hrest : (if p_required p && is_undefined v
                   then Thrown (Error ("Value required in prop '" +:+ k +:+ "'."))
                   else if b then Thrown (Error ("Validation error in prop '" +:+ k +:+ "'."))
                   else if p_cast p then cast_value H (p_type p) v else Ok v) ≠ OutOfFuel).
  { destruct (p_required p && is_undefined v); [done|]. destruct b; [done|].
    destruct (p_cast p); [apply cast_value_total|done]. }
  destruct (is_nullish v); [exact Hrest|].
  destruct (p_type p) as [ts|]; [|done].
  by destruct (existsb _ ts).
Qed.

Lemma define_props_required H name m data keys own own' :
  define_props H name m data keys own = Ok own' →
  ∀ k, k ∈ keys → ∃ p, m !! k = Some p ∧ (p_required p = true → data k ≠ VUndef).
Proof.
  revert own. induction keys as [|k keys IH]; intros own E k' Hin; simpl in E.
  - by apply elem_of_nil in Hin.
  - case_bool_decide as Hown; [done|].
    destruct (validateProp H m k (data k)) as [w| |] eqn:Ev; try done.
    apply elem_of_cons in Hin as [->|Hin]; [|by eapply IH].
    apply validateProp_Ok_inv in Ev as (p & Hp & Hreq).
    exists p. split; [done|]. intros Hr Hd. apply Hreq. done.
Qed.

Lemma define_props_total H name m data keys own :
  define_props H name m data keys own ≠ OutOfFuel.
Proof.
  revert own. induction keys as [|k keys IH]; intros own; simpl; [done|].
  case_bool_decide; [done|].
  destruct (validateProp H m k (data k)) eqn:E; try done.
  by apply validateProp_total in E.
Qed.

(** X12. The loop of the [FxElement] constructor (lines 241 to 263): when it ends
    without an exception, the keys are own properties of the element in their
    order, none of them was one before or occurs twice, and every required
    prop has a value that is not undefined. *)
Theorem define_props_checks H name m data keys own own' :
  define_props H name m data keys own = Ok own' →
  own' = own ++ keys ∧ (∀ k, k ∈ keys → k ∉ own) ∧ NoDup keys ∧
  ∀ k, k ∈ keys → ∃ p, m !! k = Some p ∧ (p_required p = true → data k ≠ VUndef).
Proof.
  revert own. induction keys as [|k keys IH]; intros own E; simpl in E.
  - simplify_eq. rewrite app_nil_r. split_and!; [done| |constructor|].
    + intros k Hk. by apply elem_of_nil in Hk.
    + intros k Hk. by apply elem_of_nil in Hk.
  - case_bool_decide as Hown; [done|].
    destruct (validateProp H m k (data k)) as [w| |] eqn:Ev; try done.
    apply IH in E as (-> & Hdis & Hnd & Hall).
    apply validateProp_Ok_inv in Ev as (p & Hp & Hreq).
    split_and!.
    + by rewrite <- app_assoc.
    + intros k' [->|Hin]%elem_of_cons; [done|].
      intros Ho. apply (Hdis k' Hin). apply elem_of_app. by left.
    + constructor; [|done]. intros Hin. apply (Hdis k Hin). apply elem_of_app. right.
      apply list_elem_of_here.
    + intros k' [->|Hin]%elem_of_cons; [|by apply Hall].
      exists p. split; [done|]. intros Hr Hd. apply Hreq. done.
Qed.

Lemma normalizeProp_required k o n :
  normalizeProp k (PropObject o) = Ok n →
  p_required n.1 = truthy (pi_required o) ∧
  (¬ sole_boolean (pi_type o) → p_type n.1 ≠ Some [CBoolean]).
Proof.
  unfold normalizeProp, sole_boolean.
  destruct (tydecl_nullish (pi_type o)); [done|].
  assert (Hc : ∀ e, tyent_ctor e = Some CBoolean → e = TyCtor CBoolean).
  { intros [c|v]; simpl; [congruence|]. by destruct v as [| | | | | | |[] ?|[] ?]. }
  assert (Hl : ∀ l, omap tyent_ctor l = [CBoolean] → forallb tyent_isFunction l = true →
                    l = [TyCtor CBoolean]).
  { intros l Ho Hf. destruct l as [|e l]; [done|]. simpl in Ho, Hf.
    apply andb_true_iff in Hf as [Hfe Hfl].
    destruct (tyent_ctor e) as [c|] eqn:Ec.
    - simpl in Ho. injection Ho as -> Hr. apply Hc in Ec as ->.
      destruct l as [|e' l]; [done|]. simpl in Hr, Hfl.
      apply andb_true_iff in Hfl as [Hfe' _].
      destruct (tyent_ctor e') eqn:Ec'; [done|].
      destruct e' as [|v]; [done|]. by destruct v as [| | | | | | |[] ?|[] ?].
    - destruct e as [|v]; [done|]. by destruct v as [| | | | | | |[] ?|[] ?]. }
  destruct (pi_type o) as [e|l] eqn:Et.
  - destruct (tyent_truthy e); [|done].
    destruct (forallb tyent_isFunction [e]) eqn:Hf; [|done].
    intros E. simplify_eq. simpl. split; [done|].
    intros Hns Ho. injection Ho as Ho. apply Hns. left. f_equal.
    apply (Hl [e]) in Hf; [congruence|]. exact Ho.
  - destruct (forallb tyent_isFunction l) eqn:Hf; [|done].
    intros E. simplify_eq. simpl. split; [done|].
    intros Hns Ho. injection Ho as Ho. apply Hns. right. f_equal. by apply Hl.
Qed.

Lemma propDefault_none R n s :
  n.2 = VUndef → p_type n.1 ≠ Some [CBoolean] → (∃ ts, p_type n.1 = Some ts) →
  propDefault R n s = (Ok VUndef, s).
Proof.
  unfold propDefault. intros -> Hn [ts Ht]. rewrite Ht in *. simpl.
  destruct ts as [|t [|t' ts]]; try done.
  case_bool_decide; [|done]. by subst.
Qed.

Lemma fmap_fst_map {A B} (l : list (A * B)) : l.*1 = map fst l.
Proof. induction l as [|[??] l IH]; simpl; [done|]. by f_equal. Qed.

Lemma fst_model_entries (out : list (string * (NormalizedProp * value))) :
  (map (λ kn : string * (NormalizedProp * value), (kn.1, kn.2.1)) out).*1 = map fst out.
Proof. induction out as [|[??] l IH]; simpl; [done|]. by f_equal. Qed.

(** X13. [propDefaults] (line 107 of instance.ts) and the loop of the element
    constructor (lines 241 to 263), for a declaration with a required prop
    without a default whose type is not [Boolean] alone.  [propDefaults]
    gives the prop the value undefined.  The setup function runs between the
    two (line 109) and can write the props data through its proxy; whatever
    the props data are when the loop starts, if the prop is still undefined
    in them the loop throws, so the element cannot be constructed. *)
Theorem required_prop_needs_default H R name props out defs s s' k o own :
  normalizeProps props = Ok out →
  propDefaults R out s = (Ok defs, s') →
  NoDup (map fst props) →
  (k, PropObject o) ∈ props →
  truthy (pi_required o) = true → is_nullish (pi_default o) = true →
  ¬ sole_boolean (pi_type o) →
  object_get defs k = VUndef ∧
  ∀ data, data k = VUndef →
    ∃ x, define_props H name (props_model out) data (map fst props) own = Thrown x.
Proof.
  intros En Ed Hnd Hin Hreq Hdef Hnb.
  pose proof (normalizeProps_inv _ _ En) as Hn. pose proof (propDefaults_inv _ _ _ _ _ Ed) as Hd.
  apply list_elem_of_lookup in Hin as [i Hi].
  destruct (Forall2_lookup_l _ _ _ _ _ Hn Hi) as ([k1 n] & Ho & Hk1 & Hnk). simpl in *. subst k1.
  destruct (Forall2_lookup_l _ _ _ _ _ Hd Ho) as ([k2 v] & Hdi & Hk2 & s0 & s1 & Hv). simpl in *. subst k2.
  destruct (normalizeProp_required k o n Hnk) as [Hr Hty].
  destruct (normalizeProp_inv k _ _ _ (eq_trans Hnk (f_equal Ok (surjective_pairing n))))
    as (_ & Hts & _ & Hdv).
  rewrite Hdef in Hdv.
  rewrite (propDefault_none R n s0) in Hv by auto. simplify_eq.
  (* the keys of the three objects are the same *)
  assert (Hkeys_out : map fst out = map fst props).
  { clear -Hn. induction Hn as [|[??] [??] ?? [? _] _ IH]; simpl in *; [done|]. by f_equal. }
  assert (Hkeys_defs : map fst defs = map fst out).
  { clear -Hd. induction Hd as [|[??] [??] ?? [? _] _ IH]; simpl in *; [done|]. by f_equal. }
  assert (Hm : props_model out !! k = Some n.1).
  { unfold props_model. apply elem_of_list_to_map_1.
    - rewrite fst_model_entries. by rewrite Hkeys_out.
    - apply list_elem_of_fmap. exists (k, n). split; [done|].
      exact (list_elem_of_lookup_2 _ _ _ Ho). }
  split.
  - unfold object_get.
    assert (list_to_map (M := gmap string value) defs !! k = Some VUndef) as ->; [|done].
    apply elem_of_list_to_map_1; [|exact (list_elem_of_lookup_2 _ _ _ Hdi)].
    rewrite fmap_fst_map. by rewrite Hkeys_defs, Hkeys_out.
  - intros data Hg.
    destruct (define_props H name (props_model out) data (map fst props) own)
      as [own'|x|] eqn:E; [exfalso|by exists x|by apply define_props_total in E].
    destruct (define_props_required _ _ _ _ _ _ _ E k) as (p & Hp & Hne).
    { apply list_elem_of_fmap. exists (k, PropObject o). split; [done|].
      exact (list_elem_of_lookup_2 _ _ _ Hi). }
    rewrite Hm in Hp. simplify_eq. apply Hne; [|done]. by rewrite Hr.
Qed.

(** ** Attributes *)

(** X11. [attributeChangedCallback] (lines 294 to 303) assigns the new attribute
    value, a string, to the prop, and [validateProp] checks the type before
    it looks at [cast]: for a prop whose types do not include [String] the
    callback throws a type error and the prop keeps its value, whether the
    prop casts or not.  Removing the attribute assigns [null], which every
    type accepts: a prop that neither casts nor has a validator becomes null
    and its subscribers are notified.  A callback for a value that has not
    changed does nothing. *)
Theorem attribute_string_needs_String_type H R i inst attrs attr k p ts old x s :
  instances s !! i = Some inst →
  attrs !! attr = Some k → i_props inst !! k = Some p →
  p_type p = Some ts → CString ∉ ts →
  (strict_eq old (VStr x) = false →
   heap_get s (i_propsData inst, k) ≠ VStr x →
   attributeChangedCallback H R i attrs attr old (VStr x) s =
     (Thrown (Error ("Type error in prop '" +:+ k +:+ "'.")), s)) ∧
  (strict_eq old VNull = false →
   heap_get s (i_propsData inst, k) ≠ VNull →
   p_cast p = false → p_validator p = None →
   attributeChangedCallback H R i attrs attr old VNull s =
     trigger R (i_propsData inst, k) SET
       (set_heap (<[(i_propsData inst, k) := VNull]>) s)) ∧
  (∀ v, strict_eq old v = true →
     attributeChangedCallback H R i attrs attr old v s = (Ok VUndef, s)).
Proof.
  intros Hi Ha Hk Ht Hns.
  assert (Hdom : k ∈ dom (i_props inst)).
  { apply elem_of_dom. by exists p. }
  split_and!.
  - intros Ho Hst.
    unfold attributeChangedCallback, strict_neq. rewrite Ho, Ha. cbn [negb default from_option id].
    unfold element_set. rewrite Hi, bool_decide_eq_true_2 by done.
    unfold prop_set, strict_neq. rewrite Hi.
    assert (strict_eq (VStr x) (heap_get s (i_propsData inst, k)) = false) as ->.
    { unfold strict_eq. by rewrite bool_decide_eq_false_2. }
    cbn [negb]. unfold validateProp. rewrite Hk, Ht. cbn [is_nullish].
    assert (existsb (λ t, bool_decide (proto_of (VStr x) = Some t)) ts = false) as ->; [|done].
    apply not_true_is_false. intros (t & Hin & Hp)%existsb_exists.
    apply bool_decide_eq_true in Hp. simpl in Hp. simplify_eq.
    by apply list_elem_of_In in Hin.
  - intros Ho Hst Hc Hv.
    unfold attributeChangedCallback, strict_neq. rewrite Ho, Ha. cbn [negb default from_option id].
    unfold element_set. rewrite Hi, bool_decide_eq_true_2 by done.
    unfold prop_set, strict_neq. rewrite Hi.
    assert (strict_eq VNull (heap_get s (i_propsData inst, k)) = false) as ->.
    { unfold strict_eq. by rewrite bool_decide_eq_false_2. }
    cbn [negb]. unfold validateProp. rewrite Hk, Hv, Hc. cbn [is_nullish is_undefined].
    by rewrite andb_false_r.
  - intros v Ho. unfold attributeChangedCallback, strict_neq. by rewrite Ho.
Qed.

(** ** Style sheets *)

(** Induction on a declaration and the declarations inside it. *)
Lemma style_nested_ind (P : style → Prop) :
  (∀ n, P (Sheet n)) →
  (∀ l, Forall P l → P (Sheets l)) →
  ∀ s, P s.
Proof.
  intros Hs Hl. fix IH 1. intros [n|l]; [apply Hs|].
  apply Hl. induction l as [|s l IHl]; constructor; [apply IH|apply IHl].
Qed.

Lemma foldr_dep_add_app l1 l2 set :
  foldr dep_add set (l1 ++ l2) = foldr dep_add (foldr dep_add set l2) l1.
Proof. apply foldr_app. Qed.

Lemma collectStyle_sheets s set : collectStyle s set = foldr dep_add set (sheets_of s).
Proof.
  revert set. induction s as [n|l IH] using style_nested_ind; intros set; [done|].
  simpl. induction IH as [|s l Hs _ IHl]; [done|].
  simpl. rewrite foldr_app, <- IHl. apply Hs.
Qed.

Lemma collectStyles_sheets styles set :
  collectStyles styles set = foldr dep_add set (flat_map sheets_of styles).
Proof. apply (collectStyle_sheets (Sheets styles)). Qed.

Lemma foldr_dep_add_remove_dups (l : list nat) :
  foldr dep_add [] l = reverse (remove_dups l).
Proof.
  induction l as [|x l IH]; [done|].
  simpl. rewrite IH. unfold dep_add. destruct (decide_rel elem_of x l) as [Hin|Hin].
  - rewrite bool_decide_eq_true_2; [done|].
    by rewrite elem_of_reverse, elem_of_remove_dups.
  - rewrite bool_decide_eq_false_2.
    + by rewrite reverse_cons.
    + by rewrite elem_of_reverse, elem_of_remove_dups.
Qed.

(** X17. [collectStyles] (lines 312 to 315) as [normalizeOptions] uses it (lines
    327 to 333): the normalized style sheets of an array, however nested, are
    its sheets in reverse order of writing, each once, at the place of its
    last occurrence; so no sheet is lost and none is repeated. *)
Theorem collectStyles_reverses styles :
  normalize_styles (Some (Sheets styles)) =
    reverse (remove_dups (flat_map sheets_of styles)) ∧
  NoDup (normalize_styles (Some (Sheets styles))) ∧
  (∀ n, n ∈ normalize_styles (Some (Sheets styles)) ↔ n ∈ flat_map sheets_of styles).
Proof.
  assert (E : normalize_styles (Some (Sheets styles)) =
              reverse (remove_dups (flat_map sheets_of styles))).
  { simpl. by rewrite collectStyles_sheets, foldr_dep_add_remove_dups. }
  rewrite E. split_and!; [done| |].
  - rewrite reverse_Permutation. apply NoDup_remove_dups.
  - intros n. by rewrite elem_of_reverse, elem_of_remove_dups.
Qed.

(** [collectStyles] with a set that is given: what is in the set stays, in
    its order, in front of the sheets that are new. *)
Lemma collectStyles_prefix styles set : set `prefix_of` collectStyles styles set.
Proof.
  rewrite collectStyles_sheets. induction (flat_map sheets_of styles) as [|x l IH]; [done|].
  simpl. etrans; [exact IH|]. unfold dep_add. case_bool_decide; [done|].
  by apply prefix_app_r.
Qed.

(** ** The stack trace of an error message *)

Lemma Forall_removelast {A} (P : A → Prop) (l : list A) : Forall P l → Forall P (removelast l).
Proof.
  induction 1 as [|x l Hx Hl IH]; [constructor|].
  simpl. destruct l; [constructor|]. by constructor.
Qed.

Lemma trace_step_shows instance st node :
  Forall (shows instance) st.1 → (st.1 = [] ∨ last st.1 = Some (Plain instance)) →
  Forall (shows instance) (trace_step instance st node).1 ∧
  last (trace_step instance st node).1 = Some (Plain instance).
Proof.
  intros Hall Hlast. unfold trace_step.
  assert (Hp : shows instance (Plain instance)) by (by left).
  destruct Hlast as [E|E]; rewrite E.
  - simpl. split; [by repeat constructor|done].
  - case_bool_decide; [done|]. case_bool_decide; simpl.
    + split; [apply Forall_app; by repeat constructor|by rewrite last_snoc].
    + split.
      * apply Forall_app. split; [by apply Forall_removelast|].
        constructor; [right; by eexists|]. by repeat constructor.
      * by rewrite last_app_cons.
Qed.

Lemma foldl_trace_step_shows instance nodes st :
  Forall (shows instance) st.1 → (st.1 = [] ∨ last st.1 = Some (Plain instance)) →
  Forall (shows instance) (foldl (trace_step instance) st nodes).1.
Proof.
  revert st. induction nodes as [|node nodes IH]; intros st Hall Hlast; [done|].
  simpl. destruct (trace_step_shows instance st node Hall Hlast) as [H1 H2].
  apply IH; [done|by right].
Qed.

Lemma stack_tree_shows instance ancestors :
  Forall (shows instance) (stack_tree instance ancestors).
Proof. apply foldl_trace_step_shows; [constructor|by left]. Qed.

Lemma format_entries_shows instance idx tree :
  Forall (shows instance) tree →
  ∃ lines, format_entries idx tree = Ok lines ∧
           Forall (λ line, ∃ i c, line = formatElementName instance i c) lines.
Proof.
  intros Hall. revert idx. induction Hall as [|e tree He _ IH]; intros idx.
  - exists []. by split.
  - destruct (IH (S idx)) as (lines & E & Hl). simpl. rewrite E.
    destruct He as [->|[c ->]]; simpl; eexists; (split; [done|]);
      constructor; eauto.
Qed.

Lemma foldl_trace_step_same instance nodes c :
  Forall (λ n, n_ctor n = n_ctor instance) nodes →
  ∃ c', foldl (trace_step instance) ([Plain instance], c) nodes = ([Plain instance], c').
Proof.
  intros Hall. revert c. induction Hall as [|n nodes Hn _ IH]; intros c; [by exists c|].
  simpl. unfold trace_step at 2. simpl. rewrite bool_decide_eq_true_2 by (by rewrite Hn).
  apply IH.
Qed.

Lemma stack_tree_same instance ancestors :
  Forall (λ n, n_ctor n = n_ctor instance) ancestors →
  stack_tree instance ancestors = [Plain instance].
Proof.
  intros Hall. unfold stack_tree.
  change (foldl (trace_step instance) ([], 0) (instance :: ancestors))
    with (foldl (trace_step instance) ([Plain instance], 0) ancestors).
  by destruct (foldl_trace_step_same instance ancestors 0 Hall) as [c' ->].
Qed.

(** X18. [createStackTrace] (lines 68 to 95) pushes the instance at which the walk
    started for every node of the walk (line 87), so the trace never names an
    ancestor: every line of it is a line for that instance, and formatting it
    never fails.  When all nodes have the same constructor, as the instances
    of one class have, the trace of an instance that has a parent is the one
    line for the instance itself, without a count of recursive calls. *)
Theorem stack_trace_shows_only_the_instance instance ancestors :
  Forall (shows instance) (stack_tree instance ancestors) ∧
  (∃ lines,
     format_entries 0 (stack_tree instance ancestors) = Ok lines ∧
     Forall (λ line, ∃ i c, line = formatElementName instance i c) lines) ∧
  (∃ t, createStackTrace instance ancestors = Ok t) ∧
  (ancestors ≠ [] → Forall (λ n, n_ctor n = n_ctor instance) ancestors →
   createStackTrace instance ancestors =
     Ok (newline +:+ newline +:+ "found in:" +:+ newline +:+ newline
         +:+ formatElementName instance 0 0)).
Proof.
  pose proof (stack_tree_shows instance ancestors) as Hs.
  destruct (format_entries_shows instance 0 _ Hs) as (lines & E & Hl).
  split_and!.
  - done.
  - by exists lines.
  - unfold createStackTrace. destruct ancestors; [by eexists|]. rewrite E. by eexists.
  - intros Hne Hall. unfold createStackTrace. destruct ancestors as [|a anc]; [done|].
    rewrite (stack_tree_same instance (a :: anc) Hall). done.
Qed.

(** ** The message of an error *)

Lemma endsWith_dot_snoc m : endsWith_dot (m +:+ ".") = true.
Proof.
  induction m as [|c m IH]; [done|].
  simpl. destruct (m +:+ ".") eqn:E; [by destruct m|]. exact IH.
Qed.

Lemma drop_last_snoc m c : drop_last (m +:+ String c "") = m.
Proof.
  induction m as [|c' m IH]; [done|].
  simpl. destruct (m +:+ String c "") eqn:E; [by destruct m|]. by rewrite IH.
Qed.

(** X19. The message of a [KireiError] (lines 16 to 27): with a context, one full
    stop at the end of the message is dropped before [ in #context.] is
    appended, so a message with and without its full stop give the same
    text; without a context the message is kept as it is. *)
Theorem KireiError_message_full_stop m c active :
  endsWith_dot m = false →
  KireiError_message (m +:+ ".") (Some c) active = KireiError_message m (Some c) active ∧
  KireiError_message m (Some c) None = Ok (m +:+ " in #" +:+ c +:+ ".") ∧
  KireiError_message m None None = Ok m.
Proof.
  intros Hm. unfold KireiError_message.
  rewrite endsWith_dot_snoc, drop_last_snoc, Hm. done.
Qed.

(** ** The release script *)

Lemma semver_index_Some tag i :
  semver_index tag = Some i →
  (tag = VStr "major" ∧ i = 0) ∨ (tag = VStr "minor" ∧ i = 1) ∨ (tag = VStr "patch" ∧ i = 2).
Proof.
  unfold semver_index. destruct tag; try done.
  repeat case_bool_decide; intros; simplify_eq; auto.
Qed.

Lemma length_array_set arr i v : length (array_set arr i v) = length arr `max` S i.
Proof.
  unfold array_set. case_bool_decide.
  - rewrite length_insert. lia.
  - rewrite !length_app, length_replicate. simpl. lia.
Qed.

Lemma array_get_set arr i v j :
  array_get (array_set arr i v) j = if decide (j = i) then Some v else array_get arr j.
Proof.
  unfold array_get, array_set. case_bool_decide as Hlt.
  - case_decide as Hj.
    + subst. by rewrite list_lookup_insert_eq.
    + by rewrite list_lookup_insert_ne.
  - case_decide as Hj.
    + subst. rewrite lookup_app_r by lia.
      rewrite lookup_app_r by (rewrite length_replicate; lia).
      rewrite length_replicate. by replace (i - length arr - (i - length arr)) with 0 by lia.
    + destruct (decide (j < length arr)) as [Hl|Hl].
      * by rewrite lookup_app_l.
      * rewrite (lookup_ge_None_2 arr j) by lia. rewrite lookup_app_r by lia.
        destruct (decide (j < i)) as [Hji|Hji].
        -- rewrite lookup_app_l by (rewrite length_replicate; lia).
           by rewrite lookup_replicate_2 by lia.
        -- rewrite lookup_app_r by (rewrite length_replicate; lia).
           rewrite length_replicate. rewrite lookup_ge_None_2; [done|]. simpl. lia.
Qed.

Lemma round_double_safe z : (- 2 ^ 53 ≤ z ≤ 2 ^ 53)%Z → round_double z = z.
Proof.
  intros Hz. unfold round_double.
  destruct (Z.ltb_spec (Z.abs z) (2 ^ 53)) as [Hlt|Hge]; [done|].
  assert (Hz' : z = (2 ^ 53)%Z ∨ z = (- 2 ^ 53)%Z) by lia.
  destruct Hz' as [-> | ->]; vm_compute; reflexivity.
Qed.

Lemma plus_one_safe z : (- 2 ^ 53 ≤ z < 2 ^ 53)%Z → plus_one (Some (Int z)) = Int (z + 1).
Proof. intros Hz. unfold plus_one. rewrite round_double_safe by lia. done. Qed.

Lemma bump_array_three tag M m p :
  bump_array tag [Some (Int M); Some (Int m); Some (Int p)] =
  match semver_index tag with
  | Some 0 => Ok [Some (plus_one (Some (Int M))); Some (Int 0); Some (Int 0)]
  | Some 1 => Ok [Some (Int M); Some (plus_one (Some (Int m))); Some (Int 0)]
  | Some 2 => Ok [Some (Int M); Some (Int m); Some (plus_one (Some (Int p)))]
  | _ => Thrown (Error "Version tag not recognised")
  end.
Proof.
  unfold bump_array. destruct (semver_index tag) as [[|[|[|i]]]|]; reflexivity.
Qed.

(** X20. [bumpVersion] (lines 219 to 235), for versions whose parts are
    integers or NaN.  A tag other than the three names throws before
    anything is computed.  For the tag at index [i] of [major], [minor],
    [patch] and any version array, the result has at least three places; the
    places before [i] are kept, place [i] is the sum of the part and 1, the
    places after it up to the third are 0, and places after the third are
    kept.  The sum is a sum of doubles: below 2^53 it is the next integer, so
    a version of three such integers becomes a version above it; at 2^53 it
    is the part itself, and [patch] returns the version it was given.  A
    version of one number gets a hole and NaN from [patch]. *)
Theorem bumpVersion_bumps show :
  (∀ tag version,
     semver_index tag = None →
     bumpVersion show tag version = Thrown (Error "Version tag not recognised")) ∧
  (∀ tag i version,
     semver_index tag = Some i →
     ∃ v', bump_array tag version = Ok v' ∧
           bumpVersion show tag version = Ok (join_version show v') ∧
           length v' = length version `max` 3 ∧
           (∀ j, j < i → array_get v' j = array_get version j) ∧
           array_get v' i = Some (plus_one (array_get version i)) ∧
           (∀ j, i < j < 3 → array_get v' j = Some (Int 0)) ∧
           (∀ j, 3 ≤ j → array_get v' j = array_get version j)) ∧
  (∀ z, (- 2 ^ 53 ≤ z < 2 ^ 53)%Z → plus_one (Some (Int z)) = Int (z + 1)) ∧
  plus_one (Some (Int (2 ^ 53))) = Int (2 ^ 53) ∧
  (∀ tag M m p a b c,
     (- 2 ^ 53 ≤ M < 2 ^ 53)%Z → (- 2 ^ 53 ≤ m < 2 ^ 53)%Z → (- 2 ^ 53 ≤ p < 2 ^ 53)%Z →
     bump_array tag [Some (Int M); Some (Int m); Some (Int p)] =
       Ok [Some (Int a); Some (Int b); Some (Int c)] →
     version_lt (M, m, p) (a, b, c)) ∧
  (∀ M m p,
     (- 2 ^ 53 ≤ m < 2 ^ 53)%Z →
     bumpVersion show (VStr "minor") [Some (Int M); Some (Int m); Some (Int p)] =
       Ok (show M +:+ "." +:+ show (m + 1)%Z +:+ "." +:+ show 0%Z)) ∧
  (∀ M m,
     bump_array (VStr "patch") [Some (Int M); Some (Int m); Some (Int (2 ^ 53))] =
       Ok [Some (Int M); Some (Int m); Some (Int (2 ^ 53))]) ∧
  (∀ M, bump_array (VStr "patch") [Some (Int M)] = Ok [Some (Int M); None; Some NaN]).
Proof.
  split_and!.
  - intros tag version Hn. unfold bumpVersion, bump_array. by rewrite Hn.
  - intros tag i version Hi. unfold bumpVersion, bump_array. rewrite Hi.
    apply semver_index_Some in Hi as [[_ ->]|[[_ ->]|[_ ->]]].
    + eexists. split; [done|]. split; [done|]. split_and!.
      * rewrite !length_array_set. lia.
      * intros j Hj. lia.
      * rewrite !array_get_set. by repeat (case_decide; try lia).
      * intros j Hj. rewrite !array_get_set. by repeat (case_decide; try lia).
      * intros j Hj. rewrite !array_get_set. by repeat (case_decide; try lia).
    + eexists. split; [done|]. split; [done|]. split_and!.
      * rewrite !length_array_set. lia.
      * intros j Hj. rewrite !array_get_set. by repeat (case_decide; try lia).
      * rewrite !array_get_set. by repeat (case_decide; try lia).
      * intros j Hj. rewrite !array_get_set. by repeat (case_decide; try lia).
      * intros j Hj. rewrite !array_get_set. by repeat (case_decide; try lia).
    + eexists. split; [done|]. split; [done|]. split_and!.
      * rewrite !length_array_set. lia.
      * intros j Hj. rewrite !array_get_set. by repeat (case_decide; try lia).
      * rewrite !array_get_set. by repeat (case_decide; try lia).
      * intros j Hj. lia.
      * intros j Hj. rewrite !array_get_set. by repeat (case_decide; try lia).
  - apply plus_one_safe.
  - vm_compute. reflexivity.
  - intros tag M m p a b c HM Hm Hp. rewrite bump_array_three.
    rewrite !plus_one_safe by done.
    destruct (semver_index tag) as [i|] eqn:Ei; [|done].
    apply semver_index_Some in Ei as [[_ ->]|[[_ ->]|[_ ->]]];
      intros E; injection E as <- <- <-; unfold version_lt; lia.
  - intros M m p Hm. unfold bumpVersion. rewrite bump_array_three.
    rewrite (plus_one_safe m) by done. reflexivity.
  - intros M m. rewrite bump_array_three. reflexivity.
  - intros M. reflexivity.
Qed.

Lemma bump_deps_keys version deps : map fst (bump_deps version deps) = map fst deps.
Proof. unfold bump_deps. induction deps as [|[??] ? IH]; simpl; [done|]. by f_equal. Qed.

Lemma bump_deps_idemp version deps :
  bump_deps version (bump_deps version deps) = bump_deps version deps.
Proof.
  unfold bump_deps. induction deps as [|[d v] ? IH]; simpl; [done|]. f_equal; [|done].
  by destruct (String.prefix pkgPrefix d).
Qed.

Lemma bump_deps_elem version deps d v :
  (d, v) ∈ bump_deps version deps →
  (String.prefix pkgPrefix d = true ∧ v = "^" +:+ version) ∨
  (String.prefix pkgPrefix d = false ∧ (d, v) ∈ deps).
Proof.
  unfold bump_deps. rewrite list_elem_of_In, in_map_iff.
  intros ([d' v'] & E & Hin). simpl in E. injection E as -> <-.
  destruct (String.prefix pkgPrefix d) eqn:Ep; [by left|].
  right. split; [done|]. by apply list_elem_of_In.
Qed.

(** X21. [bumpDependencies] (lines 238 to 254): in each of the three objects the
    names stay as they are, in their order; an entry whose name starts with
    the prefix of the packages gets the range [^version], every other entry
    keeps its range; running it again with the same version changes
    nothing. *)
Theorem bumpDependencies_pins pkg version :
  (∀ deps deps',
     (dependencies pkg = Some deps ∧ dependencies (bumpDependencies pkg version) = Some deps') ∨
     (peerDependencies pkg = Some deps ∧ peerDependencies (bumpDependencies pkg version) = Some deps') ∨
     (devDependencies pkg = Some deps ∧ devDependencies (bumpDependencies pkg version) = Some deps') →
     map fst deps' = map fst deps ∧
     ∀ d v, (d, v) ∈ deps' →
       (String.prefix pkgPrefix d = true ∧ v = "^" +:+ version) ∨
       (String.prefix pkgPrefix d = false ∧ (d, v) ∈ deps)) ∧
  bumpDependencies (bumpDependencies pkg version) version = bumpDependencies pkg version.
Proof.
  split.
  - intros deps deps' H.
    assert (deps' = bump_deps version deps) as ->.
    { destruct H as [[E1 E2]|[[E1 E2]|[E1 E2]]]; simpl in E2; rewrite E1 in E2;
        simpl in E2; by simplify_eq. }
    split; [apply bump_deps_keys|apply bump_deps_elem].
  - unfold bumpDependencies. simpl.
    destruct (dependencies pkg), (peerDependencies pkg), (devDependencies pkg); simpl;
      by rewrite ?bump_deps_idemp.
Qed.

(** ** Bindings of a template *)

Lemma strict_eq_true a b : strict_eq a b = true → a = b.
Proof. unfold strict_eq. destruct a; try done; by intros ?%bool_decide_eq_true. Qed.

Lemma default_last_cons {A} (a v : A) (vs : list A) :
  default a (last (v :: vs)) = default v (last vs).
Proof.
  revert a v. induction vs as [|v' vs IH]; intros a v; [done|].
  rewrite last_cons_cons. by rewrite (IH a v'), (IH v v').
Qed.

Lemma attr_update_synced v st :
  attr_synced st →
  ∃ st', attr_update v st = Ok st' ∧ attr_synced st' ∧ a_value st' = v.
Proof.
  intros (Hn & Ha & Hv). unfold attr_update, strict_neq.
  destruct (strict_eq (a_value st) v) eqn:E; simpl.
  - apply strict_eq_true in E. exists st. by repeat split.
  - destruct (is_nullish v) eqn:Hnull.
    + destruct (a_noOwner st) eqn:Ho.
      * eexists. split; [done|]. unfold attr_synced; simpl. rewrite Hnull.
        destruct (a_attached st); try done.
      * destruct (a_attached st) eqn:Hat; [|done].
        eexists. split; [done|]. unfold attr_synced; simpl. by rewrite Hnull.
    + destruct (a_noOwner st) eqn:Ho.
      * eexists. split; [done|]. unfold attr_synced; simpl. by rewrite Hnull.
      * eexists. split; [done|]. unfold attr_synced; simpl. rewrite Hnull.
        destruct (a_attached st); done.
Qed.

Lemma attr_updates_synced vs st :
  attr_synced st →
  ∃ st', attr_updates vs st = Ok st' ∧ attr_synced st' ∧
         a_value st' = default (a_value st) (last vs).
Proof.
  revert st. induction vs as [|v vs IH]; intros st Hs.
  - exists st. split; [done|]. by split.
  - destruct (attr_update_synced v st Hs) as (st1 & E1 & Hs1 & Hv1).
    destruct (IH st1 Hs1) as (st2 & E2 & Hs2 & Hv2).
    exists st2. simpl. rewrite E1. split_and!; [done|done|].
    rewrite Hv2, Hv1. symmetry. apply default_last_cons.
Qed.

(** X22. The closure that [attrParser] returns for an attribute (lines 77 to
    101): whatever values it is called with, it never removes an attribute
    node that is not attached, and afterwards the attribute is on the
    element exactly when the last value is neither null nor undefined, and
    then it holds the last value. *)
Theorem attr_binding_follows_last_value vs :
  ∃ st, attr_updates vs attr_initial = Ok st ∧
        a_value st = default VUndef (last vs) ∧
        a_attached st = negb (is_nullish (default VUndef (last vs))) ∧
        a_noOwner st = negb (a_attached st) ∧
        (a_attached st = true → a_attr st = default VUndef (last vs)).
Proof.
  destruct (attr_updates_synced vs attr_initial) as (st & E & (Hn & Ha & Hv) & Hl).
  { by repeat split. }
  exists st. simpl in Hl. rewrite <- Hl. by split_and!.
Qed.

Lemma last_all_undefined vs :
  forallb is_undefined vs = true → default VUndef (last vs) = VUndef.
Proof.
  induction vs as [|v vs IH]; [done|]. simpl. intros [Hv Hall]%andb_true_iff.
  destruct vs as [|v' vs]; [by destruct v|]. by apply IH.
Qed.

(** X23. The closure of [textParser] (lines 167 to 176): after any calls the
    stored value is the last one; the text of the node is the last value, or
    the empty string if that is null or undefined, except that calls with
    [undefined] alone never touch the text the node had. *)
Theorem text_binding_follows_last_value vs c0 :
  let st := foldl (λ st v, text_update v st) {| t_value := VUndef; t_content := c0 |} vs in
  t_value st = default VUndef (last vs) ∧
  t_content st =
    if forallb is_undefined vs then c0 else text_of (default VUndef (last vs)).
Proof.
  cbn zeta. induction vs as [|v vs IH] using rev_ind; [done|].
  rewrite foldl_app. cbn [foldl]. destruct IH as [Hv Hc].
  set (st := foldl _ _ vs) in *.
  rewrite last_snoc, forallb_app. cbn [default from_option id forallb].
  rewrite andb_true_r.
  unfold text_update, strict_neq.
  destruct (strict_eq (t_value st) v) eqn:E; cbn [negb].
  - apply strict_eq_true in E. split; [done|]. rewrite Hc.
    destruct (forallb is_undefined vs) eqn:Hall; cbn [andb].
    + rewrite (last_all_undefined vs Hall) in Hv. rewrite <- E, Hv. done.
    + by rewrite <- Hv, E.
  - split; [done|]. cbn [t_content].
    destruct (forallb is_undefined vs) eqn:Hall; cbn [andb]; [|done].
    destruct (is_undefined v) eqn:Hu; [|done].
    rewrite (last_all_undefined vs Hall) in Hv. destruct v; try done.
    by rewrite Hv in E.
Qed.

(** ** The binding of a node *)

Lemma parse_primitive_value D v st : n_value (parse_primitive D v st) = DValue v.
Proof.
  unfold parse_primitive. destruct (holds_primitive (n_value st) v) eqn:E; [|done].
  destruct (n_value st) as [w|items|n|f ch]; simpl in E; try done.
  by apply strict_eq_true in E as ->.
Qed.

Lemma parse_primitive_twice D v st :
  v ≠ VNaN → parse_primitive D v (parse_primitive D v st) = parse_primitive D v st.
Proof.
  intros Hn. unfold parse_primitive at 1. rewrite parse_primitive_value. simpl.
  assert (strict_eq v v = true) as ->; [|done].
  unfold strict_eq. destruct v; try done; by rewrite bool_decide_eq_true_2.
Qed.

(** X24. The closure of [nodeParser] (lines 112 to 162) clears the content for
    [null] or [undefined] only if the value it holds is truthy (line 130):
    after a string, number or boolean that is falsy (0, NaN, the empty
    string, false) a call with null or undefined changes nothing, and the
    text node stays; after a truthy one it empties the nodes.  A call with
    the string, number or boolean that is already shown changes nothing, and
    neither does a call with a function or an object that is neither an
    array nor a node. *)
Theorem node_binding_keeps_falsy_content D :
  (∀ v nul st,
     is_text_primitive v = true → is_nullish nul = true → truthy v = false →
     parse D (DValue nul) (parse D (DValue v) st) = parse D (DValue v) st ∧
     n_value (parse D (DValue v) st) = DValue v) ∧
  (∀ v nul st,
     is_text_primitive v = true → is_nullish nul = true → truthy v = true →
     parse D (DValue nul) (parse D (DValue v) st) =
       {| n_nodes := dom_diff D (n_nodes (parse D (DValue v) st)) [];
          n_value := DValue nul;
          n_text := n_text (parse D (DValue v) st);
          n_textContent := n_textContent (parse D (DValue v) st) |}) ∧
  (∀ v st,
     is_text_primitive v = true → v ≠ VNaN →
     parse D (DValue v) (parse D (DValue v) st) = parse D (DValue v) st) ∧
  (∀ v st,
     is_text_primitive v = false → is_nullish v = false →
     parse D (DValue v) st = st).
Proof.
  split_and!.
  - intros v nul st Hp Hn Hf. unfold parse at 2 3 4. rewrite Hp.
    split; [|apply parse_primitive_value].
    unfold parse.
    assert (is_text_primitive nul = false) as -> by (by destruct nul).
    by rewrite Hn, parse_primitive_value; simpl; rewrite Hf.
  - intros v nul st Hp Hn Ht. unfold parse at 2 3 4 5. rewrite Hp.
    unfold parse.
    assert (is_text_primitive nul = false) as -> by (by destruct nul).
    by rewrite Hn, parse_primitive_value; simpl; rewrite Ht.
  - intros v st Hp Hn. unfold parse. rewrite Hp. by apply parse_primitive_twice.
  - intros v st Hp Hn. unfold parse. by rewrite Hp, Hn.
Qed.

(** ** Directives *)

Lemma prefix_v_dash key : String.prefix "v-" ("v-" +:+ key) = true.
Proof. simpl. by destruct key. Qed.

Lemma slice2_v_dash key : slice2 ("v-" +:+ key) = key.
Proof. done. Qed.

(** X25. [addDirective] (lines 178 to 184) with [attrParser] and [execDirective]
    (lines 40 to 55 and 67 to 74): a directive that was added under a key is
    the one that an attribute [v-key] calls, with the element; adding under
    the same key again throws and changes nothing; the other keys are as
    before; an attribute [v-key] for a key that was never added throws. *)
Theorem directive_added_is_called key d ds ds' :
  addDirective key d ds = Ok ds' →
  (∀ node, attrParser ds' node ("v-" +:+ key) = Ok (DirectiveCall d node)) ∧
  (∀ d', addDirective key d' ds' = Thrown (Error "directive already exists")) ∧
  (∀ node k, k ≠ key →
     attrParser ds' node ("v-" +:+ k) = attrParser ds node ("v-" +:+ k)) ∧
  (∀ node, attrParser ds node ("v-" +:+ key) = Thrown (Error "")).
Proof.
  unfold addDirective. case_bool_decide as Hd; [done|]. intros E. simplify_eq.
  apply not_elem_of_dom in Hd.
  split_and!.
  - intros node. unfold attrParser. rewrite prefix_v_dash, slice2_v_dash.
    unfold execDirective. by rewrite lookup_insert_eq.
  - intros d'. rewrite bool_decide_eq_true_2; [done|].
    apply elem_of_dom. rewrite lookup_insert_eq. by eexists.
  - intros node k Hk. unfold attrParser. rewrite prefix_v_dash, slice2_v_dash.
    unfold execDirective. by rewrite lookup_insert_ne.
  - intros node. unfold attrParser. rewrite prefix_v_dash, slice2_v_dash.
    unfold execDirective. by rewrite Hd.
Qed.

(** ** The import of [defineElement] *)

Lemma strip_loop_result steps idx l :
  length l - idx ≤ steps →
  strip_loop steps idx l = take idx l ++ strip_result (drop idx l).
Proof.
  revert idx l. induction steps as [|n IH]; intros idx l Hlen.
  - simpl. rewrite drop_ge by lia. rewrite take_ge by lia. by rewrite app_nil_r.
  - simpl. destruct (l !! idx) as [s|] eqn:Hs.
    + pose proof (lookup_lt_Some _ _ _ Hs) as Hlt.
      rewrite (drop_S l s idx Hs). cbn [strip_result].
      destruct (imports_define s) eqn:Hd.
      * rewrite IH by (rewrite length_delete by eauto; lia).
        rewrite delete_take_drop.
        rewrite take_app_ge by (rewrite length_take; lia).
        rewrite drop_app_ge by (rewrite length_take; lia).
        rewrite length_take, Nat.min_l by lia.
        replace (S idx - idx) with 1 by lia.
        rewrite <- app_assoc. f_equal.
        by destruct (drop (S idx) l).
      * rewrite IH by lia. rewrite (take_S_r l idx s Hs). by rewrite <- app_assoc.
    + apply lookup_ge_None in Hs. rewrite drop_ge by lia. rewrite take_ge by lia.
      by rewrite app_nil_r.
Qed.

Lemma strip_define_result l : strip_define l = strip_result l.
Proof. unfold strip_define. rewrite strip_loop_result by lia. done. Qed.

Lemma strip_result_keeps l :
  filter (λ s, imports_define s = false) (strip_result l) =
  filter (λ s, imports_define s = false) l.
Proof.
  remember (length l) as n eqn:Hn. assert (Hle : length l ≤ n) by lia. clear Hn.
  revert l Hle. induction n as [|n IH]; intros l Hle.
  { destruct l; [done|simpl in Hle; lia]. }
  destruct l as [|s l]; [done|]. simpl in Hle. simpl.
  destruct (imports_define s) eqn:Hd.
  - rewrite (filter_cons_False _ s) by (by rewrite Hd).
    destruct l as [|s' l]; [done|]. simpl in Hle.
    rewrite !filter_cons. rewrite (IH l) by lia. done.
  - rewrite !filter_cons_True by done. rewrite (IH l) by lia. done.
Qed.

Lemma no_adjacent_tail s l : no_adjacent (s :: l) → no_adjacent l.
Proof. destruct l; [done|]. by intros [_ ?]. Qed.

Lemma strip_result_no_adjacent l :
  no_adjacent l → strip_result l = filter (λ s, imports_define s = false) l.
Proof.
  remember (length l) as n eqn:Hn. assert (Hle : length l ≤ n) by lia. clear Hn.
  revert l Hle. induction n as [|n IH]; intros l Hle Hna.
  { destruct l; [done|simpl in Hle; lia]. }
  destruct l as [|s l]; [done|]. simpl in Hle.
  simpl. destruct (imports_define s) eqn:Hd.
  - rewrite filter_cons_False by (by rewrite Hd).
    destruct l as [|s' l]; [done|]. simpl in Hle.
    assert (Hd' : imports_define s' = false).
    { destruct Hna as [Hns _]. destruct (imports_define s'); [|done]. by destruct Hns. }
    rewrite filter_cons_True by done. f_equal. apply IH; [lia|].
    by eapply no_adjacent_tail, no_adjacent_tail.
  - rewrite filter_cons_True by done. f_equal. apply IH; [lia|].
    by eapply no_adjacent_tail.
Qed.

(** X26. The loop of the [ImportDeclaration] visitor (lines 111 to 116) removes
    a specifier and then steps over the one that takes its place.  It keeps
    every specifier that does not import [defineElement], in order; it
    removes every specifier that imports [defineElement] when no two of
    them follow each other; of two that follow each other the second one
    stays. *)
Theorem strip_define_steps_over l :
  filter (λ s, imports_define s = false) (strip_define l) =
    filter (λ s, imports_define s = false) l ∧
  (no_adjacent l → strip_define l = filter (λ s, imports_define s = false) l) ∧
  (∀ a b rest, l = a :: b :: rest →
     imports_define a = true → imports_define b = true →
     strip_define l = b :: strip_define rest).
Proof.
  rewrite !strip_define_result. split_and!.
  - apply strip_result_keeps.
  - apply strip_result_no_adjacent.
  - intros a b rest -> Ha Hb. rewrite strip_define_result. simpl. by rewrite Ha.
Qed.

(** ** The further examples *)

(** A MOUNT hook that throws ends [runHooks] one pause deeper. *)
Lemma runHooks_pause_depth_witness :
  instances ex_hooked !! 0 = Some ex_hook_instance ∧
  runHooks (exec 1) 0 MOUNT ex_hooked = (Thrown (UserError 7), pauseTracking ex_hooked) ∧
  paused (pauseTracking ex_hooked) = S (paused ex_hooked) ∧
  track ex_a (pauseTracking ex_hooked) = pauseTracking ex_hooked.
Proof.
  assert (Hi : instances ex_hooked !! 0 = Some ex_hook_instance) by (vm_compute; reflexivity).
  destruct (runHooks_pause_depth 1 0 ex_hook_instance MOUNT ex_hooked Hi) as (_ & H2 & H3).
  assert (Hr : runHooks (exec 1) 0 MOUNT ex_hooked =
               (Thrown (UserError 7), pauseTracking ex_hooked)).
  { apply (H3 (VObj CFunction 3) [VObj CFunction 0]); [reflexivity|reflexivity|].
    vm_compute. reflexivity. }
  destruct (H2 _ _ Hr) as [Hp Ht].
  split_and!; [done|done|done|apply Ht].
Defined.

Lemma reads_and_returns_getter : reads_and_returns ex_hooked (VObj CFunction 0).
Proof.
  exists (λ _, ex_getter), (VNum 1).
  split_and!; [vm_compute; reflexivity|apply reads_only_getter|vm_compute; reflexivity].
Qed.

(** A BEFORE_MOUNT hook that reads [o.a] while the effect of the instance is
    active subscribes nothing. *)
Lemma runHooks_reads_untracked_witness :
  instances ex_hooked !! 0 = Some ex_hook_instance ∧
  activeFx ex_hooked = Some 0 ∧ paused ex_hooked = 0 ∧
  runHooks (exec 1) 0 BEFORE_MOUNT ex_hooked = (Ok VUndef, ex_hooked).
Proof.
  assert (Hi : instances ex_hooked !! 0 = Some ex_hook_instance) by (vm_compute; reflexivity).
  split_and!; [done|reflexivity|reflexivity|].
  apply (runHooks_reads_untracked 0 0 ex_hook_instance BEFORE_MOUNT ex_hooked Hi).
  apply Forall_cons. split; [apply reads_and_returns_getter|apply Forall_nil_2].
Defined.

(** A setup function that returns 3. *)
Lemma setup_returns_witness :
  instances ex_element !! 0 = Some ex_hook_instance ∧
  exec 1 (i_setup ex_hook_instance) (pauseTracking ex_element) =
    (Ok (VNum 3), pauseTracking ex_element) ∧
  ∃ s2, setup (exec 1) 0 ex_element =
          (Thrown (KireiError "Setup must return a function that returns a TemplateResult"
                     "ExHooks#setup"), s2) ∧
        paused s2 = 0 ∧ activeInstance s2 = None.
Proof.
  assert (Hi : instances ex_element !! 0 = Some ex_hook_instance) by (vm_compute; reflexivity).
  assert (Hx : exec 1 (i_setup ex_hook_instance) (pauseTracking ex_element) =
               (Ok (VNum 3), pauseTracking ex_element)) by reflexivity.
  destruct (setup_returns 1 0 ex_hook_instance (VNum 3) ex_element _ Hi Hx)
    as (s2 & inst' & H1 & H2 & H3 & _).
  split_and!; [done|done|]. exists s2. split_and!; done.
Defined.

Lemma quiet_nobody s sl : dep_of s sl = [] → quiet s sl.
Proof. intros Hd e f Hin. rewrite Hd in Hin. by apply elem_of_nil in Hin. Qed.

(** The prop [n] of the example instance, assigned 2 and read back. *)
Lemma prop_set_then_get_witness :
  instances ex_setup_throws !! 0 = Some (ex_instance (Throw (UserError 1)) VUndef) ∧
  strict_eq (VNum 2) (heap_get ex_setup_throws (TObject 1, "n")) = false ∧
  validateProp ex_host (i_props (ex_instance (Throw (UserError 1)) VUndef)) "n" (VNum 2)
    = Ok (VNum 2) ∧
  quiet ex_setup_throws (TObject 1, "n") ∧
  ∃ s', prop_set ex_host (exec 2) 0 "n" (VNum 2) ex_setup_throws = (Ok VUndef, s') ∧
        prop_get 0 "n" s' = (Ok (VNum 2), track (TObject 1, "n") s') ∧
        prop_set ex_host (exec 2) 0 "n" (VNum 2) s' = (Ok VUndef, s').
Proof.
  assert (Hi : instances ex_setup_throws !! 0 = Some (ex_instance (Throw (UserError 1)) VUndef))
    by (vm_compute; reflexivity).
  assert (Hne : strict_eq (VNum 2) (heap_get ex_setup_throws (TObject 1, "n")) = false)
    by (vm_compute; reflexivity).
  assert (Hv : validateProp ex_host (i_props (ex_instance (Throw (UserError 1)) VUndef)) "n"
                 (VNum 2) = Ok (VNum 2)) by (vm_compute; reflexivity).
  assert (Hq : quiet ex_setup_throws (TObject 1, "n"))
    by (apply quiet_nobody; vm_compute; reflexivity).
  destruct (prop_set_then_get ex_host 2 0 _ "n" (VNum 2) (VNum 2) ex_setup_throws Hi Hne Hv Hq)
    as (s' & H1 & H2 & H3 & _).
  split_and!; [done..|]. exists s'. split_and!; [done|done|]. by apply H3.
Defined.

Lemma is_computed_throwing : is_computed ex_throwing 0 0 (Throw (UserError 7)).
Proof.
  eexists _, _, (VObj CFunction 3), (λ _, Throw (UserError 7)).
  split_and!; [vm_compute; reflexivity|reflexivity|vm_compute; reflexivity|reflexivity..].
Qed.

(** A computed value whose getter throws, read twice. *)
Lemma computed_getter_throw_not_cached_witness :
  is_computed ex_throwing 0 0 (Throw (UserError 7)) ∧
  dirty ex_throwing 0 = true ∧
  ∃ s', read_n (exec 1) 0 2 ex_throwing =
          ([Thrown (UserError 7); Thrown (UserError 7)], s') ∧
        execs 0 s' = 2 + execs 0 ex_throwing ∧ dirty s' 0 = true.
Proof.
  assert (Hd : dirty ex_throwing 0 = true) by (vm_compute; reflexivity).
  destruct (computed_getter_throw_not_cached 0 0 0 _ (UserError 7) ex_throwing
              is_computed_throwing (ro_Throw _) Hd eq_refl 2) as (s' & H1 & H2 & H3 & _).
  split_and!; [apply is_computed_throwing|done|]. exists s'. by split_and!.
Defined.

Lemma quiet_subscribed : 0 ∈ dep_of ex_subscribed ex_a ∧ quiet ex_subscribed ex_a.
Proof.
  assert (Hd : dep_of ex_subscribed ex_a = [0]) by (vm_compute; reflexivity).
  split; [rewrite Hd; apply list_elem_of_here|].
  intros e f Hin Hf _. rewrite Hd in Hin. apply list_elem_of_singleton in Hin as ->.
  vm_compute in Hf. injection Hf as <-. right. by exists 0.
Qed.

(** Two triggers of the pair that the effect of the instance is subscribed
    to queue one update job. *)
Lemma scheduleUpdate_batches_witness :
  serials_fresh ex_subscribed ∧
  Forall (λ sl, 0 ∈ dep_of ex_subscribed sl ∧ quiet ex_subscribed sl) [ex_a; ex_a] ∧
  ∃ s', trigger_all (exec 1) [ex_a; ex_a] ex_subscribed = (Ok VUndef, s') ∧
        render_jobs 0 (queue s') = 1 ∧ rendering s' 0 = true.
Proof.
  assert (Hf : serials_fresh ex_subscribed).
  { intros i n Hin. assert (Hp : pending ex_subscribed = ∅) by reflexivity.
    rewrite Hp in Hin. by apply elem_of_empty in Hin. }
  assert (Hq : Forall (λ sl, 0 ∈ dep_of ex_subscribed sl ∧ quiet ex_subscribed sl) [ex_a; ex_a]).
  { apply Forall_cons. split; [apply quiet_subscribed|].
    apply Forall_cons. split; [apply quiet_subscribed|apply Forall_nil_2]. }
  assert (Hi : instances ex_subscribed !! 0 =
               Some (ex_instance (Ret (VObj CFunction 4)) (VObj CFunction 4)))
    by (vm_compute; reflexivity).
  assert (He : effects ex_subscribed !! 0 = Some (fx_with_deps [ex_a; ex_n] ex_update_fx))
    by (vm_compute; reflexivity).
  destruct (scheduleUpdate_batches (exec 1) 0 _ 0 _ [ex_a; ex_a] ex_subscribed
              Hi eq_refl He eq_refl eq_refl Hf) as (_ & s' & H1 & H2 & H3 & _); [done|done|].
  split_and!; [done|done|]. exists s'. split_and!; done.
Defined.



Lemma wf_element : wf ex_element.
Proof. apply wf_fresh. vm_compute. reflexivity. Qed.

Lemma reads_only_render : reads_only ex_render_reads.
Proof. repeat constructor. Qed.

(** The first update job of the example instance. *)
Lemma render_job_renders_witness :
  wf ex_element ∧ paused ex_element = 0 ∧
  instances ex_element !! 0 = Some ex_hook_instance ∧
  reads_of (heap ex_element) ex_render_reads = [ex_a] ∧
  result_of (heap ex_element) ex_render_reads = Ok (VObj CTemplateResult 0) ∧
  ∃ s' inst',
    render_job (exec 1) 0 ex_element = (Ok VUndef, s') ∧
    trace s' = [EvRender 0; EvExec 0] ∧
    instances s' !! 0 = Some inst' ∧ i_rendering inst' = false ∧ i_mounted inst' = true ∧
    (∀ sl, 0 ∈ dep_of s' sl ↔ sl ∈ [ex_a]).
Proof.
  assert (Hi : instances ex_element !! 0 = Some ex_hook_instance) by (vm_compute; reflexivity).
  assert (He : effects ex_element !! i_fx ex_hook_instance = Some ex_update_fx)
    by (vm_compute; reflexivity).
  assert (Hb : fn_body ex_element (i_renderTemplate ex_hook_instance) = Some (λ _, ex_render_reads))
    by (vm_compute; reflexivity).
  assert (Hv : result_of (heap ex_element) ex_render_reads = Ok (VObj CTemplateResult 0))
    by (vm_compute; reflexivity).
  destruct (render_job_renders 0 0 ex_hook_instance ex_update_fx (λ _, ex_render_reads)
              (VObj CTemplateResult 0) ex_element wf_element eq_refl Hi He eq_refl eq_refl Hb
              reads_only_render Hv eq_refl (Forall_nil_2 _) (Forall_nil_2 _))
    as (s' & inst' & H1 & H2 & H3 & H4 & H5 & _ & H7).
  split_and!; [apply wf_element|done|done|vm_compute; reflexivity|done|].
  exists s', inst'. split_and!; done.
Defined.

(** The first update job of an instance whose render function returns 1. *)
Lemma update_refuses_other_results_witness :
  instances ex_bad_render !! 0 =
    Some (ex_instance (Ret (VObj CFunction 0)) (VObj CFunction 0)) ∧
  result_of (heap ex_bad_render) ex_getter = Ok (VNum 1) ∧
  is_template (VNum 1) = false ∧
  ∃ s', render_job (exec 1) 0 ex_bad_render =
          (Thrown (KireiError "Setup must return a function that returns a TemplateResult"
                     "ExElement#setup"), s') ∧
        trace s' = [EvExec 0].
Proof.
  assert (Hi : instances ex_bad_render !! 0 =
               Some (ex_instance (Ret (VObj CFunction 0)) (VObj CFunction 0)))
    by (vm_compute; reflexivity).
  assert (He : effects ex_bad_render !! 0 = Some ex_update_fx) by (vm_compute; reflexivity).
  assert (Hb : fn_body ex_bad_render (VObj CFunction 0) = Some (λ _, ex_getter))
    by (vm_compute; reflexivity).
  assert (Hv : result_of (heap ex_bad_render) ex_getter = Ok (VNum 1))
    by (vm_compute; reflexivity).
  destruct (update_refuses_other_results 0 0 _ ex_update_fx (λ _, ex_getter) (VNum 1)
              ex_bad_render Hi eq_refl He eq_refl eq_refl Hb reads_only_getter Hv eq_refl)
    as (s' & H1 & H2 & _).
  split_and!; [done|done|done|]. exists s'. split; done.
Defined.

Lemma wf_chain : wf ex_chain.
Proof. apply wf_fresh. vm_compute. reflexivity. Qed.

Lemma is_computed_chain :
  is_computed ex_chain 0 0 ex_getter ∧
  is_computed ex_chain 1 1 (ReadComputed 0 (λ v, Ret v)).
Proof.
  split.
  - eexists _, _, (VObj CFunction 0), (λ _, ex_getter).
    split_and!; [vm_compute; reflexivity|reflexivity|vm_compute; reflexivity|reflexivity..].
  - eexists _, _, (VObj CFunction 5), (λ _, ReadComputed 0 (λ v, Ret v)).
    split_and!; [vm_compute; reflexivity|reflexivity|vm_compute; reflexivity|reflexivity..].
Qed.

(** A computed value over a getter that reads a computed value over
    [() => o.a]. *)
Lemma computed_chain_invalidates_witness :
  wf ex_chain ∧ paused ex_chain = 0 ∧
  is_computed ex_chain 0 0 ex_getter ∧
  is_computed ex_chain 1 1 (ReadComputed 0 (λ v, Ret v)) ∧
  reads_of (heap ex_chain) ex_getter = [ex_a] ∧
  ∃ s1, computed_read (exec 2) 1 ex_chain = (Ok (VNum 1), s1) ∧
        dirty s1 0 = false ∧ dirty s1 1 = false ∧
        0 ∈ dep_of s1 ex_a ∧ 1 ∈ dep_of s1 ex_a.
Proof.
  destruct is_computed_chain as [Hi Ho].
  assert (Hv : result_of (heap ex_chain) ex_getter = Ok (VNum 1)) by (vm_compute; reflexivity).
  assert (Hd0 : dirty ex_chain 0 = true) by (vm_compute; reflexivity).
  assert (Hd1 : dirty ex_chain 1 = true) by (vm_compute; reflexivity).
  destruct (computed_chain_invalidates 0 0 0 ex_getter 1 1 (λ v, Ret v) (VNum 1) (VNum 1)
              ex_chain wf_chain eq_refl Hi reads_only_getter Hv Hd0 Ho (ro_Ret _) eq_refl Hd1)
    as (s1 & H1 & _ & _ & H4 & H5 & _ & _ & H8 & _).
  assert (Hin : ex_a ∈ reads_of (heap ex_chain) ex_getter).
  { vm_compute. apply list_elem_of_here. }
  destruct (H8 ex_a Hin) as [Ha Hb].
  split_and!; [apply wf_chain|done|done|done|vm_compute; reflexivity|].
  exists s1. split_and!; done.
Defined.

(** ** The examples of props *)

Lemma normalizeProps_rejects_untyped_witness :
  ("b", PropBare (TyOne (TyValue VNull))) ∈ ex_props_untyped ∧
  untyped (PropBare (TyOne (TyValue VNull))) ∧
  ∃ msg, normalizeProps ex_props_untyped = Thrown (TypeError msg).
Proof.
  assert (Hin : ("b", PropBare (TyOne (TyValue VNull))) ∈ ex_props_untyped).
  { apply list_elem_of_further, list_elem_of_here. }
  assert (Hu : untyped (PropBare (TyOne (TyValue VNull)))) by (left; reflexivity).
  split_and!; [done|done|].
  apply (normalizeProps_rejects_untyped ex_props_untyped "b" _ Hin Hu).
Defined.

Lemma ex_props_normalized : normalizeProps ex_props = Ok ex_props_out.
Proof. vm_compute. reflexivity. Qed.

Lemma validateProp_normalized_witness :
  normalizeProps ex_props = Ok ex_props_out ∧
  props_model ex_props_out !! "n" = Some ex_number_prop ∧
  validateProp ex_host (props_model ex_props_out) "n" (VNum 5) = Ok (VNum 5) ∧
  (∃ msg, validateProp ex_host (props_model ex_props_out) "n" VUndef = Thrown (Error msg)).
Proof.
  assert (Hk : props_model ex_props_out !! "n" = Some ex_number_prop)
    by (vm_compute; reflexivity).
  destruct (validateProp_normalized ex_props ex_props_out "n" ex_number_prop
              ex_props_normalized Hk) as (_ & _ & Hall).
  split_and!; [apply ex_props_normalized|done| |].
  - destruct (Hall ex_host (VNum 5)) as [[_ E]|[Hn _]]; [done|].
    exfalso. apply Hn. split_and!; [|by intros [_ ?]|done].
    right. exists [CNumber], CNumber. split_and!; [done|apply list_elem_of_here|done].
  - destruct (Hall ex_host VUndef) as [[(_ & Hr & _) _]|[_ E]]; [|done].
    exfalso. apply Hr. by split.
Defined.

Lemma boolean_prop_defaults_true_witness :
  normalizeProps ex_props = Ok ex_props_out ∧
  propDefaults (exec 1) ex_props_out ex_base =
    (Ok [("n", VNum 0); ("flag", VBool true)], ex_base) ∧
  ("flag", PropBare (TyOne (TyCtor CBoolean))) ∈ ex_props ∧
  ("flag", VBool true) ∈ [("n", VNum 0); ("flag", VBool true)].
Proof.
  assert (Hd : propDefaults (exec 1) ex_props_out ex_base =
               (Ok [("n", VNum 0); ("flag", VBool true)], ex_base)) by (vm_compute; reflexivity).
  assert (Hin : ("flag", PropBare (TyOne (TyCtor CBoolean))) ∈ ex_props).
  { apply list_elem_of_further, list_elem_of_here. }
  split_and!; [apply ex_props_normalized|done|done|].
  apply (boolean_prop_defaults_true (exec 1) ex_props ex_props_out _ ex_base ex_base "flag"
           (PropBare (TyOne (TyCtor CBoolean))) ex_props_normalized Hd Hin).
  left. reflexivity.
Defined.

Lemma define_props_checks_witness :
  define_props ex_host "ExElement" (props_model ex_props_out)
    (object_get [("n", VNum 0); ("flag", VBool true)]) ["n"; "flag"] ["title"]
    = Ok ["title"; "n"; "flag"] ∧
  NoDup ["n"; "flag"] ∧
  ∃ p, props_model ex_props_out !! "n" = Some p ∧
       (p_required p = true → object_get [("n", VNum 0); ("flag", VBool true)] "n" ≠ VUndef).
Proof.
  assert (E : define_props ex_host "ExElement" (props_model ex_props_out)
                (object_get [("n", VNum 0); ("flag", VBool true)]) ["n"; "flag"] ["title"]
              = Ok ["title"; "n"; "flag"]) by (vm_compute; reflexivity).
  destruct (define_props_checks _ _ _ _ _ _ _ E) as (_ & _ & Hnd & Hall).
  split_and!; [done|done|]. apply Hall, list_elem_of_here.
Defined.

Lemma required_prop_needs_default_witness :
  normalizeProps [("n", PropObject ex_required)] = Ok [("n", (ex_number_prop, VUndef))] ∧
  propDefaults (exec 1) [("n", (ex_number_prop, VUndef))] ex_base =
    (Ok [("n", VUndef)], ex_base) ∧
  object_get [("n", VUndef)] "n" = VUndef ∧
  ∃ x, define_props ex_host "ExElement" (props_model [("n", (ex_number_prop, VUndef))])
         (object_get [("n", VUndef)]) (map fst [("n", PropObject ex_required)]) [] = Thrown x.
Proof.
  assert (En : normalizeProps [("n", PropObject ex_required)] =
               Ok [("n", (ex_number_prop, VUndef))]) by (vm_compute; reflexivity).
  assert (Ed : propDefaults (exec 1) [("n", (ex_number_prop, VUndef))] ex_base =
               (Ok [("n", VUndef)], ex_base)) by (vm_compute; reflexivity).
  destruct (required_prop_needs_default ex_host (exec 1) "ExElement" _ _ _ ex_base ex_base "n"
              ex_required [] En Ed) as [H1 H2].
  - apply NoDup_singleton.
  - apply list_elem_of_here.
  - reflexivity.
  - reflexivity.
  - intros [H|H]; discriminate H.
  - split_and!; [exact En|exact Ed|exact H1|]. apply H2. exact H1.
Defined.

Lemma attribute_string_needs_String_type_witness :
  instances ex_setup_throws !! 0 = Some (ex_instance (Throw (UserError 1)) VUndef) ∧
  attributeChangedCallback ex_host (exec 1) 0 {[ "n" := "n" ]} "n" VNull (VStr "5")
    ex_setup_throws =
    (Thrown (Error "Type error in prop 'n'."), ex_setup_throws).
Proof.
  assert (Hi : instances ex_setup_throws !! 0 = Some (ex_instance (Throw (UserError 1)) VUndef))
    by (vm_compute; reflexivity).
  split; [done|].
  destruct (attribute_string_needs_String_type ex_host (exec 1) 0 _ {[ "n" := "n" ]} "n" "n"
              {| p_type := Some [CNumber]; p_required := false; p_validator := None;
                 p_cast := false |} [CNumber] VNull "5" ex_setup_throws Hi)
    as (H1 & _).
  - vm_compute. reflexivity.
  - vm_compute. reflexivity.
  - reflexivity.
  - intros H%list_elem_of_singleton. discriminate H.
  - apply H1; [reflexivity|]. vm_compute. discriminate.
Defined.

(** ** The other examples *)

Lemma KireiError_message_full_stop_witness :
  endsWith_dot "Props are not deletable" = false ∧
  KireiError_message "Props are not deletable." (Some "ExElement") None =
    Ok "Props are not deletable in #ExElement.".
Proof.
  destruct (KireiError_message_full_stop "Props are not deletable" "ExElement" None eq_refl)
    as (H1 & H2 & _).
  split; [reflexivity|]. change ("Props are not deletable.") with ("Props are not deletable" +:+ ".").
  rewrite H1. exact H2.
Defined.

Lemma directive_added_is_called_witness :
  addDirective "if" 7 ∅ = Ok (<["if" := 7]> ∅) ∧
  attrParser (<["if" := 7]> ∅) 3 "v-if" = Ok (DirectiveCall 7 3) ∧
  addDirective "if" 8 (<["if" := 7]> ∅) = Thrown (Error "directive already exists").
Proof.
  assert (E : addDirective "if" 7 ∅ = Ok (<["if" := 7]> ∅)) by reflexivity.
  destruct (directive_added_is_called "if" 7 ∅ _ E) as (H1 & H2 & _).
  split_and!; [done|apply (H1 3)|apply H2].
Defined.
